(** * Scatter/assemble choreography of the tree scene

    A shallow embedding of the samplers (utils/math.ts, Foliage.tsx,
    Ornaments.tsx), of the two vertex shaders that blend point clouds
    (Foliage.tsx, SpiralGarland.tsx) and of the host-side construction and
    per-frame update of the instanced ornaments (Ornaments.tsx).

    Numbers are real numbers: a JavaScript [number] or a GLSL [float] is read
    as the real it approximates, so rounding, infinities and NaN are outside
    the model.  [Math.random()] is a sequence of reals that the program reads
    through a cursor; objects of three.js ([Vector3], [Euler]) live in a heap
    of cells addressed by location, so that in-place mutation and sharing are
    visible.

    Part I holds the embedding, Part II the properties. *)

From Stdlib Require Import Reals Lra Lia List String.
From stdpp Require Import base list.
Import ListNotations.
Open Scope R_scope.

(** * Part I: the program *)

(** ** Comparisons on reals as booleans *)

Definition Rltb (a b : R) : bool := if Rlt_dec a b then true else false.

Definition Rleb (a b : R) : bool := if Rle_dec a b then true else false.

(** ** Vectors of three reals: the value held by a [THREE.Vector3], a GLSL
    [vec3], or the three angles of a [THREE.Euler] *)

Module Vector3.

Record t : Type := mk { x : R; y : R; z : R }.

Definition zero : t := mk 0 0 0.

Definition add (a b : t) : t := mk (x a + x b) (y a + y b) (z a + z b).

Definition scale (a : t) (k : R) : t := mk (x a * k) (y a * k) (z a * k).

Definition lengthSq (a : t) : R := x a * x a + y a * y a + z a * z a.

Definition length (a : t) : R := sqrt (lengthSq a).

(** three.js [Vector3.lerp(v, alpha)]:
    [this.x += (v.x - this.x) * alpha] and likewise for y and z. *)
Definition lerp (this v : t) (alpha : R) : t :=
  mk (x this + (x v - x this) * alpha)
     (y this + (y v - y this) * alpha)
     (z this + (z v - z this) * alpha).

(** three.js [Vector3.distanceTo(v)]: the square root of the sum of the
    squared coordinate differences. *)
Definition distanceTo (this v : t) : R :=
  sqrt ((x this - x v) * (x this - x v)
        + (y this - y v) * (y this - y v)
        + (z this - z v) * (z this - z v)).

End Vector3.

Definition vec3 : Type := Vector3.t.

(** ** Built-in functions of the shading language *)

Module GLSL.

(** [clamp(x, lo, hi) = min(max(x, lo), hi)]. *)
Definition clamp (x lo hi : R) : R := Rmin (Rmax x lo) hi.

(** [mix(a, b, t) = a * (1 - t) + b * t], component-wise on vectors. *)
Definition mix1 (a b t : R) : R := a * (1 - t) + b * t.

Definition mix (a b : vec3) (t : R) : vec3 :=
  Vector3.mk (mix1 (Vector3.x a) (Vector3.x b) t)
             (mix1 (Vector3.y a) (Vector3.y b) t)
             (mix1 (Vector3.z a) (Vector3.z b) t).

(** [pow(x, y)] for a base [x >= 0] and an exponent [y > 0], the only way
    the shaders call it; [pow(0, y) = 0]. The value at a negative base is
    undefined in the shading language and is 0 here. *)
Definition pow (x y : R) : R := if Rlt_dec 0 x then Rpower x y else 0.

(** [normalize(v) = v / length(v)]; undefined at the zero vector in the
    shading language, and the zero vector here because [/ 0 = 0]. *)
Definition normalize (v : vec3) : vec3 := Vector3.scale v (/ Vector3.length v).

(** [smoothstep(edge0, edge1, x)]: with
    [t = clamp((x - edge0) / (edge1 - edge0), 0.0, 1.0)], the value
    [t * t * (3.0 - 2.0 * t)]. *)
Definition smoothstep (edge0 edge1 x : R) : R :=
  let t := clamp ((x - edge0) / (edge1 - edge0)) 0.0 1.0 in
  t * t * (3.0 - 2.0 * t).

(** [floor(x)], the largest integer not above [x]. *)
Definition floor (x : R) : R := IZR (Int_part x).

(** [mod(x, y) = x - y * floor(x / y)]. *)
Definition mod_ (x y : R) : R := x - y * floor (x / y).

(** [length(v)] of a [vec2] with components [a] and [b]. *)
Definition length2 (a b : R) : R := sqrt (a * a + b * b).

End GLSL.

(** ** Functions of JavaScript's [Math] and of [THREE.MathUtils] *)

Module JSMath.

(** [Math.pow(x, y)] for a base [x >= 0] and an exponent [y > 0], which is
    how the samplers call it (the base is a value of [Math.random()]);
    [Math.pow(0, y) = 0]. Negative bases are outside the model. *)
Definition pow (x y : R) : R := if Rlt_dec 0 x then Rpower x y else 0.

(** [Math.cbrt(x)], the real cube root, odd in [x]. *)
Definition cbrt (x : R) : R :=
  if Rlt_dec 0 x then Rpower x (/ 3)
  else if Rlt_dec x 0 then - Rpower (- x) (/ 3)
  else 0.

(** [THREE.MathUtils.clamp(value, min, max)
      = Math.max(min, Math.min(max, value))]. *)
Definition clamp (value lo hi : R) : R := Rmax lo (Rmin hi value).

(** [THREE.MathUtils.lerp(x, y, t) = (1 - t) * x + t * y]. *)
Definition lerp (x y t : R) : R := (1 - t) * x + t * y.

End JSMath.

(** ** The vertex shaders of the two point clouds

    Both shaders ease the family progress [uProgress], delay it per
    particle by the attribute [aRandom] (the element's phase), blend the two
    endpoint positions, and then add motion that depends on the clock
    [uTime]. [foliagePos] and [spiralPos] return the vertex position [pos]
    as it is handed to the model-view matrix. *)

Module Shader.

(** [x < 0.5 ? 4.0 * x * x * x : 1.0 - pow(-2.0 * x + 2.0, 3.0) / 2.0] *)
Definition easeInOutCubic (x : R) : R :=
  if Rlt_dec x 0.5 then 4.0 * x * x * x
  else 1.0 - GLSL.pow (-2.0 * x + 2.0) 3.0 / 2.0.

(** *** Foliage.tsx, [vertexShader] *)

Definition foliageDelayedT (uProgress aRandom : R) : R :=
  let t := easeInOutCubic uProgress in
  GLSL.clamp (t * 1.2 - (aRandom * 0.2)) 0.0 1.0.

Definition foliageBlend (uProgress : R) (aScatterPos aTreePos : vec3)
    (aRandom : R) : vec3 :=
  GLSL.mix aScatterPos aTreePos (foliageDelayedT uProgress aRandom).

Definition foliageBreath (uTime aRandom : R) : R :=
  sin (uTime * 1.5 + aRandom * 10.0) * 0.03.

Definition foliagePos (uTime uProgress : R) (aScatterPos aTreePos : vec3)
    (aRandom : R) : vec3 :=
  let pos := foliageBlend uProgress aScatterPos aTreePos aRandom in
  (* Breathing effect *)
  let breath := foliageBreath uTime aRandom in
  let pos :=
    Vector3.add pos
      (Vector3.scale (Vector3.scale (GLSL.normalize pos) breath)
                     (0.5 + 0.5 * uProgress)) in
  if Rlt_dec uProgress 0.9 then
    let px := Vector3.x pos
              + sin (uTime * 0.5 + Vector3.y pos) * 0.2 * (1.0 - uProgress) in
    let py := Vector3.y pos
              + cos (uTime * 0.3 + px) * 0.2 * (1.0 - uProgress) in
    Vector3.mk px py (Vector3.z pos)
  else pos.

(** The rest of [main]: sparkle, point size, colour and alpha. [mvZ] stands
    for [mvPosition.z], the depth of the vertex in view space, which the
    model-view matrix of the host determines. *)

Definition foliageSparkleCycle (uTime aRandom : R) : R :=
  sin (uTime * 5.0 + aRandom * 50.0).

Definition foliageIsSparkle (uTime aRandom : R) : R :=
  GLSL.smoothstep 0.992 1.0 (sin (uTime * 3.0 + aRandom * 100.0)).

Definition foliageSparkleIntensity (uTime uProgress aRandom : R) : R :=
  let isSparkle := foliageIsSparkle uTime aRandom in
  let stateMultiplier := 0.3 + 0.7 * uProgress in
  isSparkle * stateMultiplier.

Definition foliageBaseSize (uTime uProgress aRandom aSize : R) : R :=
  let sparkleIntensity := foliageSparkleIntensity uTime uProgress aRandom in
  let baseSize := aSize * 0.6 in
  if Rlt_dec 0.1 sparkleIntensity then baseSize * 0.6 else baseSize.

Definition foliagePointSize (uTime uProgress uPixelRatio aRandom aSize mvZ : R)
    : R :=
  foliageBaseSize uTime uProgress aRandom aSize * uPixelRatio * (200.0 / - mvZ).

Definition deepPine : vec3 := Vector3.mk 0.005 0.02 0.01.

Definition pineTip : vec3 := Vector3.mk 0.02 0.15 0.06.

Definition diamondGold : vec3 := Vector3.mk 1.0 0.95 0.8.

Definition foliageColorMix (uTime : R) (aTreePos : vec3) (aRandom : R) : R :=
  let breath := foliageBreath uTime aRandom in
  let heightMix := (Vector3.y aTreePos + 5.0) / 10.0 in
  heightMix * 0.8 + breath.

Definition foliageBaseColor (uTime : R) (aTreePos : vec3) (aRandom : R) : vec3 :=
  GLSL.mix deepPine pineTip (foliageColorMix uTime aTreePos aRandom).

Definition foliageColor (uTime uProgress : R) (aTreePos : vec3) (aRandom : R)
    : vec3 :=
  GLSL.mix (foliageBaseColor uTime aTreePos aRandom) diamondGold
           (foliageSparkleIntensity uTime uProgress aRandom).

Definition foliageAlpha (uTime uProgress aRandom : R) : R :=
  let sparkleCycle := foliageSparkleCycle uTime aRandom in
  let sparkleIntensity := foliageSparkleIntensity uTime uProgress aRandom in
  let baseAlpha := 0.7 + 0.15 * sparkleCycle in
  let transparencyFade := 0.6 + 0.4 * uProgress in
  (baseAlpha * transparencyFade) + (sparkleIntensity * 0.8).

(** *** Fragment shaders

    A fragment is discarded ([None]) or gets a colour and an alpha.
    [gl_PointCoord] is the position of the fragment in the point sprite. *)

Record Fragment : Type := mkFragment { fragColor : vec3; fragAlpha : R }.

(** [length(gl_PointCoord - 0.5)] *)
Definition pointDist (gl_PointCoord : R * R) : R :=
  GLSL.length2 (fst gl_PointCoord - 0.5) (snd gl_PointCoord - 0.5).

(** Foliage.tsx, [fragmentShader] *)
Definition foliageFragment (gl_PointCoord : R * R) (vAlpha : R) (vColor : vec3)
    (vSparkle : R) : option Fragment :=
  let dist := pointDist gl_PointCoord in
  if Rlt_dec 0.5 dist then None
  else
    let glow := 1.0 - GLSL.smoothstep 0.3 0.5 dist in
    let finalColor :=
      if Rlt_dec 0.1 vSparkle then
        let core := 1.0 - GLSL.smoothstep 0.0 0.1 dist in
        Vector3.add vColor
          (Vector3.scale (Vector3.scale (Vector3.mk 1.0 1.0 1.0) core) 2.0)
      else vColor in
    Some (mkFragment finalColor (vAlpha * glow)).

(** *** SpiralGarland.tsx, [spiralVertexShader] *)

Definition spiralDelayedT (uProgress aRandom : R) : R :=
  let t := easeInOutCubic uProgress in
  GLSL.clamp (t * 1.5 - (aRandom * 0.5)) 0.0 1.0.

Definition spiralBlend (uProgress : R) (aScatterPos aTreePos : vec3)
    (aRandom : R) : vec3 :=
  GLSL.mix aScatterPos aTreePos (spiralDelayedT uProgress aRandom).

Definition spiralPos (uTime uProgress : R) (aScatterPos aTreePos : vec3)
    (aRandom : R) : vec3 :=
  let pos := spiralBlend uProgress aScatterPos aTreePos aRandom in
  (* organic movement when scattered *)
  if Rlt_dec uProgress 0.95 then
    Vector3.mk (Vector3.x pos)
               (Vector3.y pos
                + sin (uTime + aRandom * 10.0) * 0.1 * (1.0 - uProgress))
               (Vector3.z pos)
  else pos.

(** [vAlpha = 0.4 + 0.6 * uProgress] *)
Definition spiralAlpha (uProgress : R) : R := 0.4 + 0.6 * uProgress.

Definition spiralPointSize (uPixelRatio aSize mvZ : R) : R :=
  aSize * uPixelRatio * (100.0 / - mvZ).

(** SpiralGarland.tsx, [spiralFragmentShader] *)
Definition spiralFragment (gl_PointCoord : R * R) (vAlpha : R) (vColor : vec3)
    : option Fragment :=
  let dist := pointDist gl_PointCoord in
  if Rlt_dec 0.5 dist then None
  else
    let glow := 1.0 - GLSL.smoothstep 0.1 0.5 dist in
    Some (mkFragment vColor (vAlpha * glow)).

(** *** Snow.tsx, [snowVertexShader] and [snowFragmentShader] *)

Definition snowPos (uTime uHeight uSpeed : R) (position : vec3) (aRandom : R)
    : vec3 :=
  (* Falling logic *)
  let fallOffset := uTime * uSpeed * (0.5 + aRandom) in
  let py := GLSL.mod_ (Vector3.y position - fallOffset) uHeight
            - (uHeight * 0.5) in
  (* Gentle swaying logic *)
  let px := Vector3.x position + sin (uTime * 0.5 + aRandom * 10.0) * 0.5 in
  let pz := Vector3.z position + cos (uTime * 0.3 + aRandom * 10.0) * 0.5 in
  Vector3.mk px py pz.

Definition snowPointSize (aSize mvZ : R) : R := aSize * (100.0 / - mvZ).

Definition snowFragment (gl_PointCoord : R * R) (uOpacity : R)
    : option Fragment :=
  let dist := pointDist gl_PointCoord in
  if Rlt_dec 0.5 dist then None
  else
    let alpha := (1.0 - GLSL.smoothstep 0.3 0.5 dist) * uOpacity in
    Some (mkFragment (Vector3.mk 1.0 1.0 1.0) alpha).

(** *** AmbientSparkles.tsx, [sparkleVertexShader] and
    [sparkleFragmentShader] *)

Definition sparklePos (uTime : R) (position : vec3) (aRandom : R) : vec3 :=
  (* Gentle floating movement *)
  let time := uTime * 0.2 in
  let px := Vector3.x position + sin (time + aRandom * 100.0) * 1.0 in
  let py := Vector3.y position + cos (time * 0.8 + aRandom * 50.0) * 0.5 in
  let pz := Vector3.z position + sin (time * 0.5 + aRandom * 20.0) * 1.0 in
  Vector3.mk px py pz.

Definition sparklePointSize (uPixelRatio aSize mvZ : R) : R :=
  aSize * uPixelRatio * (120.0 / - mvZ).

Definition sparkleFragment (gl_PointCoord : R * R) (uOpacity : R)
    : option Fragment :=
  let dist := pointDist gl_PointCoord in
  if Rlt_dec 0.5 dist then None
  else
    let glow := 1.0 - GLSL.smoothstep 0.0 0.5 dist in
    (* Golden color *)
    let color := Vector3.mk 1.0 0.85 0.4 in
    Some (mkFragment color (glow * uOpacity)).

End Shader.

(** ** The progress controller

    Each point cloud keeps its progress in the uniform [uProgress] and, once
    per frame, calls [easing.damp(uniform, 'value', targetProgress,
    smoothTime, delta)], which overwrites [uniform.value]. *)

Inductive TreeState : Type := SCATTERED | TREE_SHAPE.

Definition isTreeShape (treeState : TreeState) : bool :=
  match treeState with TREE_SHAPE => true | SCATTERED => false end.

Module Easing.

(** Modelled from the spec: [easing.damp] belongs to the package [maath],
    which the components import and which is not part of the sources.
    The specification gives the update it performs as
    [progress <- target - (target - progress) * exp(-delta / tau)],
    with [tau] the time constant passed as [smoothTime]. The function
    returns the new content of the damped property. *)
Definition damp (current target smoothTime delta : R) : R :=
  target - (target - current) * exp (- delta / smoothTime).

End Easing.

Module Progress.

Record Uniforms : Type := mkUniforms { uTime : R; uProgress : R }.

(** [treeState === TreeState.TREE_SHAPE ? 1.0 : 0.0] *)
Definition targetProgress (treeState : TreeState) : R :=
  if isTreeShape treeState then 1.0 else 0.0.

(** Foliage.tsx, [useFrame]: nothing happens while [shaderRef.current] is
    not set ([mounted = false]). *)
Definition foliageFrame (mounted : bool) (treeState : TreeState)
    (elapsedTime delta : R) (u : Uniforms) : Uniforms :=
  if mounted then
    mkUniforms elapsedTime
      (Easing.damp (uProgress u) (targetProgress treeState) 1.5 delta)
  else u.

(** SpiralGarland.tsx, [useFrame]. *)
Definition garlandFrame (mounted : bool) (treeState : TreeState)
    (elapsedTime delta : R) (u : Uniforms) : Uniforms :=
  if mounted then
    mkUniforms elapsedTime
      (Easing.damp (uProgress u) (targetProgress treeState) 1.2 delta)
  else u.

End Progress.

(** ** The world of the host program

    [randoms] is the sequence of values that [Math.random()] returns and
    [cursor] the number of values read so far. [heap] holds the [Vector3]
    and [Euler] objects created so far; a location is an index into it, and
    [new] appends. [sphereCalls] is a trace, not program data: the radius of
    every call of [getRandomSpherePoint], oldest first; it is there to count
    sampler calls. *)

Definition loc : Type := nat.

Record World : Type := mkWorld {
  randoms : nat -> R;
  cursor : nat;
  heap : list vec3;
  sphereCalls : list R
}.

Definition M (A : Type) : Type := World -> A * World.

Definition ret {A : Type} (a : A) : M A := fun w => (a, w).

Definition bind {A B : Type} (c : M A) (k : A -> M B) : M B :=
  fun w => let (a, w') := c w in k a w'.

Notation "x <- c ;; k" := (bind c (fun x => k))
  (at level 100, c at next level, right associativity).

Notation "c ;;; k" := (bind c (fun _ => k))
  (at level 100, right associativity).

(** [Math.random()] *)
Definition random : M R :=
  fun w => (randoms w (cursor w),
            mkWorld (randoms w) (S (cursor w)) (heap w) (sphereCalls w)).

(** The value an object holds; every location the program holds was
    returned by [new], so the default is never read. *)
Definition deref (h : list vec3) (l : loc) : vec3 :=
  default Vector3.zero (h !! l).

(** [new THREE.Vector3(x, y, z)], [new THREE.Euler(x, y, z)] *)
Definition new (v : vec3) : M loc :=
  fun w => (length (heap w),
            mkWorld (randoms w) (cursor w) (heap w ++ [v]) (sphereCalls w)).

Definition get (l : loc) : M vec3 := fun w => (deref (heap w) l, w).

Definition set (l : loc) (v : vec3) : M unit :=
  fun w => (tt, mkWorld (randoms w) (cursor w) (<[l:=v]> (heap w))
                        (sphereCalls w)).

(** [v.clone()] *)
Definition clone (l : loc) : M loc := v <- get l ;; new v.

(** [this.copy(v)] *)
Definition copy (this v : loc) : M unit := a <- get v ;; set this a.

Definition traceSphereCall (radius : R) : M unit :=
  fun w => (tt, mkWorld (randoms w) (cursor w) (heap w)
                        (sphereCalls w ++ [radius])).

(** [data.forEach((d, i) => body)], counting from index [i]. *)
Fixpoint forEachFrom {A B : Type} (body : A -> nat -> M B) (data : list A)
    (i : nat) : M (list B) :=
  match data with
  | [] => ret []
  | d :: rest =>
      b <- body d i ;;
      bs <- forEachFrom body rest (S i) ;;
      ret (b :: bs)
  end.

Definition forEach {A B : Type} (body : A -> nat -> M B) (data : list A)
    : M (list B) :=
  forEachFrom body data 0.

(** [for (let i = start; i < start + n; i++) { ... }], threading the state
    [s] that the body updates. *)
Fixpoint forRange {St : Type} (n : nat) (i : nat) (body : nat -> St -> M St)
    (s : St) : M St :=
  match n with
  | O => ret s
  | S n' => s' <- body i s ;; forRange n' (S i) body s'
  end.

(** ** Typed arrays

    [new Float32Array(n)] holds [n] zeros; a store beyond the length is
    ignored, as typed arrays do. The numbers stored are the reals
    themselves: the rounding to single precision is outside the model. *)

Definition Float32Array : Type := list R.

Definition newFloat32Array (n : nat) : Float32Array := replicate n 0.

(** [a[i] = v] *)
Definition store (a : Float32Array) (i : nat) (v : R) : Float32Array :=
  <[i:=v]> a.

(** [a[i * 3] = v.x; a[i * 3 + 1] = v.y; a[i * 3 + 2] = v.z] *)
Definition storeVec (a : Float32Array) (i : nat) (v : vec3) : Float32Array :=
  store (store (store a (i * 3) (Vector3.x v)) (i * 3 + 1) (Vector3.y v))
        (i * 3 + 2) (Vector3.z v).

(** ** Samplers

    Each sampler is split into the arithmetic on the values drawn, which is
    a function of those values, and the program that draws them in the
    order of the source and allocates the resulting vector. *)

Module Sampler.

(** utils/math.ts, [getRandomSpherePoint]; [u], [v], [w] are the three
    values of [Math.random()] in the order they are drawn. *)
Definition spherePoint (radius u v w : R) : vec3 :=
  let theta := 2 * PI * u in
  let phi := acos (2 * v - 1) in
  let r := JSMath.cbrt w * radius in
  let sinPhi := sin phi in
  Vector3.mk (r * sinPhi * cos theta)
             (r * sinPhi * sin theta)
             (r * cos phi).

Definition getRandomSpherePoint (radius : R) : M loc :=
  traceSphereCall radius ;;;
  u <- random ;;
  v <- random ;;
  w <- random ;;
  new (spherePoint radius u v w).

(** utils/math.ts, [getConePoint]: a point near the surface of a cone. *)
Definition conePoint (height baseRadius yOffset r0 r1 r2 : R) : vec3 :=
  let y := (r0 * height) - (height / 2) + yOffset in
  let relativeHeight := (y - yOffset + height / 2) / height in
  let radiusAtHeight := baseRadius * (1 - relativeHeight) in
  let theta := r1 * PI * 2 in
  (* some volume thickness *)
  let r := radiusAtHeight * (0.8 + r2 * 0.2) in
  let x := r * cos theta in
  let z := r * sin theta in
  Vector3.mk x y z.

Definition getConePoint (height baseRadius yOffset : R) : M loc :=
  r0 <- random ;;
  r1 <- random ;;
  r2 <- random ;;
  new (conePoint height baseRadius yOffset r0 r1 r2).

(** Foliage.tsx, [getWeightedFoliagePoint] *)
Definition weightedFoliagePoint (height baseRadius yOffset r u1 u2 : R) : vec3 :=
  let bias := JSMath.pow r 6.0 in
  let y := yOffset - (height / 2) + (bias * height) in
  let relativeHeight := (y - yOffset + height / 2) / height in
  let radiusAtHeight := baseRadius * (1 - relativeHeight) in
  let theta := u1 * PI * 2 in
  let rRad := radiusAtHeight * (0.8 + u2 * 0.3) in
  Vector3.mk (rRad * cos theta) y (rRad * sin theta).

Definition getWeightedFoliagePoint (height baseRadius yOffset : R) : M loc :=
  r <- random ;;
  u1 <- random ;;
  u2 <- random ;;
  new (weightedFoliagePoint height baseRadius yOffset r u1 u2).

(** Ornaments.tsx, [getGiftBoxPoint] *)
Definition giftBoxPoint (height baseRadius yOffset r u1 u2 : R) : vec3 :=
  let bias := JSMath.pow r 2.8 in
  let maxRelativeHeight := 0.6 in
  let y := yOffset - (height / 2) + (bias * height * maxRelativeHeight) in
  let relativeHeight := (y - yOffset + height / 2) / height in
  let radiusAtHeight := baseRadius * (1 - relativeHeight) in
  let theta := u1 * PI * 2 in
  let dist := radiusAtHeight * (0.5 + u2 * 0.7) in
  Vector3.mk (dist * cos theta) y (dist * sin theta).

Definition getGiftBoxPoint (height baseRadius yOffset : R) : M loc :=
  r <- random ;;
  u1 <- random ;;
  u2 <- random ;;
  new (giftBoxPoint height baseRadius yOffset r u1 u2).

(** Ornaments.tsx, [getSpiralPoint] *)
Definition spiralRelativeHeight (t : R) : R :=
  let biasedT := JSMath.pow t 1.5 in
  let maxH := 0.85 in
  biasedT * maxH.

Definition spiralPoint (height baseRadius yOffset phase t u1 u2 : R) : vec3 :=
  let relativeHeight := spiralRelativeHeight t in
  let y := yOffset - (height / 2) + (relativeHeight * height) in
  let radiusAtHeight := baseRadius * (1 - relativeHeight) in
  let turns := 3.5 in
  let baseTheta := relativeHeight * PI * 2 * turns + phase in
  let noiseSpread := 0.6 in
  let theta := baseTheta + (u1 - 0.5) * noiseSpread in
  let r := radiusAtHeight * (0.95 + u2 * 0.15) in
  Vector3.mk (r * cos theta) y (r * sin theta).

Definition getSpiralPoint (height baseRadius yOffset phase : R) : M loc :=
  t <- random ;;
  u1 <- random ;;
  u2 <- random ;;
  new (spiralPoint height baseRadius yOffset phase t u1 u2).

(** Ornaments.tsx, [getTinyBaublePoint] *)
Definition tinyBaublePoint (height baseRadius yOffset r u1 u2 : R) : vec3 :=
  let bias := JSMath.pow r 2.5 in
  let maxRelativeHeight := 0.9 in
  let y := yOffset - (height / 2) + (bias * height * maxRelativeHeight) in
  let relativeHeight := (y - yOffset + height / 2) / height in
  let radiusAtHeight := baseRadius * (1 - relativeHeight) in
  let theta := u1 * PI * 2 in
  let rad := radiusAtHeight * (0.9 + u2 * 0.15) in
  Vector3.mk (rad * cos theta) y (rad * sin theta).

Definition getTinyBaublePoint (height baseRadius yOffset : R) : M loc :=
  r <- random ;;
  u1 <- random ;;
  u2 <- random ;;
  new (tinyBaublePoint height baseRadius yOffset r u1 u2).

(** The relative height [(y - yOffset + height / 2) / height] of a point. *)
Definition relativeHeightOf (height yOffset : R) (p : vec3) : R :=
  (Vector3.y p - yOffset + height / 2) / height.

End Sampler.

(** ** Foliage.tsx, the buffers of [Foliage] *)

Module Foliage.

Record Buffers : Type := mkBuffers {
  positions : Float32Array;
  scatterPositions : Float32Array;
  treePositions : Float32Array;
  randoms : Float32Array;
  sizes : Float32Array
}.

(** One round of the loop of [useMemo]. *)
Definition fill (i : nat) (b : Buffers) : M Buffers :=
  (* custom weighted distribution for foliage *)
  tPos <- Sampler.getWeightedFoliagePoint 12 4.5 (-1) ;;
  tPos <- get tPos ;;
  let tree := storeVec (treePositions b) i tPos in
  sPos <- Sampler.getRandomSpherePoint 18 ;;
  sPos <- get sPos ;;
  let scatter := storeVec (scatterPositions b) i sPos in
  let pos := storeVec (positions b) i sPos in
  r <- random ;;
  let rnd := store (randoms b) i r in
  c <- random ;;
  k <- random ;;
  let sz := store (sizes b) i
              (if Rltb c 0.8 then 0.5 + k * 0.3 else 1.0 + k * 0.5) in
  ret (mkBuffers pos scatter tree rnd sz).

Definition build (count : nat) : M Buffers :=
  let pos := newFloat32Array (count * 3) in
  let scatter := newFloat32Array (count * 3) in
  let tree := newFloat32Array (count * 3) in
  let rnd := newFloat32Array count in
  let sz := newFloat32Array count in
  forRange count 0 fill (mkBuffers pos scatter tree rnd sz).

End Foliage.

(** ** SpiralGarland.tsx, the curve and the buffers of [SpiralGarland] *)

Module SpiralGarland.

Definition yStart : R := -5.0.

Definition yEnd : R := 5.0.

Definition turns : R := 3.5.

Definition curveSteps : nat := 150.

(** The control point pushed at round [i] of
    [for (let i = 0; i <= curveSteps; i++)]. *)
Definition curvePoint (i : nat) : vec3 :=
  let t := INR i / INR curveSteps in
  let y := JSMath.lerp yStart yEnd t in
  let relativeH := (y - yStart) / (yEnd - yStart) in
  let radius := (5.5 * (1 - relativeH)) + 0.6 in
  let angle := t * PI * 2 * turns in
  let x := cos angle * radius in
  let z := sin angle * radius in
  Vector3.mk x y z.

Definition points : list vec3 := map curvePoint (seq 0 (curveSteps + 1)).

Definition wireCount : nat := 3500.

Definition bulbCount : nat := 600.

Record Buffers : Type := mkBuffers {
  positions : Float32Array;
  scatterPositions : Float32Array;
  treePositions : Float32Array;
  sizes : Float32Array;
  randoms : Float32Array;
  colors : Float32Array
}.

Section Curve.

(** [new THREE.CatmullRomCurve3(points)] and its method [getPointAt]
    belong to three.js: [getPointAt points t] stands for the point of the
    curve through [points] at the parameter [t]. *)
Variable getPointAt : list vec3 -> R -> vec3.

(** One round of the loop that fills the wire particles; [wireCount] is
    the bound of the loop. *)
Definition fillWire (wireCount : nat) (i : nat) (b : Buffers) : M Buffers :=
  let t := INR i / INR wireCount in
  let pt := getPointAt points t in
  (* Tree Position: Exact curve *)
  let tree := storeVec (treePositions b) i pt in
  (* Scatter Position: Random *)
  sPos <- Sampler.getRandomSpherePoint 18 ;;
  sPos <- get sPos ;;
  let scatter := storeVec (scatterPositions b) i sPos in
  (* Initial Pos *)
  let pos := storeVec (positions b) i sPos in
  let sz := store (sizes b) i 0.3 in
  let col := storeVec (colors b) i (Vector3.mk 1.3 0.95 0.4) in
  r <- random ;;
  let rnd := store (randoms b) i r in
  ret (mkBuffers pos scatter tree sz rnd col).

(** One round of the loop that fills the bulb particles. *)
Definition fillBulb (i : nat) (b : Buffers) : M Buffers :=
  t <- random ;;
  let pt := getPointAt points t in
  let jitter := 0.35 in
  (* Tree Position: Near curve *)
  jx <- random ;;
  jy <- random ;;
  jz <- random ;;
  let tree := storeVec (treePositions b) i
                (Vector3.mk (Vector3.x pt + (jx - 0.5) * jitter)
                            (Vector3.y pt + (jy - 0.5) * jitter)
                            (Vector3.z pt + (jz - 0.5) * jitter)) in
  (* Scatter Position *)
  sPos <- Sampler.getRandomSpherePoint 20 ;;
  sPos <- get sPos ;;
  let scatter := storeVec (scatterPositions b) i sPos in
  (* Initial Pos *)
  let pos := storeVec (positions b) i sPos in
  s <- random ;;
  let sz := store (sizes b) i (0.5 + s * 0.4) in
  let col := storeVec (colors b) i (Vector3.mk 2.0 1.7 0.8) in
  r <- random ;;
  let rnd := store (randoms b) i r in
  ret (mkBuffers pos scatter tree sz rnd col).

(** The [useMemo] for given numbers of wire and bulb particles. *)
Definition buildWith (wireCount bulbCount : nat) : M Buffers :=
  let totalCount := (wireCount + bulbCount)%nat in
  let pos := newFloat32Array (totalCount * 3) in
  let scatter := newFloat32Array (totalCount * 3) in
  let tree := newFloat32Array (totalCount * 3) in
  let sz := newFloat32Array totalCount in
  let rnd := newFloat32Array totalCount in
  let col := newFloat32Array (totalCount * 3) in
  b <- forRange wireCount 0 (fillWire wireCount)
         (mkBuffers pos scatter tree sz rnd col) ;;
  forRange bulbCount wireCount fillBulb b.

Definition build : M Buffers := buildWith wireCount bulbCount.

End Curve.

End SpiralGarland.

(** ** Snow.tsx, the buffers of [Snow] *)

Module Snow.

Definition count : nat := 300.

Definition height : R := 25.

Record Buffers : Type := mkBuffers {
  positions : Float32Array;
  randoms : Float32Array;
  sizes : Float32Array
}.

Definition fill (i : nat) (b : Buffers) : M Buffers :=
  x <- random ;;
  y <- random ;;
  z <- random ;;
  let pos := storeVec (positions b) i
               (Vector3.mk ((x - 0.5) * 25) ((y - 0.5) * height)
                           ((z - 0.5) * 25)) in
  r <- random ;;
  let rnd := store (randoms b) i r in
  s <- random ;;
  let sz := store (sizes b) i (0.5 + s) in
  ret (mkBuffers pos rnd sz).

Definition buildWith (count : nat) : M Buffers :=
  let pos := newFloat32Array (count * 3) in
  let rnd := newFloat32Array count in
  let sz := newFloat32Array count in
  forRange count 0 fill (mkBuffers pos rnd sz).

Definition build : M Buffers := buildWith count.

End Snow.

(** ** AmbientSparkles.tsx, the buffers of [AmbientSparkles] *)

Module AmbientSparkles.

Definition count : nat := 400.

Record Buffers : Type := mkBuffers {
  positions : Float32Array;
  randoms : Float32Array;
  sizes : Float32Array
}.

(** The position computed from the three draws [u], [v], [w]. *)
Definition sparklePoint (u v w : R) : vec3 :=
  let theta := 2 * PI * u in
  let phi := acos (2 * v - 1) in
  let r := 8 + JSMath.cbrt w * 15 in
  Vector3.mk (r * sin phi * cos theta)
             (r * sin phi * sin theta)
             (r * cos phi).

Definition fill (i : nat) (b : Buffers) : M Buffers :=
  u <- random ;;
  v <- random ;;
  w <- random ;;
  let pos := storeVec (positions b) i (sparklePoint u v w) in
  r <- random ;;
  let rnd := store (randoms b) i r in
  s <- random ;;
  let sz := store (sizes b) i (0.5 + s * 0.7) in
  ret (mkBuffers pos rnd sz).

Definition buildWith (count : nat) : M Buffers :=
  let pos := newFloat32Array (count * 3) in
  let rnd := newFloat32Array count in
  let sz := newFloat32Array count in
  forRange count 0 fill (mkBuffers pos rnd sz).

Definition build : M Buffers := buildWith count.

End AmbientSparkles.

(** ** The scratch object and the transform sink *)

Module Object3D.

(** [new THREE.Object3D()] owns a position vector, a rotation and a scale
    vector. Its matrix is composed from the three by [updateMatrix()]; the
    matrix is represented by the triple it is composed from. *)
Record t : Type := mk { position : loc; rotation : loc; scale : loc }.

Record Matrix : Type :=
  mkMatrix { mPosition : vec3; mRotation : vec3; mScale : vec3 }.

Definition create : M t :=
  p <- new (Vector3.mk 0 0 0) ;;
  r <- new (Vector3.mk 0 0 0) ;;
  s <- new (Vector3.mk 1 1 1) ;;
  ret (mk p r s).

(** [o.updateMatrix()] followed by reading [o.matrix]. *)
Definition matrix (o : t) : M Matrix :=
  p <- get (position o) ;;
  r <- get (rotation o) ;;
  s <- get (scale o) ;;
  ret (mkMatrix p r s).

Definition locs (o : t) : list loc := [position o; rotation o; scale o].

End Object3D.

(** [treePos] of [TopStar]: [new THREE.Vector3(0, 5.6, 0)]. *)
Definition topStarTreePos : vec3 := Vector3.mk 0 5.6 0.

(** [v.x += k] and [v.y += k] on the object at a location. *)
Definition addX (l : loc) (k : R) : M unit :=
  v <- get l ;;
  set l (Vector3.mk (Vector3.x v + k) (Vector3.y v) (Vector3.z v)).

Definition addY (l : loc) (k : R) : M unit :=
  v <- get l ;;
  set l (Vector3.mk (Vector3.x v) (Vector3.y v + k) (Vector3.z v)).

(** [this.lerp(v, alpha)], in place. *)
Definition lerpInPlace (this v : loc) (alpha : R) : M unit :=
  a <- get this ;;
  b <- get v ;;
  set this (Vector3.lerp a b alpha).

(** [v.x = k], [v.z = k], [v.z += k] and [v.setScalar(k)] on the object at
    a location. *)
Definition setX (l : loc) (k : R) : M unit :=
  v <- get l ;;
  set l (Vector3.mk k (Vector3.y v) (Vector3.z v)).

Definition setZ (l : loc) (k : R) : M unit :=
  v <- get l ;;
  set l (Vector3.mk (Vector3.x v) (Vector3.y v) k).

Definition addZ (l : loc) (k : R) : M unit :=
  v <- get l ;;
  set l (Vector3.mk (Vector3.x v) (Vector3.y v) (Vector3.z v + k)).

Definition setScalar (l : loc) (k : R) : M unit := set l (Vector3.mk k k k).

(** ** Ornaments.tsx, [TopStar] *)

Module TopStar.

(** The outline of the star handed to [THREE.ExtrudeGeometry]:
    [shape.moveTo(0, outerRadius)], then one [shape.lineTo(x, y)] per round
    of [for (let i = 1; i < points * 2; i++)]. The local [angle] of the
    source is not used. *)

Definition points : nat := 5.

Definition outerRadius : R := 0.45.

Definition innerRadius : R := 0.18.

Definition vertex (i : nat) : R * R :=
  let radius := if (i mod 2 =? 0)%nat then outerRadius else innerRadius in
  let x := sin (INR i * PI / INR points) * radius in
  let y := cos (INR i * PI / INR points) * radius in
  (x, y).

Definition outline : list (R * R) :=
  (0, outerRadius) :: map vertex (seq 1 (points * 2 - 1)).

(** The vectors of the component and the mesh it drives; the mesh is an
    [Object3D]. *)
Record State : Type := mkState {
  treePos : loc;
  scatterPos : loc;
  currentPos : loc;
  mesh : Object3D.t
}.

Definition create : M State :=
  treePos <- new topStarTreePos ;;
  scatterPos <- Sampler.getRandomSpherePoint 15 ;;
  currentPos <- clone scatterPos ;;
  mesh <- Object3D.create ;;
  ret (mkState treePos scatterPos currentPos mesh).

(** [useFrame]; [mounted] tells whether [meshRef.current] is set. *)
Definition useFrame (s : State) (mounted : bool) (treeState : TreeState)
    (elapsedTime delta : R) : M unit :=
  if negb mounted then ret tt
  else
    let target := if isTreeShape treeState then treePos s else scatterPos s in
    lerpInPlace (currentPos s) target (delta * 1.5) ;;;
    copy (Object3D.position (mesh s)) (currentPos s) ;;;
    (if isTreeShape treeState then
       addY (Object3D.rotation (mesh s)) (delta * 0.2) ;;;
       setX (Object3D.rotation (mesh s)) 0 ;;;
       setZ (Object3D.rotation (mesh s)) 0
     else
       addY (Object3D.rotation (mesh s)) delta ;;;
       addZ (Object3D.rotation (mesh s)) delta) ;;;
    let scale := 1.0 + sin (elapsedTime * 2) * 0.05 in
    setScalar (Object3D.scale (mesh s)) scale.

Definition locs (s : State) : list loc :=
  [treePos s; scatterPos s; currentPos s] ++ Object3D.locs (mesh s).

End TopStar.

(** ** Ornaments.tsx, [GiftBoxGroup] *)

Module GiftBoxGroup.

Module Palette.
Record t : Type := mk { color : string; name : string; weight : R }.
End Palette.

Record Item : Type := mkItem {
  treePos : loc;
  scatterPos : loc;
  currentPos : loc;
  scale : loc;
  rotation : loc;
  rotationSpeed : R;
  color : string;
  ribbonColor : string
}.

(** The final values of the locals [validPosition] and [attempts] of one
    round of the construction loop; kept next to the items to state how
    each scatter position was obtained. *)
Record Placement : Type := mkPlacement { validPosition : bool; attempts : nat }.

Definition minDistance : R := 2.0.

Definition burgundy : Palette.t := Palette.mk "#7a1f1f"%string "burgundy"%string 0.31.

Definition boxPalette : list Palette.t :=
  [ burgundy;
    Palette.mk "#f2e8d5"%string "cream"%string 0.31;
    Palette.mk "#0f3b26"%string "emerald"%string 0.32;
    Palette.mk "#d4af37"%string "gold"%string 0.06 ].

(** The loop of [pickColor]: the first entry at which the running sum of
    weights reaches [r]. *)
Fixpoint pickFrom (r sum : R) (palette : list Palette.t) : option Palette.t :=
  match palette with
  | [] => None
  | p :: rest =>
      let sum := sum + Palette.weight p in
      if Rleb r sum then Some p else pickFrom r sum rest
  end.

Definition pickColor : M Palette.t :=
  r <- random ;;
  ret (match pickFrom r 0 boxPalette with
       | Some p => p
       | None => burgundy   (* boxPalette[0] *)
       end).

Definition ribbonColorFor (name : string) : string :=
  let ribbonColor := "#8b0000"%string in
  let ribbonColor :=
    if String.eqb name "burgundy" then "#d4af37"%string else ribbonColor in
  let ribbonColor :=
    if String.eqb name "emerald" then "#d4af37"%string else ribbonColor in
  let ribbonColor :=
    if String.eqb name "gold" then "#7a1f1f"%string else ribbonColor in
  let ribbonColor :=
    if String.eqb name "cream" then "#7a1f1f"%string else ribbonColor in
  ribbonColor.

(** [sPos.distanceTo(existingItem.scatterPos) < minDistance] *)
Definition tooClose (h : list vec3) (sPos : loc) (existingItem : Item) : bool :=
  Rltb (Vector3.distanceTo (deref h sPos) (deref h (scatterPos existingItem)))
       minDistance.

(** The inner [for ... of items] with its [break]: [validPosition] ends
    [false] exactly when some existing item is too close. *)
Definition checkPosition (items : list Item) (sPos : loc) : M bool :=
  fun w => (negb (existsb (tooClose (heap w) sPos) items), w).

(** [while (!validPosition && attempts < 50) { ... attempts++ }]. The
    condition is tested at every round; [fuel] bounds the number of rounds,
    and 50 rounds are enough because [attempts] starts at 0 (see
    [placeLoop_exit]). *)
Fixpoint placeLoop (fuel : nat) (items : list Item) (sPos : loc)
    (validPosition : bool) (attempts : nat) : M (loc * Placement) :=
  match fuel with
  | O => ret (sPos, mkPlacement validPosition attempts)
  | S fuel' =>
      if negb validPosition && (attempts <? 50)%nat then
        sPos <- Sampler.getRandomSpherePoint 18 ;;
        validPosition <- checkPosition items sPos ;;
        placeLoop fuel' items sPos validPosition (attempts + 1)
      else ret (sPos, mkPlacement validPosition attempts)
  end.

(** From [let sPos = new THREE.Vector3()] to
    [if (!validPosition) sPos = getRandomSpherePoint(22)]. *)
Definition placeScatter (items : list Item) : M (loc * Placement) :=
  sPos <- new Vector3.zero ;;
  r <- placeLoop 50 items sPos false 0 ;;
  let sPos := fst r in
  let p := snd r in
  sPos <- (if negb (validPosition p) then Sampler.getRandomSpherePoint 22
           else ret sPos) ;;
  ret (sPos, p).

(** One round of [for (let i = 0; i < count; i++)], up to [items.push]. *)
Definition buildItem (items : list Item) : M (Item * Placement) :=
  tPos <- Sampler.getGiftBoxPoint 12 5.5 (-1) ;;
  r <- placeScatter items ;;
  let sPos := fst r in
  s <- random ;;
  let scale := 0.6 + s * 0.4 in
  paletteChoice <- pickColor ;;
  let boxColor := Palette.color paletteChoice in
  let ribbonColor := ribbonColorFor (Palette.name paletteChoice) in
  cur <- clone sPos ;;
  sc <- new (Vector3.mk scale scale scale) ;;
  rx <- random ;;
  ry <- random ;;
  rot <- new (Vector3.mk (rx * PI) (ry * PI) 0) ;;
  rs <- random ;;
  ret (mkItem tPos sPos cur sc rot ((rs - 0.5) * 0.02) boxColor ribbonColor,
       snd r).

Fixpoint buildLoop (n : nat) (items : list Item) (log : list Placement)
    : M (list Item * list Placement) :=
  match n with
  | O => ret (items, log)
  | S n' =>
      r <- buildItem items ;;
      buildLoop n' (items ++ [fst r]) (log ++ [snd r])
  end.

(** The [useMemo] that builds [data], with the placement log. *)
Definition build (count : nat) : M (list Item * list Placement) :=
  buildLoop count [] [].

Definition data (count : nat) : M (list Item) :=
  r <- build count ;;
  ret (fst r).

(** The body of [data.forEach((d, i) => ...)] in [useFrame]. *)
Definition updateItem (tempObject : Object3D.t) (targetIsTree : bool)
    (elapsedTime lerpFactor : R) (d : Item) (i : nat) : M Object3D.Matrix :=
  let target := if targetIsTree then treePos d else scatterPos d in
  lerpInPlace (currentPos d) target lerpFactor ;;;
  (if negb targetIsTree then
     addY (currentPos d) (sin (elapsedTime + INR i) * 0.005) ;;;
     addX (rotation d) (rotationSpeed d) ;;;
     addY (rotation d) (rotationSpeed d)
   else
     addY (rotation d) (rotationSpeed d * 0.1)) ;;;
  copy (Object3D.position tempObject) (currentPos d) ;;;
  copy (Object3D.rotation tempObject) (rotation d) ;;;
  copy (Object3D.scale tempObject) (scale d) ;;;
  Object3D.matrix tempObject.

(** [useFrame]: [mounted] tells whether both mesh references are set; the
    result is the list of instance matrices handed to the two meshes. *)
Definition useFrame (tempObject : Object3D.t) (mounted : bool)
    (treeState : TreeState) (elapsedTime delta : R) (data : list Item)
    : M (option (list Object3D.Matrix)) :=
  if negb mounted then ret None
  else
    let targetIsTree := isTreeShape treeState in
    let lerpFactor := JSMath.clamp (delta * 1.2) 0 1 in
    ms <- forEach (updateItem tempObject targetIsTree elapsedTime lerpFactor)
                  data ;;
    ret (Some ms).

(** The objects an item refers to: those the construction fixes, and
    those in motion. *)
Definition staticLocs (d : Item) : list loc := [treePos d; scatterPos d; scale d].

Definition dynamicLocs (d : Item) : list loc := [currentPos d; rotation d].

Definition locs (d : Item) : list loc :=
  [treePos d; scatterPos d; currentPos d; scale d; rotation d].

(** [useLayoutEffect]: for every item, the colour handed to the box mesh,
    the colour handed to the ribbon mesh and the matrix handed to both.
    Only the position of the scratch object is assigned. *)
Definition layoutItem (tempObject : Object3D.t) (d : Item) (i : nat)
    : M (string * string * Object3D.Matrix) :=
  copy (Object3D.position tempObject) (scatterPos d) ;;;
  m <- Object3D.matrix tempObject ;;
  ret (color d, ribbonColor d, m).

Definition useLayoutEffect (tempObject : Object3D.t) (mounted : bool)
    (data : list Item) : M (option (list (string * string * Object3D.Matrix))) :=
  if mounted then
    ms <- forEach (layoutItem tempObject) data ;;
    ret (Some ms)
  else ret None.

End GiftBoxGroup.

(** ** Ornaments.tsx, [RibbonHorizontal]: the second ribbon of the gift
    boxes, drawn from the items of [GiftBoxGroup] *)

Module RibbonHorizontal.

Definition layoutItem (tempObject : Object3D.t) (d : GiftBoxGroup.Item)
    (i : nat) : M (string * Object3D.Matrix) :=
  copy (Object3D.position tempObject) (GiftBoxGroup.scatterPos d) ;;;
  m <- Object3D.matrix tempObject ;;
  ret (GiftBoxGroup.ribbonColor d, m).

Definition useLayoutEffect (tempObject : Object3D.t) (mounted : bool)
    (data : list GiftBoxGroup.Item)
    : M (option (list (string * Object3D.Matrix))) :=
  if mounted then
    ms <- forEach (layoutItem tempObject) data ;;
    ret (Some ms)
  else ret None.

(** The body of [data.forEach((d, i) => ...)] in [useFrame]. *)
Definition updateItem (tempObject : Object3D.t) (d : GiftBoxGroup.Item)
    (i : nat) : M Object3D.Matrix :=
  copy (Object3D.position tempObject) (GiftBoxGroup.currentPos d) ;;;
  copy (Object3D.rotation tempObject) (GiftBoxGroup.rotation d) ;;;
  copy (Object3D.scale tempObject) (GiftBoxGroup.scale d) ;;;
  Object3D.matrix tempObject.

Definition useFrame (tempObject : Object3D.t) (mounted : bool)
    (data : list GiftBoxGroup.Item) : M (option (list Object3D.Matrix)) :=
  if negb mounted then ret None
  else
    ms <- forEach (updateItem tempObject) data ;;
    ret (Some ms).

End RibbonHorizontal.

(** ** Ornaments.tsx, [TinyBaublesGroup] *)

Module TinyBaublesGroup.

Record Item : Type := mkItem {
  treePos : loc;
  scatterPos : loc;
  currentPos : loc;
  scale : loc;
  rotation : loc;
  color : string
}.

(** The callback of [Array.from({ length: count }).map]. *)
Definition buildItem : M Item :=
  (* biased towards the bottom *)
  tPos <- Sampler.getTinyBaublePoint 11 4.6 (-1) ;;
  sPos <- Sampler.getRandomSpherePoint 20 ;;
  (* pearl white or soft champagne *)
  c <- random ;;
  let color := if Rltb 0.6 c then "#f0f0f0"%string else "#ffe4b5"%string in
  cur <- clone sPos ;;
  sc <- new (Vector3.mk 0.5 0.5 0.5) ;;
  rx <- random ;;
  ry <- random ;;
  rot <- new (Vector3.mk (rx * PI) (ry * PI) 0) ;;
  ret (mkItem tPos sPos cur sc rot color).

Fixpoint data (count : nat) : M (list Item) :=
  match count with
  | O => ret []
  | S n =>
      d <- buildItem ;;
      rest <- data n ;;
      ret (d :: rest)
  end.

(** [useLayoutEffect]: the colour and the matrix handed to the mesh for
    every item. *)
Definition layoutItem (tempObject : Object3D.t) (d : Item) (i : nat)
    : M (string * Object3D.Matrix) :=
  copy (Object3D.position tempObject) (scatterPos d) ;;;
  copy (Object3D.scale tempObject) (scale d) ;;;
  m <- Object3D.matrix tempObject ;;
  ret (color d, m).

Definition useLayoutEffect (tempObject : Object3D.t) (mounted : bool)
    (data : list Item) : M (option (list (string * Object3D.Matrix))) :=
  if mounted then
    ms <- forEach (layoutItem tempObject) data ;;
    ret (Some ms)
  else ret None.

(** The body of [data.forEach((d, i) => ...)] in [useFrame]. *)
Definition updateItem (tempObject : Object3D.t) (targetIsTree : bool)
    (elapsedTime lerpFactor : R) (d : Item) (i : nat) : M Object3D.Matrix :=
  let target := if targetIsTree then treePos d else scatterPos d in
  lerpInPlace (currentPos d) target lerpFactor ;;;
  (if negb targetIsTree then
     addY (currentPos d) (sin (elapsedTime + INR i) * 0.005)
   else ret tt) ;;;
  copy (Object3D.position tempObject) (currentPos d) ;;;
  copy (Object3D.scale tempObject) (scale d) ;;;
  Object3D.matrix tempObject.

Definition useFrame (tempObject : Object3D.t) (mounted : bool)
    (treeState : TreeState) (elapsedTime delta : R) (data : list Item)
    : M (option (list Object3D.Matrix)) :=
  if negb mounted then ret None
  else
    let targetIsTree := isTreeShape treeState in
    let lerpFactor := JSMath.clamp (delta * 1.5) 0 1 in
    ms <- forEach (updateItem tempObject targetIsTree elapsedTime lerpFactor)
                  data ;;
    ret (Some ms).

Definition locs (d : Item) : list loc :=
  [treePos d; scatterPos d; currentPos d; scale d; rotation d].

End TinyBaublesGroup.

(** ** Ornaments.tsx, [OrnamentGroup] *)

Module OrnamentGroup.

Record Item : Type := mkItem {
  treePos : loc;
  scatterPos : loc;
  currentPos : loc;
  scale : loc;
  rotation : loc;
  rotationSpeed : R
}.

(** The callback of [Array.from({ length: count }).map]. *)
Definition buildItem (scaleMultiplier spiralPhase : R) : M Item :=
  tPos <- Sampler.getSpiralPoint 11 4.8 (-1) spiralPhase ;;
  sPos <- Sampler.getRandomSpherePoint 20 ;;
  s <- random ;;
  let scale := (s * 0.4 + 0.6) * scaleMultiplier in
  cur <- clone sPos ;;
  sc <- new (Vector3.mk scale scale scale) ;;
  rx <- random ;;
  ry <- random ;;
  rot <- new (Vector3.mk (rx * PI) (ry * PI) 0) ;;
  rs <- random ;;
  ret (mkItem tPos sPos cur sc rot ((rs - 0.5) * 0.02)).

Fixpoint data (count : nat) (scaleMultiplier spiralPhase : R) : M (list Item) :=
  match count with
  | O => ret []
  | S n =>
      d <- buildItem scaleMultiplier spiralPhase ;;
      rest <- data n scaleMultiplier spiralPhase ;;
      ret (d :: rest)
  end.

(** [THREE.MathUtils.clamp(delta * (2.0 / (weight + 0.5)), 0, 1)] *)
Definition lerpFactor (weight delta : R) : R :=
  JSMath.clamp (delta * (2.0 / (weight + 0.5))) 0 1.

(** The body of [data.forEach((d, i) => ...)] in [useFrame]. *)
Definition updateItem (tempObject : Object3D.t) (targetIsTree : bool)
    (elapsedTime lerpFactor : R) (d : Item) (i : nat) : M Object3D.Matrix :=
  let target := if targetIsTree then treePos d else scatterPos d in
  lerpInPlace (currentPos d) target lerpFactor ;;;
  (if negb targetIsTree then
     addY (currentPos d) (sin (elapsedTime + INR i) * 0.005)
   else ret tt) ;;;
  addX (rotation d) (rotationSpeed d) ;;;
  addY (rotation d) (rotationSpeed d) ;;;
  copy (Object3D.position tempObject) (currentPos d) ;;;
  copy (Object3D.rotation tempObject) (rotation d) ;;;
  copy (Object3D.scale tempObject) (scale d) ;;;
  Object3D.matrix tempObject.

Definition useFrame (tempObject : Object3D.t) (mounted : bool)
    (treeState : TreeState) (weight elapsedTime delta : R) (data : list Item)
    : M (option (list Object3D.Matrix)) :=
  if negb mounted then ret None
  else
    let targetIsTree := isTreeShape treeState in
    let lerpFactor := lerpFactor weight delta in
    ms <- forEach (updateItem tempObject targetIsTree elapsedTime lerpFactor)
                  data ;;
    ret (Some ms).

Definition staticLocs (d : Item) : list loc := [treePos d; scatterPos d; scale d].

Definition dynamicLocs (d : Item) : list loc := [currentPos d; rotation d].

Definition locs (d : Item) : list loc :=
  [treePos d; scatterPos d; currentPos d; scale d; rotation d].

(** [useLayoutEffect]: the matrix handed to the mesh for every item. *)
Definition layoutItem (tempObject : Object3D.t) (d : Item) (i : nat)
    : M Object3D.Matrix :=
  copy (Object3D.position tempObject) (scatterPos d) ;;;
  copy (Object3D.rotation tempObject) (rotation d) ;;;
  copy (Object3D.scale tempObject) (scale d) ;;;
  Object3D.matrix tempObject.

Definition useLayoutEffect (tempObject : Object3D.t) (mounted : bool)
    (data : list Item) : M (option (list Object3D.Matrix)) :=
  if mounted then
    ms <- forEach (layoutItem tempObject) data ;;
    ret (Some ms)
  else ret None.

End OrnamentGroup.

(** ** Frames

    What the host supplies to a component at one frame. The scene holds one
    scratch object, shared by all groups, a group of gift boxes and a group
    of ornaments; at every tick the [useFrame] callback of one of the two
    groups runs. *)

Record Frame : Type := mkFrame {
  fMounted : bool;
  fTreeState : TreeState;
  fElapsedTime : R;
  fDelta : R
}.

Inductive Tick : Type :=
| GiftTick (f : Frame)
| OrnamentTick (f : Frame).

Definition runTick (tempObject : Object3D.t) (weight : R)
    (gifts : list GiftBoxGroup.Item) (ornaments : list OrnamentGroup.Item)
    (t : Tick) : M (option (list Object3D.Matrix)) :=
  match t with
  | GiftTick f =>
      GiftBoxGroup.useFrame tempObject (fMounted f) (fTreeState f)
        (fElapsedTime f) (fDelta f) gifts
  | OrnamentTick f =>
      OrnamentGroup.useFrame tempObject (fMounted f) (fTreeState f) weight
        (fElapsedTime f) (fDelta f) ornaments
  end.

Fixpoint runTicks (tempObject : Object3D.t) (weight : R)
    (gifts : list GiftBoxGroup.Item) (ornaments : list OrnamentGroup.Item)
    (ticks : list Tick) : M unit :=
  match ticks with
  | [] => ret tt
  | t :: rest =>
      runTick tempObject weight gifts ornaments t ;;;
      runTicks tempObject weight gifts ornaments rest
  end.

(** The scene: the scratch object is created when the module is loaded,
    then the gift boxes and the ornaments are built, then ticks run. The
    result records the scratch object, the two groups and the world as it
    was once the groups were built. *)
Record Scene : Type := mkScene {
  sceneTemp : Object3D.t;
  sceneGifts : list GiftBoxGroup.Item;
  sceneOrnaments : list OrnamentGroup.Item;
  sceneBuilt : World
}.

(** The current world, to compare a later one with. *)
Definition snapshot : M World := fun w => (w, w).

Definition runScene (count : nat) (ornamentCount : nat)
    (scaleMultiplier spiralPhase weight : R) (ticks : list Tick) : M Scene :=
  tempObject <- Object3D.create ;;
  gifts <- GiftBoxGroup.data count ;;
  ornaments <- OrnamentGroup.data ornamentCount scaleMultiplier spiralPhase ;;
  built <- snapshot ;;
  runTicks tempObject weight gifts ornaments ticks ;;;
  ret (mkScene tempObject gifts ornaments built).

(** ** Vocabulary of the properties *)

(** The vector held by the object that a sampler returns. *)
Definition resultOf (r : loc * World) : vec3 := deref (heap (snd r)) (fst r).

(** The lower half of the vertical range
    [yOffset - height/2, yOffset + height/2]. *)
Definition inBottomHalf (height yOffset y : R) : Prop :=
  y <= yOffset - height / 2 + 0.5 * height.

(** The first draw [r] of [getWeightedFoliagePoint] puts the point in the
    lower half of the range, whatever the two other draws are. *)
Definition foliageBottomDraw (height baseRadius yOffset r : R) : Prop :=
  forall u1 u2,
    inBottomHalf height yOffset
      (Vector3.y (Sampler.weightedFoliagePoint height baseRadius yOffset r u1 u2)).

(** A set [S] of draws from [0,1) is the initial segment [0,m]; under the
    uniform distribution on [0,1) its measure is the length [m]. *)
Definition initialSegment (S : R -> Prop) (m : R) : Prop :=
  0 <= m <= 1 /\ forall u, 0 <= u < 1 -> (S u <-> u <= m).

(** The draw below which the sixth power is at most one half. *)
Definition halfThreshold : R := Rpower (1 / 2) (/ 6).

(** Volume of the ball of a given radius, and of its part with radial
    distance at most [rho0], cosine of the polar angle at most [c0] and
    azimuth at most [theta0]: the integral of [rho^2] over
    [0 <= rho <= rho0], [-1 <= cos phi <= c0], [0 <= theta <= theta0]. *)
Definition ballVolume (radius : R) : R := 4 / 3 * PI * radius ^ 3.

Definition sphericalCellVolume (rho0 c0 theta0 : R) : R :=
  rho0 ^ 3 / 3 * (c0 + 1) * theta0.

(** Measure of the box [0,a] x [0,b] x [0,c] of draws. *)
Definition boxMeasure (a b c : R) : R := a * b * c.

(** A program that allocates nothing and writes only at the locations of
    [L]; it reads no random value and calls no sampler. *)
Definition writesWithin {A : Type} (L : list loc) (c : M A) : Prop :=
  forall w a w', c w = (a, w') ->
    randoms w' = randoms w /\ cursor w' = cursor w
    /\ sphereCalls w' = sphereCalls w
    /\ length (heap w') = length (heap w)
    /\ forall l, ~ In l L -> deref (heap w') l = deref (heap w) l.

(** The value drawn by [getRandomSpherePoint(radius)] when the cursor of
    [Math.random()] is at [c]. *)
Definition sphereDraw (rnd : nat -> R) (radius : R) (c : nat) : vec3 :=
  Sampler.spherePoint radius (rnd c) (rnd (S c)) (rnd (S (S c))).

(** How the scatter position of a gift box [d] was obtained, given the
    items [prev] placed before it: either the loop accepted a draw of the
    base sampler (radius 18) at distance at least [minDistance] from the
    scatter position of every earlier item, or all 50 attempts failed and
    the position is a draw of the looser sampler (radius 22). *)
Definition placed (rnd : nat -> R) (h : list vec3)
    (prev : list GiftBoxGroup.Item) (d : GiftBoxGroup.Item)
    (p : GiftBoxGroup.Placement) : Prop :=
  (GiftBoxGroup.validPosition p = true
   /\ (exists c, deref h (GiftBoxGroup.scatterPos d) = sphereDraw rnd 18 c)
   /\ forall e, In e prev ->
        GiftBoxGroup.minDistance
        <= Vector3.distanceTo (deref h (GiftBoxGroup.scatterPos d))
                              (deref h (GiftBoxGroup.scatterPos e)))
  \/ (GiftBoxGroup.validPosition p = false
      /\ GiftBoxGroup.attempts p = 50%nat
      /\ exists c, deref h (GiftBoxGroup.scatterPos d) = sphereDraw rnd 22 c).

(** Number of calls of [getRandomSpherePoint(radius)] in a trace. *)
Definition countCalls (radius : R) (calls : list R) : nat :=
  count_occ Req_dec_T calls radius.

(** The attributes of an item that the construction fixes, read through
    the heap. *)
Definition giftStatic (h : list vec3) (d : GiftBoxGroup.Item)
    : vec3 * vec3 * vec3 * R * string * string :=
  (deref h (GiftBoxGroup.treePos d), deref h (GiftBoxGroup.scatterPos d),
   deref h (GiftBoxGroup.scale d), GiftBoxGroup.rotationSpeed d,
   GiftBoxGroup.color d, GiftBoxGroup.ribbonColor d).

Definition ornamentStatic (h : list vec3) (d : OrnamentGroup.Item)
    : vec3 * vec3 * vec3 * R :=
  (deref h (OrnamentGroup.treePos d), deref h (OrnamentGroup.scatterPos d),
   deref h (OrnamentGroup.scale d), OrnamentGroup.rotationSpeed d).

(** The later world has the same random sequence and a heap that extends
    the earlier one. *)
Definition grows (w w' : World) : Prop :=
  randoms w' = randoms w /\ exists hs, heap w' = heap w ++ hs.

(** The locations a tick may write: the scratch object, and the current
    position and rotation of every item. *)
Definition giftWritable (tempObject : Object3D.t) (data : list GiftBoxGroup.Item)
    : list loc :=
  Object3D.locs tempObject ++ concat (map GiftBoxGroup.dynamicLocs data).

Definition ornamentWritable (tempObject : Object3D.t)
    (data : list OrnamentGroup.Item) : list loc :=
  Object3D.locs tempObject ++ concat (map OrnamentGroup.dynamicLocs data).

Definition inRange (lo hi : nat) (ls : list loc) : Prop :=
  Forall (fun l => (lo <= l < hi)%nat) ls.

(** The items of a group refer to objects allocated between [lo] and [hi],
    and no object that is static for one item is in motion for an item of
    the group. *)
Definition separated {A : Type} (stat dyn : A -> list loc) (lo hi : nat)
    (items : list A) : Prop :=
  Forall (fun d => inRange lo hi (stat d ++ dyn d)) items
  /\ forall d e l, In d items -> In e items -> In l (stat d) -> ~ In l (dyn e).

(** What holds of the gift boxes built so far: their objects were
    allocated from [base] on, static and moving objects are apart, the log
    has one entry per item, and every item was placed as [placed] says with
    respect to the items before it. *)
Definition giftInv (rnd : nat -> R) (base : nat) (h : list vec3)
    (items : list GiftBoxGroup.Item) (log : list GiftBoxGroup.Placement) : Prop :=
  (base <= length h)%nat
  /\ length log = length items
  /\ separated GiftBoxGroup.staticLocs GiftBoxGroup.dynamicLocs base (length h) items
  /\ forall i d p, items !! i = Some d -> log !! i = Some p ->
       placed rnd h (take i items) d p.

(** The scratch object and an ornament refer to eight distinct objects of
    the heap [h]. *)
Definition ornamentReady (tempObject : Object3D.t) (d : OrnamentGroup.Item)
    (h : list vec3) : Prop :=
  List.NoDup (Object3D.locs tempObject ++ OrnamentGroup.locs d)
  /\ Forall (fun l => (l < length h)%nat)
            (Object3D.locs tempObject ++ OrnamentGroup.locs d).

(** [wp c post w]: running [c] in the world [w] gives a result and a world
    that satisfy [post]. *)
Definition wp {A : Type} (c : M A) (post : A -> World -> Prop) (w : World) : Prop :=
  post (fst (c w)) (snd (c w)).

(** A step that allocates exactly one object and returns its location. *)
Definition allocOne (c : M loc) : Prop :=
  forall w, randoms (snd (c w)) = randoms w
            /\ fst (c w) = length (heap w)
            /\ exists v, heap (snd (c w)) = heap w ++ [v].

(** Distance of a point from the vertical axis of the tree. *)
Definition radialDistance (p : vec3) : R :=
  sqrt (Vector3.x p * Vector3.x p + Vector3.z p * Vector3.z p).

(** [a[i]], and the vector held by the three entries of particle [i]. *)
Definition load (a : Float32Array) (i : nat) : R := default 0 (a !! i).

Definition vecAt (a : Float32Array) (i : nat) : vec3 :=
  Vector3.mk (load a (i * 3)) (load a (i * 3 + 1)) (load a (i * 3 + 2)).

(** The objects of the scratch object ([T]) and of the items of a group
    ([itemLocs], one list per item) are pairwise distinct objects of the
    heap [h]. *)
Definition distinctObjects (T : list loc) (itemLocs : list (list loc))
    (h : list vec3) : Prop :=
  List.NoDup (T ++ concat itemLocs)
  /\ Forall (fun l => (l < length h)%nat) (T ++ concat itemLocs).

(** What is left of the way to the target after frames with the given lag
    factors: the product of the [1 - f]. *)
Definition remaining (factors : list R) : R :=
  fold_right (fun f acc => (1 - f) * acc) 1 factors.

(** How the construction loop of [GiftBoxGroup] built the item [d], read
    through the heap [h]: [sv], [rx], [ry], [rs] and [cr] are the values of
    [Math.random()] drawn for the scale, the two angles, the rotation speed
    and the colour. *)
Definition giftBuilt (rnd : nat -> R) (h : list vec3) (d : GiftBoxGroup.Item)
    : Prop :=
  exists sv rx ry rs cr,
    (exists n, sv = rnd n) /\ (exists n, rx = rnd n) /\ (exists n, ry = rnd n)
    /\ (exists n, rs = rnd n) /\ (exists n, cr = rnd n)
    /\ deref h (GiftBoxGroup.scale d)
       = Vector3.mk (0.6 + sv * 0.4) (0.6 + sv * 0.4) (0.6 + sv * 0.4)
    /\ deref h (GiftBoxGroup.rotation d) = Vector3.mk (rx * PI) (ry * PI) 0
    /\ GiftBoxGroup.rotationSpeed d = (rs - 0.5) * 0.02
    /\ (let choice := match GiftBoxGroup.pickFrom cr 0 GiftBoxGroup.boxPalette with
                      | Some c => c
                      | None => GiftBoxGroup.burgundy
                      end in
        GiftBoxGroup.color d = GiftBoxGroup.Palette.color choice
        /\ GiftBoxGroup.ribbonColor d
           = GiftBoxGroup.ribbonColorFor (GiftBoxGroup.Palette.name choice))
    /\ deref h (GiftBoxGroup.currentPos d) = deref h (GiftBoxGroup.scatterPos d).

(** The objects of the items of a group were allocated from [lo] on, are
    objects of a heap of [hi] cells, and are pairwise distinct. *)
Definition freshObjects (lo hi : nat) (itemLocs : list (list loc)) : Prop :=
  List.NoDup (concat itemLocs) /\ Forall (inRange lo hi) itemLocs.

(** * Part II: properties *)

(** ** Booleans, vectors and the shading language *)

Lemma Rltb_false a b : Rltb a b = false <-> b <= a.
Proof.
  unfold Rltb. destruct (Rlt_dec a b); split; intros; auto; try discriminate; lra.
Qed.

Lemma vec3_eq_intro (a b : vec3) :
  Vector3.x a = Vector3.x b -> Vector3.y a = Vector3.y b ->
  Vector3.z a = Vector3.z b -> a = b.
Proof. destruct a, b; simpl; intros; subst; reflexivity. Qed.

Lemma glsl_clamp_ge_hi x : 1 <= x -> GLSL.clamp x 0 1 = 1.
Proof.
  intros H. unfold GLSL.clamp, Rmin, Rmax.
  destruct (Rle_dec x 0); destruct (Rle_dec _ 1); lra.
Qed.

Lemma glsl_clamp_le_lo x : x <= 0 -> GLSL.clamp x 0 1 = 0.
Proof.
  intros H. unfold GLSL.clamp, Rmin, Rmax.
  destruct (Rle_dec x 0); destruct (Rle_dec _ 1); lra.
Qed.

Lemma glsl_mix_one a b : GLSL.mix a b 1 = b.
Proof. apply vec3_eq_intro; unfold GLSL.mix, GLSL.mix1; simpl; ring. Qed.

Lemma glsl_mix_zero a b : GLSL.mix a b 0 = a.
Proof. apply vec3_eq_intro; unfold GLSL.mix, GLSL.mix1; simpl; ring. Qed.

Lemma glsl_pow_zero y : GLSL.pow 0 y = 0.
Proof. unfold GLSL.pow. destruct (Rlt_dec 0 0); [lra | reflexivity]. Qed.

(** ** Easing and staggered blend at the two ends of the progress range *)

Lemma easeInOutCubic_0 : Shader.easeInOutCubic 0 = 0.
Proof.
  unfold Shader.easeInOutCubic. destruct (Rlt_dec 0 0.5); lra.
Qed.

Lemma easeInOutCubic_1 : Shader.easeInOutCubic 1 = 1.
Proof.
  unfold Shader.easeInOutCubic. destruct (Rlt_dec 1 0.5); [lra |].
  replace (-2.0 * 1 + 2.0) with 0 by lra.
  rewrite glsl_pow_zero. lra.
Qed.

Ltac literal_bounds :=
  replace 0.0 with 0 by lra; replace 1.0 with 1 by lra.

Lemma foliageDelayedT_1 aRandom :
  0 <= aRandom < 1 -> Shader.foliageDelayedT 1 aRandom = 1.
Proof.
  intros H. unfold Shader.foliageDelayedT. rewrite easeInOutCubic_1.
  literal_bounds. apply glsl_clamp_ge_hi. lra.
Qed.

Lemma foliageDelayedT_0 aRandom :
  0 <= aRandom < 1 -> Shader.foliageDelayedT 0 aRandom = 0.
Proof.
  intros H. unfold Shader.foliageDelayedT. rewrite easeInOutCubic_0.
  literal_bounds. apply glsl_clamp_le_lo. lra.
Qed.

Lemma spiralDelayedT_1 aRandom :
  0 <= aRandom < 1 -> Shader.spiralDelayedT 1 aRandom = 1.
Proof.
  intros H. unfold Shader.spiralDelayedT. rewrite easeInOutCubic_1.
  literal_bounds. apply glsl_clamp_ge_hi. lra.
Qed.

Lemma spiralDelayedT_0 aRandom :
  0 <= aRandom < 1 -> Shader.spiralDelayedT 0 aRandom = 0.
Proof.
  intros H. unfold Shader.spiralDelayedT. rewrite easeInOutCubic_0.
  literal_bounds. apply glsl_clamp_le_lo. lra.
Qed.

Lemma foliageBlend_1 s t aRandom :
  0 <= aRandom < 1 -> Shader.foliageBlend 1 s t aRandom = t.
Proof.
  intros H. unfold Shader.foliageBlend.
  rewrite (foliageDelayedT_1 _ H). apply glsl_mix_one.
Qed.

Lemma spiralBlend_1 s t aRandom :
  0 <= aRandom < 1 -> Shader.spiralBlend 1 s t aRandom = t.
Proof.
  intros H. unfold Shader.spiralBlend.
  rewrite (spiralDelayedT_1 _ H). apply glsl_mix_one.
Qed.

(** C1. In both staggered blends, for every phase [aRandom] in [0,1): at
    progress 1 the delayed factor is 1 and the blended position is the tree
    position, and at progress 0 the delayed factor is 0 and the blended
    position is the scatter position. *)
Theorem staggered_blend_endpoints (aScatterPos aTreePos : vec3) (aRandom : R) :
  0 <= aRandom < 1 ->
  (Shader.foliageDelayedT 1 aRandom = 1
   /\ Shader.foliageBlend 1 aScatterPos aTreePos aRandom = aTreePos)
  /\ (Shader.foliageDelayedT 0 aRandom = 0
   /\ Shader.foliageBlend 0 aScatterPos aTreePos aRandom = aScatterPos)
  /\ (Shader.spiralDelayedT 1 aRandom = 1
   /\ Shader.spiralBlend 1 aScatterPos aTreePos aRandom = aTreePos)
  /\ (Shader.spiralDelayedT 0 aRandom = 0
   /\ Shader.spiralBlend 0 aScatterPos aTreePos aRandom = aScatterPos).
Proof.
  intros H. unfold Shader.foliageBlend, Shader.spiralBlend.
  rewrite (foliageDelayedT_1 _ H), (foliageDelayedT_0 _ H),
          (spiralDelayedT_1 _ H), (spiralDelayedT_0 _ H).
  rewrite !glsl_mix_one, !glsl_mix_zero. repeat split; reflexivity.
Qed.

Lemma staggered_blend_endpoints_witness :
  0 <= 1/2 < 1
  /\ Shader.foliageBlend 1 (Vector3.mk 3 4 5) (Vector3.mk 1 2 0) (1/2)
     = Vector3.mk 1 2 0
  /\ Shader.spiralBlend 0 (Vector3.mk 3 4 5) (Vector3.mk 1 2 0) (1/2)
     = Vector3.mk 3 4 5.
Proof.
  assert (Hr : 0 <= 1/2 < 1) by lra.
  destruct (staggered_blend_endpoints (Vector3.mk 3 4 5) (Vector3.mk 1 2 0)
              (1/2) Hr) as [[_ H1] [_ [_ [_ H2]]]].
  split; [exact Hr | split; assumption].
Defined.

(** ** The progress controller *)

Section DampBounds.

Variables (tau delta : R).
Hypothesis tau_pos : 0 < tau.
Hypothesis delta_nonneg : 0 <= delta.

Lemma decay_bounds : 0 < exp (- delta / tau) <= 1.
Proof.
  split; [apply exp_pos |].
  rewrite <- exp_0.
  destruct delta_nonneg as [Hlt | Heq].
  - left. apply exp_increasing.
    unfold Rdiv. rewrite <- Ropp_mult_distr_l.
    apply Ropp_lt_gt_0_contravar. apply Rmult_lt_0_compat; [lra |].
    now apply Rinv_0_lt_compat.
  - right. rewrite <- Heq. f_equal. unfold Rdiv. ring.
Qed.

Lemma damp_toward_one p :
  0 <= p <= 1 -> p <= Easing.damp p 1 tau delta <= 1.
Proof.
  intros Hp. unfold Easing.damp. pose proof decay_bounds as Hd. nra.
Qed.

Lemma damp_toward_zero p :
  0 <= p <= 1 -> 0 <= Easing.damp p 0 tau delta <= p.
Proof.
  intros Hp. unfold Easing.damp. pose proof decay_bounds as Hd. nra.
Qed.

End DampBounds.

(** C2. With a positive time constant, any delta >= 0 and a target in {0,1},
    one update keeps the progress in [0,1], moves it toward the target and
    never past it; the per-frame steps of the foliage (time constant 1.5)
    and of the garland (1.2) are such updates, so they keep [uProgress]
    in [0,1] whatever the requested state. *)
Theorem progress_stays_in_range (tau delta p : R) (treeState : TreeState)
    (mounted : bool) (elapsedTime : R) (u : Progress.Uniforms) :
  0 < tau -> 0 <= delta -> 0 <= p <= 1 -> 0 <= Progress.uProgress u <= 1 ->
  (p <= Easing.damp p 1 tau delta <= 1)
  /\ (0 <= Easing.damp p 0 tau delta <= p)
  /\ (0 <= Easing.damp p (Progress.targetProgress treeState) tau delta <= 1)
  /\ (0 <= Progress.uProgress
             (Progress.foliageFrame mounted treeState elapsedTime delta u) <= 1)
  /\ (0 <= Progress.uProgress
             (Progress.garlandFrame mounted treeState elapsedTime delta u) <= 1).
Proof.
  intros Htau Hdelta Hp Hu.
  pose proof (damp_toward_one tau delta Htau Hdelta p Hp) as H1.
  pose proof (damp_toward_zero tau delta Htau Hdelta p Hp) as H0.
  assert (H15 : 0 < 1.5) by lra. assert (H12 : 0 < 1.2) by lra.
  pose proof (damp_toward_one 1.5 delta H15 Hdelta _ Hu) as F1.
  pose proof (damp_toward_zero 1.5 delta H15 Hdelta _ Hu) as F0.
  pose proof (damp_toward_one 1.2 delta H12 Hdelta _ Hu) as G1.
  pose proof (damp_toward_zero 1.2 delta H12 Hdelta _ Hu) as G0.
  unfold Progress.foliageFrame, Progress.garlandFrame, Progress.targetProgress.
  literal_bounds.
  destruct mounted, treeState; simpl; repeat split; lra.
Qed.

Lemma progress_stays_in_range_witness :
  0 <= Easing.damp 0.25 1 1.5 1000000 <= 1
  /\ 0 <= Easing.damp 0.25 0 1.5 1000000 <= 0.25.
Proof.
  assert (Htau : 0 < 1.5) by lra.
  assert (Hdelta : 0 <= 1000000) by lra.
  assert (Hp : 0 <= 0.25 <= 1) by lra.
  destruct (progress_stays_in_range 1.5 1000000 0.25 TREE_SHAPE true 0
              (Progress.mkUniforms 0 0.25) Htau Hdelta Hp Hp)
    as [H1 [H0 _]].
  split; [lra | exact H0].
Defined.

(** ** The end-to-end scenario of the progress controller *)

Lemma exp_double_bounds x l u l' u' :
  l <= exp x <= u -> 0 <= l -> l' <= l * l -> u * u <= u' ->
  l' <= exp (2 * x) <= u'.
Proof.
  intros [Hl Hu] Hl0 Hl' Hu'.
  replace (2 * x) with (x + x) by ring. rewrite exp_plus.
  pose proof (exp_pos x). split; nra.
Qed.

Lemma exp_minus_1_bounds : 0.3676718 <= exp (-1) <= 0.3680824.
Proof.
  assert (H : 0.9990234 <= exp (- / 1024) <= 0.9990244).
  { split.
    - pose proof (exp_ineq1_le (- / 1024)). lra.
    - rewrite exp_Ropp. pose proof (exp_ineq1_le (/ 1024)).
      pose proof (exp_pos (/ 1024)).
      apply Rle_trans with (/ (1 + / 1024)); [| lra].
      apply Rinv_le_contravar; lra. }
  apply (exp_double_bounds _ _ _ 0.9980477 0.9980498) in H; [| lra | lra | lra].
  apply (exp_double_bounds _ _ _ 0.9960992 0.9961035) in H; [| lra | lra | lra].
  apply (exp_double_bounds _ _ _ 0.9922136 0.9922222) in H; [| lra | lra | lra].
  apply (exp_double_bounds _ _ _ 0.9844878 0.9845049) in H; [| lra | lra | lra].
  apply (exp_double_bounds _ _ _ 0.9692162 0.9692499) in H; [| lra | lra | lra].
  apply (exp_double_bounds _ _ _ 0.9393800 0.9394454) in H; [| lra | lra | lra].
  apply (exp_double_bounds _ _ _ 0.8824347 0.8825577) in H; [| lra | lra | lra].
  apply (exp_double_bounds _ _ _ 0.7786909 0.7789081) in H; [| lra | lra | lra].
  apply (exp_double_bounds _ _ _ 0.6063595 0.6066979) in H; [| lra | lra | lra].
  apply (exp_double_bounds _ _ _ 0.3676718 0.3680824) in H; [| lra | lra | lra].
  replace (-1) with (2 * (2 * (2 * (2 * (2 * (2 * (2 * (2 * (2 * (2 * - / 1024))))))))))
    by lra.
  exact H.
Qed.

Lemma exp_minus_3_bounds : 0.0497 <= exp (-3) <= 0.0499.
Proof.
  replace (-3) with (-1 + (-1 + -1)) by ring. rewrite !exp_plus.
  pose proof exp_minus_1_bounds as H. split; nra.
Qed.

(** C4. With time constant 1, progress 0 and target 1, the update with
    delta = 1 gives 1 - exp(-1), which is 0.632 up to 0.0005; a further
    update with delta = 2 gives 1 - exp(-3), which is 0.950 up to 0.0005. *)
Theorem progress_scenario :
  let p1 := Easing.damp 0 (Progress.targetProgress TREE_SHAPE) 1.0 1.0 in
  let p2 := Easing.damp p1 (Progress.targetProgress TREE_SHAPE) 1.0 2.0 in
  p1 = 1 - exp (-1) /\ Rabs (p1 - 0.632) < 0.0005
  /\ p2 = 1 - exp (-3) /\ Rabs (p2 - 0.950) < 0.0005.
Proof.
  cbv zeta. unfold Progress.targetProgress. cbn [isTreeShape].
  unfold Easing.damp.
  assert (E1 : 1.0 - (1.0 - 0) * exp (- (1.0) / 1.0) = 1 - exp (-1)).
  { replace (- (1.0) / 1.0) with (-1) by lra. lra. }
  rewrite E1.
  assert (E2 : 1.0 - (1.0 - (1 - exp (-1))) * exp (- (2.0) / 1.0) = 1 - exp (-3)).
  { replace (- (2.0) / 1.0) with (-2) by lra.
    replace (-3) with (-1 + -2) by ring. rewrite exp_plus. lra. }
  rewrite E2.
  pose proof exp_minus_1_bounds. pose proof exp_minus_3_bounds.
  repeat split; try reflexivity; apply Rabs_def1; lra.
Qed.

(** ** The lag factor of the weighted ornaments *)

Lemma jsclamp_bounds v : 0 <= JSMath.clamp v 0 1 <= 1.
Proof.
  unfold JSMath.clamp, Rmax, Rmin.
  destruct (Rle_dec 1 v); destruct (Rle_dec 0 _); lra.
Qed.

Lemma jsclamp_mono v v' : v' <= v -> JSMath.clamp v' 0 1 <= JSMath.clamp v 0 1.
Proof.
  intros H. unfold JSMath.clamp, Rmax, Rmin.
  destruct (Rle_dec 1 v); destruct (Rle_dec 1 v');
    repeat match goal with |- context [Rle_dec ?a ?b] => destruct (Rle_dec a b) end;
    lra.
Qed.

Lemma rate_antitone weight weight' :
  0 <= weight -> weight <= weight' ->
  2.0 / (weight' + 0.5) <= 2.0 / (weight + 0.5).
Proof.
  intros H0 Hle. unfold Rdiv. apply Rmult_le_compat_l; [lra |].
  apply Rinv_le_contravar; lra.
Qed.

(** C8. For delta >= 0 and weight >= 0 (weight 0 included) the divisor
    [weight + 0.5] is positive, the lag factor lies in [0,1], and a heavier
    weight never gives a larger factor. *)
Theorem lerpFactor_guarded (delta weight weight' : R) :
  0 <= delta -> 0 <= weight -> weight <= weight' ->
  0 < weight + 0.5
  /\ OrnamentGroup.lerpFactor weight delta
     = JSMath.clamp (delta * (2.0 / (weight + 0.5))) 0 1
  /\ 0 <= OrnamentGroup.lerpFactor weight delta <= 1
  /\ OrnamentGroup.lerpFactor weight' delta <= OrnamentGroup.lerpFactor weight delta.
Proof.
  intros Hd Hw Hle. split; [lra |]. split; [reflexivity |].
  split; [apply jsclamp_bounds |].
  unfold OrnamentGroup.lerpFactor. apply jsclamp_mono.
  apply Rmult_le_compat_l; [exact Hd |]. now apply rate_antitone.
Qed.

Lemma lerpFactor_guarded_witness :
  0 < 0 + 0.5
  /\ 0 <= OrnamentGroup.lerpFactor 0 (1/60) <= 1
  /\ OrnamentGroup.lerpFactor 0.3 (1/60) <= OrnamentGroup.lerpFactor 0 (1/60).
Proof.
  assert (Hd : 0 <= 1/60) by lra.
  assert (Hw : 0 <= 0) by lra.
  assert (Hle : 0 <= 0.3) by lra.
  destruct (lerpFactor_guarded (1/60) 0 0.3 Hd Hw Hle) as [H1 [_ [H2 H3]]].
  split; [exact H1 | split; [exact H2 | exact H3]].
Defined.

(** ** Powers of a draw *)

Lemma jspow_unit x y : 0 <= x < 1 -> 0 < y -> 0 <= JSMath.pow x y < 1.
Proof.
  intros [Hx0 Hx1] Hy. unfold JSMath.pow.
  destruct (Rlt_dec 0 x) as [Hpos | _]; [| lra].
  unfold Rpower. split; [left; apply exp_pos |].
  rewrite <- exp_0. apply exp_increasing.
  assert (Hln : ln x < 0) by (rewrite <- ln_1; apply ln_increasing; lra).
  nra.
Qed.

Lemma jspow_nat x (n : nat) :
  0 <= x -> (0 < n)%nat -> JSMath.pow x (INR n) = x ^ n.
Proof.
  intros Hx Hn. unfold JSMath.pow.
  destruct (Rlt_dec 0 x) as [Hpos | Hnpos].
  - now apply Rpower_pow.
  - assert (x = 0) by lra. subst x. symmetry. apply pow_i. exact Hn.
Qed.

Lemma jspow_6 x : 0 <= x -> JSMath.pow x 6.0 = x ^ 6.
Proof.
  intros Hx. replace 6.0 with (INR 6) by (simpl; lra).
  apply jspow_nat; [exact Hx | lia].
Qed.

(** ** Ornament targets stay below the star *)

Lemma target_heights (phase t r u1 u2 : R) :
  0 <= t < 1 -> 0 <= r < 1 ->
  let sp := Sampler.spiralPoint 11 4.8 (-1) phase t u1 u2 in
  let tb := Sampler.tinyBaublePoint 11 4.6 (-1) r u1 u2 in
  let gb := Sampler.giftBoxPoint 12 5.5 (-1) r u1 u2 in
  (Sampler.relativeHeightOf 11 (-1) sp <= 0.85 /\ Vector3.y sp <= 2.85)
  /\ (Sampler.relativeHeightOf 11 (-1) tb <= 0.9 /\ Vector3.y tb <= 3.4)
  /\ (Sampler.relativeHeightOf 12 (-1) gb <= 0.6 /\ Vector3.y gb <= 0.2).
Proof.
  intros Ht Hr.
  assert (H15 : 0 <= JSMath.pow t 1.5 < 1) by (apply jspow_unit; lra).
  assert (H25 : 0 <= JSMath.pow r 2.5 < 1) by (apply jspow_unit; lra).
  assert (H28 : 0 <= JSMath.pow r 2.8 < 1) by (apply jspow_unit; lra).
  unfold Sampler.relativeHeightOf, Sampler.spiralPoint, Sampler.tinyBaublePoint,
    Sampler.giftBoxPoint, Sampler.spiralRelativeHeight.
  cbv zeta. cbn [Vector3.y].
  repeat split; lra.
Qed.

Lemma deref_snoc (h : list vec3) (v : vec3) : deref (h ++ [v]) (length h) = v.
Proof. unfold deref. now rewrite list_lookup_middle. Qed.

Lemma getWeightedFoliagePoint_value height baseRadius yOffset w :
  resultOf (Sampler.getWeightedFoliagePoint height baseRadius yOffset w)
  = Sampler.weightedFoliagePoint height baseRadius yOffset
      (randoms w (cursor w)) (randoms w (S (cursor w)))
      (randoms w (S (S (cursor w)))).
Proof. apply deref_snoc. Qed.

Lemma getSpiralPoint_value height baseRadius yOffset phase w :
  resultOf (Sampler.getSpiralPoint height baseRadius yOffset phase w)
  = Sampler.spiralPoint height baseRadius yOffset phase
      (randoms w (cursor w)) (randoms w (S (cursor w)))
      (randoms w (S (S (cursor w)))).
Proof. apply deref_snoc. Qed.

Lemma getTinyBaublePoint_value height baseRadius yOffset w :
  resultOf (Sampler.getTinyBaublePoint height baseRadius yOffset w)
  = Sampler.tinyBaublePoint height baseRadius yOffset
      (randoms w (cursor w)) (randoms w (S (cursor w)))
      (randoms w (S (S (cursor w)))).
Proof. apply deref_snoc. Qed.

Lemma getGiftBoxPoint_value height baseRadius yOffset w :
  resultOf (Sampler.getGiftBoxPoint height baseRadius yOffset w)
  = Sampler.giftBoxPoint height baseRadius yOffset
      (randoms w (cursor w)) (randoms w (S (cursor w)))
      (randoms w (S (S (cursor w)))).
Proof. apply deref_snoc. Qed.

(** C10. When [Math.random()] returns values in [0,1), whatever they are:
    the vector returned by [getSpiralPoint(11, 4.8, -1, phase)] has relative
    height at most 0.85 and y <= 2.85, the one returned by
    [getTinyBaublePoint(11, 4.6, -1)] relative height at most 0.9 and
    y <= 3.4, the one returned by [getGiftBoxPoint(12, 5.5, -1)] relative
    height at most 0.6 and y <= 0.2; all three are below the star, which
    sits at y = 5.6. *)
Theorem ornaments_below_star (phase : R) (w : World) :
  (forall n, 0 <= randoms w n < 1) ->
  let sp := resultOf (Sampler.getSpiralPoint 11 4.8 (-1) phase w) in
  let tb := resultOf (Sampler.getTinyBaublePoint 11 4.6 (-1) w) in
  let gb := resultOf (Sampler.getGiftBoxPoint 12 5.5 (-1) w) in
  (Sampler.relativeHeightOf 11 (-1) sp <= 0.85 /\ Vector3.y sp <= 2.85)
  /\ (Sampler.relativeHeightOf 11 (-1) tb <= 0.9 /\ Vector3.y tb <= 3.4)
  /\ (Sampler.relativeHeightOf 12 (-1) gb <= 0.6 /\ Vector3.y gb <= 0.2)
  /\ Vector3.y sp < Vector3.y topStarTreePos
  /\ Vector3.y tb < Vector3.y topStarTreePos
  /\ Vector3.y gb < Vector3.y topStarTreePos.
Proof.
  intros Hrnd. cbv zeta.
  rewrite getSpiralPoint_value, getTinyBaublePoint_value, getGiftBoxPoint_value.
  destruct (target_heights phase (randoms w (cursor w)) (randoms w (cursor w))
              (randoms w (S (cursor w))) (randoms w (S (S (cursor w))))
              (Hrnd _) (Hrnd _)) as ((S1 & S2) & (T1 & T2) & (G1 & G2)).
  unfold topStarTreePos. cbn [Vector3.y].
  repeat split; assumption || lra.
Qed.

Lemma ornaments_below_star_witness :
  let w := mkWorld (fun _ => 0.5) 0%nat [] [] in
  (forall n, 0 <= randoms w n < 1)
  /\ Vector3.y (resultOf (Sampler.getSpiralPoint 11 4.8 (-1) PI w)) <= 2.85.
Proof.
  intros w.
  assert (Hrnd : forall n, 0 <= randoms w n < 1) by (intros n; simpl; lra).
  destruct (ornaments_below_star PI w Hrnd) as [[_ H] _].
  split; [exact Hrnd | exact H].
Defined.

(** ** How much of the foliage falls in the lower half *)

Lemma pow_lt_mono a b (n : nat) : 0 <= a < b -> (0 < n)%nat -> a ^ n < b ^ n.
Proof.
  intros [Ha Hab] Hn. induction n as [| n IH]; [lia |].
  destruct n as [| n].
  - simpl. lra.
  - assert (IH' : a ^ S n < b ^ S n) by (apply IH; lia).
    assert (Hpos : 0 <= a ^ S n) by (apply pow_le; exact Ha).
    change (a * a ^ S n < b * b ^ S n). nra.
Qed.

Lemma pow_le_iff a b (n : nat) :
  0 <= a -> 0 <= b -> (0 < n)%nat -> (a ^ n <= b ^ n <-> a <= b).
Proof.
  intros Ha Hb Hn. split.
  - intros Hle. destruct (Rle_lt_dec a b) as [H | H]; [exact H |].
    assert (b ^ n < a ^ n) by (apply pow_lt_mono; [lra | exact Hn]). lra.
  - intros Hle. apply pow_incr. lra.
Qed.

Lemma halfThreshold_pos : 0 < halfThreshold.
Proof. unfold halfThreshold, Rpower. apply exp_pos. Qed.

Lemma halfThreshold_pow6 : halfThreshold ^ 6 = 1 / 2.
Proof.
  rewrite <- (Rpower_pow 6 _ halfThreshold_pos).
  unfold halfThreshold. rewrite Rpower_mult.
  replace (/ 6 * INR 6) with 1 by (simpl; lra).
  apply Rpower_1. lra.
Qed.

Lemma halfThreshold_bounds : 0.89 < halfThreshold < 0.891.
Proof.
  pose proof halfThreshold_pos as Hpos. pose proof halfThreshold_pow6 as H6.
  split.
  - destruct (Rlt_le_dec 0.89 halfThreshold) as [H | H]; [exact H |].
    assert (Hc : halfThreshold ^ 6 <= 0.89 ^ 6) by (apply pow_incr; lra).
    rewrite H6 in Hc. simpl in Hc. lra.
  - destruct (Rlt_le_dec halfThreshold 0.891) as [H | H]; [exact H |].
    assert (Hc : 0.891 ^ 6 <= halfThreshold ^ 6) by (apply pow_incr; lra).
    rewrite H6 in Hc. simpl in Hc. lra.
Qed.

Lemma foliage_point_bottom_iff height baseRadius yOffset r u1 u2 :
  0 < height -> 0 <= r ->
  (inBottomHalf height yOffset
     (Vector3.y (Sampler.weightedFoliagePoint height baseRadius yOffset r u1 u2))
   <-> r ^ 6 <= 1 / 2).
Proof.
  intros Hh Hr. unfold inBottomHalf, Sampler.weightedFoliagePoint.
  cbv zeta. cbn [Vector3.y]. rewrite (jspow_6 r Hr). split; intros H; nra.
Qed.

Lemma foliageBottomDraw_iff height baseRadius yOffset r :
  0 < height -> 0 <= r ->
  (foliageBottomDraw height baseRadius yOffset r <-> r ^ 6 <= 1 / 2).
Proof.
  intros Hh Hr. unfold foliageBottomDraw. split.
  - intros H. exact (proj1 (foliage_point_bottom_iff _ _ _ _ 0 0 Hh Hr) (H 0 0)).
  - intros H u1 u2. now apply foliage_point_bottom_iff.
Qed.

Lemma pow6_le_half_iff u : 0 <= u -> (u ^ 6 <= 1 / 2 <-> u <= halfThreshold).
Proof.
  intros Hu. rewrite <- halfThreshold_pow6.
  apply pow_le_iff; [exact Hu | left; exact halfThreshold_pos | lia].
Qed.

Lemma foliage_bottom_segment height baseRadius yOffset :
  0 < height ->
  initialSegment (foliageBottomDraw height baseRadius yOffset) halfThreshold.
Proof.
  intros Hh. pose proof halfThreshold_bounds as Hb.
  split; [lra |]. intros u [Hu0 Hu1].
  rewrite (foliageBottomDraw_iff _ _ _ _ Hh Hu0). now apply pow6_le_half_iff.
Qed.

(** C6, amended. For a positive height, the draws that put a foliage point
    in the lower half of the vertical range form the initial segment
    [0,m] with m^6 = 1/2, and 0.89 < m < 0.891: about 89% of the uniform
    measure, which is less than 95%. The vector returned by
    [getWeightedFoliagePoint] is in the lower half exactly when the first
    value it reads from [Math.random()] is at most m. *)
Theorem bias6_bottom_half_measure (height baseRadius yOffset : R) :
  0 < height ->
  exists m,
    initialSegment (foliageBottomDraw height baseRadius yOffset) m
    /\ m ^ 6 = 1 / 2 /\ 0.89 < m < 0.891
    /\ forall w, (forall n, 0 <= randoms w n < 1) ->
         (inBottomHalf height yOffset
            (Vector3.y (resultOf (Sampler.getWeightedFoliagePoint
                                    height baseRadius yOffset w)))
          <-> randoms w (cursor w) <= m).
Proof.
  intros Hh. exists halfThreshold.
  split; [now apply foliage_bottom_segment |].
  split; [exact halfThreshold_pow6 |].
  split; [exact halfThreshold_bounds |].
  intros w Hrnd. rewrite getWeightedFoliagePoint_value.
  destruct (Hrnd (cursor w)) as [H0 _].
  rewrite (foliage_point_bottom_iff _ _ _ _ _ _ Hh H0).
  now apply pow6_le_half_iff.
Qed.

Lemma bias6_bottom_half_measure_witness :
  0 < 12
  /\ exists m,
       initialSegment (foliageBottomDraw 12 4.5 (-1)) m
       /\ m ^ 6 = 1 / 2 /\ 0.89 < m < 0.891.
Proof.
  assert (Hh : 0 < 12) by lra.
  split; [exact Hh |].
  destruct (bias6_bottom_half_measure 12 4.5 (-1) Hh) as (m & H1 & H2 & H3 & _).
  exists m. split; [exact H1 | split; [exact H2 | exact H3]].
Defined.

(** C6 as stated fails for the foliage call [getWeightedFoliagePoint(12,
    4.5, -1)]: the draws landing in the lower half are exactly those up to
    [halfThreshold], which is below 0.95; the draw 0.9, for one, lands in
    the upper half (y > -1). *)
Lemma bias6_bottom_half_below_95 :
  initialSegment (foliageBottomDraw 12 4.5 (-1)) halfThreshold
  /\ halfThreshold < 0.95
  /\ 0 <= 0.9 < 0.95
  /\ -1 < Vector3.y (Sampler.weightedFoliagePoint 12 4.5 (-1) 0.9 0 0).
Proof.
  split; [apply foliage_bottom_segment; lra |].
  split; [pose proof halfThreshold_bounds; lra |].
  split; [lra |].
  unfold Sampler.weightedFoliagePoint. cbv zeta. cbn [Vector3.y].
  rewrite jspow_6 by lra. simpl. lra.
Qed.

(** ** The scatter sampler *)

Lemma cbrt_cube w : JSMath.cbrt w ^ 3 = w.
Proof.
  assert (Hpos : forall a, 0 < a -> Rpower a (/ 3) ^ 3 = a).
  { intros a Ha.
    rewrite <- (Rpower_pow 3); [| unfold Rpower; apply exp_pos].
    rewrite Rpower_mult. replace (/ 3 * INR 3) with 1 by (simpl; lra).
    now apply Rpower_1. }
  unfold JSMath.cbrt.
  destruct (Rlt_dec 0 w) as [H | H]; [now apply Hpos |].
  destruct (Rlt_dec w 0) as [H' | H'].
  - assert (E : Rpower (- w) (/ 3) ^ 3 = - w) by (apply Hpos; lra).
    simpl in *. nra.
  - assert (w = 0) by lra. subst w. simpl. ring.
Qed.

Lemma cbrt_nonneg w : 0 <= w -> 0 <= JSMath.cbrt w.
Proof.
  intros Hw. unfold JSMath.cbrt.
  destruct (Rlt_dec 0 w) as [H | H]; [left; unfold Rpower; apply exp_pos |].
  destruct (Rlt_dec w 0); lra.
Qed.

Lemma cbrt_unit w : 0 <= w < 1 -> 0 <= JSMath.cbrt w < 1.
Proof.
  intros [H0 H1]. pose proof (cbrt_nonneg w H0) as Hc. split; [exact Hc |].
  destruct (Rlt_le_dec (JSMath.cbrt w) 1) as [H | H]; [exact H |].
  assert (Hp : 1 ^ 3 <= JSMath.cbrt w ^ 3) by (apply pow_incr; lra).
  rewrite cbrt_cube in Hp. simpl in Hp. lra.
Qed.

Lemma spherePoint_lengthSq radius u v w :
  Vector3.lengthSq (Sampler.spherePoint radius u v w)
  = (JSMath.cbrt w * radius) * (JSMath.cbrt w * radius).
Proof.
  unfold Sampler.spherePoint, Vector3.lengthSq. cbv zeta.
  cbn [Vector3.x Vector3.y Vector3.z].
  pose proof (sin2_cos2 (2 * PI * u)) as Ht.
  pose proof (sin2_cos2 (acos (2 * v - 1))) as Hp.
  unfold Rsqr in Ht, Hp.
  set (st := sin (2 * PI * u)) in *. set (ct := cos (2 * PI * u)) in *.
  set (sp := sin (acos (2 * v - 1))) in *.
  set (cp := cos (acos (2 * v - 1))) in *.
  set (r := JSMath.cbrt w * radius).
  replace (r * sp * ct * (r * sp * ct) + r * sp * st * (r * sp * st)
           + r * cp * (r * cp))
    with (r * r * (sp * sp * (st * st + ct * ct) + cp * cp)) by ring.
  rewrite Ht. replace (sp * sp * 1 + cp * cp) with (sp * sp + cp * cp) by ring.
  rewrite Hp. ring.
Qed.

Lemma spherePoint_length radius u v w :
  0 <= radius -> 0 <= w ->
  Vector3.length (Sampler.spherePoint radius u v w) = JSMath.cbrt w * radius.
Proof.
  intros Hr Hw. unfold Vector3.length. rewrite spherePoint_lengthSq.
  apply sqrt_square. pose proof (cbrt_nonneg w Hw). nra.
Qed.

Lemma spherePoint_uniform (radius u v w : R) :
  0 < radius -> 0 <= u < 1 -> 0 <= v < 1 -> 0 <= w < 1 ->
  let p := Sampler.spherePoint radius u v w in
  let theta := 2 * PI * u in
  let phi := acos (2 * v - 1) in
  let rho := JSMath.cbrt w * radius in
  p = Vector3.mk (rho * sin phi * cos theta) (rho * sin phi * sin theta)
                 (rho * cos phi)
  /\ 0 <= theta < 2 * PI
  /\ 0 <= phi <= PI
  /\ 0 <= rho
  /\ Vector3.length p = rho
  /\ Vector3.length p <= radius
  /\ forall rho0 c0 theta0,
       0 <= rho0 <= radius -> -1 <= c0 <= 1 -> 0 <= theta0 <= 2 * PI ->
       ((Vector3.length p <= rho0 /\ cos phi <= c0 /\ theta <= theta0)
        <-> (w <= (rho0 / radius) ^ 3 /\ v <= (c0 + 1) / 2
             /\ u <= theta0 / (2 * PI)))
       /\ boxMeasure ((rho0 / radius) ^ 3) ((c0 + 1) / 2) (theta0 / (2 * PI))
          = sphericalCellVolume rho0 c0 theta0 / ballVolume radius.
Proof.
  intros Hr Hu Hv Hw. cbv zeta.
  pose proof PI_RGT_0 as Hpi.
  pose proof (cbrt_unit w Hw) as Hc.
  assert (Hlen : Vector3.length (Sampler.spherePoint radius u v w)
                 = JSMath.cbrt w * radius)
    by (apply spherePoint_length; lra).
  split; [reflexivity |].
  split; [split; nra |].
  split; [apply acos_bound |].
  split; [nra |].
  split; [exact Hlen |].
  split; [rewrite Hlen; nra |].
  intros rho0 c0 theta0 Hrho Hc0 Hth.
  rewrite Hlen, cos_acos by lra.
  assert (Hq : 0 <= rho0 / radius).
  { unfold Rdiv. apply Rmult_le_pos; [lra |].
    left. apply Rinv_0_lt_compat. exact Hr. }
  assert (Hradial : JSMath.cbrt w * radius <= rho0 <-> w <= (rho0 / radius) ^ 3).
  { rewrite <- (cbrt_cube w) at 2.
    rewrite pow_le_iff by (lra || lia).
    split; intros H.
    - apply Rmult_le_reg_r with radius; [exact Hr |].
      unfold Rdiv. rewrite Rmult_assoc, Rinv_l by lra. lra.
    - apply Rmult_le_compat_r with (r := radius) in H; [| lra].
      unfold Rdiv in H. rewrite Rmult_assoc, Rinv_l in H by lra. lra. }
  assert (Hazimuth : 2 * PI * u <= theta0 <-> u <= theta0 / (2 * PI)).
  { split; intros H.
    - apply Rmult_le_reg_r with (2 * PI); [lra |].
      unfold Rdiv. rewrite Rmult_assoc, Rinv_l by lra. lra.
    - apply Rmult_le_compat_r with (r := 2 * PI) in H; [| lra].
      unfold Rdiv in H. rewrite Rmult_assoc, Rinv_l in H by lra. lra. }
  split.
  - rewrite Hradial, Hazimuth. split; intros [H1 [H2 H3]]; repeat split;
      assumption || lra.
  - unfold boxMeasure, sphericalCellVolume, ballVolume. field. lra.
Qed.

Lemma getRandomSpherePoint_value radius w :
  resultOf (Sampler.getRandomSpherePoint radius w)
  = sphereDraw (randoms w) radius (cursor w).
Proof. apply deref_snoc. Qed.

(** C7. For a positive radius, when [Math.random()] returns values in
    [0,1) and [u], [v], [w] are the next three of them, the vector returned
    by [getRandomSpherePoint(radius)] has azimuth 2*PI*u in [0, 2*PI),
    polar angle acos(2v - 1) in [0, PI] and radial distance
    cbrt(w) * radius, so it lies in the closed ball of that radius. The
    point falls in the cell "radial distance <= rho0, cosine of the polar
    angle <= c0, azimuth <= theta0" exactly when the draws fall in a box
    whose measure is the volume of the cell divided by the volume of the
    ball: the distribution of the point is uniform by volume. *)
Theorem sphere_sampler_uniform (radius : R) (world : World) :
  0 < radius -> (forall n, 0 <= randoms world n < 1) ->
  let u := randoms world (cursor world) in
  let v := randoms world (S (cursor world)) in
  let w := randoms world (S (S (cursor world))) in
  let p := resultOf (Sampler.getRandomSpherePoint radius world) in
  let theta := 2 * PI * u in
  let phi := acos (2 * v - 1) in
  let rho := JSMath.cbrt w * radius in
  p = Vector3.mk (rho * sin phi * cos theta) (rho * sin phi * sin theta)
                 (rho * cos phi)
  /\ 0 <= theta < 2 * PI
  /\ 0 <= phi <= PI
  /\ 0 <= rho
  /\ Vector3.length p = rho
  /\ Vector3.length p <= radius
  /\ forall rho0 c0 theta0,
       0 <= rho0 <= radius -> -1 <= c0 <= 1 -> 0 <= theta0 <= 2 * PI ->
       ((Vector3.length p <= rho0 /\ cos phi <= c0 /\ theta <= theta0)
        <-> (w <= (rho0 / radius) ^ 3 /\ v <= (c0 + 1) / 2
             /\ u <= theta0 / (2 * PI)))
       /\ boxMeasure ((rho0 / radius) ^ 3) ((c0 + 1) / 2) (theta0 / (2 * PI))
          = sphericalCellVolume rho0 c0 theta0 / ballVolume radius.
Proof.
  intros Hr Hrnd. cbv zeta. rewrite getRandomSpherePoint_value.
  exact (spherePoint_uniform radius _ _ _ Hr (Hrnd _) (Hrnd _) (Hrnd _)).
Qed.

Lemma sphere_sampler_uniform_witness :
  let world := mkWorld (fun _ => 0.125) 0%nat [] [] in
  0 < 18
  /\ (forall n, 0 <= randoms world n < 1)
  /\ Vector3.length (resultOf (Sampler.getRandomSpherePoint 18 world)) <= 18.
Proof.
  intros world.
  assert (Hr : 0 < 18) by lra.
  assert (Hrnd : forall n, 0 <= randoms world n < 1) by (intros n; simpl; lra).
  destruct (sphere_sampler_uniform 18 world Hr Hrnd)
    as [_ [_ [_ [_ [_ [H _]]]]]].
  split; [exact Hr |]. split; [exact Hrnd | exact H].
Defined.

(** ** Running programs: reads, writes and allocation *)

Lemma deref_app_l (h hs : list vec3) (l : loc) :
  (l < length h)%nat -> deref (h ++ hs) l = deref h l.
Proof. intros H. unfold deref. now rewrite lookup_app_l. Qed.

Lemma deref_insert_eq (h : list vec3) (l : loc) (v : vec3) :
  (l < length h)%nat -> deref (<[l:=v]> h) l = v.
Proof. intros H. unfold deref. now rewrite list_lookup_insert_eq. Qed.

Lemma deref_insert_ne (h : list vec3) (l l' : loc) (v : vec3) :
  l <> l' -> deref (<[l:=v]> h) l' = deref h l'.
Proof. intros H. unfold deref. now rewrite list_lookup_insert_ne. Qed.

Lemma writesWithin_ret {A : Type} (L : list loc) (a : A) : writesWithin L (ret a).
Proof.
  intros w a' w' H. inversion H; subst. repeat split; reflexivity.
Qed.

Lemma writesWithin_bind {A B : Type} (L : list loc) (c : M A) (k : A -> M B) :
  writesWithin L c -> (forall a, writesWithin L (k a)) -> writesWithin L (bind c k).
Proof.
  intros Hc Hk w b w' H. unfold bind in H.
  destruct (c w) as [a w1] eqn:E.
  destruct (Hc _ _ _ E) as (R1 & C1 & S1 & L1 & F1).
  destruct (Hk a _ _ _ H) as (R2 & C2 & S2 & L2 & F2).
  repeat split; try congruence.
  intros l Hl. rewrite F2, F1; auto.
Qed.

Lemma writesWithin_get (L : list loc) (l : loc) : writesWithin L (get l).
Proof.
  intros w a w' H. inversion H; subst. repeat split; reflexivity.
Qed.

Lemma writesWithin_set (L : list loc) (l : loc) (v : vec3) :
  In l L -> writesWithin L (set l v).
Proof.
  intros Hin w a w' H. inversion H; subst; simpl.
  repeat split; try reflexivity.
  - apply length_insert.
  - intros l' Hl'. apply deref_insert_ne. intros ->. contradiction.
Qed.

Lemma writesWithin_mono {A : Type} (L L' : list loc) (c : M A) :
  incl L L' -> writesWithin L c -> writesWithin L' c.
Proof.
  intros Hincl Hc w a w' H. destruct (Hc _ _ _ H) as (R1 & C1 & S1 & L1 & F1).
  repeat split; auto.
Qed.

Lemma writesWithin_addX (L : list loc) l k : In l L -> writesWithin L (addX l k).
Proof.
  intros H. unfold addX. apply writesWithin_bind; [apply writesWithin_get |].
  intros v. now apply writesWithin_set.
Qed.

Lemma writesWithin_addY (L : list loc) l k : In l L -> writesWithin L (addY l k).
Proof.
  intros H. unfold addY. apply writesWithin_bind; [apply writesWithin_get |].
  intros v. now apply writesWithin_set.
Qed.

Lemma writesWithin_lerpInPlace (L : list loc) this v alpha :
  In this L -> writesWithin L (lerpInPlace this v alpha).
Proof.
  intros H. unfold lerpInPlace.
  apply writesWithin_bind; [apply writesWithin_get | intros a].
  apply writesWithin_bind; [apply writesWithin_get | intros b].
  now apply writesWithin_set.
Qed.

Lemma writesWithin_copy (L : list loc) this v :
  In this L -> writesWithin L (copy this v).
Proof.
  intros H. unfold copy. apply writesWithin_bind; [apply writesWithin_get |].
  intros a. now apply writesWithin_set.
Qed.

Lemma writesWithin_matrix (L : list loc) o : writesWithin L (Object3D.matrix o).
Proof.
  unfold Object3D.matrix.
  repeat (apply writesWithin_bind; [apply writesWithin_get | intros ?]).
  apply writesWithin_ret.
Qed.

Lemma writesWithin_forEachFrom {A B : Type} (L : list loc)
    (body : A -> nat -> M B) (data : list A) :
  (forall d i, In d data -> writesWithin L (body d i)) ->
  forall i, writesWithin L (forEachFrom body data i).
Proof.
  induction data as [| d rest IH]; intros Hbody i; simpl.
  - apply writesWithin_ret.
  - apply writesWithin_bind; [apply Hbody; now left | intros b].
    apply writesWithin_bind; [| intros bs; apply writesWithin_ret].
    apply IH. intros d' i' Hin. apply Hbody. now right.
Qed.

(** ** The per-frame updates write only positions in motion and rotations *)

Lemma gift_updateItem_writes tempObject targetIsTree elapsedTime lerpFactor d i :
  writesWithin
    (Object3D.locs tempObject ++ GiftBoxGroup.dynamicLocs d)
    (GiftBoxGroup.updateItem tempObject targetIsTree elapsedTime lerpFactor d i).
Proof.
  unfold GiftBoxGroup.updateItem, Object3D.locs, GiftBoxGroup.dynamicLocs.
  apply writesWithin_bind; [apply writesWithin_lerpInPlace; simpl; tauto |].
  intros _. apply writesWithin_bind.
  { destruct targetIsTree; simpl negb; cbv iota.
    - apply writesWithin_addY; simpl; tauto.
    - apply writesWithin_bind; [apply writesWithin_addY; simpl; tauto |].
      intros _. apply writesWithin_bind; [apply writesWithin_addX; simpl; tauto |].
      intros _. apply writesWithin_addY; simpl; tauto. }
  intros _. apply writesWithin_bind; [apply writesWithin_copy; simpl; tauto |].
  intros _. apply writesWithin_bind; [apply writesWithin_copy; simpl; tauto |].
  intros _. apply writesWithin_bind; [apply writesWithin_copy; simpl; tauto |].
  intros _. apply writesWithin_matrix.
Qed.

Lemma ornament_updateItem_writes tempObject targetIsTree elapsedTime lerpFactor d i :
  writesWithin
    (Object3D.locs tempObject ++ OrnamentGroup.dynamicLocs d)
    (OrnamentGroup.updateItem tempObject targetIsTree elapsedTime lerpFactor d i).
Proof.
  unfold OrnamentGroup.updateItem, Object3D.locs, OrnamentGroup.dynamicLocs.
  apply writesWithin_bind; [apply writesWithin_lerpInPlace; simpl; tauto |].
  intros _. apply writesWithin_bind.
  { destruct targetIsTree; simpl negb; cbv iota.
    - apply writesWithin_ret.
    - apply writesWithin_addY; simpl; tauto. }
  intros _. apply writesWithin_bind; [apply writesWithin_addX; simpl; tauto |].
  intros _. apply writesWithin_bind; [apply writesWithin_addY; simpl; tauto |].
  intros _. apply writesWithin_bind; [apply writesWithin_copy; simpl; tauto |].
  intros _. apply writesWithin_bind; [apply writesWithin_copy; simpl; tauto |].
  intros _. apply writesWithin_bind; [apply writesWithin_copy; simpl; tauto |].
  intros _. apply writesWithin_matrix.
Qed.

Lemma incl_item_writable {A : Type} (f : A -> list loc) (tmp : list loc)
    (data : list A) (d : A) :
  In d data -> incl (tmp ++ f d) (tmp ++ concat (map f data)).
Proof.
  intros Hin l Hl. apply in_app_iff in Hl. apply in_app_iff.
  destruct Hl as [Hl | Hl]; [now left | right].
  apply in_concat. exists (f d). split; [now apply in_map | exact Hl].
Qed.

Lemma gift_useFrame_writes tempObject mounted treeState elapsedTime delta data :
  writesWithin (giftWritable tempObject data)
    (GiftBoxGroup.useFrame tempObject mounted treeState elapsedTime delta data).
Proof.
  unfold GiftBoxGroup.useFrame. destruct mounted; simpl negb; cbv iota;
    [| apply writesWithin_ret].
  apply writesWithin_bind; [| intros ms; apply writesWithin_ret].
  unfold forEach. apply writesWithin_forEachFrom. intros d i Hin.
  eapply writesWithin_mono; [| apply gift_updateItem_writes].
  unfold giftWritable.
  exact (incl_item_writable GiftBoxGroup.dynamicLocs _ data d Hin).
Qed.

Lemma ornament_useFrame_writes tempObject mounted treeState weight elapsedTime
    delta data :
  writesWithin (ornamentWritable tempObject data)
    (OrnamentGroup.useFrame tempObject mounted treeState weight elapsedTime
       delta data).
Proof.
  unfold OrnamentGroup.useFrame. destruct mounted; simpl negb; cbv iota;
    [| apply writesWithin_ret].
  apply writesWithin_bind; [| intros ms; apply writesWithin_ret].
  unfold forEach. apply writesWithin_forEachFrom. intros d i Hin.
  eapply writesWithin_mono; [| apply ornament_updateItem_writes].
  unfold ornamentWritable.
  exact (incl_item_writable OrnamentGroup.dynamicLocs _ data d Hin).
Qed.

Lemma runTicks_writes tempObject weight gifts ornaments ticks :
  writesWithin (giftWritable tempObject gifts ++ ornamentWritable tempObject ornaments)
    (runTicks tempObject weight gifts ornaments ticks).
Proof.
  induction ticks as [| t rest IH]; cbn [runTicks].
  - apply writesWithin_ret.
  - apply writesWithin_bind; [| intros _; exact IH].
    destruct t as [f | f]; cbn [runTick].
    + eapply writesWithin_mono; [| apply gift_useFrame_writes].
      apply incl_appl, incl_refl.
    + eapply writesWithin_mono; [| apply ornament_useFrame_writes].
      apply incl_appr, incl_refl.
Qed.

(** ** Construction only allocates *)

Lemma grows_refl w : grows w w.
Proof. split; [reflexivity | exists []; now rewrite app_nil_r]. Qed.

Lemma grows_trans w1 w2 w3 : grows w1 w2 -> grows w2 w3 -> grows w1 w3.
Proof.
  intros [R1 [h1 H1]] [R2 [h2 H2]]. split; [congruence |].
  exists (h1 ++ h2). rewrite H2, H1. now rewrite app_assoc.
Qed.

Lemma grows_length w w' : grows w w' -> (length (heap w) <= length (heap w'))%nat.
Proof. intros [_ [hs H]]. rewrite H, length_app. lia. Qed.

Lemma grows_random w : grows w (snd (random w)).
Proof. split; [reflexivity | exists []; simpl; now rewrite app_nil_r]. Qed.

Lemma bind_run {A B : Type} (c : M A) (k : A -> M B) w :
  bind c k w = k (fst (c w)) (snd (c w)).
Proof. unfold bind. destruct (c w); reflexivity. Qed.

Lemma getRandomSpherePoint_run radius w :
  Sampler.getRandomSpherePoint radius w
  = (length (heap w),
     mkWorld (randoms w) (S (S (S (cursor w))))
             (heap w ++ [sphereDraw (randoms w) radius (cursor w)])
             (sphereCalls w ++ [radius])).
Proof. reflexivity. Qed.

Lemma getGiftBoxPoint_run height baseRadius yOffset w :
  Sampler.getGiftBoxPoint height baseRadius yOffset w
  = (length (heap w),
     mkWorld (randoms w) (S (S (S (cursor w))))
             (heap w ++ [Sampler.giftBoxPoint height baseRadius yOffset
                           (randoms w (cursor w)) (randoms w (S (cursor w)))
                           (randoms w (S (S (cursor w))))])
             (sphereCalls w)).
Proof. reflexivity. Qed.

Lemma getSpiralPoint_run height baseRadius yOffset phase w :
  Sampler.getSpiralPoint height baseRadius yOffset phase w
  = (length (heap w),
     mkWorld (randoms w) (S (S (S (cursor w))))
             (heap w ++ [Sampler.spiralPoint height baseRadius yOffset phase
                           (randoms w (cursor w)) (randoms w (S (cursor w)))
                           (randoms w (S (S (cursor w))))])
             (sphereCalls w)).
Proof. reflexivity. Qed.

Lemma tooClose_false h sPos e :
  GiftBoxGroup.tooClose h sPos e = false
  <-> GiftBoxGroup.minDistance
      <= Vector3.distanceTo (deref h sPos) (deref h (GiftBoxGroup.scatterPos e)).
Proof. unfold GiftBoxGroup.tooClose. apply Rltb_false. Qed.

Lemma checkPosition_true h sPos items :
  negb (existsb (GiftBoxGroup.tooClose h sPos) items) = true ->
  forall e, In e items ->
    GiftBoxGroup.minDistance
    <= Vector3.distanceTo (deref h sPos) (deref h (GiftBoxGroup.scatterPos e)).
Proof.
  intros H e He. apply tooClose_false.
  apply negb_true_iff in H.
  destruct (GiftBoxGroup.tooClose h sPos e) eqn:E; [| reflexivity].
  assert (existsb (GiftBoxGroup.tooClose h sPos) items = true)
    by (apply existsb_exists; eauto).
  congruence.
Qed.

Lemma placeLoop_spec fuel : forall items sPos0 valid0 a0 w sPos p w',
  GiftBoxGroup.placeLoop fuel items sPos0 valid0 a0 w = ((sPos, p), w') ->
  grows w w'
  /\ (a0 <= GiftBoxGroup.attempts p <= a0 + fuel)%nat
  /\ sphereCalls w' =
     sphereCalls w ++ replicate (GiftBoxGroup.attempts p - a0) 18
  /\ (GiftBoxGroup.attempts p = a0 ->
      sPos = sPos0 /\ GiftBoxGroup.validPosition p = valid0 /\ w' = w)
  /\ ((a0 < GiftBoxGroup.attempts p)%nat ->
      (GiftBoxGroup.attempts p <= 50)%nat
      /\ (length (heap w) <= sPos < length (heap w'))%nat
      /\ (exists c, deref (heap w') sPos = sphereDraw (randoms w) 18 c)
      /\ GiftBoxGroup.validPosition p
         = negb (existsb (GiftBoxGroup.tooClose (heap w') sPos) items))
  /\ ((50 <= a0 + fuel)%nat ->
      GiftBoxGroup.validPosition p = true \/ (50 <= GiftBoxGroup.attempts p)%nat).
Proof.
  induction fuel as [| fuel IH]; intros items sPos0 valid0 a0 w sPos p w' H.
  - simpl in H. inversion H; subst; clear H. simpl.
    split; [apply grows_refl |]. split; [lia |].
    split; [rewrite Nat.sub_diag; simpl; now rewrite app_nil_r |].
    split; [auto |]. split; [lia |]. intros; right; lia.
  - simpl in H.
    destruct (negb valid0 && (a0 <? 50)%nat) eqn:Hcond.
    + apply andb_true_iff in Hcond. destruct Hcond as [Hv Ha].
      apply negb_true_iff in Hv. apply Nat.ltb_lt in Ha.
      unfold bind in H at 1. rewrite getRandomSpherePoint_run in H.
      unfold bind, GiftBoxGroup.checkPosition in H.
      cbn [heap] in H.
      set (w1 := mkWorld (randoms w) (S (S (S (cursor w))))
                   (heap w ++ [sphereDraw (randoms w) 18 (cursor w)])
                   (sphereCalls w ++ [18])) in *.
      apply IH in H.
      destruct H as (G & Hatt & Hcalls & Hsame & Hmore & Hexit).
      assert (G1 : grows w w1) by (split; [reflexivity | eexists; reflexivity]).
      split; [eapply grows_trans; eassumption |].
      split; [lia |].
      split.
      { rewrite Hcalls. subst w1; cbn [sphereCalls]. rewrite <- app_assoc.
        f_equal. replace (GiftBoxGroup.attempts p - a0)%nat
          with (S (GiftBoxGroup.attempts p - (a0 + 1)%nat)%nat) by lia.
        reflexivity. }
      split; [intros; lia |].
      split; [| intros; apply Hexit; lia].
      intros _.
      destruct (Nat.eq_dec (GiftBoxGroup.attempts p) (a0 + 1)%nat) as [E | E].
      * destruct (Hsame E) as (-> & Hvalid & ->).
        split; [lia |]. subst w1. cbn [heap randoms].
        split; [rewrite length_app; simpl; lia |].
        split; [exists (cursor w); apply deref_snoc |].
        exact Hvalid.
      * assert (Hlt : (a0 + 1 < GiftBoxGroup.attempts p)%nat) by lia.
        destruct (Hmore Hlt) as (H50 & Hrange & Hdraw & Hvalid).
        split; [exact H50 |].
        split; [pose proof (grows_length _ _ G1); lia |].
        split; [exact Hdraw | exact Hvalid].
    + inversion H; subst; clear H. simpl.
      split; [apply grows_refl |]. split; [lia |].
      split; [rewrite Nat.sub_diag; simpl; now rewrite app_nil_r |].
      split; [auto |]. split; [lia |].
      intros Hsum. apply andb_false_iff in Hcond.
      destruct Hcond as [Hc | Hc].
      * left. now apply negb_false_iff in Hc.
      * right. apply Nat.ltb_ge in Hc. exact Hc.
Qed.

Lemma placeScatter_spec items w sPos p w' :
  GiftBoxGroup.placeScatter items w = ((sPos, p), w') ->
  grows w w'
  /\ (length (heap w) <= sPos < length (heap w'))%nat
  /\ (1 <= GiftBoxGroup.attempts p <= 50)%nat
  /\ sphereCalls w' =
     sphereCalls w ++ replicate (GiftBoxGroup.attempts p) 18
       ++ (if GiftBoxGroup.validPosition p then [] else [22])
  /\ (GiftBoxGroup.validPosition p = true ->
      (exists c, deref (heap w') sPos = sphereDraw (randoms w) 18 c)
      /\ forall e, In e items ->
           GiftBoxGroup.minDistance
           <= Vector3.distanceTo (deref (heap w') sPos)
                                 (deref (heap w') (GiftBoxGroup.scatterPos e)))
  /\ (GiftBoxGroup.validPosition p = false ->
      GiftBoxGroup.attempts p = 50%nat
      /\ exists c, deref (heap w') sPos = sphereDraw (randoms w) 22 c).
Proof.
  intros H. unfold GiftBoxGroup.placeScatter in H.
  rewrite bind_run in H. cbn [new fst snd] in H.
  rewrite bind_run in H.
  destruct (GiftBoxGroup.placeLoop 50 items _ false 0 _)
    as [[sPos1 p1] w1] eqn:Eloop in H.
  cbn [fst snd] in H.
  apply placeLoop_spec in Eloop.
  destruct Eloop as (G & Hatt & Hcalls & Hsame & Hmore & Hexit).
  cbn [heap randoms sphereCalls] in Hcalls, Hmore.
  rewrite length_app in Hmore. cbn [length] in Hmore.
  assert (G0 : grows w (mkWorld (randoms w) (cursor w)
                                (heap w ++ [Vector3.zero]) (sphereCalls w)))
    by (split; [reflexivity | eexists; reflexivity]).
  assert (Gw : grows w w1) by (eapply grows_trans; eassumption).
  assert (Hpos : (0 < GiftBoxGroup.attempts p1)%nat).
  { destruct (Nat.eq_dec (GiftBoxGroup.attempts p1) 0%nat) as [E | E]; [| lia].
    destruct (Hsame E) as (_ & Hv & _).
    destruct Hexit as [Hx | Hx]; [lia | congruence | lia]. }
  destruct (Hmore Hpos) as (H50 & Hrange & Hdraw & Hvalid).
  rewrite Nat.sub_0_r in Hcalls.
  destruct (GiftBoxGroup.validPosition p1) eqn:Ev; cbn [negb] in H.
  - rewrite bind_run in H. unfold ret in H. cbn [fst snd] in H.
    injection H as <- <- <-. rewrite Ev.
    split; [exact Gw |].
    split; [lia |]. split; [lia |].
    split; [rewrite Hcalls, app_nil_r; reflexivity |].
    split; [| discriminate].
    intros _. split; [exact Hdraw |].
    apply checkPosition_true. now rewrite <- Hvalid.
  - rewrite bind_run, getRandomSpherePoint_run in H. cbn [fst snd] in H.
    unfold ret in H. injection H as <- <- <-. rewrite Ev. cbn [heap sphereCalls].
    assert (R1 : randoms w1 = randoms w) by (destruct Gw; assumption).
    split.
    { eapply grows_trans; [exact Gw |].
      split; [reflexivity | eexists; reflexivity]. }
    split; [rewrite length_app; cbn [length]; lia |].
    split; [lia |].
    split; [rewrite Hcalls, <- app_assoc; reflexivity |].
    split; [discriminate |].
    intros _. split.
    + destruct Hexit as [Hx | Hx]; [lia | congruence | lia].
    + exists (cursor w1). rewrite deref_snoc, R1. reflexivity.
Qed.

Lemma pickColor_run w :
  exists choice,
    GiftBoxGroup.pickColor w
    = (choice, mkWorld (randoms w) (S (cursor w)) (heap w) (sphereCalls w)).
Proof. eexists. reflexivity. Qed.

Lemma gift_buildItem_spec items w d p w' :
  GiftBoxGroup.buildItem items w = ((d, p), w') ->
  (forall e, In e items -> (GiftBoxGroup.scatterPos e < length (heap w))%nat) ->
  grows w w'
  /\ List.NoDup (GiftBoxGroup.locs d)
  /\ Forall (fun l => (length (heap w) <= l < length (heap w'))%nat)
            (GiftBoxGroup.locs d)
  /\ (1 <= GiftBoxGroup.attempts p <= 50)%nat
  /\ sphereCalls w' =
     sphereCalls w ++ replicate (GiftBoxGroup.attempts p) 18
       ++ (if GiftBoxGroup.validPosition p then [] else [22])
  /\ placed (randoms w) (heap w') items d p.
Proof.
  intros H Hitems. unfold GiftBoxGroup.buildItem in H.
  rewrite bind_run, getGiftBoxPoint_run in H. cbn [fst snd] in H.
  rewrite bind_run in H.
  destruct (GiftBoxGroup.placeScatter items _) as [[sPos p1] w2] eqn:Eplace in H.
  cbn [fst snd] in H.
  apply placeScatter_spec in Eplace.
  destruct Eplace as (G & Hrange & Hatt & Hcalls & Hok & Hfallback).
  cbn [heap randoms sphereCalls] in Hrange, Hcalls, Hok, Hfallback.
  rewrite length_app in Hrange. cbn [length] in Hrange.
  match type of G with grows ?w1 _ =>
    assert (G1 : grows w w1) by (split; [reflexivity | eexists; reflexivity])
  end.
  assert (Gw : grows w w2) by (eapply grows_trans; eassumption).
  rewrite bind_run in H. cbn [random fst snd] in H.
  rewrite bind_run in H.
  destruct (pickColor_run
              (mkWorld (randoms w2) (S (cursor w2)) (heap w2) (sphereCalls w2)))
    as [choice Hpick].
  rewrite Hpick in H. clear Hpick. cbn [fst snd] in H.
  rewrite !bind_run in H.
  cbn [clone bind get new random ret fst snd randoms cursor heap sphereCalls] in H.
  injection H as <- <- <-.
  cbn [GiftBoxGroup.locs GiftBoxGroup.scatterPos heap sphereCalls].
  rewrite !length_app. cbn [length].
  match goal with |- context [placed _ ?h _ _ _] => set (h3 := h) end.
  assert (Hd : forall l, (l < length (heap w2))%nat -> deref h3 l = deref (heap w2) l).
  { intros l Hl. subst h3. rewrite !deref_app_l; [reflexivity | | |];
      rewrite ?length_app; simpl; lia. }
  pose proof (grows_length _ _ Gw) as Hlen.
  split.
  { eapply grows_trans; [exact Gw |]. split; [reflexivity |].
    cbn [heap]. subst h3. eexists. rewrite <- !app_assoc. reflexivity. }
  split.
  { unfold GiftBoxGroup.locs.
    cbn [GiftBoxGroup.treePos GiftBoxGroup.scatterPos GiftBoxGroup.currentPos
         GiftBoxGroup.scale GiftBoxGroup.rotation].
    repeat (apply List.NoDup_cons; [cbn [In]; intuition lia |]).
    apply List.NoDup_nil. }
  split.
  { unfold GiftBoxGroup.locs.
    cbn [GiftBoxGroup.treePos GiftBoxGroup.scatterPos GiftBoxGroup.currentPos
         GiftBoxGroup.scale GiftBoxGroup.rotation].
    repeat constructor; lia. }
  split; [exact Hatt |].
  split; [exact Hcalls |].
  assert (Hlt : forall e, In e items ->
                  (GiftBoxGroup.scatterPos e < length (heap w2))%nat).
  { intros e He. specialize (Hitems e He). lia. }
  unfold placed. cbn [GiftBoxGroup.scatterPos].
  destruct (GiftBoxGroup.validPosition p1) eqn:Ev.
  - left. destruct (Hok eq_refl) as [[c Hc] Hdist].
    split; [reflexivity |]. split.
    + exists c. rewrite Hd by lia. exact Hc.
    + intros e He. rewrite Hd by lia. rewrite (Hd _ (Hlt e He)). now apply Hdist.
  - right. destruct (Hfallback eq_refl) as [H50 [c Hc]].
    split; [reflexivity |]. split; [exact H50 |].
    exists c. rewrite Hd by lia. exact Hc.
Qed.

(** ** Static and moving objects stay apart *)

Lemma inRange_weaken lo hi lo' hi' ls :
  inRange lo hi ls -> (lo' <= lo)%nat -> (hi <= hi')%nat -> inRange lo' hi' ls.
Proof.
  unfold inRange. rewrite !List.Forall_forall. intros H Hlo Hhi l Hl.
  specialize (H l Hl). lia.
Qed.

Lemma separated_nil {A : Type} (stat dyn : A -> list loc) lo hi :
  separated stat dyn lo hi [].
Proof. split; [constructor | intros d e l []]. Qed.

Lemma separated_weaken {A : Type} (stat dyn : A -> list loc) lo hi lo' hi' items :
  separated stat dyn lo hi items -> (lo' <= lo)%nat -> (hi <= hi')%nat ->
  separated stat dyn lo' hi' items.
Proof.
  intros [Hr Hs] Hlo Hhi. split; [| exact Hs].
  rewrite List.Forall_forall in *. intros d Hd.
  eapply inRange_weaken; eauto.
Qed.

Lemma separated_range {A : Type} (stat dyn : A -> list loc) lo hi items d l :
  separated stat dyn lo hi items -> In d items -> In l (stat d ++ dyn d) ->
  (lo <= l < hi)%nat.
Proof.
  intros [Hr _] Hd Hl. rewrite List.Forall_forall in Hr.
  specialize (Hr d Hd). unfold inRange in Hr.
  rewrite List.Forall_forall in Hr. now apply Hr.
Qed.

Lemma separated_two {A : Type} (stat dyn : A -> list loc) lo mid hi
    (old new : list A) :
  separated stat dyn lo mid old -> separated stat dyn mid hi new ->
  (lo <= mid <= hi)%nat ->
  separated stat dyn lo hi (old ++ new).
Proof.
  intros Ho Hn Hm. split.
  - apply Forall_app. split.
    + destruct (separated_weaken stat dyn lo mid lo hi old Ho) as [H _]; [lia | lia | exact H].
    + destruct (separated_weaken stat dyn mid hi lo hi new Hn) as [H _]; [lia | lia | exact H].
  - intros d e l Hd He Hl Hl'.
    apply in_app_iff in Hd. apply in_app_iff in He.
    assert (Hls : In l (stat d ++ dyn d)) by (apply in_app_iff; now left).
    assert (Hld : In l (stat e ++ dyn e)) by (apply in_app_iff; now right).
    destruct Hd as [Hd | Hd], He as [He | He].
    + destruct Ho as [_ Hs]. exact (Hs d e l Hd He Hl Hl').
    + pose proof (separated_range _ _ _ _ _ _ _ Ho Hd Hls).
      pose proof (separated_range _ _ _ _ _ _ _ Hn He Hld). lia.
    + pose proof (separated_range _ _ _ _ _ _ _ Hn Hd Hls).
      pose proof (separated_range _ _ _ _ _ _ _ Ho He Hld). lia.
    + destruct Hn as [_ Hs]. exact (Hs d e l Hd He Hl Hl').
Qed.

Lemma separated_one {A : Type} (stat dyn : A -> list loc) lo hi (d : A) :
  inRange lo hi (stat d ++ dyn d) ->
  (forall l, In l (stat d) -> ~ In l (dyn d)) ->
  separated stat dyn lo hi [d].
Proof.
  intros Hr Hs. split; [constructor; [exact Hr | constructor] |].
  intros d1 d2 l [<- | []] [<- | []]. apply Hs.
Qed.

Lemma gift_locs_separate (d : GiftBoxGroup.Item) lo hi :
  List.NoDup (GiftBoxGroup.locs d) ->
  Forall (fun l => (lo <= l < hi)%nat) (GiftBoxGroup.locs d) ->
  separated GiftBoxGroup.staticLocs GiftBoxGroup.dynamicLocs lo hi [d].
Proof.
  intros Hnd Hr. apply separated_one.
  - unfold inRange. rewrite List.Forall_forall in *. intros l Hl. apply Hr.
    unfold GiftBoxGroup.locs, GiftBoxGroup.staticLocs, GiftBoxGroup.dynamicLocs in *.
    simpl in *. tauto.
  - unfold GiftBoxGroup.locs, GiftBoxGroup.staticLocs, GiftBoxGroup.dynamicLocs in *.
    rewrite !List.NoDup_cons_iff in Hnd. simpl in *. intros l Hl Hl'.
    intuition congruence.
Qed.

Lemma ornament_locs_separate (d : OrnamentGroup.Item) lo hi :
  List.NoDup (OrnamentGroup.locs d) ->
  Forall (fun l => (lo <= l < hi)%nat) (OrnamentGroup.locs d) ->
  separated OrnamentGroup.staticLocs OrnamentGroup.dynamicLocs lo hi [d].
Proof.
  intros Hnd Hr. apply separated_one.
  - unfold inRange. rewrite List.Forall_forall in *. intros l Hl. apply Hr.
    unfold OrnamentGroup.locs, OrnamentGroup.staticLocs, OrnamentGroup.dynamicLocs in *.
    simpl in *. tauto.
  - unfold OrnamentGroup.locs, OrnamentGroup.staticLocs, OrnamentGroup.dynamicLocs in *.
    rewrite !List.NoDup_cons_iff in Hnd. simpl in *. intros l Hl Hl'.
    intuition congruence.
Qed.

(** ** The construction of the gift boxes *)

Lemma In_take {A : Type} (e : A) (i : nat) (l : list A) :
  In e (take i l) -> In e l.
Proof.
  revert i. induction l as [| a l IH]; intros [| i]; simpl; try tauto.
  intros [H | H]; [now left | right; eauto].
Qed.

Lemma placed_grows rnd h hs prev d p :
  placed rnd h prev d p ->
  (GiftBoxGroup.scatterPos d < length h)%nat ->
  (forall e, In e prev -> (GiftBoxGroup.scatterPos e < length h)%nat) ->
  placed rnd (h ++ hs) prev d p.
Proof.
  intros Hp Hd Hprev. unfold placed in *.
  rewrite (deref_app_l h hs _ Hd).
  destruct Hp as [(Hv & Hc & Hdist) | Hp]; [left | right; exact Hp].
  split; [exact Hv |]. split; [exact Hc |].
  intros e He. rewrite (deref_app_l h hs _ (Hprev e He)). now apply Hdist.
Qed.

Lemma countCalls_app radius cs cs' :
  countCalls radius (cs ++ cs') = (countCalls radius cs + countCalls radius cs')%nat.
Proof. unfold countCalls. apply count_occ_app. Qed.

Lemma countCalls_replicate radius r n :
  countCalls radius (replicate n r) = if Req_dec_T r radius then n else 0%nat.
Proof.
  unfold countCalls. induction n as [| n IH]; simpl.
  - destruct (Req_dec_T r radius); reflexivity.
  - destruct (Req_dec_T r radius); simpl; [now rewrite IH | exact IH].
Qed.

Lemma countCalls_round (a : nat) (valid : bool) :
  countCalls 18 (replicate a 18 ++ (if valid then [] else [22])) = a
  /\ (countCalls 22%R (replicate a 18%R ++ (if valid then [] else [22%R])) <= 1)%nat.
Proof.
  rewrite !countCalls_app, !countCalls_replicate.
  destruct (Req_dec_T 18 18) as [_ | H]; [| lra].
  destruct (Req_dec_T 18 22) as [H | _]; [lra |].
  unfold countCalls. destruct valid; simpl.
  - split; lia.
  - destruct (Req_dec_T 22 18) as [H | _]; [lra |].
    destruct (Req_dec_T 22 22) as [_ | H]; [| lra]. split; lia.
Qed.

Lemma gift_buildLoop_spec base n : forall items log w items' log' w',
  GiftBoxGroup.buildLoop n items log w = ((items', log'), w') ->
  giftInv (randoms w) base (heap w) items log ->
  grows w w'
  /\ giftInv (randoms w) base (heap w') items' log'
  /\ length items' = (length items + n)%nat
  /\ exists cs, sphereCalls w' = sphereCalls w ++ cs
       /\ (countCalls 18%R cs <= 50 * n)%nat /\ (countCalls 22%R cs <= n)%nat.
Proof.
  induction n as [| n IH]; intros items log w items' log' w' H Hinv.
  - simpl in H. injection H as <- <- <-.
    split; [apply grows_refl |]. split; [exact Hinv |]. split; [lia |].
    exists []. rewrite app_nil_r. repeat split; simpl; lia.
  - cbn [GiftBoxGroup.buildLoop] in H. rewrite bind_run in H.
    destruct (GiftBoxGroup.buildItem items w) as [[d p] w1] eqn:Eitem.
    cbn [fst snd] in H.
    destruct Hinv as (Hbase & Hlen & Hsep & Hplaced).
    assert (Hold : forall e, In e items ->
                     (GiftBoxGroup.scatterPos e < length (heap w))%nat).
    { intros e He.
      assert (Hin : In (GiftBoxGroup.scatterPos e)
                       (GiftBoxGroup.staticLocs e ++ GiftBoxGroup.dynamicLocs e))
        by (simpl; tauto).
      pose proof (separated_range _ _ _ _ _ _ _ Hsep He Hin). lia. }
    apply gift_buildItem_spec in Eitem; [| exact Hold].
    destruct Eitem as (G & Hnd & Hr & Hatt & Hcalls & Hpl).
    pose proof (grows_length _ _ G) as Hlen1.
    assert (R1 : randoms w1 = randoms w) by (destruct G; assumption).
    apply IH in H.
    + destruct H as (G' & Hinv' & Hlen' & cs & Hcs & H18 & H22).
      split; [eapply grows_trans; eassumption |].
      split; [rewrite <- R1; exact Hinv' |].
      split; [rewrite Hlen', length_app; simpl; lia |].
      eexists. split; [rewrite Hcs, Hcalls, <- app_assoc; reflexivity |].
      rewrite (countCalls_app 18), (countCalls_app 22).
      destruct (countCalls_round (GiftBoxGroup.attempts p)
                  (GiftBoxGroup.validPosition p)) as [E18 E22].
      rewrite E18. split; lia.
    + rewrite R1. destruct G as [_ [hs Hhs]].
      split; [lia |].
      split; [rewrite !length_app; simpl; lia |].
      split.
      * apply separated_two with (mid := length (heap w)).
        -- exact Hsep.
        -- apply gift_locs_separate; assumption.
        -- lia.
      * intros i d' p' Hd' Hp'.
        destruct (Nat.lt_ge_cases i (length items)) as [Hi | Hi].
        -- rewrite lookup_app_l in Hd' by exact Hi.
           rewrite lookup_app_l in Hp' by lia.
           rewrite take_app_le by lia.
           rewrite Hhs. apply placed_grows.
           ++ now apply Hplaced.
           ++ apply Hold. eapply list_elem_of_In, list_elem_of_lookup_2; eauto.
           ++ intros e He. apply Hold. eapply In_take; eauto.
        -- assert (i = length items).
           { apply lookup_lt_Some in Hd'. rewrite length_app in Hd'. simpl in Hd'. lia. }
           subst i. rewrite list_lookup_middle in Hd' by reflexivity.
           rewrite <- Hlen in Hp'.
           rewrite list_lookup_middle in Hp' by reflexivity.
           injection Hd' as <-. injection Hp' as <-.
           rewrite take_app_length. exact Hpl.
Qed.

Lemma giftInv_nil rnd h : giftInv rnd (length h) h [] [].
Proof.
  split; [lia |]. split; [reflexivity |].
  split; [apply separated_nil |]. intros i d p Hd. discriminate.
Qed.

(** C5. Building a batch of [count] gift boxes: every scatter position is
    either a draw of the base sampler (radius 18) at distance at least
    [minDistance] = 2 from the scatter position of every box placed before
    it, or a draw of the looser sampler (radius 22) taken after exactly 50
    rejected attempts. The construction calls the base sampler at most
    50 * count times and the looser sampler at most count times. *)
Theorem rejection_placement (count : nat) (w : World) :
  let r := GiftBoxGroup.build count w in
  let items := fst (fst r) in
  let log := snd (fst r) in
  let w' := snd r in
  length items = count /\ length log = count
  /\ (forall i d p, items !! i = Some d -> log !! i = Some p ->
        placed (randoms w) (heap w') (take i items) d p)
  /\ exists calls, sphereCalls w' = sphereCalls w ++ calls
       /\ (countCalls 18%R calls <= count * 50)%nat
       /\ (countCalls 22%R calls <= count)%nat.
Proof.
  cbv zeta. unfold GiftBoxGroup.build.
  destruct (GiftBoxGroup.buildLoop count [] [] w) as [[items log] w'] eqn:E.
  cbn [fst snd].
  apply (gift_buildLoop_spec (length (heap w))) in E; [| apply giftInv_nil].
  destruct E as (G & (Hbase & Hlen & Hsep & Hplaced) & Hcount & cs & Hcs & H18 & H22).
  simpl in Hcount.
  split; [exact Hcount |]. split; [congruence |].
  split; [exact Hplaced |].
  exists cs. split; [exact Hcs |]. split; lia.
Qed.

(** The loop of attempts leaves by its own test: 50 rounds of fuel are
    never exhausted with the test still true. *)
Lemma placeLoop_exit items sPos0 w :
  let r := GiftBoxGroup.placeLoop 50 items sPos0 false 0 w in
  GiftBoxGroup.validPosition (snd (fst r)) = true
  \/ GiftBoxGroup.attempts (snd (fst r)) = 50%nat.
Proof.
  cbv zeta.
  destruct (GiftBoxGroup.placeLoop 50 items sPos0 false 0 w) as [[sPos p] w'] eqn:E.
  cbn [fst snd]. apply placeLoop_spec in E.
  destruct E as (_ & Hatt & _ & _ & _ & Hexit).
  destruct Hexit as [H | H]; [lia | now left | right; lia].
Qed.

(** ** The construction of the ornaments *)

Lemma wp_bind {A B : Type} (c : M A) (k : A -> M B) post w :
  wp c (fun a w1 => wp (k a) post w1) w -> wp (bind c k) post w.
Proof. unfold wp. now rewrite bind_run. Qed.

Lemma wp_ret {A : Type} (a : A) (post : A -> World -> Prop) w :
  post a w -> wp (ret a) post w.
Proof. exact (fun H => H). Qed.

Lemma allocOne_new v : allocOne (new v).
Proof. intros w. cbn [new fst snd heap randoms]. eauto. Qed.

Lemma allocOne_clone l : allocOne (clone l).
Proof.
  intros w. unfold clone. rewrite bind_run. cbn [get fst snd].
  apply allocOne_new.
Qed.

Lemma allocOne_getSpiralPoint height baseRadius yOffset phase :
  allocOne (Sampler.getSpiralPoint height baseRadius yOffset phase).
Proof.
  intros w. rewrite getSpiralPoint_run. cbn [fst snd heap randoms]. eauto.
Qed.

Lemma allocOne_getRandomSpherePoint radius :
  allocOne (Sampler.getRandomSpherePoint radius).
Proof.
  intros w. rewrite getRandomSpherePoint_run. cbn [fst snd heap randoms]. eauto.
Qed.

Lemma wp_alloc (c : M loc) (post : loc -> World -> Prop) w :
  allocOne c ->
  (forall w1, grows w w1 -> length (heap w1) = S (length (heap w)) ->
     post (length (heap w)) w1) ->
  wp c post w.
Proof.
  intros Hc H. unfold wp. destruct (Hc w) as (Hr & -> & v & Hv).
  apply H.
  - split; [exact Hr | eauto].
  - rewrite Hv, length_app. simpl. lia.
Qed.

Lemma wp_random (post : R -> World -> Prop) w :
  (forall x w1, grows w w1 -> length (heap w1) = length (heap w) -> post x w1) ->
  wp random post w.
Proof.
  intros H. unfold wp. apply H.
  - apply grows_random.
  - reflexivity.
Qed.

Ltac wp_alloc_step w1 :=
  apply wp_bind; apply wp_alloc;
  [ lazymatch goal with
    | |- allocOne (Sampler.getSpiralPoint _ _ _ _) => apply allocOne_getSpiralPoint
    | |- allocOne (Sampler.getRandomSpherePoint _) =>
        apply allocOne_getRandomSpherePoint
    | |- allocOne (clone _) => apply allocOne_clone
    | |- allocOne (new _) => apply allocOne_new
    end
  | intros w1 ? ?; cbv beta zeta ].

Ltac wp_random_step x w1 :=
  apply wp_bind; apply wp_random; intros x w1 ? ?; cbv beta zeta.

Lemma ornament_buildItem_wp scaleMultiplier spiralPhase w :
  wp (OrnamentGroup.buildItem scaleMultiplier spiralPhase)
     (fun d w' =>
        grows w w'
        /\ List.NoDup (OrnamentGroup.locs d)
        /\ Forall (fun l => (length (heap w) <= l < length (heap w'))%nat)
                  (OrnamentGroup.locs d)) w.
Proof.
  unfold OrnamentGroup.buildItem.
  wp_alloc_step w1. wp_alloc_step w2. wp_random_step s w3.
  wp_alloc_step w4. wp_alloc_step w5. wp_random_step rx w6.
  wp_random_step ry w7. wp_alloc_step w8. wp_random_step rs w9.
  apply wp_ret. split.
  { repeat (eapply grows_trans; [eassumption |]). apply grows_refl. }
  unfold OrnamentGroup.locs.
  cbn [OrnamentGroup.treePos OrnamentGroup.scatterPos OrnamentGroup.currentPos
       OrnamentGroup.scale OrnamentGroup.rotation].
  split.
  - repeat (apply List.NoDup_cons; [cbn [In]; intuition lia |]).
    apply List.NoDup_nil.
  - repeat constructor; lia.
Qed.

Lemma wp_conseq {A : Type} (c : M A) (post post' : A -> World -> Prop) w :
  wp c post w -> (forall a w1, post a w1 -> post' a w1) -> wp c post' w.
Proof. unfold wp. auto. Qed.

Lemma wp_of_spec {A : Type} (c : M A) (post : A -> World -> Prop) w :
  (forall a w', c w = (a, w') -> post a w') -> wp c post w.
Proof. intros H. unfold wp. apply H. now destruct (c w). Qed.

Lemma ornament_data_wp scaleMultiplier spiralPhase count : forall w,
  wp (OrnamentGroup.data count scaleMultiplier spiralPhase)
     (fun items w' =>
        grows w w'
        /\ length items = count
        /\ separated OrnamentGroup.staticLocs OrnamentGroup.dynamicLocs
             (length (heap w)) (length (heap w')) items) w.
Proof.
  induction count as [| n IH]; intros w; cbn [OrnamentGroup.data].
  - apply wp_ret.
    split; [apply grows_refl |]. split; [reflexivity | apply separated_nil].
  - apply wp_bind.
    eapply wp_conseq; [apply ornament_buildItem_wp |].
    intros d w1 (G1 & Hnd & Hr). cbv beta.
    apply wp_bind.
    eapply wp_conseq; [apply IH |].
    intros rest w2 (G2 & Hlen & Hsep). cbv beta.
    apply wp_ret.
    pose proof (grows_length _ _ G1). pose proof (grows_length _ _ G2).
    split; [eapply grows_trans; eassumption |].
    split; [simpl; lia |].
    change (d :: rest) with ([d] ++ rest).
    apply separated_two with (mid := length (heap w1)).
    + now apply ornament_locs_separate.
    + exact Hsep.
    + lia.
Qed.

(** ** The frame condition of the per-frame updates *)

Lemma in_dynamic {A : Type} (dyn : A -> list loc) (items : list A) (l : loc) :
  In l (concat (map dyn items)) -> exists e, In e items /\ In l (dyn e).
Proof.
  intros H. apply in_concat in H. destruct H as [ls [Hls Hl]].
  apply in_map_iff in Hls. destruct Hls as [e [<- He]]. eauto.
Qed.

Lemma create_wp w :
  wp Object3D.create
     (fun o w' =>
        grows w w'
        /\ inRange (length (heap w)) (length (heap w')) (Object3D.locs o)) w.
Proof.
  unfold Object3D.create.
  wp_alloc_step w1. wp_alloc_step w2. wp_alloc_step w3.
  apply wp_ret. split.
  { repeat (eapply grows_trans; [eassumption |]). apply grows_refl. }
  unfold inRange, Object3D.locs.
  cbn [Object3D.position Object3D.rotation Object3D.scale].
  repeat constructor; lia.
Qed.

Lemma gift_data_wp count w :
  wp (GiftBoxGroup.data count)
     (fun items w' =>
        grows w w'
        /\ length items = count
        /\ separated GiftBoxGroup.staticLocs GiftBoxGroup.dynamicLocs
             (length (heap w)) (length (heap w')) items) w.
Proof.
  unfold GiftBoxGroup.data. apply wp_bind. apply wp_of_spec.
  intros [items log] w' E. unfold GiftBoxGroup.build in E.
  apply (gift_buildLoop_spec (length (heap w))) in E; [| apply giftInv_nil].
  destruct E as (G & (_ & _ & Hsep & _) & Hlen & _).
  apply wp_ret. cbn [fst]. simpl in Hlen. auto.
Qed.

Lemma wp_snapshot (post : World -> World -> Prop) w :
  post w w -> wp snapshot post w.
Proof. exact (fun H => H). Qed.

(** Two groups built one after the other, after the scratch object: no
    object that is static for an item of either group can be written by a
    tick of either group. *)
Lemma statics_not_written {A B : Type} (stat dyn : A -> list loc)
    (stat' dyn' : B -> list loc) (tmp : list loc) lo0 lo mid hi
    (items : list A) (others : list B) l :
  inRange lo0 lo tmp -> (lo <= mid)%nat ->
  separated stat dyn lo mid items ->
  separated stat' dyn' mid hi others ->
  (exists d, In d items /\ In l (stat d))
  \/ (exists d, In d others /\ In l (stat' d)) ->
  ~ In l ((tmp ++ concat (map dyn items)) ++ (tmp ++ concat (map dyn' others))).
Proof.
  intros Htmp Hlm Hsep Hsep' Hl Hin.
  unfold inRange in Htmp. rewrite List.Forall_forall in Htmp.
  assert (Hcases : In l tmp
                   \/ (exists e, In e items /\ In l (dyn e))
                   \/ (exists e, In e others /\ In l (dyn' e))).
  { rewrite !in_app_iff in Hin.
    destruct Hin as [[H | H] | [H | H]]; auto using in_dynamic. }
  assert (Rdyn : forall e, In e items -> In l (dyn e) -> (lo <= l < mid)%nat).
  { intros e He Hle. eapply separated_range; [exact Hsep | exact He |].
    apply in_app_iff. now right. }
  assert (Rdyn' : forall e, In e others -> In l (dyn' e) -> (mid <= l < hi)%nat).
  { intros e He Hle. eapply separated_range; [exact Hsep' | exact He |].
    apply in_app_iff. now right. }
  destruct Hl as [[d [Hd Hld]] | [d [Hd Hld]]].
  - assert (Hr : (lo <= l < mid)%nat).
    { eapply separated_range; [exact Hsep | exact Hd |].
      apply in_app_iff. now left. }
    destruct Hcases as [H | [[e [He Hle]] | [e [He Hle]]]].
    + specialize (Htmp l H). lia.
    + destruct Hsep as [_ Hs]. exact (Hs d e l Hd He Hld Hle).
    + specialize (Rdyn' e He Hle). lia.
  - assert (Hr : (mid <= l < hi)%nat).
    { eapply separated_range; [exact Hsep' | exact Hd |].
      apply in_app_iff. now left. }
    destruct Hcases as [H | [[e [He Hle]] | [e [He Hle]]]].
    + specialize (Htmp l H). lia.
    + specialize (Rdyn e He Hle). lia.
    + destruct Hsep' as [_ Hs]. exact (Hs d e l Hd He Hld Hle).
Qed.

(** C9. In a scene with a group of gift boxes and a group of ornaments,
    built after the shared scratch object, any sequence of per-frame
    updates (any mounted flag, requested state, elapsed time and delta, of
    either group) allocates nothing and writes only the scratch object and
    the current position and rotation of the items. For every item the
    objects behind [treePos], [scatterPos] and [scale] hold the values they
    held when the group was built; [rotationSpeed], [color] and
    [ribbonColor] are fields of the item, which no update assigns. *)
Theorem frame_condition (count ornamentCount : nat)
    (scaleMultiplier spiralPhase weight : R) (ticks : list Tick) (w : World) :
  let r := runScene count ornamentCount scaleMultiplier spiralPhase weight
             ticks w in
  let scene := fst r in
  let final := snd r in
  let built := sceneBuilt scene in
  length (sceneGifts scene) = count
  /\ length (sceneOrnaments scene) = ornamentCount
  /\ length (heap final) = length (heap built)
  /\ (forall l,
        ~ In l (giftWritable (sceneTemp scene) (sceneGifts scene)
                ++ ornamentWritable (sceneTemp scene) (sceneOrnaments scene)) ->
        deref (heap final) l = deref (heap built) l)
  /\ Forall (fun d => giftStatic (heap final) d = giftStatic (heap built) d)
            (sceneGifts scene)
  /\ Forall (fun d => ornamentStatic (heap final) d = ornamentStatic (heap built) d)
            (sceneOrnaments scene).
Proof.
  cbv zeta.
  change (wp (runScene count ornamentCount scaleMultiplier spiralPhase weight ticks)
            (fun scene final =>
               length (sceneGifts scene) = count
               /\ length (sceneOrnaments scene) = ornamentCount
               /\ length (heap final) = length (heap (sceneBuilt scene))
               /\ (forall l,
                     ~ In l (giftWritable (sceneTemp scene) (sceneGifts scene)
                             ++ ornamentWritable (sceneTemp scene)
                                  (sceneOrnaments scene)) ->
                     deref (heap final) l = deref (heap (sceneBuilt scene)) l)
               /\ Forall (fun d => giftStatic (heap final) d
                                   = giftStatic (heap (sceneBuilt scene)) d)
                         (sceneGifts scene)
               /\ Forall (fun d => ornamentStatic (heap final) d
                                   = ornamentStatic (heap (sceneBuilt scene)) d)
                         (sceneOrnaments scene)) w).
  unfold runScene.
  apply wp_bind. eapply wp_conseq; [apply create_wp |].
  intros tempObject w0 (G0 & Htmp). cbv beta.
  apply wp_bind. eapply wp_conseq; [apply gift_data_wp |].
  intros gifts w1 (G1 & Hl1 & Hsep1). cbv beta.
  apply wp_bind. eapply wp_conseq; [apply ornament_data_wp |].
  intros ornaments w2 (G2 & Hl2 & Hsep2). cbv beta.
  apply wp_bind. apply wp_snapshot.
  apply wp_bind. apply wp_of_spec. intros u w3 E.
  apply runTicks_writes in E. destruct E as (_ & _ & _ & Hlen & Hframe).
  apply wp_ret. cbn [sceneGifts sceneOrnaments sceneTemp sceneBuilt].
  pose proof (grows_length _ _ G1) as Hmid.
  assert (Hstat : forall l,
             (exists d, In d gifts /\ In l (GiftBoxGroup.staticLocs d))
             \/ (exists d, In d ornaments /\ In l (OrnamentGroup.staticLocs d)) ->
             deref (heap w3) l = deref (heap w2) l).
  { intros l Hl. apply Hframe. unfold giftWritable, ornamentWritable.
    eapply statics_not_written; eauto. }
  split; [exact Hl1 |]. split; [exact Hl2 |]. split; [exact Hlen |].
  split; [exact Hframe |].
  split; apply List.Forall_forall; intros d Hd.
  - unfold giftStatic.
    rewrite !Hstat; [reflexivity | | |]; left; exists d;
      (split; [exact Hd | cbn [GiftBoxGroup.staticLocs In]; tauto]).
  - unfold ornamentStatic.
    rewrite !Hstat; [reflexivity | | |]; right; exists d;
      (split; [exact Hd | cbn [OrnamentGroup.staticLocs In]; tauto]).
Qed.

(** ** The overlay at full progress *)

Lemma foliagePos_at_1 uTime s t aRandom :
  0 <= aRandom < 1 ->
  Shader.foliagePos uTime 1 s t aRandom
  = Vector3.add t (Vector3.scale (GLSL.normalize t)
                                 (Shader.foliageBreath uTime aRandom)).
Proof.
  intros H. unfold Shader.foliagePos. cbv zeta.
  rewrite (foliageBlend_1 _ _ _ H).
  destruct (Rlt_dec 1 0.9) as [Hlt | _]; [lra |].
  replace (0.5 + 0.5 * 1) with 1 by lra.
  apply vec3_eq_intro; unfold Vector3.add, Vector3.scale;
    cbn [Vector3.x Vector3.y Vector3.z]; ring.
Qed.

Lemma spiralPos_at_1 uTime s t aRandom :
  0 <= aRandom < 1 -> Shader.spiralPos uTime 1 s t aRandom = t.
Proof.
  intros H. unfold Shader.spiralPos. cbv zeta.
  rewrite (spiralBlend_1 _ _ _ H).
  destruct (Rlt_dec 1 0.95) as [Hlt | _]; [lra | reflexivity].
Qed.

Lemma ratio_le_1 a s : Rabs a <= s -> Rabs (a * / s) <= 1.
Proof.
  intros H. pose proof (Rabs_pos a) as Ha.
  destruct (Req_dec_T s 0) as [-> | Hs].
  - rewrite Rinv_0, Rmult_0_r, Rabs_R0. lra.
  - assert (Hpos : 0 < s) by lra.
    rewrite Rabs_mult, (Rabs_right (/ s)).
    + apply Rmult_le_reg_r with s; [exact Hpos |].
      rewrite Rmult_assoc, Rinv_l by exact Hs. lra.
    + apply Rle_ge. left. now apply Rinv_0_lt_compat.
Qed.

Lemma abs_le_length a b : 0 <= b -> Rabs a <= sqrt (a * a + b).
Proof.
  intros Hb. rewrite <- sqrt_Rsqr_abs. apply sqrt_le_1_alt. unfold Rsqr. lra.
Qed.

Lemma normalize_bounded (v : vec3) :
  Rabs (Vector3.x (GLSL.normalize v)) <= 1
  /\ Rabs (Vector3.y (GLSL.normalize v)) <= 1
  /\ Rabs (Vector3.z (GLSL.normalize v)) <= 1.
Proof.
  unfold GLSL.normalize, Vector3.scale, Vector3.length, Vector3.lengthSq.
  cbn [Vector3.x Vector3.y Vector3.z].
  destruct v as [a b c]. cbn [Vector3.x Vector3.y Vector3.z].
  repeat split; apply ratio_le_1.
  - replace (a * a + b * b + c * c) with (a * a + (b * b + c * c)) by ring.
    apply abs_le_length. nra.
  - replace (a * a + b * b + c * c) with (b * b + (a * a + c * c)) by ring.
    apply abs_le_length. nra.
  - replace (a * a + b * b + c * c) with (c * c + (a * a + b * b)) by ring.
    apply abs_le_length. nra.
Qed.

Lemma breath_bounded uTime aRandom : Rabs (Shader.foliageBreath uTime aRandom) <= 0.03.
Proof.
  unfold Shader.foliageBreath.
  pose proof (SIN_bound (uTime * 1.5 + aRandom * 10.0)) as [Hl Hu].
  apply Rabs_le. lra.
Qed.

Lemma product_bounded a b : Rabs a <= 1 -> Rabs b <= 0.03 -> Rabs (a * b) <= 0.03.
Proof.
  intros Ha Hb. rewrite Rabs_mult.
  pose proof (Rabs_pos a). pose proof (Rabs_pos b). nra.
Qed.

(** Reads and writes, goal-directed. *)

Lemma wp_get (l : loc) (post : vec3 -> World -> Prop) w :
  post (deref (heap w) l) w -> wp (get l) post w.
Proof. exact (fun H => H). Qed.

Lemma wp_set (l : loc) (v : vec3) (post : unit -> World -> Prop) w :
  (l < length (heap w))%nat ->
  (forall w1,
     length (heap w1) = length (heap w) ->
     deref (heap w1) l = v ->
     (forall l', l <> l' -> deref (heap w1) l' = deref (heap w) l') ->
     post tt w1) ->
  wp (set l v) post w.
Proof.
  intros Hl H. unfold wp. cbn [set fst snd]. apply H; cbn [heap].
  - apply length_insert.
  - now apply deref_insert_eq.
  - intros l' Hne. now apply deref_insert_ne.
Qed.

Ltac wp_get_step := apply wp_bind; apply wp_get; cbv beta.

Ltac wp_set_step w1 Hlen Heq Hne :=
  apply wp_set; [congruence | intros w1 Hlen Heq Hne].

Lemma ornament_update_tree tempObject elapsedTime lerpFactor d i w :
  ornamentReady tempObject d (heap w) ->
  wp (OrnamentGroup.updateItem tempObject true elapsedTime lerpFactor d i)
     (fun m w' =>
        deref (heap w') (OrnamentGroup.currentPos d)
        = Vector3.lerp (deref (heap w) (OrnamentGroup.currentPos d))
                       (deref (heap w) (OrnamentGroup.treePos d)) lerpFactor
        /\ Object3D.mPosition m
           = Vector3.lerp (deref (heap w) (OrnamentGroup.currentPos d))
                          (deref (heap w) (OrnamentGroup.treePos d)) lerpFactor) w.
Proof.
  intros [Hnd Hr].
  unfold Object3D.locs, OrnamentGroup.locs in Hnd, Hr.
  cbn [app] in Hnd, Hr.
  rewrite !List.NoDup_cons_iff in Hnd. cbn [In] in Hnd.
  rewrite !List.Forall_cons_iff in Hr.
  destruct Hr as (Rp & Rr & Rs & Rt & Rsc & Rc & Rscale & Rrot & _).
  set (p := Object3D.position tempObject) in *.
  set (r := Object3D.rotation tempObject) in *.
  set (sc := Object3D.scale tempObject) in *.
  set (cur := OrnamentGroup.currentPos d) in *.
  set (rot := OrnamentGroup.rotation d) in *.
  set (L := Vector3.lerp _ _ _).
  assert (Dcp : p <> cur) by intuition congruence.
  assert (Dcr : r <> cur) by intuition congruence.
  assert (Dcs : sc <> cur) by intuition congruence.
  assert (Dcrot : rot <> cur) by intuition congruence.
  assert (Dpr : r <> p) by intuition congruence.
  assert (Dps : sc <> p) by intuition congruence.
  unfold OrnamentGroup.updateItem, lerpInPlace, addX, addY, copy, Object3D.matrix.
  cbn [negb]. fold p r sc cur rot.
  apply wp_bind. wp_get_step. wp_get_step. fold L.
  wp_set_step w1 Hlen1 Heq1 Hne1.
  apply wp_bind. apply wp_ret.
  apply wp_bind. wp_get_step. wp_set_step w2 Hlen2 Heq2 Hne2.
  apply wp_bind. wp_get_step. wp_set_step w3 Hlen3 Heq3 Hne3.
  apply wp_bind. wp_get_step. wp_set_step w4 Hlen4 Heq4 Hne4.
  apply wp_bind. wp_get_step. wp_set_step w5 Hlen5 Heq5 Hne5.
  apply wp_bind. wp_get_step. wp_set_step w6 Hlen6 Heq6 Hne6.
  wp_get_step. wp_get_step. wp_get_step. apply wp_ret.
  cbn [Object3D.mPosition].
  assert (Hcur3 : deref (heap w3) cur = L).
  { rewrite (Hne3 _ Dcrot), (Hne2 _ Dcrot). exact Heq1. }
  split.
  - rewrite (Hne6 _ Dcs), (Hne5 _ Dcr), (Hne4 _ Dcp). exact Hcur3.
  - rewrite (Hne6 _ Dps), (Hne5 _ Dpr), Heq4. exact Hcur3.
Qed.

(** C3, amended. At progress 1, for every phase in [0,1) and every time:
    the garland shader emits exactly the blended endpoint, the tree
    position; the foliage shader's sway terms are gone, but its breathing
    term stays at full amplitude: the emitted position is the tree position
    moved along its own direction by sin(1.5 * uTime + 10 * aRandom) * 0.03,
    at most 0.03 per coordinate. On the host side a weighted ornament whose
    requested state is the tree shape gets no sine term: its new current
    position, which is the position emitted, is the old one moved toward
    the tree position by the lag factor. *)
Theorem overlay_at_full_progress (uTime aRandom : R) (aScatterPos aTreePos : vec3)
    (tempObject : Object3D.t) (d : OrnamentGroup.Item) (i : nat)
    (elapsedTime lerpFactor : R) (w : World) :
  0 <= aRandom < 1 -> ornamentReady tempObject d (heap w) ->
  let blended := Shader.foliageBlend 1 aScatterPos aTreePos aRandom in
  let emitted := Shader.foliagePos uTime 1 aScatterPos aTreePos aRandom in
  Shader.spiralPos uTime 1 aScatterPos aTreePos aRandom
  = Shader.spiralBlend 1 aScatterPos aTreePos aRandom
  /\ blended = aTreePos
  /\ emitted = Vector3.add blended
                 (Vector3.scale (GLSL.normalize blended)
                                (Shader.foliageBreath uTime aRandom))
  /\ Rabs (Vector3.x emitted - Vector3.x blended) <= 0.03
  /\ Rabs (Vector3.y emitted - Vector3.y blended) <= 0.03
  /\ Rabs (Vector3.z emitted - Vector3.z blended) <= 0.03
  /\ let r := OrnamentGroup.updateItem tempObject true elapsedTime lerpFactor
                d i w in
     let moved := Vector3.lerp (deref (heap w) (OrnamentGroup.currentPos d))
                    (deref (heap w) (OrnamentGroup.treePos d)) lerpFactor in
     deref (heap (snd r)) (OrnamentGroup.currentPos d) = moved
     /\ Object3D.mPosition (fst r) = moved.
Proof.
  intros Hr Hready. cbv zeta.
  rewrite (spiralPos_at_1 _ _ _ _ Hr), (spiralBlend_1 _ _ _ Hr),
          (foliageBlend_1 _ _ _ Hr), (foliagePos_at_1 _ _ _ _ Hr).
  destruct (normalize_bounded aTreePos) as (Bx & By & Bz).
  pose proof (breath_bounded uTime aRandom) as Bb.
  split; [reflexivity |]. split; [reflexivity |]. split; [reflexivity |].
  unfold Vector3.add, Vector3.scale. cbn [Vector3.x Vector3.y Vector3.z].
  split; [| split; [| split]].
  - replace (Vector3.x aTreePos + _ - Vector3.x aTreePos)
      with (Vector3.x (GLSL.normalize aTreePos) * Shader.foliageBreath uTime aRandom)
      by ring.
    now apply product_bounded.
  - replace (Vector3.y aTreePos + _ - Vector3.y aTreePos)
      with (Vector3.y (GLSL.normalize aTreePos) * Shader.foliageBreath uTime aRandom)
      by ring.
    now apply product_bounded.
  - replace (Vector3.z aTreePos + _ - Vector3.z aTreePos)
      with (Vector3.z (GLSL.normalize aTreePos) * Shader.foliageBreath uTime aRandom)
      by ring.
    now apply product_bounded.
  - exact (ornament_update_tree tempObject elapsedTime lerpFactor d i w Hready).
Qed.

Lemma overlay_at_full_progress_witness :
  let tempObject := Object3D.mk 0%nat 1%nat 2%nat in
  let d := OrnamentGroup.mkItem 3%nat 4%nat 5%nat 6%nat 7%nat 0.01 in
  let w := mkWorld (fun _ => 0) 0%nat (repeat Vector3.zero 8%nat) [] in
  0 <= 0.5 < 1
  /\ ornamentReady tempObject d (heap w)
  /\ Shader.spiralPos 2 1 (Vector3.mk 3 4 5) (Vector3.mk 1 2 0) 0.5
     = Shader.spiralBlend 1 (Vector3.mk 3 4 5) (Vector3.mk 1 2 0) 0.5
  /\ Object3D.mPosition
       (fst (OrnamentGroup.updateItem tempObject true 0 0.5 d 0%nat w))
     = Vector3.lerp (deref (heap w) 5%nat) (deref (heap w) 3%nat) 0.5.
Proof.
  intros tempObject d w.
  assert (Hr : 0 <= 0.5 < 1) by lra.
  assert (Hready : ornamentReady tempObject d (heap w)).
  { split.
    - unfold Object3D.locs, OrnamentGroup.locs; simpl.
      repeat (apply List.NoDup_cons; [simpl; intuition discriminate |]).
      apply List.NoDup_nil.
    - unfold Object3D.locs, OrnamentGroup.locs; simpl.
      repeat constructor. }
  destruct (overlay_at_full_progress 2 0.5 (Vector3.mk 3 4 5) (Vector3.mk 1 2 0)
              tempObject d 0%nat 0 0.5 w Hr Hready)
    as (H1 & _ & _ & _ & _ & _ & _ & H2).
  split; [exact Hr |]. split; [exact Hready |]. split; [exact H1 | exact H2].
Defined.

(** C3 as stated fails for the foliage: at progress 1, with phase 0, at
    time PI/3 and with the tree position (1,0,0), the blended endpoint has
    x = 1 and the emitted position has x = 1.03. *)
Lemma foliage_breathes_at_full_progress :
  0 <= 0 < 1
  /\ Vector3.x (Shader.foliageBlend 1 (Vector3.mk 0 0 0) (Vector3.mk 1 0 0) 0) = 1
  /\ Vector3.x (Shader.foliagePos (PI / 3) 1 (Vector3.mk 0 0 0) (Vector3.mk 1 0 0) 0)
     = 1.03.
Proof.
  assert (Hr : 0 <= 0 < 1) by lra.
  split; [exact Hr |].
  rewrite (foliageBlend_1 _ _ _ Hr), (foliagePos_at_1 _ _ _ _ Hr).
  split; [reflexivity |].
  unfold Vector3.add, Vector3.scale, GLSL.normalize, Vector3.scale,
    Vector3.length, Vector3.lengthSq, Shader.foliageBreath.
  cbn [Vector3.x Vector3.y Vector3.z].
  replace (1 * 1 + 0 * 0 + 0 * 0) with 1 by ring.
  rewrite sqrt_1, Rinv_1.
  replace (PI / 3 * 1.5 + 0 * 10.0) with (PI / 2) by lra.
  rewrite sin_PI2. lra.
Qed.

(** * Part III: the rest of the scene *)

(** ** The samplers of the tree shapes *)

Lemma polar_radial r theta y : 0 <= r ->
  radialDistance (Vector3.mk (r * cos theta) y (r * sin theta)) = r.
Proof.
  intros Hr. unfold radialDistance. cbn [Vector3.x Vector3.z].
  replace (r * cos theta * (r * cos theta) + r * sin theta * (r * sin theta))
    with (r * r * (sin theta * sin theta + cos theta * cos theta)) by ring.
  pose proof (sin2_cos2 theta) as H. unfold Rsqr in H.
  rewrite H, Rmult_1_r. now apply sqrt_square.
Qed.

Lemma ratio_cancel a h : 0 < h -> a * h / h = a.
Proof. intros H. field. lra. Qed.

Lemma getConePoint_value height baseRadius yOffset w :
  resultOf (Sampler.getConePoint height baseRadius yOffset w)
  = Sampler.conePoint height baseRadius yOffset
      (randoms w (cursor w)) (randoms w (S (cursor w)))
      (randoms w (S (S (cursor w)))).
Proof. apply deref_snoc. Qed.

(** X1. [getConePoint], for a positive height, a non-negative base radius and
    values of [Math.random()] in [0,1): the relative height of the returned
    point is the first value drawn, its y lies in
    [yOffset - height/2, yOffset + height/2), and its distance from the
    axis is between 80% and 100% of the radius of the cone at its height. *)
Theorem cone_point_envelope (height baseRadius yOffset : R) (w : World) :
  0 < height -> 0 <= baseRadius -> (forall n, 0 <= randoms w n < 1) ->
  let p := resultOf (Sampler.getConePoint height baseRadius yOffset w) in
  let relativeHeight := Sampler.relativeHeightOf height yOffset p in
  let radiusAtHeight := baseRadius * (1 - relativeHeight) in
  relativeHeight = randoms w (cursor w)
  /\ yOffset - height / 2 <= Vector3.y p < yOffset + height / 2
  /\ 0.8 * radiusAtHeight <= radialDistance p <= radiusAtHeight.
Proof.
  intros Hh Hb Hrnd. cbv zeta. rewrite getConePoint_value.
  pose proof (Hrnd (cursor w)) as H0.
  pose proof (Hrnd (S (S (cursor w)))) as H2.
  set (r0 := randoms w (cursor w)) in *.
  set (r1 := randoms w (S (cursor w))) in *.
  set (r2 := randoms w (S (S (cursor w)))) in *.
  unfold Sampler.relativeHeightOf, Sampler.conePoint. cbv zeta.
  cbn [Vector3.y].
  assert (E : (r0 * height - height / 2 + yOffset - yOffset + height / 2) / height
              = r0) by (field; lra).
  rewrite E.
  split; [reflexivity |].
  assert (Hp : 0 <= r0 * height < height) by (destruct H0; split; nra).
  split; [lra |].
  assert (Hq : 0 <= baseRadius * (1 - r0)) by (apply Rmult_le_pos; lra).
  rewrite polar_radial by nra. nra.
Qed.

Lemma cone_point_envelope_witness :
  let w := mkWorld (fun _ => 0.5) 0%nat [] [] in
  0 < 12 /\ 0 <= 4.5 /\ (forall n, 0 <= randoms w n < 1)
  /\ Sampler.relativeHeightOf 12 (-1)
       (resultOf (Sampler.getConePoint 12 4.5 (-1) w)) = 0.5.
Proof.
  intros w.
  assert (Hrnd : forall n, 0 <= randoms w n < 1) by (intros n; simpl; lra).
  assert (H1 : 0 < 12) by lra. assert (H2 : 0 <= 4.5) by lra.
  destruct (cone_point_envelope 12 4.5 (-1) w H1 H2 Hrnd) as [H _].
  split; [exact H1 |]. split; [exact H2 |]. split; [exact Hrnd | exact H].
Defined.

Lemma shell_bounds radius lo span u :
  0 <= radius -> 0 <= u < 1 -> 0 <= lo -> 0 <= span ->
  0 <= radius * (lo + u * span)
  /\ lo * radius <= radius * (lo + u * span) <= (lo + span) * radius.
Proof.
  intros Hr [Hu0 Hu1] Hlo Hspan.
  assert (H1 : 0 <= u * span <= span) by (split; nra).
  assert (H2 : 0 <= radius * (u * span) <= radius * span) by (split; nra).
  split; [| split]; nra.
Qed.

(** X2. [getWeightedFoliagePoint], for a positive height, a non-negative base
    radius and values of [Math.random()] in [0,1): the relative height of
    the returned point is the sixth power of the first value drawn, in
    [0,1); its y lies in [yOffset - height/2, yOffset + height/2); its
    distance from the axis is between 80% and 110% of the radius of the
    cone at its height, so a needle may lie outside the cone by a tenth of
    that radius. *)
Theorem foliage_point_envelope (height baseRadius yOffset : R) (w : World) :
  0 < height -> 0 <= baseRadius -> (forall n, 0 <= randoms w n < 1) ->
  let p := resultOf (Sampler.getWeightedFoliagePoint height baseRadius yOffset w) in
  let relativeHeight := Sampler.relativeHeightOf height yOffset p in
  let radiusAtHeight := baseRadius * (1 - relativeHeight) in
  relativeHeight = randoms w (cursor w) ^ 6
  /\ 0 <= relativeHeight < 1
  /\ yOffset - height / 2 <= Vector3.y p < yOffset + height / 2
  /\ 0.8 * radiusAtHeight <= radialDistance p <= 1.1 * radiusAtHeight.
Proof.
  intros Hh Hb Hrnd. cbv zeta. rewrite getWeightedFoliagePoint_value.
  pose proof (Hrnd (cursor w)) as H0.
  pose proof (Hrnd (S (S (cursor w)))) as H2.
  set (r := randoms w (cursor w)) in *.
  set (u1 := randoms w (S (cursor w))) in *.
  set (u2 := randoms w (S (S (cursor w)))) in *.
  assert (Hbias : 0 <= JSMath.pow r 6.0 < 1) by (apply jspow_unit; lra).
  rewrite <- (jspow_6 r) by lra.
  set (bias := JSMath.pow r 6.0) in *.
  unfold Sampler.relativeHeightOf, Sampler.weightedFoliagePoint. cbv zeta.
  cbn [Vector3.y]. fold bias.
  assert (E : (yOffset - height / 2 + bias * height - yOffset + height / 2) / height
              = bias) by (field; lra).
  rewrite E.
  assert (Hp : 0 <= bias * height < height) by (destruct Hbias; split; nra).
  assert (Hq : 0 <= baseRadius * (1 - bias)) by (apply Rmult_le_pos; lra).
  destruct (shell_bounds (baseRadius * (1 - bias)) 0.8 0.3 u2 Hq H2) as [S0 S1];
    [lra | lra |].
  split; [reflexivity |]. split; [exact Hbias |]. split; [lra |].
  rewrite polar_radial by exact S0. lra.
Qed.

Lemma foliage_point_envelope_witness :
  let w := mkWorld (fun _ => 0.5) 0%nat [] [] in
  0 < 12 /\ 0 <= 4.5 /\ (forall n, 0 <= randoms w n < 1)
  /\ 0 <= Sampler.relativeHeightOf 12 (-1)
            (resultOf (Sampler.getWeightedFoliagePoint 12 4.5 (-1) w)) < 1.
Proof.
  intros w.
  assert (Hrnd : forall n, 0 <= randoms w n < 1) by (intros n; simpl; lra).
  assert (H1 : 0 < 12) by lra. assert (H2 : 0 <= 4.5) by lra.
  destruct (foliage_point_envelope 12 4.5 (-1) w H1 H2 Hrnd) as (_ & H & _).
  split; [exact H1 |]. split; [exact H2 |]. split; [exact Hrnd | exact H].
Defined.

(** X3. [getSpiralPoint], for a positive height, a non-negative base radius
    and values of [Math.random()] in [0,1): the relative height of the
    returned point is [pow(t, 1.5) * 0.85] for the first value [t] drawn,
    in [0, 0.85); its distance from the axis is between 95% and 110% of the
    radius of the cone at its height; and its angle around the axis is
    within 0.3 of the angle [relativeHeight * 2 * PI * 3.5 + phase] of a
    spiral of 3.5 turns. *)
Theorem spiral_point_on_spiral (height baseRadius yOffset phase : R) (w : World) :
  0 < height -> 0 <= baseRadius -> (forall n, 0 <= randoms w n < 1) ->
  let p := resultOf (Sampler.getSpiralPoint height baseRadius yOffset phase w) in
  let relativeHeight := Sampler.relativeHeightOf height yOffset p in
  let radiusAtHeight := baseRadius * (1 - relativeHeight) in
  relativeHeight = Sampler.spiralRelativeHeight (randoms w (cursor w))
  /\ 0 <= relativeHeight < 0.85
  /\ 0.95 * radiusAtHeight <= radialDistance p <= 1.1 * radiusAtHeight
  /\ exists theta,
       Rabs (theta - (relativeHeight * PI * 2 * 3.5 + phase)) <= 0.3
       /\ Vector3.x p = radialDistance p * cos theta
       /\ Vector3.z p = radialDistance p * sin theta.
Proof.
  intros Hh Hb Hrnd. cbv zeta. rewrite getSpiralPoint_value.
  pose proof (Hrnd (cursor w)) as H0.
  pose proof (Hrnd (S (cursor w))) as H1.
  pose proof (Hrnd (S (S (cursor w)))) as H2.
  set (t := randoms w (cursor w)) in *.
  set (u1 := randoms w (S (cursor w))) in *.
  set (u2 := randoms w (S (S (cursor w)))) in *.
  assert (Hbias : 0 <= JSMath.pow t 1.5 < 1) by (apply jspow_unit; lra).
  assert (Hrel : 0 <= Sampler.spiralRelativeHeight t < 0.85).
  { unfold Sampler.spiralRelativeHeight. cbv zeta. lra. }
  unfold Sampler.relativeHeightOf, Sampler.spiralPoint. cbv zeta.
  cbn [Vector3.x Vector3.y Vector3.z].
  set (h := Sampler.spiralRelativeHeight t) in *.
  assert (E : (yOffset - height / 2 + h * height - yOffset + height / 2) / height
              = h) by (field; lra).
  rewrite E.
  assert (Hq : 0 <= baseRadius * (1 - h)) by (apply Rmult_le_pos; lra).
  destruct (shell_bounds (baseRadius * (1 - h)) 0.95 0.15 u2 Hq H2) as [S0 S1];
    [lra | lra |].
  rewrite polar_radial by exact S0.
  split; [reflexivity |]. split; [exact Hrel |]. split; [lra |].
  exists (h * PI * 2 * 3.5 + phase + (u1 - 0.5) * 0.6).
  split; [| split; reflexivity].
  replace (h * PI * 2 * 3.5 + phase + (u1 - 0.5) * 0.6 - (h * PI * 2 * 3.5 + phase))
    with ((u1 - 0.5) * 0.6) by ring.
  apply Rabs_le. lra.
Qed.

Lemma spiral_point_on_spiral_witness :
  let w := mkWorld (fun _ => 0.5) 0%nat [] [] in
  0 < 11 /\ 0 <= 4.8 /\ (forall n, 0 <= randoms w n < 1)
  /\ 0 <= Sampler.relativeHeightOf 11 (-1)
            (resultOf (Sampler.getSpiralPoint 11 4.8 (-1) PI w)) < 0.85.
Proof.
  intros w.
  assert (Hrnd : forall n, 0 <= randoms w n < 1) by (intros n; simpl; lra).
  assert (H1 : 0 < 11) by lra. assert (H2 : 0 <= 4.8) by lra.
  destruct (spiral_point_on_spiral 11 4.8 (-1) PI w H1 H2 Hrnd) as (_ & H & _).
  split; [exact H1 |]. split; [exact H2 |]. split; [exact Hrnd | exact H].
Defined.

(** X4. The tree positions of the gift boxes and of the tiny baubles, as
    their groups request them ([getGiftBoxPoint(12, 5.5, -1)] and
    [getTinyBaublePoint(11, 4.6, -1)]), for values of [Math.random()] in
    [0,1). A gift box has relative height [pow(r, 2.8) * 0.6], y in
    [-7, 0.2), and a distance from the axis between 50% and 120% of the
    radius of the cone at its height, hence between 1.1 and 6.6. A bauble
    has relative height [pow(r, 2.5) * 0.9], y in [-6.5, 3.4), and a
    distance from the axis between 90% and 105% of that radius, hence
    between 0.414 and 4.83. *)
Theorem pile_points_envelope (w : World) :
  (forall n, 0 <= randoms w n < 1) ->
  let gb := resultOf (Sampler.getGiftBoxPoint 12 5.5 (-1) w) in
  let tb := resultOf (Sampler.getTinyBaublePoint 11 4.6 (-1) w) in
  let r := randoms w (cursor w) in
  let gh := Sampler.relativeHeightOf 12 (-1) gb in
  let th := Sampler.relativeHeightOf 11 (-1) tb in
  (gh = JSMath.pow r 2.8 * 0.6
   /\ -7 <= Vector3.y gb < 0.2
   /\ 0.5 * (5.5 * (1 - gh)) <= radialDistance gb <= 1.2 * (5.5 * (1 - gh))
   /\ 1.1 <= radialDistance gb <= 6.6)
  /\ (th = JSMath.pow r 2.5 * 0.9
      /\ -6.5 <= Vector3.y tb < 3.4
      /\ 0.9 * (4.6 * (1 - th)) <= radialDistance tb <= 1.05 * (4.6 * (1 - th))
      /\ 0.414 <= radialDistance tb <= 4.83).
Proof.
  intros Hrnd. cbv zeta.
  rewrite getGiftBoxPoint_value, getTinyBaublePoint_value.
  pose proof (Hrnd (cursor w)) as H0.
  pose proof (Hrnd (S (S (cursor w)))) as H2.
  set (r := randoms w (cursor w)) in *.
  set (u1 := randoms w (S (cursor w))) in *.
  set (u2 := randoms w (S (S (cursor w)))) in *.
  assert (H28 : 0 <= JSMath.pow r 2.8 < 1) by (apply jspow_unit; lra).
  assert (H25 : 0 <= JSMath.pow r 2.5 < 1) by (apply jspow_unit; lra).
  unfold Sampler.relativeHeightOf, Sampler.giftBoxPoint, Sampler.tinyBaublePoint.
  cbv zeta. cbn [Vector3.y].
  set (b28 := JSMath.pow r 2.8) in *. set (b25 := JSMath.pow r 2.5) in *.
  assert (Eg : (-1 - 12 / 2 + b28 * 12 * 0.6 - -1 + 12 / 2) / 12 = b28 * 0.6)
    by lra.
  assert (Et : (-1 - 11 / 2 + b25 * 11 * 0.9 - -1 + 11 / 2) / 11 = b25 * 0.9)
    by lra.
  rewrite Eg, Et.
  assert (Qg : 0 <= 5.5 * (1 - b28 * 0.6)) by lra.
  assert (Qt : 0 <= 4.6 * (1 - b25 * 0.9)) by lra.
  destruct (shell_bounds _ 0.5 0.7 u2 Qg H2) as [G0 G1]; [lra | lra |].
  destruct (shell_bounds _ 0.9 0.15 u2 Qt H2) as [T0 T1]; [lra | lra |].
  rewrite !polar_radial by assumption.
  split; (split; [reflexivity |]); (split; [lra |]); split; lra.
Qed.

Lemma pile_points_envelope_witness :
  let w := mkWorld (fun _ => 0.5) 0%nat [] [] in
  (forall n, 0 <= randoms w n < 1)
  /\ 1.1 <= radialDistance (resultOf (Sampler.getGiftBoxPoint 12 5.5 (-1) w)) <= 6.6.
Proof.
  intros w.
  assert (Hrnd : forall n, 0 <= randoms w n < 1) by (intros n; simpl; lra).
  destruct (pile_points_envelope w Hrnd) as [(_ & _ & _ & H) _].
  split; [exact Hrnd | exact H].
Defined.

(** ** Easing and staggering in the vertex shaders *)

Lemma glslpow_3 x : 0 <= x -> GLSL.pow x 3.0 = x * x * x.
Proof.
  intros Hx. unfold GLSL.pow.
  destruct (Rlt_dec 0 x) as [Hpos | Hnpos].
  - replace 3.0 with (INR 3) by (simpl; lra).
    rewrite Rpower_pow by exact Hpos. simpl. ring.
  - assert (x = 0) by lra. subst x. ring.
Qed.

Lemma easeInOutCubic_low x : x < 0.5 -> Shader.easeInOutCubic x = 4 * (x * x * x).
Proof.
  intros H. unfold Shader.easeInOutCubic.
  destruct (Rlt_dec x 0.5); [lra | contradiction].
Qed.

Lemma easeInOutCubic_high x :
  0.5 <= x <= 1 ->
  Shader.easeInOutCubic x = 1 - 4 * ((1 - x) * (1 - x) * (1 - x)).
Proof.
  intros H. unfold Shader.easeInOutCubic.
  destruct (Rlt_dec x 0.5); [lra |].
  rewrite glslpow_3 by lra. lra.
Qed.

Lemma cube_mono a b : 0 <= a <= b -> a * a * a <= b * b * b.
Proof.
  intros [Ha Hab].
  assert (a * a <= b * b) by nra.
  assert (0 <= a * a) by nra.
  nra.
Qed.

Lemma cube_unit a : 0 <= a <= 1 -> 0 <= a * a * a <= a.
Proof.
  intros [Ha Hb]. assert (0 <= a * a <= 1) by (split; nra). split; nra.
Qed.

Lemma easeInOutCubic_range x : 0 <= x <= 1 -> 0 <= Shader.easeInOutCubic x <= 1.
Proof.
  intros H. destruct (Rlt_dec x 0.5) as [Hlt | Hge].
  - rewrite easeInOutCubic_low by exact Hlt.
    assert (Hc : 0 <= x * x * x <= 0.5 * 0.5 * 0.5)
      by (split; [apply cube_unit; lra | apply cube_mono; lra]).
    lra.
  - rewrite easeInOutCubic_high by lra.
    assert (Hc : 0 <= (1 - x) * (1 - x) * (1 - x) <= 0.5 * 0.5 * 0.5)
      by (split; [apply cube_unit; lra | apply cube_mono; lra]).
    lra.
Qed.

Lemma easeInOutCubic_mono x y :
  0 <= x -> x <= y -> y <= 1 ->
  Shader.easeInOutCubic x <= Shader.easeInOutCubic y.
Proof.
  intros Hx Hxy Hy.
  destruct (Rlt_dec x 0.5) as [Hlx | Hgx]; destruct (Rlt_dec y 0.5) as [Hly | Hgy].
  - rewrite !easeInOutCubic_low by assumption.
    pose proof (cube_mono x y). lra.
  - rewrite easeInOutCubic_low by assumption.
    rewrite easeInOutCubic_high by lra.
    assert (x * x * x <= 0.5 * 0.5 * 0.5) by (apply cube_mono; lra).
    assert ((1 - y) * (1 - y) * (1 - y) <= 0.5 * 0.5 * 0.5)
      by (apply cube_mono; lra).
    lra.
  - lra.
  - rewrite !easeInOutCubic_high by lra.
    pose proof (cube_mono (1 - y) (1 - x)). lra.
Qed.

Lemma easeInOutCubic_sym x :
  0 <= x <= 1 -> Shader.easeInOutCubic (1 - x) = 1 - Shader.easeInOutCubic x.
Proof.
  intros H. destruct (Rlt_dec x 0.5) as [Hlt | Hge].
  - rewrite (easeInOutCubic_low x) by exact Hlt.
    rewrite easeInOutCubic_high by lra. ring.
  - rewrite (easeInOutCubic_high x) by lra.
    destruct (Rlt_dec (1 - x) 0.5) as [Hlt' | Hge'].
    + rewrite easeInOutCubic_low by exact Hlt'. ring.
    + assert (x = 0.5) by lra. subst x.
      rewrite easeInOutCubic_high by lra. lra.
Qed.

(** X5. [easeInOutCubic] of the two vertex shaders, on [0,1]: its values are
    in [0,1], it is monotone, it is symmetric about the midpoint
    ([easeInOutCubic(1 - x) = 1 - easeInOutCubic(x)]), it lies below the
    identity on the first half and above it on the second. *)
Theorem easeInOutCubic_shape (x y : R) :
  0 <= x -> x <= y -> y <= 1 ->
  0 <= Shader.easeInOutCubic x <= 1
  /\ Shader.easeInOutCubic x <= Shader.easeInOutCubic y
  /\ Shader.easeInOutCubic (1 - x) = 1 - Shader.easeInOutCubic x
  /\ (x <= 0.5 -> Shader.easeInOutCubic x <= x)
  /\ (0.5 <= x -> x <= Shader.easeInOutCubic x).
Proof.
  intros Hx Hxy Hy.
  split; [apply easeInOutCubic_range; lra |].
  split; [now apply easeInOutCubic_mono |].
  split; [apply easeInOutCubic_sym; lra |].
  split; intros H.
  - destruct (Rlt_dec x 0.5) as [Hlt | Hge].
    + rewrite easeInOutCubic_low by exact Hlt.
      assert (x * x <= 0.25) by nra. nra.
    + assert (x = 0.5) by lra. subst x. rewrite easeInOutCubic_high by lra. lra.
  - rewrite easeInOutCubic_high by lra.
    assert (0 <= 1 - x <= 0.5) by lra.
    assert ((1 - x) * (1 - x) <= 0.25) by nra. nra.
Qed.

Lemma easeInOutCubic_shape_witness :
  0 <= 0.25 /\ 0.25 <= 0.75 /\ 0.75 <= 1
  /\ Shader.easeInOutCubic 0.25 <= Shader.easeInOutCubic 0.75
  /\ Shader.easeInOutCubic (1 - 0.25) = 1 - Shader.easeInOutCubic 0.25.
Proof.
  assert (H1 : 0 <= 0.25) by lra.
  assert (H2 : 0.25 <= 0.75) by lra.
  assert (H3 : 0.75 <= 1) by lra.
  destruct (easeInOutCubic_shape 0.25 0.75 H1 H2 H3) as (_ & Hm & Hs & _).
  repeat split; assumption.
Defined.

Lemma glsl_clamp_unit x : 0 <= GLSL.clamp x 0.0 1.0 <= 1.
Proof.
  unfold GLSL.clamp, Rmin, Rmax.
  destruct (Rle_dec x 0.0); destruct (Rle_dec _ 1.0); lra.
Qed.

Lemma glsl_clamp_mono x y : x <= y -> GLSL.clamp x 0.0 1.0 <= GLSL.clamp y 0.0 1.0.
Proof.
  intros H. unfold GLSL.clamp.
  apply Rle_min_compat_r. now apply Rle_max_compat_r.
Qed.

Lemma glsl_clamp_zero_iff x : GLSL.clamp x 0.0 1.0 = 0 <-> x <= 0.
Proof.
  unfold GLSL.clamp, Rmax.
  destruct (Rle_dec x 0.0); unfold Rmin; destruct (Rle_dec _ 1.0); split; lra.
Qed.

Lemma glsl_clamp_one_iff x : GLSL.clamp x 0.0 1.0 = 1 <-> 1 <= x.
Proof.
  unfold GLSL.clamp, Rmax.
  destruct (Rle_dec x 0.0); unfold Rmin; destruct (Rle_dec _ 1.0); split; lra.
Qed.

(** X6. The per-particle blend factor [delayedT] of the foliage shader
    ([clamp(t * 1.2 - aRandom * 0.2, 0, 1)]) and of the garland shader
    ([clamp(t * 1.5 - aRandom * 0.5, 0, 1)]), with [t] the eased progress:
    it is in [0,1], it never decreases when the progress grows, a particle
    with a larger [aRandom] is never ahead of one with a smaller, it is 0
    exactly while [t <= aRandom/6] (garland: [aRandom/3]) and 1 exactly
    from [t >= (5 + aRandom)/6] (garland: [(2 + aRandom)/3]) on. *)
Theorem stagger_order (p q a b : R) :
  0 <= p -> p <= q -> q <= 1 -> a <= b ->
  let t := Shader.easeInOutCubic p in
  (0 <= Shader.foliageDelayedT p a <= 1
   /\ Shader.foliageDelayedT p a <= Shader.foliageDelayedT q a
   /\ Shader.foliageDelayedT p b <= Shader.foliageDelayedT p a
   /\ (Shader.foliageDelayedT p a = 0 <-> t <= a / 6)
   /\ (Shader.foliageDelayedT p a = 1 <-> (5 + a) / 6 <= t))
  /\ (0 <= Shader.spiralDelayedT p a <= 1
      /\ Shader.spiralDelayedT p a <= Shader.spiralDelayedT q a
      /\ Shader.spiralDelayedT p b <= Shader.spiralDelayedT p a
      /\ (Shader.spiralDelayedT p a = 0 <-> t <= a / 3)
      /\ (Shader.spiralDelayedT p a = 1 <-> (2 + a) / 3 <= t)).
Proof.
  intros Hp Hpq Hq Hab. cbv zeta.
  pose proof (easeInOutCubic_mono p q Hp Hpq Hq) as Hm.
  unfold Shader.foliageDelayedT, Shader.spiralDelayedT. cbv zeta.
  set (t := Shader.easeInOutCubic p) in *.
  set (t' := Shader.easeInOutCubic q) in *.
  split.
  - split; [apply glsl_clamp_unit |].
    split; [apply glsl_clamp_mono; lra |].
    split; [apply glsl_clamp_mono; lra |].
    rewrite glsl_clamp_zero_iff, glsl_clamp_one_iff. split; split; lra.
  - split; [apply glsl_clamp_unit |].
    split; [apply glsl_clamp_mono; lra |].
    split; [apply glsl_clamp_mono; lra |].
    rewrite glsl_clamp_zero_iff, glsl_clamp_one_iff. split; split; lra.
Qed.

Lemma stagger_order_witness :
  0 <= 0.2 /\ 0.2 <= 0.6 /\ 0.6 <= 1 /\ 0.1 <= 0.9
  /\ Shader.foliageDelayedT 0.2 0.1 <= Shader.foliageDelayedT 0.6 0.1
  /\ Shader.spiralDelayedT 0.2 0.9 <= Shader.spiralDelayedT 0.2 0.1.
Proof.
  assert (H1 : 0 <= 0.2) by lra.
  assert (H2 : 0.2 <= 0.6) by lra.
  assert (H3 : 0.6 <= 1) by lra.
  assert (H4 : 0.1 <= 0.9) by lra.
  destruct (stagger_order 0.2 0.6 0.1 0.9 H1 H2 H3 H4)
    as ((_ & Hf & _) & (_ & _ & Hs & _)).
  repeat split; assumption.
Defined.

(** ** How far the vertex shaders move a particle *)

Lemma Rabs_le_inv a b : Rabs a <= b -> - b <= a <= b.
Proof. unfold Rabs. destruct (Rcase_abs a); lra. Qed.

Lemma scaled_sine_bounded s k : 0 <= k -> -1 <= s <= 1 -> Rabs (s * k) <= k.
Proof. intros Hk [Hl Hu]. apply Rabs_le. split; nra. Qed.

(** X7. The garland vertex shader, for a progress in [0,1]: the emitted
    position differs from the blended position only in y, by at most
    [0.1 * (1 - uProgress)]; from progress 0.95 on it is the blended
    position exactly; and the alpha it hands to the fragment shader,
    [0.4 + 0.6 * uProgress], is in [0.4, 1]. *)
Theorem garland_sway_bounded (uTime uProgress : R) (aScatterPos aTreePos : vec3)
    (aRandom : R) :
  0 <= uProgress <= 1 ->
  let blended := Shader.spiralBlend uProgress aScatterPos aTreePos aRandom in
  let emitted := Shader.spiralPos uTime uProgress aScatterPos aTreePos aRandom in
  Vector3.x emitted = Vector3.x blended
  /\ Vector3.z emitted = Vector3.z blended
  /\ Rabs (Vector3.y emitted - Vector3.y blended) <= 0.1 * (1 - uProgress)
  /\ (0.95 <= uProgress -> emitted = blended)
  /\ 0.4 <= Shader.spiralAlpha uProgress <= 1.
Proof.
  intros Hp. cbv zeta. unfold Shader.spiralPos, Shader.spiralAlpha. cbv zeta.
  set (b := Shader.spiralBlend uProgress aScatterPos aTreePos aRandom).
  destruct (Rlt_dec uProgress 0.95) as [Hlt | Hge]; cbn [Vector3.x Vector3.y Vector3.z].
  - split; [reflexivity |]. split; [reflexivity |]. split.
    + replace (Vector3.y b + sin (uTime + aRandom * 10.0) * 0.1 * (1.0 - uProgress)
               - Vector3.y b)
        with (sin (uTime + aRandom * 10.0) * (0.1 * (1 - uProgress))) by lra.
      apply scaled_sine_bounded; [lra | apply SIN_bound].
    + split; [intros; lra | lra].
  - split; [reflexivity |]. split; [reflexivity |]. split.
    + replace (Vector3.y b - Vector3.y b) with 0 by ring. rewrite Rabs_R0. lra.
    + split; [reflexivity | lra].
Qed.

Lemma garland_sway_bounded_witness :
  0 <= 0.5 <= 1
  /\ Rabs (Vector3.y (Shader.spiralPos 2 0.5 (Vector3.mk 3 4 5) (Vector3.mk 1 2 0) 0.3)
           - Vector3.y (Shader.spiralBlend 0.5 (Vector3.mk 3 4 5) (Vector3.mk 1 2 0) 0.3))
     <= 0.1 * (1 - 0.5).
Proof.
  assert (Hp : 0 <= 0.5 <= 1) by lra.
  destruct (garland_sway_bounded 2 0.5 (Vector3.mk 3 4 5) (Vector3.mk 1 2 0) 0.3 Hp)
    as (_ & _ & H & _).
  split; [exact Hp | exact H].
Defined.

Lemma breath_term_bounded v breath k :
  Rabs v <= 1 -> Rabs breath <= 0.03 -> 0 <= k -> Rabs (v * breath * k) <= 0.03 * k.
Proof.
  intros Hv Hb Hk. rewrite !Rabs_mult, (Rabs_right k) by lra.
  pose proof (Rabs_pos v). pose proof (Rabs_pos breath).
  assert (Rabs v * Rabs breath <= 0.03) by nra. nra.
Qed.

(** X8. The foliage vertex shader, for a progress in [0,1]: the emitted
    position differs from the blended position by at most
    [breathing + sway] in x and in y and by at most [breathing] in z, where
    [breathing = 0.03 * (0.5 + 0.5 * uProgress)] and
    [sway = 0.2 * (1 - uProgress)]; from progress 0.9 on the sway is gone
    and only the breathing is left. *)
Theorem foliage_overlay_bounded (uTime uProgress : R) (aScatterPos aTreePos : vec3)
    (aRandom : R) :
  0 <= uProgress <= 1 ->
  let blended := Shader.foliageBlend uProgress aScatterPos aTreePos aRandom in
  let emitted := Shader.foliagePos uTime uProgress aScatterPos aTreePos aRandom in
  let breathing := 0.03 * (0.5 + 0.5 * uProgress) in
  let sway := 0.2 * (1 - uProgress) in
  Rabs (Vector3.x emitted - Vector3.x blended) <= breathing + sway
  /\ Rabs (Vector3.y emitted - Vector3.y blended) <= breathing + sway
  /\ Rabs (Vector3.z emitted - Vector3.z blended) <= breathing
  /\ (0.9 <= uProgress ->
      Rabs (Vector3.x emitted - Vector3.x blended) <= breathing
      /\ Rabs (Vector3.y emitted - Vector3.y blended) <= breathing).
Proof.
  intros Hp. cbv zeta. unfold Shader.foliagePos. cbv zeta.
  set (b := Shader.foliageBlend uProgress aScatterPos aTreePos aRandom).
  set (br := Shader.foliageBreath uTime aRandom).
  set (k := 0.5 + 0.5 * uProgress).
  destruct (normalize_bounded b) as (Nx & Ny & Nz).
  pose proof (breath_bounded uTime aRandom) as Hb. fold br in Hb.
  assert (Hk : 0 <= k) by (unfold k; lra).
  pose proof (breath_term_bounded _ _ _ Nx Hb Hk) as Bx.
  pose proof (breath_term_bounded _ _ _ Ny Hb Hk) as By.
  pose proof (breath_term_bounded _ _ _ Nz Hb Hk) as Bz.
  set (nx := Vector3.x (GLSL.normalize b)) in *.
  set (ny := Vector3.y (GLSL.normalize b)) in *.
  set (nz := Vector3.z (GLSL.normalize b)) in *.
  apply Rabs_le_inv in Bx, By, Bz.
  destruct (Rlt_dec uProgress 0.9) as [Hlt | Hge];
    unfold Vector3.add, Vector3.scale; cbn [Vector3.x Vector3.y Vector3.z];
    fold nx ny nz.
  - set (s1 := sin _). set (c1 := cos _).
    assert (Hs : Rabs (s1 * (0.2 * (1 - uProgress))) <= 0.2 * (1 - uProgress))
      by (apply scaled_sine_bounded; [lra | apply SIN_bound]).
    assert (Hc : Rabs (c1 * (0.2 * (1 - uProgress))) <= 0.2 * (1 - uProgress))
      by (apply scaled_sine_bounded; [lra | apply COS_bound]).
    apply Rabs_le_inv in Hs, Hc.
    split; [apply Rabs_le; lra |]. split; [apply Rabs_le; lra |].
    split; [apply Rabs_le; lra |]. intros; lra.
  - split; [apply Rabs_le; lra |]. split; [apply Rabs_le; lra |].
    split; [apply Rabs_le; lra |]. intros _. split; apply Rabs_le; lra.
Qed.

Lemma foliage_overlay_bounded_witness :
  0 <= 1 <= 1
  /\ Rabs (Vector3.z (Shader.foliagePos 0 1 (Vector3.mk 9 9 9) (Vector3.mk 1 2 2) 0.5)
           - Vector3.z (Shader.foliageBlend 1 (Vector3.mk 9 9 9) (Vector3.mk 1 2 2) 0.5))
     <= 0.03 * (0.5 + 0.5 * 1).
Proof.
  assert (H1 : 0 <= 1 <= 1) by lra.
  destruct (foliage_overlay_bounded 0 1 (Vector3.mk 9 9 9) (Vector3.mk 1 2 2) 0.5 H1)
    as (_ & _ & H & _).
  split; [exact H1 | exact H].
Defined.

(** ** Sparkle, colour and fragments *)

Lemma hermite_unit t : 0 <= t <= 1 -> 0 <= t * t * (3.0 - 2.0 * t) <= 1.
Proof.
  intros [H0 H1]. assert (0 <= t * t <= 1) by (split; nra).
  split; [nra |].
  replace (t * t * (3.0 - 2.0 * t)) with (1 - (1 - t) * (1 - t) * (1 + 2 * t)) by lra.
  assert (0 <= (1 - t) * (1 - t)) by nra. nra.
Qed.

Lemma smoothstep_unit edge0 edge1 x : 0 <= GLSL.smoothstep edge0 edge1 x <= 1.
Proof.
  unfold GLSL.smoothstep. cbv zeta. apply hermite_unit, glsl_clamp_unit.
Qed.

Lemma smoothstep_below edge0 edge1 x :
  edge0 < edge1 -> x <= edge0 -> GLSL.smoothstep edge0 edge1 x = 0.
Proof.
  intros He Hx. unfold GLSL.smoothstep. cbv zeta.
  assert (E : GLSL.clamp ((x - edge0) / (edge1 - edge0)) 0.0 1.0 = 0).
  { apply glsl_clamp_zero_iff. unfold Rdiv.
    assert (0 < / (edge1 - edge0)) by (apply Rinv_0_lt_compat; lra). nra. }
  rewrite E. ring.
Qed.

Lemma smoothstep_above edge0 edge1 x :
  edge0 < edge1 -> edge1 <= x -> GLSL.smoothstep edge0 edge1 x = 1.
Proof.
  intros He Hx. unfold GLSL.smoothstep. cbv zeta.
  assert (E : GLSL.clamp ((x - edge0) / (edge1 - edge0)) 0.0 1.0 = 1).
  { apply glsl_clamp_one_iff.
    apply Rmult_le_reg_r with (edge1 - edge0); [lra |].
    unfold Rdiv. rewrite Rmult_assoc, Rinv_l by lra. lra. }
  rewrite E. lra.
Qed.

(** X9. The foliage vertex shader, for a progress in [0,1] and a size
    attribute [aSize >= 0]: the sparkle intensity is in
    [0, 0.3 + 0.7 * uProgress], the alpha [vAlpha] in [0.33, 1.65] (it can
    exceed 1), and the base size of the point is [aSize * 0.6] or
    [aSize * 0.36]. While [sin(uTime * 3 + aRandom * 100) <= 0.992] the
    particle does not sparkle: the intensity is 0, the colour is the base
    colour, the base size is [aSize * 0.6] and the alpha is at most 0.85. *)
Theorem foliage_sparkle_alpha (uTime uProgress aRandom aSize : R) (aTreePos : vec3) :
  0 <= uProgress <= 1 -> 0 <= aSize ->
  let sparkle := Shader.foliageSparkleIntensity uTime uProgress aRandom in
  0 <= sparkle <= 0.3 + 0.7 * uProgress
  /\ 0.33 <= Shader.foliageAlpha uTime uProgress aRandom <= 1.65
  /\ aSize * 0.36 <= Shader.foliageBaseSize uTime uProgress aRandom aSize
     <= aSize * 0.6
  /\ (sin (uTime * 3.0 + aRandom * 100.0) <= 0.992 ->
      sparkle = 0
      /\ Shader.foliageColor uTime uProgress aTreePos aRandom
         = Shader.foliageBaseColor uTime aTreePos aRandom
      /\ Shader.foliageBaseSize uTime uProgress aRandom aSize = aSize * 0.6
      /\ Shader.foliageAlpha uTime uProgress aRandom <= 0.85).
Proof.
  intros Hp Hs. cbv zeta.
  unfold Shader.foliageAlpha, Shader.foliageBaseSize, Shader.foliageColor.
  cbv zeta.
  unfold Shader.foliageSparkleIntensity, Shader.foliageIsSparkle,
    Shader.foliageSparkleCycle. cbv zeta.
  pose proof (smoothstep_unit 0.992 1.0 (sin (uTime * 3.0 + aRandom * 100.0))) as Hi.
  pose proof (SIN_bound (uTime * 5.0 + aRandom * 50.0)) as Hc.
  set (i := GLSL.smoothstep 0.992 1.0 _) in *.
  set (c := sin (uTime * 5.0 + aRandom * 50.0)) in *.
  assert (Hk : 0 <= i * (0.3 + 0.7 * uProgress) <= 0.3 + 0.7 * uProgress)
    by (destruct Hi; split; nra).
  assert (Ha : 0.33 <= (0.7 + 0.15 * c) * (0.6 + 0.4 * uProgress) <= 0.85)
    by (destruct Hc, Hp; split; nra).
  split; [exact Hk |]. split; [lra |]. split.
  - destruct (Rlt_dec 0.1 _); nra.
  - intros Hsin.
    assert (Ei : i = 0) by (subst i; apply smoothstep_below; lra).
    rewrite Ei, Rmult_0_l.
    split; [reflexivity |]. split; [apply glsl_mix_zero |]. split.
    + destruct (Rlt_dec 0.1 0); lra.
    + lra.
Qed.

Lemma foliage_sparkle_alpha_witness :
  0 <= 1 <= 1 /\ 0 <= 1
  /\ 0.33 <= Shader.foliageAlpha 0 1 0 <= 1.65.
Proof.
  assert (H1 : 0 <= 1 <= 1) by lra. assert (H2 : 0 <= 1) by lra.
  destruct (foliage_sparkle_alpha 0 1 0 1 (Vector3.mk 0 0 0) H1 H2) as (_ & H & _).
  split; [exact H1 |]. split; [exact H2 | exact H].
Defined.

(** X10. The base colour of a needle whose tree position has y in [-7, 5),
    the range in which the foliage is built: it is
    [mix(deepPine, pineTip, m)] with a mix factor [m] in [-0.19, 0.83),
    that is (0.005 + 0.015 m, 0.02 + 0.13 m, 0.01 + 0.05 m). Its red and
    blue components are positive; its green component is negative exactly
    when [m < -2/13], which happens at the bottom of the tree (y = -7,
    [aRandom] = 0, [uTime = -PI/3]). *)
Theorem foliage_base_color_range (uTime aRandom : R) (aTreePos : vec3) :
  -7 <= Vector3.y aTreePos < 5 ->
  let m := Shader.foliageColorMix uTime aTreePos aRandom in
  let c := Shader.foliageBaseColor uTime aTreePos aRandom in
  -0.19 <= m < 0.83
  /\ Vector3.x c = 0.005 + 0.015 * m /\ Vector3.y c = 0.02 + 0.13 * m
  /\ Vector3.z c = 0.01 + 0.05 * m
  /\ 0 < Vector3.x c /\ 0 < Vector3.z c
  /\ (Vector3.y c < 0 <-> m < - 2 / 13)
  /\ Vector3.y (Shader.foliageBaseColor (- PI / 3) (Vector3.mk 0 (-7) 0) 0) < 0.
Proof.
  intros Hy. cbv zeta. unfold Shader.foliageBaseColor.
  assert (Hm : -0.19 <= Shader.foliageColorMix uTime aTreePos aRandom < 0.83).
  { unfold Shader.foliageColorMix. cbv zeta.
    pose proof (breath_bounded uTime aRandom) as Hb. apply Rabs_le_inv in Hb. lra. }
  set (m := Shader.foliageColorMix uTime aTreePos aRandom) in *.
  unfold GLSL.mix, GLSL.mix1, Shader.deepPine, Shader.pineTip.
  cbn [Vector3.x Vector3.y Vector3.z].
  split; [exact Hm |]. split; [lra |]. split; [lra |]. split; [lra |].
  split; [lra |]. split; [lra |]. split; [split; lra |].
  unfold Shader.foliageColorMix, Shader.foliageBreath. cbv zeta.
  cbn [Vector3.y].
  replace (- PI / 3 * 1.5 + 0 * 10.0) with (- (PI / 2)) by lra.
  rewrite sin_neg, sin_PI2. lra.
Qed.

Lemma foliage_base_color_range_witness :
  -7 <= Vector3.y (Vector3.mk 0 0 0) < 5
  /\ -0.19 <= Shader.foliageColorMix 0 (Vector3.mk 0 0 0) 0 < 0.83.
Proof.
  assert (H1 : -7 <= Vector3.y (Vector3.mk 0 0 0) < 5) by (simpl; lra).
  destruct (foliage_base_color_range 0 0 (Vector3.mk 0 0 0) H1) as (H & _).
  split; [exact H1 | exact H].
Defined.

Lemma pointDist_nonneg c : 0 <= Shader.pointDist c.
Proof. unfold Shader.pointDist, GLSL.length2. apply sqrt_pos. Qed.

(** X11. The foliage fragment shader, for [vAlpha >= 0]: a fragment is
    discarded exactly when its distance from the centre of the point
    exceeds 0.5; a kept fragment has an alpha in [0, vAlpha], equal to
    [vAlpha] up to distance 0.3 and to 0 at distance 0.5; its colour is
    [vColor] unchanged unless the particle sparkles ([vSparkle > 0.1]) and
    the fragment is within 0.1 of the centre. *)
Theorem foliage_fragment_shape (gl_PointCoord : R * R) (vAlpha vSparkle : R)
    (vColor : vec3) :
  0 <= vAlpha ->
  let dist := Shader.pointDist gl_PointCoord in
  let out := Shader.foliageFragment gl_PointCoord vAlpha vColor vSparkle in
  (out = None <-> 0.5 < dist)
  /\ forall f, out = Some f ->
       0 <= Shader.fragAlpha f <= vAlpha
       /\ (dist <= 0.3 -> Shader.fragAlpha f = vAlpha)
       /\ (dist = 0.5 -> Shader.fragAlpha f = 0)
       /\ (vSparkle <= 0.1 \/ 0.1 <= dist -> Shader.fragColor f = vColor).
Proof.
  intros Ha. cbv zeta. unfold Shader.foliageFragment. cbv zeta.
  set (dist := Shader.pointDist gl_PointCoord).
  destruct (Rlt_dec 0.5 dist) as [Hout | Hin].
  - split; [tauto | discriminate].
  - split; [split; [discriminate | contradiction] |].
    intros f Hf. injection Hf as <-. cbn [Shader.fragAlpha Shader.fragColor].
    pose proof (smoothstep_unit 0.3 0.5 dist) as Hg.
    split; [split; nra |].
    split.
    { intros Hd. rewrite smoothstep_below by lra. lra. }
    split.
    { intros Hd. rewrite smoothstep_above by lra. lra. }
    intros [Hs | Hd].
    + destruct (Rlt_dec 0.1 vSparkle); [lra | reflexivity].
    + destruct (Rlt_dec 0.1 vSparkle); [| reflexivity].
      rewrite smoothstep_above by lra.
      apply vec3_eq_intro; unfold Vector3.add, Vector3.scale;
        cbn [Vector3.x Vector3.y Vector3.z]; lra.
Qed.

Lemma foliage_fragment_shape_witness :
  0 <= 1
  /\ (Shader.foliageFragment (0.5, 0.5) 1 (Vector3.mk 1 1 1) 0 = None
      <-> 0.5 < Shader.pointDist (0.5, 0.5)).
Proof.
  assert (H1 : 0 <= 1) by lra.
  destruct (foliage_fragment_shape (0.5, 0.5) 1 0 (Vector3.mk 1 1 1) H1) as (H & _).
  split; [exact H1 | exact H].
Defined.

(** X12. The fragment shaders of the garland, the snow and the ambient
    sparkles, for a non-negative alpha or opacity: a kept fragment is
    within 0.5 of the centre of the point and its alpha is between 0 and
    the alpha (opacity) handed in; the alpha is 0 at distance 0.5 and the
    full value up to distance 0.1 for the garland, up to distance 0.3 for
    the snow, and at the centre for the sparkles; the garland keeps
    [vColor]. *)
Theorem soft_edge_fragments (gl_PointCoord : R * R) (vAlpha uOpacity : R)
    (vColor : vec3) :
  0 <= vAlpha -> 0 <= uOpacity ->
  let dist := Shader.pointDist gl_PointCoord in
  (forall f, Shader.spiralFragment gl_PointCoord vAlpha vColor = Some f ->
     dist <= 0.5 /\ Shader.fragColor f = vColor
     /\ 0 <= Shader.fragAlpha f <= vAlpha
     /\ (dist <= 0.1 -> Shader.fragAlpha f = vAlpha)
     /\ (dist = 0.5 -> Shader.fragAlpha f = 0))
  /\ (forall f, Shader.snowFragment gl_PointCoord uOpacity = Some f ->
        dist <= 0.5 /\ 0 <= Shader.fragAlpha f <= uOpacity
        /\ (dist <= 0.3 -> Shader.fragAlpha f = uOpacity)
        /\ (dist = 0.5 -> Shader.fragAlpha f = 0))
  /\ (forall f, Shader.sparkleFragment gl_PointCoord uOpacity = Some f ->
        dist <= 0.5 /\ 0 <= Shader.fragAlpha f <= uOpacity
        /\ (dist = 0 -> Shader.fragAlpha f = uOpacity)
        /\ (dist = 0.5 -> Shader.fragAlpha f = 0)).
Proof.
  intros Ha Ho. cbv zeta.
  unfold Shader.spiralFragment, Shader.snowFragment, Shader.sparkleFragment.
  cbv zeta. set (dist := Shader.pointDist gl_PointCoord).
  pose proof (smoothstep_unit 0.1 0.5 dist) as H1.
  pose proof (smoothstep_unit 0.3 0.5 dist) as H2.
  pose proof (smoothstep_unit 0.0 0.5 dist) as H3.
  destruct (Rlt_dec 0.5 dist) as [Hout | Hin];
    [split; [| split]; intros f Hf; discriminate |].
  split; [| split]; intros f Hf; injection Hf as <-;
    cbn [Shader.fragAlpha Shader.fragColor].
  - split; [lra |]. split; [reflexivity |]. split; [split; nra |].
    split; intros Hd; [rewrite smoothstep_below by lra
                      | rewrite smoothstep_above by lra]; lra.
  - split; [lra |]. split; [split; nra |].
    split; intros Hd; [rewrite smoothstep_below by lra
                      | rewrite smoothstep_above by lra]; lra.
  - split; [lra |]. split; [split; nra |].
    split; intros Hd; [rewrite smoothstep_below by lra
                      | rewrite smoothstep_above by lra]; lra.
Qed.

Lemma soft_edge_fragments_witness :
  0 <= 1 /\ 0 <= 0.6
  /\ forall f, Shader.snowFragment (0.5, 0.5) 0.6 = Some f ->
       Shader.pointDist (0.5, 0.5) <= 0.5 /\ 0 <= Shader.fragAlpha f <= 0.6
       /\ (Shader.pointDist (0.5, 0.5) <= 0.3 -> Shader.fragAlpha f = 0.6)
       /\ (Shader.pointDist (0.5, 0.5) = 0.5 -> Shader.fragAlpha f = 0).
Proof.
  assert (H1 : 0 <= 1) by lra. assert (H2 : 0 <= 0.6) by lra.
  destruct (soft_edge_fragments (0.5, 0.5) 1 0.6 (Vector3.mk 1 1 1) H1 H2)
    as (_ & H & _).
  split; [exact H1 |]. split; [exact H2 | exact H].
Defined.

(** ** The falling snow *)

Lemma floor_spec x : GLSL.floor x <= x < GLSL.floor x + 1.
Proof. unfold GLSL.floor. destruct (base_Int_part x). lra. Qed.

Lemma floor_shift x (k : Z) : GLSL.floor (x + IZR k) = GLSL.floor x + IZR k.
Proof.
  unfold GLSL.floor. rewrite <- plus_IZR. f_equal. symmetry.
  apply Int_part_spec. rewrite plus_IZR. destruct (base_Int_part x). lra.
Qed.

Lemma mod_range x y : 0 < y -> 0 <= GLSL.mod_ x y < y.
Proof.
  intros Hy. unfold GLSL.mod_. destruct (floor_spec (x / y)) as [Hl Hu].
  assert (E : x = x / y * y) by (field; lra).
  set (q := x / y) in *. set (f := GLSL.floor q) in *.
  assert (H1 : 0 <= (q - f) * y) by (apply Rmult_le_pos; lra).
  assert (H2 : (q - f) * y < 1 * y) by (apply Rmult_lt_compat_r; lra).
  split; lra.
Qed.

Lemma mod_shift x y (k : Z) : 0 < y -> GLSL.mod_ (x + IZR k * y) y = GLSL.mod_ x y.
Proof.
  intros Hy. unfold GLSL.mod_.
  replace ((x + IZR k * y) / y) with (x / y + IZR k) by (field; lra).
  rewrite floor_shift. ring.
Qed.

(** X13. The snow vertex shader, for a positive [uHeight]: the emitted y is
    in [-uHeight/2, uHeight/2) whatever the time and the position
    attribute; x and z are within 0.5 of the position attribute; the
    emitted y does not change when the position attribute is moved by a
    whole number of heights, nor, for a flake that falls
    ([uSpeed * (0.5 + aRandom) > 0]), when the time advances by a whole
    number of periods [uHeight / (uSpeed * (0.5 + aRandom))]. *)
Theorem snow_stays_in_slab (uTime uHeight uSpeed aRandom : R) (position : vec3) :
  0 < uHeight ->
  let p := Shader.snowPos uTime uHeight uSpeed position aRandom in
  - (uHeight * 0.5) <= Vector3.y p < uHeight * 0.5
  /\ Rabs (Vector3.x p - Vector3.x position) <= 0.5
  /\ Rabs (Vector3.z p - Vector3.z position) <= 0.5
  /\ (forall k : Z,
        Vector3.y (Shader.snowPos uTime uHeight uSpeed
                     (Vector3.mk (Vector3.x position)
                                 (Vector3.y position + IZR k * uHeight)
                                 (Vector3.z position)) aRandom)
        = Vector3.y p)
  /\ (0 < uSpeed * (0.5 + aRandom) ->
      forall k : Z,
        Vector3.y (Shader.snowPos
                     (uTime + IZR k * (uHeight / (uSpeed * (0.5 + aRandom))))
                     uHeight uSpeed position aRandom)
        = Vector3.y p).
Proof.
  intros Hh. cbv zeta. unfold Shader.snowPos. cbv zeta.
  cbn [Vector3.x Vector3.y Vector3.z].
  pose proof (mod_range (Vector3.y position - uTime * uSpeed * (0.5 + aRandom))
                uHeight Hh) as Hm.
  split; [lra |].
  split.
  { replace (Vector3.x position + sin (uTime * 0.5 + aRandom * 10.0) * 0.5
             - Vector3.x position)
      with (sin (uTime * 0.5 + aRandom * 10.0) * 0.5) by ring.
    apply scaled_sine_bounded; [lra | apply SIN_bound]. }
  split.
  { replace (Vector3.z position + cos (uTime * 0.3 + aRandom * 10.0) * 0.5
             - Vector3.z position)
      with (cos (uTime * 0.3 + aRandom * 10.0) * 0.5) by ring.
    apply scaled_sine_bounded; [lra | apply COS_bound]. }
  split.
  - intros k. f_equal.
    replace (Vector3.y position + IZR k * uHeight
             - uTime * uSpeed * (0.5 + aRandom))
      with (Vector3.y position - uTime * uSpeed * (0.5 + aRandom)
            + IZR k * uHeight) by ring.
    now apply mod_shift.
  - intros Hv k. f_equal.
    set (v := uSpeed * (0.5 + aRandom)) in *.
    assert (E : IZR k * (uHeight / v) * v = IZR k * uHeight) by (field; lra).
    replace (Vector3.y position
             - (uTime + IZR k * (uHeight / v)) * uSpeed * (0.5 + aRandom))
      with (Vector3.y position - uTime * uSpeed * (0.5 + aRandom)
            + IZR (- k) * uHeight).
    + now apply mod_shift.
    + rewrite opp_IZR.
      replace ((uTime + IZR k * (uHeight / v)) * uSpeed * (0.5 + aRandom))
        with (uTime * uSpeed * (0.5 + aRandom) + IZR k * (uHeight / v) * v)
        by (unfold v; ring).
      rewrite E. ring.
Qed.

Lemma snow_stays_in_slab_witness :
  0 < 25
  /\ - (25 * 0.5) <= Vector3.y (Shader.snowPos 3 25 1.5 (Vector3.mk 1 2 3) 0.5)
     < 25 * 0.5.
Proof.
  assert (Hh : 0 < 25) by lra.
  destruct (snow_stays_in_slab 3 25 1.5 0.5 (Vector3.mk 1 2 3) Hh) as (H & _).
  split; [exact Hh | exact H].
Defined.

(** ** Typed arrays *)

Lemma length_newFloat32Array n : length (newFloat32Array n) = n.
Proof. apply length_replicate. Qed.

Lemma length_store a i v : length (store a i v) = length a.
Proof. apply length_insert. Qed.

Lemma length_storeVec a i v : length (storeVec a i v) = length a.
Proof. unfold storeVec. now rewrite !length_store. Qed.

Lemma load_store_eq a i v : (i < length a)%nat -> load (store a i v) i = v.
Proof.
  intros H. unfold load, store, Float32Array in *.
  now rewrite list_lookup_insert_eq.
Qed.

Lemma load_store_ne a i j v : i <> j -> load (store a i v) j = load a j.
Proof.
  intros H. unfold load, store, Float32Array in *.
  now rewrite list_lookup_insert_ne.
Qed.

Lemma vecAt_storeVec_eq a i v :
  (i * 3 + 2 < length a)%nat -> vecAt (storeVec a i v) i = v.
Proof.
  intros H. unfold vecAt, storeVec. destruct v as [vx vy vz].
  cbn [Vector3.x Vector3.y Vector3.z].
  rewrite (load_store_ne _ (i * 3 + 2) (i * 3)) by lia.
  rewrite (load_store_ne _ (i * 3 + 1) (i * 3)) by lia.
  rewrite (load_store_ne _ (i * 3 + 2) (i * 3 + 1)) by lia.
  rewrite !load_store_eq by (rewrite ?length_store; lia).
  reflexivity.
Qed.

Lemma vecAt_storeVec_ne a i j v : i <> j -> vecAt (storeVec a i v) j = vecAt a j.
Proof.
  intros H. unfold vecAt, storeVec.
  rewrite !load_store_ne by lia. reflexivity.
Qed.

(** ** Counted loops *)

Lemma forRange_wp {St : Type} (Inv : nat -> St -> World -> Prop)
    (body : nat -> St -> M St) (n : nat) : forall i s w,
  (forall j s1 w1, (i <= j < i + n)%nat -> Inv j s1 w1 ->
     wp (body j s1) (fun s2 w2 => Inv (S j) s2 w2) w1) ->
  Inv i s w ->
  wp (forRange n i body s) (fun s' w' => Inv (i + n)%nat s' w') w.
Proof.
  induction n as [| n IH]; intros i s w Hbody Hinv; cbn [forRange].
  - apply wp_ret. now rewrite Nat.add_0_r.
  - apply wp_bind. eapply wp_conseq; [apply Hbody; [lia | exact Hinv] |].
    intros s1 w1 H1. cbv beta.
    replace (i + S n)%nat with (S i + n)%nat by lia.
    apply IH; [| exact H1].
    intros j s2 w2 Hj. apply Hbody. lia.
Qed.

Lemma getWeightedFoliagePoint_run height baseRadius yOffset w :
  Sampler.getWeightedFoliagePoint height baseRadius yOffset w
  = (length (heap w),
     mkWorld (randoms w) (S (S (S (cursor w))))
             (heap w ++ [Sampler.weightedFoliagePoint height baseRadius yOffset
                           (randoms w (cursor w)) (randoms w (S (cursor w)))
                           (randoms w (S (S (cursor w))))])
             (sphereCalls w)).
Proof. reflexivity. Qed.

Lemma wp_run {A : Type} (c : M A) (post : A -> World -> Prop) w a w' :
  c w = (a, w') -> post a w' -> wp c post w.
Proof. intros E H. unfold wp. now rewrite E. Qed.

(** [getRandomSpherePoint] followed by a read of the vector it returns. *)

Lemma wp_sphere_get radius (post : vec3 -> World -> Prop) w :
  (forall w1, randoms w1 = randoms w ->
     cursor w1 = (cursor w + 3)%nat ->
     post (sphereDraw (randoms w) radius (cursor w)) w1) ->
  wp (bind (Sampler.getRandomSpherePoint radius) get) post w.
Proof.
  intros H. apply wp_bind. unfold wp at 1.
  rewrite getRandomSpherePoint_run. cbn [fst snd].
  apply wp_get. cbn [heap]. rewrite deref_snoc.
  apply H; cbn [randoms cursor]; [reflexivity | lia].
Qed.

Lemma wp_draw (post : R -> World -> Prop) w :
  (forall w1, randoms w1 = randoms w -> cursor w1 = S (cursor w) ->
     post (randoms w (cursor w)) w1) ->
  wp random post w.
Proof. intros H. unfold wp. cbn [random fst snd]. now apply H. Qed.

(** ** The buffers of the foliage *)

Lemma foliage_fill_run i b w :
  Foliage.fill i b w
  = (let c := cursor w in
     let rnd := randoms w in
     let t := Sampler.weightedFoliagePoint 12 4.5 (-1)
                (rnd c) (rnd (1 + c)%nat) (rnd (2 + c)%nat) in
     let s := sphereDraw rnd 18 (3 + c) in
     (Foliage.mkBuffers
        (storeVec (Foliage.positions b) i s)
        (storeVec (Foliage.scatterPositions b) i s)
        (storeVec (Foliage.treePositions b) i t)
        (store (Foliage.randoms b) i (rnd (6 + c)%nat))
        (store (Foliage.sizes b) i
           (if Rltb (rnd (7 + c)%nat) 0.8 then 0.5 + rnd (8 + c)%nat * 0.3
            else 1.0 + rnd (8 + c)%nat * 0.5)),
      mkWorld rnd (9 + c) (heap w ++ [t; s]) (sphereCalls w ++ [18]))).
Proof.
  unfold Foliage.fill.
  rewrite bind_run, getWeightedFoliagePoint_run. cbn [fst snd].
  rewrite bind_run. cbn [get fst snd heap]. rewrite deref_snoc.
  rewrite bind_run, getRandomSpherePoint_run. cbn [fst snd].
  rewrite bind_run. cbn [get fst snd heap]. rewrite deref_snoc.
  cbv zeta. rewrite <- app_assoc. reflexivity.
Qed.

Lemma sphereDraw_in_ball rnd radius c :
  0 <= radius -> (forall n, 0 <= rnd n < 1) ->
  Vector3.length (sphereDraw rnd radius c) <= radius.
Proof.
  intros Hr Hrnd. unfold sphereDraw.
  rewrite spherePoint_length; [| exact Hr | apply Hrnd].
  pose proof (cbrt_unit _ (Hrnd (S (S c)))). nra.
Qed.

(** X14. The buffers built by [Foliage] for [count] particles, for values of
    [Math.random()] in [0,1): the three position buffers have
    [3 * count] entries, the two others [count]; [positions] equals
    [scatterPositions]; nine values are drawn per particle; particle [i]
    has as tree position [getWeightedFoliagePoint(12, 4.5, -1)] on the
    first three of its draws, with y in [-7, 5), as scatter position
    [getRandomSpherePoint(18)] on the next three, within 18 of the origin,
    as [aRandom] the seventh, and a size in [0.5, 0.8) or in [1.0, 1.5). *)
Theorem foliage_buffers (count : nat) (w : World) :
  (forall n, 0 <= randoms w n < 1) ->
  let r := Foliage.build count w in
  let b := fst r in
  let rnd := randoms w in
  (length (Foliage.positions b) = (count * 3)%nat
   /\ length (Foliage.scatterPositions b) = (count * 3)%nat
   /\ length (Foliage.treePositions b) = (count * 3)%nat
   /\ length (Foliage.randoms b) = count
   /\ length (Foliage.sizes b) = count)
  /\ Foliage.positions b = Foliage.scatterPositions b
  /\ cursor (snd r) = (9 * count + cursor w)%nat
  /\ forall i, (i < count)%nat ->
       let c := (9 * i + cursor w)%nat in
       let tree := vecAt (Foliage.treePositions b) i in
       let scatter := vecAt (Foliage.scatterPositions b) i in
       let size := load (Foliage.sizes b) i in
       tree = Sampler.weightedFoliagePoint 12 4.5 (-1)
                (rnd c) (rnd (1 + c)%nat) (rnd (2 + c)%nat)
       /\ scatter = sphereDraw rnd 18 (3 + c)
       /\ load (Foliage.randoms b) i = rnd (6 + c)%nat
       /\ -7 <= Vector3.y tree < 5
       /\ Vector3.length scatter <= 18
       /\ (0.5 <= size < 0.8 \/ 1.0 <= size < 1.5).
Proof.
  intros Hrnd. cbv zeta.
  set (rnd := randoms w). set (c0 := cursor w).
  set (T := fun i => Sampler.weightedFoliagePoint 12 4.5 (-1)
                       (rnd (9 * i + c0)%nat) (rnd (1 + (9 * i + c0))%nat)
                       (rnd (2 + (9 * i + c0))%nat)).
  set (Sz := fun i => if Rltb (rnd (7 + (9 * i + c0))%nat) 0.8
                      then 0.5 + rnd (8 + (9 * i + c0))%nat * 0.3
                      else 1.0 + rnd (8 + (9 * i + c0))%nat * 0.5).
  set (Inv := fun (j : nat) (b : Foliage.Buffers) (w1 : World) =>
    randoms w1 = rnd /\ cursor w1 = (9 * j + c0)%nat
    /\ (length (Foliage.positions b) = (count * 3)%nat
        /\ length (Foliage.scatterPositions b) = (count * 3)%nat
        /\ length (Foliage.treePositions b) = (count * 3)%nat
        /\ length (Foliage.randoms b) = count
        /\ length (Foliage.sizes b) = count)
    /\ Foliage.positions b = Foliage.scatterPositions b
    /\ forall i, (i < j)%nat ->
         vecAt (Foliage.treePositions b) i = T i
         /\ vecAt (Foliage.scatterPositions b) i
            = sphereDraw rnd 18 (3 + (9 * i + c0))
         /\ load (Foliage.randoms b) i = rnd (6 + (9 * i + c0))%nat
         /\ load (Foliage.sizes b) i = Sz i).
  assert (H : wp (Foliage.build count)
                (fun b w' => Inv (0 + count)%nat b w') w).
  { unfold Foliage.build. cbv zeta. apply forRange_wp.
    - intros j b1 w1 Hj (R1 & C1 & (L1 & L2 & L3 & L4 & L5) & E1 & P1).
      eapply wp_run; [apply foliage_fill_run |]. cbv zeta.
      rewrite R1, C1. unfold Inv.
      cbn [randoms cursor Foliage.positions Foliage.scatterPositions
           Foliage.treePositions Foliage.randoms Foliage.sizes].
      split; [reflexivity |]. split; [lia |].
      split; [rewrite !length_storeVec, !length_store; tauto |].
      split; [now rewrite E1 |].
      intros i Hi. destruct (Nat.eq_dec i j) as [-> | Hne].
      + rewrite !vecAt_storeVec_eq, !load_store_eq by lia.
        repeat split; reflexivity.
      + rewrite !vecAt_storeVec_ne, !load_store_ne by lia.
        apply P1. lia.
    - unfold Inv. cbn [Foliage.positions Foliage.scatterPositions
           Foliage.treePositions Foliage.randoms Foliage.sizes].
      rewrite !length_newFloat32Array.
      repeat split; try reflexivity; try lia. }
  unfold wp in H. destruct H as (R1 & C1 & L & E1 & P1).
  split; [exact L |]. split; [exact E1 |]. split; [exact C1 |].
  intros i Hi. destruct (P1 i Hi) as (Pt & Ps & Pr & Pz).
  rewrite Pt, Ps, Pr, Pz.
  split; [reflexivity |]. split; [reflexivity |]. split; [reflexivity |].
  split.
  { unfold T, Sampler.weightedFoliagePoint. cbv zeta. cbn [Vector3.y].
    pose proof (jspow_unit (rnd (9 * i + c0)%nat) 6.0 (Hrnd _)). lra. }
  split; [apply sphereDraw_in_ball; [lra | exact Hrnd] |].
  unfold Sz. pose proof (Hrnd (8 + (9 * i + c0))%nat) as Hk. fold rnd in Hk.
  destruct (Rltb _ 0.8); [left | right]; lra.
Qed.

Lemma foliage_buffers_witness :
  let w := mkWorld (fun _ => 0.5) 0%nat [] [] in
  (forall n, 0 <= randoms w n < 1)
  /\ Foliage.positions (fst (Foliage.build 2 w))
     = Foliage.scatterPositions (fst (Foliage.build 2 w))
  /\ cursor (snd (Foliage.build 2 w)) = 18%nat.
Proof.
  intros w.
  assert (Hrnd : forall n, 0 <= randoms w n < 1) by (intros n; simpl; lra).
  destruct (foliage_buffers 2 w Hrnd) as (_ & H1 & H2 & _).
  split; [exact Hrnd |]. split; [exact H1 | exact H2].
Defined.

(** ** The garland: curve and buffers *)

Lemma curveSteps_INR : INR SpiralGarland.curveSteps = 150.
Proof. unfold SpiralGarland.curveSteps. rewrite INR_IZR_INZ. reflexivity. Qed.

Lemma curvePoint_polar i :
  let t := INR i / 150 in
  SpiralGarland.curvePoint i
  = Vector3.mk ((6.1 - 5.5 * t) * cos (7 * PI * t)) (-5 + 10 * t)
               ((6.1 - 5.5 * t) * sin (7 * PI * t)).
Proof.
  cbv zeta. unfold SpiralGarland.curvePoint. cbv zeta.
  rewrite curveSteps_INR.
  unfold JSMath.lerp, SpiralGarland.yStart, SpiralGarland.yEnd, SpiralGarland.turns.
  set (t := INR i / 150).
  replace (t * PI * 2 * 3.5) with (7 * PI * t) by lra.
  apply vec3_eq_intro; cbn [Vector3.x Vector3.y Vector3.z]; lra.
Qed.

(** X15. The control points of the curve of [SpiralGarland]: there are 151;
    point [i] is at parameter [t = i/150], has y = -5 + 10 t, lies at
    distance 6.1 - 5.5 t from the axis (0.6 more than a cone of base radius
    5.5 between y = -5 and y = 5), at the angle [7 * PI * t], that is 3.5
    turns from bottom to top. *)
Theorem garland_control_points :
  length SpiralGarland.points = 151%nat
  /\ forall i p, SpiralGarland.points !! i = Some p ->
       let t := INR i / 150 in
       0 <= t <= 1
       /\ Vector3.y p = -5 + 10 * t
       /\ radialDistance p = 6.1 - 5.5 * t
       /\ radialDistance p = 0.6 + 0.55 * (5 - Vector3.y p)
       /\ Vector3.x p = radialDistance p * cos (7 * PI * t)
       /\ Vector3.z p = radialDistance p * sin (7 * PI * t).
Proof.
  unfold SpiralGarland.points.
  split; [rewrite length_map, length_seq; reflexivity |].
  intros i p Hp. cbv zeta.
  change (map SpiralGarland.curvePoint (seq 0 (SpiralGarland.curveSteps + 1)))
    with (SpiralGarland.curvePoint <$> seq 0 (SpiralGarland.curveSteps + 1)) in Hp.
  rewrite list_lookup_fmap in Hp.
  destruct (seq 0 (SpiralGarland.curveSteps + 1) !! i) as [j |] eqn:Ej;
    [| discriminate].
  apply lookup_seq in Ej. destruct Ej as [-> Hi].
  cbn [fmap option_fmap option_map] in Hp. injection Hp as <-.
  rewrite curvePoint_polar. cbv zeta.
  assert (Ht : 0 <= INR i / 150 <= 1).
  { pose proof (pos_INR i) as H0.
    assert (H1 : INR i <= 150).
    { rewrite <- curveSteps_INR. apply le_INR. lia. }
    lra. }
  set (t := INR i / 150) in *.
  rewrite polar_radial by lra. cbn [Vector3.x Vector3.y Vector3.z].
  repeat split; lra.
Qed.

Section GarlandBuffers.

Variable getPointAt : list vec3 -> R -> vec3.

Let curve : R -> vec3 := getPointAt SpiralGarland.points.

Lemma garland_fillWire_run wireCount i b w :
  SpiralGarland.fillWire getPointAt wireCount i b w
  = (let c := cursor w in
     let rnd := randoms w in
     let s := sphereDraw rnd 18 c in
     (SpiralGarland.mkBuffers
        (storeVec (SpiralGarland.positions b) i s)
        (storeVec (SpiralGarland.scatterPositions b) i s)
        (storeVec (SpiralGarland.treePositions b) i
           (curve (INR i / INR wireCount)))
        (store (SpiralGarland.sizes b) i 0.3)
        (store (SpiralGarland.randoms b) i (rnd (3 + c)%nat))
        (storeVec (SpiralGarland.colors b) i (Vector3.mk 1.3 0.95 0.4)),
      mkWorld rnd (4 + c) (heap w ++ [s]) (sphereCalls w ++ [18]))).
Proof.
  unfold SpiralGarland.fillWire. cbv zeta.
  rewrite bind_run, getRandomSpherePoint_run. cbn [fst snd].
  rewrite bind_run. cbn [get fst snd heap]. rewrite deref_snoc.
  reflexivity.
Qed.

Lemma garland_fillBulb_run i b w :
  SpiralGarland.fillBulb getPointAt i b w
  = (let c := cursor w in
     let rnd := randoms w in
     let pt := curve (rnd c) in
     let s := sphereDraw rnd 20 (4 + c) in
     (SpiralGarland.mkBuffers
        (storeVec (SpiralGarland.positions b) i s)
        (storeVec (SpiralGarland.scatterPositions b) i s)
        (storeVec (SpiralGarland.treePositions b) i
           (Vector3.mk (Vector3.x pt + (rnd (1 + c)%nat - 0.5) * 0.35)
                       (Vector3.y pt + (rnd (2 + c)%nat - 0.5) * 0.35)
                       (Vector3.z pt + (rnd (3 + c)%nat - 0.5) * 0.35)))
        (store (SpiralGarland.sizes b) i (0.5 + rnd (7 + c)%nat * 0.4))
        (store (SpiralGarland.randoms b) i (rnd (8 + c)%nat))
        (storeVec (SpiralGarland.colors b) i (Vector3.mk 2.0 1.7 0.8)),
      mkWorld rnd (9 + c) (heap w ++ [s]) (sphereCalls w ++ [20]))).
Proof.
  unfold SpiralGarland.fillBulb. cbv zeta.
  rewrite bind_run. cbn [random fst snd].
  rewrite bind_run. cbn [random fst snd randoms cursor].
  rewrite bind_run. cbn [random fst snd randoms cursor].
  rewrite bind_run. cbn [random fst snd randoms cursor].
  rewrite bind_run, getRandomSpherePoint_run. cbn [fst snd randoms cursor heap].
  rewrite bind_run. cbn [get fst snd heap]. rewrite deref_snoc.
  reflexivity.
Qed.

Lemma garland_buildWith_spec (wc bc : nat) (w : World) :
  let r := SpiralGarland.buildWith getPointAt wc bc w in
  let b := fst r in
  let rnd := randoms w in
  let c0 := cursor w in
  (length (SpiralGarland.positions b) = ((wc + bc) * 3)%nat
   /\ length (SpiralGarland.scatterPositions b) = ((wc + bc) * 3)%nat
   /\ length (SpiralGarland.treePositions b) = ((wc + bc) * 3)%nat
   /\ length (SpiralGarland.sizes b) = (wc + bc)%nat
   /\ length (SpiralGarland.randoms b) = (wc + bc)%nat
   /\ length (SpiralGarland.colors b) = ((wc + bc) * 3)%nat)
  /\ SpiralGarland.positions b = SpiralGarland.scatterPositions b
  /\ cursor (snd r) = (9 * bc + 4 * wc + c0)%nat
  /\ (forall i, (i < wc)%nat ->
        vecAt (SpiralGarland.treePositions b) i = curve (INR i / INR wc)
        /\ vecAt (SpiralGarland.scatterPositions b) i
           = sphereDraw rnd 18 (4 * i + c0)
        /\ load (SpiralGarland.sizes b) i = 0.3
        /\ load (SpiralGarland.randoms b) i = rnd (3 + (4 * i + c0))%nat
        /\ vecAt (SpiralGarland.colors b) i = Vector3.mk 1.3 0.95 0.4)
  /\ (forall i, (wc <= i < wc + bc)%nat ->
        let c := (9 * (i - wc) + 4 * wc + c0)%nat in
        let pt := curve (rnd c) in
        vecAt (SpiralGarland.treePositions b) i
        = Vector3.mk (Vector3.x pt + (rnd (1 + c)%nat - 0.5) * 0.35)
                     (Vector3.y pt + (rnd (2 + c)%nat - 0.5) * 0.35)
                     (Vector3.z pt + (rnd (3 + c)%nat - 0.5) * 0.35)
        /\ vecAt (SpiralGarland.scatterPositions b) i
           = sphereDraw rnd 20 (4 + c)
        /\ load (SpiralGarland.sizes b) i = 0.5 + rnd (7 + c)%nat * 0.4
        /\ load (SpiralGarland.randoms b) i = rnd (8 + c)%nat
        /\ vecAt (SpiralGarland.colors b) i = Vector3.mk 2.0 1.7 0.8).
Proof.
  cbv zeta. set (rnd := randoms w). set (c0 := cursor w).
  set (Len := fun b : SpiralGarland.Buffers =>
    length (SpiralGarland.positions b) = ((wc + bc) * 3)%nat
    /\ length (SpiralGarland.scatterPositions b) = ((wc + bc) * 3)%nat
    /\ length (SpiralGarland.treePositions b) = ((wc + bc) * 3)%nat
    /\ length (SpiralGarland.sizes b) = (wc + bc)%nat
    /\ length (SpiralGarland.randoms b) = (wc + bc)%nat
    /\ length (SpiralGarland.colors b) = ((wc + bc) * 3)%nat).
  set (W := fun (i : nat) (b : SpiralGarland.Buffers) =>
    vecAt (SpiralGarland.treePositions b) i = curve (INR i / INR wc)
    /\ vecAt (SpiralGarland.scatterPositions b) i
       = sphereDraw rnd 18 (4 * i + c0)
    /\ load (SpiralGarland.sizes b) i = 0.3
    /\ load (SpiralGarland.randoms b) i = rnd (3 + (4 * i + c0))%nat
    /\ vecAt (SpiralGarland.colors b) i = Vector3.mk 1.3 0.95 0.4).
  set (B := fun (i : nat) (b : SpiralGarland.Buffers) =>
    let c := (9 * (i - wc) + 4 * wc + c0)%nat in
    let pt := curve (rnd c) in
    vecAt (SpiralGarland.treePositions b) i
    = Vector3.mk (Vector3.x pt + (rnd (1 + c)%nat - 0.5) * 0.35)
                 (Vector3.y pt + (rnd (2 + c)%nat - 0.5) * 0.35)
                 (Vector3.z pt + (rnd (3 + c)%nat - 0.5) * 0.35)
    /\ vecAt (SpiralGarland.scatterPositions b) i
       = sphereDraw rnd 20 (4 + c)
    /\ load (SpiralGarland.sizes b) i = 0.5 + rnd (7 + c)%nat * 0.4
    /\ load (SpiralGarland.randoms b) i = rnd (8 + c)%nat
    /\ vecAt (SpiralGarland.colors b) i = Vector3.mk 2.0 1.7 0.8).
  set (InvW := fun (j : nat) (b : SpiralGarland.Buffers) (w1 : World) =>
    randoms w1 = rnd /\ cursor w1 = (4 * j + c0)%nat /\ Len b
    /\ SpiralGarland.positions b = SpiralGarland.scatterPositions b
    /\ forall i, (i < j)%nat -> W i b).
  set (InvB := fun (j : nat) (b : SpiralGarland.Buffers) (w1 : World) =>
    randoms w1 = rnd /\ cursor w1 = (9 * (j - wc) + 4 * wc + c0)%nat /\ Len b
    /\ SpiralGarland.positions b = SpiralGarland.scatterPositions b
    /\ (forall i, (i < wc)%nat -> W i b)
    /\ forall i, (wc <= i < j)%nat -> B i b).
  assert (H : wp (SpiralGarland.buildWith getPointAt wc bc)
                (fun b w' => InvB (wc + bc)%nat b w') w).
  { unfold SpiralGarland.buildWith. cbv zeta. apply wp_bind.
    eapply wp_conseq.
    { apply (forRange_wp InvW).
      - intros j b1 w1 Hj (R1 & C1 & (L1 & L2 & L3 & L4 & L5 & L6) & E1 & P1).
        eapply wp_run; [apply garland_fillWire_run |]. cbv zeta.
        rewrite R1, C1. unfold InvW, Len.
        cbn [randoms cursor SpiralGarland.positions
             SpiralGarland.scatterPositions SpiralGarland.treePositions
             SpiralGarland.sizes SpiralGarland.randoms SpiralGarland.colors].
        split; [reflexivity |]. split; [lia |].
        split; [rewrite !length_storeVec, !length_store; tauto |].
        split; [now rewrite E1 |].
        intros i Hi. unfold W.
        cbn [SpiralGarland.positions
             SpiralGarland.scatterPositions SpiralGarland.treePositions
             SpiralGarland.sizes SpiralGarland.randoms SpiralGarland.colors].
        destruct (Nat.eq_dec i j) as [-> | Hne].
        + rewrite !vecAt_storeVec_eq, !load_store_eq by lia.
          repeat split; reflexivity.
        + rewrite !vecAt_storeVec_ne, !load_store_ne by lia.
          apply P1. lia.
      - unfold InvW, Len.
        cbn [SpiralGarland.positions
             SpiralGarland.scatterPositions SpiralGarland.treePositions
             SpiralGarland.sizes SpiralGarland.randoms SpiralGarland.colors].
        rewrite !length_newFloat32Array.
        repeat split; try reflexivity; try lia. }
    intros b1 w1 (R1 & C1 & L & E1 & P1). cbv beta.
    apply (forRange_wp InvB).
    - intros j b2 w2 Hj (R2 & C2 & (L1 & L2 & L3 & L4 & L5 & L6) & E2 & P2 & Q2).
      eapply wp_run; [apply garland_fillBulb_run |]. cbv zeta.
      rewrite R2, C2. unfold InvB, Len.
      cbn [randoms cursor SpiralGarland.positions
           SpiralGarland.scatterPositions SpiralGarland.treePositions
           SpiralGarland.sizes SpiralGarland.randoms SpiralGarland.colors].
      split; [reflexivity |]. split; [lia |].
      split; [rewrite !length_storeVec, !length_store; tauto |].
      split; [now rewrite E2 |].
      split.
      + intros i Hi. specialize (P2 i Hi). unfold W in *.
        cbn [SpiralGarland.positions
             SpiralGarland.scatterPositions SpiralGarland.treePositions
             SpiralGarland.sizes SpiralGarland.randoms SpiralGarland.colors].
        rewrite !vecAt_storeVec_ne, !load_store_ne by lia. exact P2.
      + intros i Hi. unfold B. cbv zeta.
        cbn [SpiralGarland.positions
             SpiralGarland.scatterPositions SpiralGarland.treePositions
             SpiralGarland.sizes SpiralGarland.randoms SpiralGarland.colors].
        destruct (Nat.eq_dec i j) as [-> | Hne].
        * rewrite !vecAt_storeVec_eq, !load_store_eq by lia.
          repeat split; reflexivity.
        * rewrite !vecAt_storeVec_ne, !load_store_ne by lia.
          apply Q2. lia.
    - unfold InvB. replace (wc - wc)%nat with 0%nat by lia.
      replace (9 * 0 + 4 * wc + c0)%nat with (4 * (0 + wc) + c0)%nat by lia.
      split; [exact R1 |]. split; [exact C1 |]. split; [exact L |].
      split; [exact E1 |]. split; [intros i Hi; apply P1; lia |].
      intros i Hi. lia. }
  unfold wp in H. destruct H as (R1 & C1 & L & E1 & P1 & Q1).
  split; [exact L |]. split; [exact E1 |].
  split; [rewrite C1; f_equal; lia |].
  split; [exact P1 | exact Q1].
Qed.

End GarlandBuffers.

(** X16. The buffers built by [SpiralGarland], for values of [Math.random()]
    in [0,1) and whatever [curve.getPointAt] returns: the tree buffer has
    [3 * 4100] entries and [positions] equals [scatterPositions]. The first
    3500 particles (the wire) have as tree position the curve point at
    [i / 3500], a scatter position within 18 of the origin, size 0.3 and
    colour (1.3, 0.95, 0.4). The other 600 (the bulbs) have a tree position
    within 0.175 per coordinate of some curve point with parameter in
    [0,1), a scatter position within 20 of the origin, a size in
    [0.5, 0.9) and colour (2.0, 1.7, 0.8). *)
Theorem garland_buffers (getPointAt : list vec3 -> R -> vec3) (w : World) :
  (forall n, 0 <= randoms w n < 1) ->
  let curve := getPointAt SpiralGarland.points in
  let wireCount := SpiralGarland.wireCount in
  let totalCount := (SpiralGarland.wireCount + SpiralGarland.bulbCount)%nat in
  let r := SpiralGarland.build getPointAt w in
  let b := fst r in
  length (SpiralGarland.treePositions b) = (totalCount * 3)%nat
  /\ SpiralGarland.positions b = SpiralGarland.scatterPositions b
  /\ (forall i, (i < wireCount)%nat ->
        vecAt (SpiralGarland.treePositions b) i = curve (INR i / INR wireCount)
        /\ Vector3.length (vecAt (SpiralGarland.scatterPositions b) i) <= 18
        /\ load (SpiralGarland.sizes b) i = 0.3
        /\ vecAt (SpiralGarland.colors b) i = Vector3.mk 1.3 0.95 0.4)
  /\ (forall i, (wireCount <= i < totalCount)%nat ->
        (exists t, 0 <= t < 1
           /\ Rabs (Vector3.x (vecAt (SpiralGarland.treePositions b) i)
                    - Vector3.x (curve t)) <= 0.175
           /\ Rabs (Vector3.y (vecAt (SpiralGarland.treePositions b) i)
                    - Vector3.y (curve t)) <= 0.175
           /\ Rabs (Vector3.z (vecAt (SpiralGarland.treePositions b) i)
                    - Vector3.z (curve t)) <= 0.175)
        /\ Vector3.length (vecAt (SpiralGarland.scatterPositions b) i) <= 20
        /\ 0.5 <= load (SpiralGarland.sizes b) i < 0.9
        /\ vecAt (SpiralGarland.colors b) i = Vector3.mk 2.0 1.7 0.8).
Proof.
  intros Hrnd. cbv zeta. unfold SpiralGarland.build.
  destruct (garland_buildWith_spec getPointAt SpiralGarland.wireCount
              SpiralGarland.bulbCount w) as (L & E & _ & HW & HB).
  destruct L as (_ & _ & L3 & _).
  split; [exact L3 |]. split; [exact E |]. split.
  - intros i Hi. destruct (HW i Hi) as (Ht & Hs & Hz & _ & Hc).
    rewrite Ht, Hs, Hz, Hc.
    split; [reflexivity |].
    split; [apply sphereDraw_in_ball; [lra | exact Hrnd] |].
    split; reflexivity.
  - intros i Hi. destruct (HB i Hi) as (Ht & Hs & Hz & _ & Hc).
    rewrite Ht, Hs, Hz, Hc. cbn [Vector3.x Vector3.y Vector3.z].
    set (c := (9 * (i - SpiralGarland.wireCount) + 4 * SpiralGarland.wireCount
               + cursor w)%nat).
    pose proof (Hrnd c) as H0. pose proof (Hrnd (1 + c)%nat) as H1.
    pose proof (Hrnd (2 + c)%nat) as H2. pose proof (Hrnd (3 + c)%nat) as H3.
    pose proof (Hrnd (7 + c)%nat) as H7.
    split.
    { exists (randoms w c). split; [exact H0 |].
      repeat split; apply Rabs_le; lra. }
    split; [apply sphereDraw_in_ball; [lra | exact Hrnd] |].
    split; [lra | reflexivity].
Qed.

Lemma garland_buffers_witness :
  let w := mkWorld (fun _ => 0.5) 0%nat [] [] in
  let getPointAt := fun (_ : list vec3) (_ : R) => Vector3.zero in
  (forall n, 0 <= randoms w n < 1)
  /\ SpiralGarland.positions (fst (SpiralGarland.build getPointAt w))
     = SpiralGarland.scatterPositions (fst (SpiralGarland.build getPointAt w)).
Proof.
  intros w getPointAt.
  assert (Hrnd : forall n, 0 <= randoms w n < 1) by (intros n; simpl; lra).
  destruct (garland_buffers getPointAt w Hrnd) as (_ & H & _).
  split; [exact Hrnd | exact H].
Defined.

(** ** Snow *)

Lemma snowPos_bounds uTime uHeight uSpeed position aRandom :
  0 < uHeight ->
  let p := Shader.snowPos uTime uHeight uSpeed position aRandom in
  - (uHeight * 0.5) <= Vector3.y p < uHeight * 0.5
  /\ Rabs (Vector3.x p - Vector3.x position) <= 0.5
  /\ Rabs (Vector3.z p - Vector3.z position) <= 0.5.
Proof.
  intros Hh. cbv zeta. unfold Shader.snowPos. cbv zeta.
  cbn [Vector3.x Vector3.y Vector3.z].
  pose proof (mod_range (Vector3.y position - uTime * uSpeed * (0.5 + aRandom))
                uHeight Hh) as Hm.
  split; [lra |].
  split.
  - replace (Vector3.x position + sin (uTime * 0.5 + aRandom * 10.0) * 0.5
             - Vector3.x position)
      with (sin (uTime * 0.5 + aRandom * 10.0) * 0.5) by ring.
    apply scaled_sine_bounded; [lra | apply SIN_bound].
  - replace (Vector3.z position + cos (uTime * 0.3 + aRandom * 10.0) * 0.5
             - Vector3.z position)
      with (cos (uTime * 0.3 + aRandom * 10.0) * 0.5) by ring.
    apply scaled_sine_bounded; [lra | apply COS_bound].
Qed.

Lemma snow_fill_run i b w :
  Snow.fill i b w
  = (let c := cursor w in
     let rnd := randoms w in
     (Snow.mkBuffers
        (storeVec (Snow.positions b) i
           (Vector3.mk ((rnd c - 0.5) * 25) ((rnd (1 + c)%nat - 0.5) * Snow.height)
                       ((rnd (2 + c)%nat - 0.5) * 25)))
        (store (Snow.randoms b) i (rnd (3 + c)%nat))
        (store (Snow.sizes b) i (0.5 + rnd (4 + c)%nat)),
      mkWorld rnd (5 + c) (heap w) (sphereCalls w))).
Proof. reflexivity. Qed.

Lemma snow_buildWith_spec (count : nat) (w : World) :
  let r := Snow.buildWith count w in
  let b := fst r in
  let rnd := randoms w in
  (length (Snow.positions b) = (count * 3)%nat
   /\ length (Snow.randoms b) = count /\ length (Snow.sizes b) = count)
  /\ cursor (snd r) = (5 * count + cursor w)%nat
  /\ heap (snd r) = heap w
  /\ forall i, (i < count)%nat ->
       let c := (5 * i + cursor w)%nat in
       vecAt (Snow.positions b) i
       = Vector3.mk ((rnd c - 0.5) * 25) ((rnd (1 + c)%nat - 0.5) * Snow.height)
                    ((rnd (2 + c)%nat - 0.5) * 25)
       /\ load (Snow.randoms b) i = rnd (3 + c)%nat
       /\ load (Snow.sizes b) i = 0.5 + rnd (4 + c)%nat.
Proof.
  cbv zeta. set (rnd := randoms w). set (c0 := cursor w).
  set (Inv := fun (j : nat) (b : Snow.Buffers) (w1 : World) =>
    randoms w1 = rnd /\ cursor w1 = (5 * j + c0)%nat /\ heap w1 = heap w
    /\ (length (Snow.positions b) = (count * 3)%nat
        /\ length (Snow.randoms b) = count /\ length (Snow.sizes b) = count)
    /\ forall i, (i < j)%nat ->
         vecAt (Snow.positions b) i
         = Vector3.mk ((rnd (5 * i + c0)%nat - 0.5) * 25)
                      ((rnd (1 + (5 * i + c0))%nat - 0.5) * Snow.height)
                      ((rnd (2 + (5 * i + c0))%nat - 0.5) * 25)
         /\ load (Snow.randoms b) i = rnd (3 + (5 * i + c0))%nat
         /\ load (Snow.sizes b) i = 0.5 + rnd (4 + (5 * i + c0))%nat).
  assert (H : wp (Snow.buildWith count) (fun b w' => Inv (0 + count)%nat b w') w).
  { unfold Snow.buildWith. cbv zeta. apply forRange_wp.
    - intros j b1 w1 Hj (R1 & C1 & H1 & (L1 & L2 & L3) & P1).
      eapply wp_run; [apply snow_fill_run |]. cbv zeta.
      rewrite R1, C1. unfold Inv.
      cbn [randoms cursor heap Snow.positions Snow.randoms Snow.sizes].
      split; [reflexivity |]. split; [lia |]. split; [exact H1 |].
      split; [rewrite !length_storeVec, !length_store; tauto |].
      intros i Hi. destruct (Nat.eq_dec i j) as [-> | Hne].
      + rewrite !vecAt_storeVec_eq, !load_store_eq by lia.
        repeat split; reflexivity.
      + rewrite !vecAt_storeVec_ne, !load_store_ne by lia.
        apply P1. lia.
    - unfold Inv. cbn [Snow.positions Snow.randoms Snow.sizes].
      rewrite !length_newFloat32Array.
      repeat split; try reflexivity; try lia. }
  unfold wp in H. destruct H as (R1 & C1 & H1 & L & P1).
  split; [exact L |]. split; [exact C1 |]. split; [exact H1 | exact P1].
Qed.

(** X17. The buffers built by [Snow], for values of [Math.random()] in
    [0,1): 300 flakes, no [Vector3] allocated; every flake has a position
    attribute in the box [-12.5, 12.5)^3, a size in [0.5, 1.5) and an
    [aRandom] in [0,1); and at every time and speed the snow vertex shader
    places it with x and z in [-13, 13] and y in [-12.5, 12.5). *)
Theorem snow_flakes_in_box (w : World) :
  (forall n, 0 <= randoms w n < 1) ->
  let r := Snow.build w in
  let b := fst r in
  length (Snow.positions b) = (Snow.count * 3)%nat
  /\ heap (snd r) = heap w
  /\ forall i, (i < Snow.count)%nat ->
       let base := vecAt (Snow.positions b) i in
       (-12.5 <= Vector3.x base < 12.5
        /\ -12.5 <= Vector3.y base < 12.5
        /\ -12.5 <= Vector3.z base < 12.5)
       /\ 0.5 <= load (Snow.sizes b) i < 1.5
       /\ 0 <= load (Snow.randoms b) i < 1
       /\ forall uTime uSpeed,
            let p := Shader.snowPos uTime Snow.height uSpeed base
                       (load (Snow.randoms b) i) in
            -13 <= Vector3.x p <= 13
            /\ -12.5 <= Vector3.y p < 12.5
            /\ -13 <= Vector3.z p <= 13.
Proof.
  intros Hrnd. cbv zeta. unfold Snow.build.
  destruct (snow_buildWith_spec Snow.count w) as ((L1 & _) & _ & Hh & P).
  split; [exact L1 |]. split; [exact Hh |].
  intros i Hi. destruct (P i Hi) as (Pp & Pr & Ps). rewrite Pp, Pr, Ps.
  cbn [Vector3.x Vector3.y Vector3.z]. unfold Snow.height.
  set (c := (5 * i + cursor w)%nat).
  pose proof (Hrnd c) as H0. pose proof (Hrnd (1 + c)%nat) as H1.
  pose proof (Hrnd (2 + c)%nat) as H2. pose proof (Hrnd (3 + c)%nat) as H3.
  pose proof (Hrnd (4 + c)%nat) as H4.
  split; [lra |]. split; [lra |]. split; [exact H3 |].
  intros uTime uSpeed.
  assert (Hh25 : 0 < 25) by lra.
  destruct (snowPos_bounds uTime 25 uSpeed
              (Vector3.mk ((randoms w c - 0.5) * 25)
                          ((randoms w (1 + c)%nat - 0.5) * 25)
                          ((randoms w (2 + c)%nat - 0.5) * 25))
              (randoms w (3 + c)%nat) Hh25) as (By & Bx & Bz).
  cbn [Vector3.x Vector3.y Vector3.z] in Bx, Bz.
  apply Rabs_le_inv in Bx, Bz.
  split; [lra |]. split; [lra | lra].
Qed.

Lemma snow_flakes_in_box_witness :
  let w := mkWorld (fun _ => 0.5) 0%nat [] [] in
  (forall n, 0 <= randoms w n < 1)
  /\ length (Snow.positions (fst (Snow.build w))) = (Snow.count * 3)%nat.
Proof.
  intros w.
  assert (Hrnd : forall n, 0 <= randoms w n < 1) by (intros n; simpl; lra).
  destruct (snow_flakes_in_box w Hrnd) as (H & _).
  split; [exact Hrnd | exact H].
Defined.

(** ** Lengths of sums *)

Lemma lengthSq_nonneg (a : vec3) : 0 <= Vector3.lengthSq a.
Proof. unfold Vector3.lengthSq. nra. Qed.

Lemma length_nonneg (a : vec3) : 0 <= Vector3.length a.
Proof. unfold Vector3.length. apply sqrt_pos. Qed.

Lemma length_sqr (a : vec3) :
  Vector3.length a * Vector3.length a = Vector3.lengthSq a.
Proof. unfold Vector3.length. apply sqrt_sqrt, lengthSq_nonneg. Qed.

Lemma le_of_squares x y : 0 <= y -> x * x <= y * y -> x <= y.
Proof. intros Hy H. nra. Qed.

Lemma inner_le_lengths (a d : vec3) :
  Rabs (Vector3.x a * Vector3.x d + Vector3.y a * Vector3.y d
        + Vector3.z a * Vector3.z d)
  <= Vector3.length a * Vector3.length d.
Proof.
  pose proof (length_nonneg a) as Ha. pose proof (length_nonneg d) as Hd.
  pose proof (length_sqr a) as Sa. pose proof (length_sqr d) as Sd.
  apply le_of_squares; [nra |].
  replace (Vector3.length a * Vector3.length d * (Vector3.length a * Vector3.length d))
    with (Vector3.lengthSq a * Vector3.lengthSq d) by (rewrite <- Sa, <- Sd; ring).
  assert (E : forall r, Rabs r * Rabs r = r * r).
  { intros r. unfold Rabs. destruct (Rcase_abs r); ring. }
  rewrite E. unfold Vector3.lengthSq.
  destruct a as [a1 a2 a3], d as [d1 d2 d3]. cbn [Vector3.x Vector3.y Vector3.z].
  pose proof (Rle_0_sqr (a1 * d2 - a2 * d1)) as H1.
  pose proof (Rle_0_sqr (a1 * d3 - a3 * d1)) as H2.
  pose proof (Rle_0_sqr (a2 * d3 - a3 * d2)) as H3.
  unfold Rsqr in H1, H2, H3.
  replace ((a1 * a1 + a2 * a2 + a3 * a3) * (d1 * d1 + d2 * d2 + d3 * d3))
    with ((a1 * d1 + a2 * d2 + a3 * d3) * (a1 * d1 + a2 * d2 + a3 * d3)
          + ((a1 * d2 - a2 * d1) * (a1 * d2 - a2 * d1)
             + (a1 * d3 - a3 * d1) * (a1 * d3 - a3 * d1)
             + (a2 * d3 - a3 * d2) * (a2 * d3 - a3 * d2))) by ring.
  lra.
Qed.

Lemma lengthSq_add (a d : vec3) :
  Vector3.lengthSq (Vector3.add a d)
  = Vector3.lengthSq a
    + 2 * (Vector3.x a * Vector3.x d + Vector3.y a * Vector3.y d
           + Vector3.z a * Vector3.z d)
    + Vector3.lengthSq d.
Proof.
  unfold Vector3.lengthSq, Vector3.add. cbn [Vector3.x Vector3.y Vector3.z]. ring.
Qed.

Lemma length_add_bounds (a d : vec3) :
  Vector3.length a - Vector3.length d <= Vector3.length (Vector3.add a d)
  <= Vector3.length a + Vector3.length d.
Proof.
  pose proof (length_nonneg a) as Ha. pose proof (length_nonneg d) as Hd.
  pose proof (length_nonneg (Vector3.add a d)) as Hs.
  pose proof (length_sqr a) as Sa. pose proof (length_sqr d) as Sd.
  pose proof (length_sqr (Vector3.add a d)) as Ss.
  rewrite lengthSq_add in Ss.
  pose proof (inner_le_lengths a d) as Hc. apply Rabs_le_inv in Hc.
  split.
  - destruct (Rle_lt_dec (Vector3.length a - Vector3.length d) 0) as [H | H];
      [lra |].
    apply le_of_squares; [exact Hs | nra].
  - apply le_of_squares; [lra | nra].
Qed.

(** ** Spherical coordinates *)

Lemma spherical_lengthSq r phi theta :
  Vector3.lengthSq (Vector3.mk (r * sin phi * cos theta)
                               (r * sin phi * sin theta) (r * cos phi))
  = r * r.
Proof.
  unfold Vector3.lengthSq. cbn [Vector3.x Vector3.y Vector3.z].
  pose proof (sin2_cos2 theta) as Ht. pose proof (sin2_cos2 phi) as Hp.
  unfold Rsqr in Ht, Hp.
  set (st := sin theta) in *. set (ct := cos theta) in *.
  set (sp := sin phi) in *. set (cp := cos phi) in *.
  replace (r * sp * ct * (r * sp * ct) + r * sp * st * (r * sp * st)
           + r * cp * (r * cp))
    with (r * r * (sp * sp * (st * st + ct * ct) + cp * cp)) by ring.
  rewrite Ht. replace (sp * sp * 1 + cp * cp) with (sp * sp + cp * cp) by ring.
  rewrite Hp. ring.
Qed.

Lemma sparklePoint_length u v w :
  0 <= w < 1 ->
  Vector3.length (AmbientSparkles.sparklePoint u v w) = 8 + JSMath.cbrt w * 15
  /\ 8 <= Vector3.length (AmbientSparkles.sparklePoint u v w) < 23.
Proof.
  intros Hw. pose proof (cbrt_unit w Hw) as Hc.
  assert (E : Vector3.length (AmbientSparkles.sparklePoint u v w)
              = 8 + JSMath.cbrt w * 15).
  { unfold Vector3.length, AmbientSparkles.sparklePoint. cbv zeta.
    rewrite spherical_lengthSq. apply sqrt_square. lra. }
  rewrite E. split; [reflexivity | lra].
Qed.

Lemma sparklePos_drift uTime position aRandom :
  exists d,
    Shader.sparklePos uTime position aRandom = Vector3.add position d
    /\ Rabs (Vector3.x d) <= 1 /\ Rabs (Vector3.y d) <= 0.5
    /\ Rabs (Vector3.z d) <= 1
    /\ Vector3.length d <= 1.5.
Proof.
  exists (Vector3.mk (sin (uTime * 0.2 + aRandom * 100.0) * 1.0)
                     (cos (uTime * 0.2 * 0.8 + aRandom * 50.0) * 0.5)
                     (sin (uTime * 0.2 * 0.5 + aRandom * 20.0) * 1.0)).
  cbn [Vector3.x Vector3.y Vector3.z].
  assert (Bx : Rabs (sin (uTime * 0.2 + aRandom * 100.0) * 1.0) <= 1).
  { apply Rle_trans with 1.0; [| lra].
    apply scaled_sine_bounded; [lra | apply SIN_bound]. }
  assert (By : Rabs (cos (uTime * 0.2 * 0.8 + aRandom * 50.0) * 0.5) <= 0.5)
    by (apply scaled_sine_bounded; [lra | apply COS_bound]).
  assert (Bz : Rabs (sin (uTime * 0.2 * 0.5 + aRandom * 20.0) * 1.0) <= 1).
  { apply Rle_trans with 1.0; [| lra].
    apply scaled_sine_bounded; [lra | apply SIN_bound]. }
  split; [reflexivity |].
  split; [exact Bx |]. split; [exact By |]. split; [exact Bz |].
  apply le_of_squares; [lra |]. rewrite length_sqr.
  unfold Vector3.lengthSq. cbn [Vector3.x Vector3.y Vector3.z].
  apply Rabs_le_inv in Bx, By, Bz.
  set (a := sin _ * 1.0) in *. set (b := cos _ * 0.5) in *.
  set (c := sin _ * 1.0) in *. nra.
Qed.

Lemma sparkle_fill_run i b w :
  AmbientSparkles.fill i b w
  = (let c := cursor w in
     let rnd := randoms w in
     (AmbientSparkles.mkBuffers
        (storeVec (AmbientSparkles.positions b) i
           (AmbientSparkles.sparklePoint (rnd c) (rnd (1 + c)%nat)
              (rnd (2 + c)%nat)))
        (store (AmbientSparkles.randoms b) i (rnd (3 + c)%nat))
        (store (AmbientSparkles.sizes b) i (0.5 + rnd (4 + c)%nat * 0.7)),
      mkWorld rnd (5 + c) (heap w) (sphereCalls w))).
Proof. reflexivity. Qed.

Lemma sparkle_buildWith_spec (count : nat) (w : World) :
  let r := AmbientSparkles.buildWith count w in
  let b := fst r in
  let rnd := randoms w in
  (length (AmbientSparkles.positions b) = (count * 3)%nat
   /\ length (AmbientSparkles.randoms b) = count
   /\ length (AmbientSparkles.sizes b) = count)
  /\ cursor (snd r) = (5 * count + cursor w)%nat
  /\ forall i, (i < count)%nat ->
       let c := (5 * i + cursor w)%nat in
       vecAt (AmbientSparkles.positions b) i
       = AmbientSparkles.sparklePoint (rnd c) (rnd (1 + c)%nat) (rnd (2 + c)%nat)
       /\ load (AmbientSparkles.randoms b) i = rnd (3 + c)%nat
       /\ load (AmbientSparkles.sizes b) i = 0.5 + rnd (4 + c)%nat * 0.7.
Proof.
  cbv zeta. set (rnd := randoms w). set (c0 := cursor w).
  set (Inv := fun (j : nat) (b : AmbientSparkles.Buffers) (w1 : World) =>
    randoms w1 = rnd /\ cursor w1 = (5 * j + c0)%nat
    /\ (length (AmbientSparkles.positions b) = (count * 3)%nat
        /\ length (AmbientSparkles.randoms b) = count
        /\ length (AmbientSparkles.sizes b) = count)
    /\ forall i, (i < j)%nat ->
         vecAt (AmbientSparkles.positions b) i
         = AmbientSparkles.sparklePoint (rnd (5 * i + c0)%nat)
             (rnd (1 + (5 * i + c0))%nat) (rnd (2 + (5 * i + c0))%nat)
         /\ load (AmbientSparkles.randoms b) i = rnd (3 + (5 * i + c0))%nat
         /\ load (AmbientSparkles.sizes b) i
            = 0.5 + rnd (4 + (5 * i + c0))%nat * 0.7).
  assert (H : wp (AmbientSparkles.buildWith count)
                (fun b w' => Inv (0 + count)%nat b w') w).
  { unfold AmbientSparkles.buildWith. cbv zeta. apply forRange_wp.
    - intros j b1 w1 Hj (R1 & C1 & (L1 & L2 & L3) & P1).
      eapply wp_run; [apply sparkle_fill_run |]. cbv zeta.
      rewrite R1, C1. unfold Inv.
      cbn [randoms cursor AmbientSparkles.positions AmbientSparkles.randoms
           AmbientSparkles.sizes].
      split; [reflexivity |]. split; [lia |].
      split; [rewrite !length_storeVec, !length_store; tauto |].
      intros i Hi. destruct (Nat.eq_dec i j) as [-> | Hne].
      + rewrite !vecAt_storeVec_eq, !load_store_eq by lia.
        repeat split; reflexivity.
      + rewrite !vecAt_storeVec_ne, !load_store_ne by lia.
        apply P1. lia.
    - unfold Inv. cbn [AmbientSparkles.positions AmbientSparkles.randoms
                       AmbientSparkles.sizes].
      rewrite !length_newFloat32Array.
      repeat split; try reflexivity; try lia. }
  unfold wp in H. destruct H as (R1 & C1 & L & P1).
  split; [exact L |]. split; [exact C1 | exact P1].
Qed.

(** X18. The buffers built by [AmbientSparkles], for values of
    [Math.random()] in [0,1): 400 sparkles, each with a position attribute
    at a distance in [8, 23) from the origin and a size in [0.5, 1.2); and
    at every time the sparkle vertex shader moves it by at most 1 in x and
    z and 0.5 in y, so that the emitted position is at a distance in
    [6.5, 24.5] from the origin. *)
Theorem sparkles_stay_in_shell (w : World) :
  (forall n, 0 <= randoms w n < 1) ->
  let b := fst (AmbientSparkles.build w) in
  length (AmbientSparkles.positions b) = (AmbientSparkles.count * 3)%nat
  /\ forall i, (i < AmbientSparkles.count)%nat ->
       let base := vecAt (AmbientSparkles.positions b) i in
       8 <= Vector3.length base < 23
       /\ 0.5 <= load (AmbientSparkles.sizes b) i < 1.2
       /\ forall uTime aRandom,
            let p := Shader.sparklePos uTime base aRandom in
            Rabs (Vector3.x p - Vector3.x base) <= 1
            /\ Rabs (Vector3.y p - Vector3.y base) <= 0.5
            /\ Rabs (Vector3.z p - Vector3.z base) <= 1
            /\ 6.5 <= Vector3.length p <= 24.5.
Proof.
  intros Hrnd. cbv zeta. unfold AmbientSparkles.build.
  destruct (sparkle_buildWith_spec AmbientSparkles.count w) as ((L1 & _) & _ & P).
  split; [exact L1 |].
  intros i Hi. destruct (P i Hi) as (Pp & _ & Ps). rewrite Pp, Ps.
  set (c := (5 * i + cursor w)%nat).
  destruct (sparklePoint_length (randoms w c) (randoms w (1 + c)%nat)
              (randoms w (2 + c)%nat) (Hrnd _)) as (_ & Hlen).
  pose proof (Hrnd (4 + c)%nat) as H4.
  split; [exact Hlen |]. split; [lra |].
  intros uTime aRandom.
  set (base := AmbientSparkles.sparklePoint _ _ _) in *.
  destruct (sparklePos_drift uTime base aRandom) as (d & -> & Dx & Dy & Dz & Dl).
  pose proof (length_add_bounds base d) as Hb.
  unfold Vector3.add at 1 2 3. cbn [Vector3.x Vector3.y Vector3.z].
  replace (Vector3.x base + Vector3.x d - Vector3.x base) with (Vector3.x d) by ring.
  replace (Vector3.y base + Vector3.y d - Vector3.y base) with (Vector3.y d) by ring.
  replace (Vector3.z base + Vector3.z d - Vector3.z base) with (Vector3.z d) by ring.
  pose proof (length_nonneg d).
  repeat split; try assumption; lra.
Qed.

Lemma sparkles_stay_in_shell_witness :
  let w := mkWorld (fun _ => 0.5) 0%nat [] [] in
  (forall n, 0 <= randoms w n < 1)
  /\ length (AmbientSparkles.positions (fst (AmbientSparkles.build w)))
     = (AmbientSparkles.count * 3)%nat.
Proof.
  intros w.
  assert (Hrnd : forall n, 0 <= randoms w n < 1) by (intros n; simpl; lra).
  destruct (sparkles_stay_in_shell w Hrnd) as (H & _).
  split; [exact Hrnd | exact H].
Defined.

(** ** Distinct objects *)

Lemma distinctObjects_length T itemLocs h h' :
  length h' = length h -> distinctObjects T itemLocs h ->
  distinctObjects T itemLocs h'.
Proof. intros E [Hnd Hr]. split; [exact Hnd | now rewrite E]. Qed.

Lemma NoDup_app_parts {A : Type} (l1 l2 : list A) :
  List.NoDup (l1 ++ l2) ->
  List.NoDup l1 /\ List.NoDup l2 /\ forall a, In a l1 -> ~ In a l2.
Proof.
  intros H. split; [eapply List.NoDup_app_remove_r; eauto |].
  split; [eapply List.NoDup_app_remove_l; eauto |].
  induction l1 as [| x l1 IH]; simpl in *; [tauto |].
  apply List.NoDup_cons_iff in H. destruct H as [Hx Hnd].
  intros a [<- | Ha] Hin.
  - apply Hx, in_or_app. now right.
  - exact (IH Hnd a Ha Hin).
Qed.

Lemma NoDup_app_intro {A : Type} (l1 l2 : list A) :
  List.NoDup l1 -> List.NoDup l2 -> (forall a, In a l1 -> ~ In a l2) ->
  List.NoDup (l1 ++ l2).
Proof.
  intros H1 H2 Hd. induction l1 as [| x l1 IH]; simpl; [exact H2 |].
  apply List.NoDup_cons_iff in H1. destruct H1 as [Hx H1].
  apply List.NoDup_cons.
  - intros Hin. apply in_app_or in Hin. destruct Hin as [Hin | Hin];
      [contradiction | exact (Hd x (or_introl eq_refl) Hin)].
  - apply IH; [exact H1 |]. intros a Ha. apply Hd. now right.
Qed.

Lemma distinctObjects_head T ls rest h :
  distinctObjects T (ls :: rest) h -> distinctObjects T [ls] h.
Proof.
  intros [Hnd Hr]. unfold distinctObjects. cbn [concat] in *.
  rewrite app_nil_r. split.
  - rewrite app_assoc in Hnd. eapply List.NoDup_app_remove_r; eauto.
  - rewrite app_assoc in Hr. apply Forall_app in Hr. tauto.
Qed.

Lemma distinctObjects_tail T ls rest h :
  distinctObjects T (ls :: rest) h -> distinctObjects T rest h.
Proof.
  intros [Hnd Hr]. unfold distinctObjects. cbn [concat] in *. split.
  - destruct (NoDup_app_parts _ _ Hnd) as (HT & Hrest & Hd).
    destruct (NoDup_app_parts _ _ Hrest) as (_ & Hrest' & _).
    apply NoDup_app_intro; [exact HT | exact Hrest' |].
    intros a Ha Hin. apply (Hd a Ha), in_or_app. now right.
  - apply Forall_app in Hr. destruct Hr as [HT Hr].
    apply Forall_app in Hr. apply Forall_app. tauto.
Qed.

Lemma distinctObjects_apart T ls rest h l :
  distinctObjects T (ls :: rest) h -> In l ls ->
  ~ In l T /\ ~ In l (concat rest).
Proof.
  intros [Hnd _] Hl. cbn [concat] in Hnd.
  destruct (NoDup_app_parts _ _ Hnd) as (_ & Hrest & Hd).
  destruct (NoDup_app_parts _ _ Hrest) as (_ & _ & Hd').
  split; [| now apply Hd'].
  intros HT. apply (Hd l HT), in_or_app. now left.
Qed.

Lemma distinctObjects_scratch T ls rest h l :
  distinctObjects T (ls :: rest) h -> In l T -> ~ In l ls.
Proof.
  intros [Hnd _] Hl Hin. cbn [concat] in Hnd.
  destruct (NoDup_app_parts _ _ Hnd) as (_ & _ & Hd).
  apply (Hd l Hl), in_or_app. now left.
Qed.

(** ** Loops over items whose bodies touch only their own item and the
    scratch object *)

Section ForEachLocal.

Context {A B : Type}.

Variables (T Tw : list loc) (fp dyn : A -> list loc) (body : A -> nat -> M B).

Variable Q : A -> nat -> (loc -> vec3) -> B -> (loc -> vec3) -> Prop.

Hypothesis Tw_T : incl Tw T.

Hypothesis dyn_fp : forall d, incl (dyn d) (fp d).

Hypothesis Q_local : forall d i pre pre' b post post',
  (forall l, In l (fp d) \/ (In l T /\ ~ In l Tw) -> pre' l = pre l) ->
  (forall l, In l (fp d) -> post' l = post l) ->
  Q d i pre b post -> Q d i pre' b post'.

Hypothesis body_spec : forall d i w,
  distinctObjects T [fp d] (heap w) ->
  wp (body d i)
     (fun b w' =>
        length (heap w') = length (heap w)
        /\ (forall l, ~ In l (Tw ++ dyn d) -> deref (heap w') l = deref (heap w) l)
        /\ Q d i (deref (heap w)) b (deref (heap w'))) w.

Lemma forEachFrom_local (data : list A) : forall i w,
  distinctObjects T (map fp data) (heap w) ->
  wp (forEachFrom body data i)
     (fun bs w' =>
        length (heap w') = length (heap w)
        /\ (forall l, ~ In l (Tw ++ concat (map dyn data)) ->
              deref (heap w') l = deref (heap w) l)
        /\ length bs = length data
        /\ forall k d b, data !! k = Some d -> bs !! k = Some b ->
             Q d (i + k) (deref (heap w)) b (deref (heap w'))) w.
Proof.
  induction data as [| d rest IH]; intros i w Hdist; cbn [forEachFrom].
  - apply wp_ret. split; [reflexivity |]. split; [reflexivity |].
    split; [reflexivity |]. intros k d b Hd. discriminate.
  - cbn [map] in Hdist.
    apply wp_bind. eapply wp_conseq;
      [apply body_spec; eapply distinctObjects_head; exact Hdist |].
    intros b w1 (L1 & F1 & Q1). cbv beta.
    apply wp_bind. eapply wp_conseq.
    { apply (IH (S i) w1). eapply distinctObjects_length; [exact L1 |].
      eapply distinctObjects_tail; exact Hdist. }
    intros bs w2 (L2 & F2 & Lbs & Q2). cbv beta. apply wp_ret.
    assert (Hown : forall l, In l (fp d) -> deref (heap w2) l = deref (heap w1) l).
    { intros l Hl. apply F2. intros Hin. apply in_app_or in Hin.
      destruct (distinctObjects_apart _ _ _ _ l Hdist Hl) as [HT Hrest].
      destruct Hin as [Hin | Hin]; [exact (HT (Tw_T _ Hin)) |].
      apply Hrest. apply in_concat in Hin. destruct Hin as (ls & Hls & Hl').
      apply in_map_iff in Hls. destruct Hls as (e & <- & He).
      apply in_concat. exists (fp e). split; [now apply in_map |].
      now apply dyn_fp. }
    assert (Hlater : forall e l, In e rest ->
              In l (fp e) \/ (In l T /\ ~ In l Tw) ->
              deref (heap w1) l = deref (heap w) l).
    { intros e l He Hl. apply F1. intros Hin. apply in_app_or in Hin.
      destruct Hl as [Hl | [HlT HlTw]].
      - assert (Hc : In l (concat (map fp rest)))
          by (apply in_concat; exists (fp e); split; [now apply in_map | exact Hl]).
        destruct Hin as [Hin | Hin].
        + destruct Hdist as [Hnd _]. cbn [concat] in Hnd.
          destruct (NoDup_app_parts _ _ Hnd) as (_ & _ & Hd).
          apply (Hd l (Tw_T _ Hin)), in_or_app. now right.
        + destruct (distinctObjects_apart _ _ _ _ l Hdist (dyn_fp _ _ Hin))
            as [_ Hrest]. contradiction.
      - destruct Hin as [Hin | Hin]; [contradiction |].
        exact (distinctObjects_scratch _ _ _ _ l Hdist HlT (dyn_fp _ _ Hin)). }
    split; [congruence |].
    split.
    { intros l Hl. rewrite F2, F1; [reflexivity | |];
        intros Hin; apply Hl; cbn [map concat];
        apply in_app_or in Hin; apply in_or_app;
        (destruct Hin as [Hin | Hin]; [now left | right]);
        apply in_or_app; [now left | now right]. }
    split; [cbn [length]; congruence |].
    intros k e b' He Hb. destruct k as [| k]; cbn in He, Hb.
    + injection He as <-. injection Hb as <-. rewrite Nat.add_0_r.
      eapply Q_local; [| | exact Q1]; [reflexivity | exact Hown].
    + replace (i + S k)%nat with (S i + k)%nat by lia.
      eapply Q_local; [| | exact (Q2 k e b' He Hb)]; [| reflexivity].
      intros l Hl. symmetry. apply (Hlater e); [| exact Hl].
      eapply list_elem_of_In, list_elem_of_lookup_2; eauto.
Qed.

End ForEachLocal.

Lemma in_concat_map {A : Type} (f : A -> list loc) (data : list A) d l :
  In d data -> In l (f d) -> In l (concat (map f data)).
Proof.
  intros Hd Hl. apply in_concat. exists (f d). split; [now apply in_map | exact Hl].
Qed.

Lemma distinct_static_kept {A : Type} (T : list loc) (fp dyn : A -> list loc)
    (data : list A) h d l :
  distinctObjects T (map fp data) h -> (forall e, incl (dyn e) (fp e)) ->
  In d data -> In l (fp d) -> ~ In l (dyn d) ->
  ~ In l (T ++ concat (map dyn data)).
Proof.
  intros Hdist Hincl. revert d l.
  induction data as [| e rest IH]; intros d l Hd Hl Hdyn; [destruct Hd |].
  cbn [map concat] in *.
  assert (Hsub : forall x, In x (concat (map dyn rest)) ->
                           In x (concat (map fp rest))).
  { intros x Hx. apply in_concat in Hx. destruct Hx as (ls & Hls & Hx).
    apply in_map_iff in Hls. destruct Hls as (e' & <- & He').
    eapply in_concat_map; [exact He' | now apply Hincl]. }
  destruct Hd as [<- | Hd].
  - destruct (distinctObjects_apart _ _ _ _ l Hdist Hl) as [HT Hrest].
    intros Hin. apply in_app_or in Hin. destruct Hin as [Hin | Hin]; [auto |].
    apply in_app_or in Hin. destruct Hin as [Hin | Hin]; [auto |].
    apply Hrest, Hsub, Hin.
  - intros Hin. apply in_app_or in Hin. destruct Hin as [Hin | Hin].
    + apply (IH (distinctObjects_tail _ _ _ _ Hdist) d l Hd Hl Hdyn).
      apply in_or_app. now left.
    + apply in_app_or in Hin. destruct Hin as [Hin | Hin].
      * destruct (distinctObjects_apart _ _ _ _ l Hdist (Hincl _ _ Hin))
          as [_ Hrest].
        apply Hrest. eapply in_concat_map; eauto.
      * apply (IH (distinctObjects_tail _ _ _ _ Hdist) d l Hd Hl Hdyn).
        apply in_or_app. now right.
Qed.

Lemma distinct_item_NoDup {A : Type} (T : list loc) (fp : A -> list loc)
    (data : list A) h d :
  distinctObjects T (map fp data) h -> In d data -> List.NoDup (fp d).
Proof.
  intros Hdist. induction data as [| e rest IH]; intros Hd; [destruct Hd |].
  destruct Hd as [<- | Hd].
  - apply distinctObjects_head in Hdist. destruct Hdist as [Hnd _].
    cbn [concat] in Hnd. rewrite app_nil_r in Hnd.
    eapply List.NoDup_app_remove_l; eauto.
  - apply IH; [eapply distinctObjects_tail; eauto | exact Hd].
Qed.

(** ** Updates in place, goal-directed *)

Lemma wp_update (l : loc) (f : vec3 -> vec3) (post : unit -> World -> Prop) w :
  (l < length (heap w))%nat ->
  (forall w1,
     length (heap w1) = length (heap w) ->
     deref (heap w1) l = f (deref (heap w) l) ->
     (forall l', l <> l' -> deref (heap w1) l' = deref (heap w) l') ->
     post tt w1) ->
  wp (v <- get l ;; set l (f v)) post w.
Proof. intros Hl H. apply wp_bind, wp_get. cbv beta. now apply wp_set. Qed.

Lemma wp_lerpInPlace this v alpha (post : unit -> World -> Prop) w :
  (this < length (heap w))%nat ->
  (forall w1,
     length (heap w1) = length (heap w) ->
     deref (heap w1) this
     = Vector3.lerp (deref (heap w) this) (deref (heap w) v) alpha ->
     (forall l', this <> l' -> deref (heap w1) l' = deref (heap w) l') ->
     post tt w1) ->
  wp (lerpInPlace this v alpha) post w.
Proof.
  intros Hl H. unfold lerpInPlace. apply wp_bind, wp_get. cbv beta.
  apply wp_bind, wp_get. cbv beta. now apply wp_set.
Qed.

Lemma wp_copy this v (post : unit -> World -> Prop) w :
  (this < length (heap w))%nat ->
  (forall w1,
     length (heap w1) = length (heap w) ->
     deref (heap w1) this = deref (heap w) v ->
     (forall l', this <> l' -> deref (heap w1) l' = deref (heap w) l') ->
     post tt w1) ->
  wp (copy this v) post w.
Proof.
  intros Hl H. unfold copy. apply wp_bind, wp_get. cbv beta. now apply wp_set.
Qed.

Lemma wp_matrix o (post : Object3D.Matrix -> World -> Prop) w :
  post (Object3D.mkMatrix (deref (heap w) (Object3D.position o))
          (deref (heap w) (Object3D.rotation o))
          (deref (heap w) (Object3D.scale o))) w ->
  wp (Object3D.matrix o) post w.
Proof. exact (fun H => H). Qed.

Lemma wp_addX l k (post : unit -> World -> Prop) w :
  (l < length (heap w))%nat ->
  (forall w1,
     length (heap w1) = length (heap w) ->
     deref (heap w1) l
     = Vector3.mk (Vector3.x (deref (heap w) l) + k) (Vector3.y (deref (heap w) l))
                  (Vector3.z (deref (heap w) l)) ->
     (forall l', l <> l' -> deref (heap w1) l' = deref (heap w) l') ->
     post tt w1) ->
  wp (addX l k) post w.
Proof. intros Hl H. unfold addX. now apply wp_update. Qed.

Lemma wp_addY l k (post : unit -> World -> Prop) w :
  (l < length (heap w))%nat ->
  (forall w1,
     length (heap w1) = length (heap w) ->
     deref (heap w1) l
     = Vector3.mk (Vector3.x (deref (heap w) l)) (Vector3.y (deref (heap w) l) + k)
                  (Vector3.z (deref (heap w) l)) ->
     (forall l', l <> l' -> deref (heap w1) l' = deref (heap w) l') ->
     post tt w1) ->
  wp (addY l k) post w.
Proof. intros Hl H. unfold addY. now apply wp_update. Qed.

Lemma wp_addZ l k (post : unit -> World -> Prop) w :
  (l < length (heap w))%nat ->
  (forall w1,
     length (heap w1) = length (heap w) ->
     deref (heap w1) l
     = Vector3.mk (Vector3.x (deref (heap w) l)) (Vector3.y (deref (heap w) l))
                  (Vector3.z (deref (heap w) l) + k) ->
     (forall l', l <> l' -> deref (heap w1) l' = deref (heap w) l') ->
     post tt w1) ->
  wp (addZ l k) post w.
Proof. intros Hl H. unfold addZ. now apply wp_update. Qed.

Lemma wp_setX l k (post : unit -> World -> Prop) w :
  (l < length (heap w))%nat ->
  (forall w1,
     length (heap w1) = length (heap w) ->
     deref (heap w1) l
     = Vector3.mk k (Vector3.y (deref (heap w) l)) (Vector3.z (deref (heap w) l)) ->
     (forall l', l <> l' -> deref (heap w1) l' = deref (heap w) l') ->
     post tt w1) ->
  wp (setX l k) post w.
Proof. intros Hl H. unfold setX. now apply wp_update. Qed.

Lemma wp_setZ l k (post : unit -> World -> Prop) w :
  (l < length (heap w))%nat ->
  (forall w1,
     length (heap w1) = length (heap w) ->
     deref (heap w1) l
     = Vector3.mk (Vector3.x (deref (heap w) l)) (Vector3.y (deref (heap w) l)) k ->
     (forall l', l <> l' -> deref (heap w1) l' = deref (heap w) l') ->
     post tt w1) ->
  wp (setZ l k) post w.
Proof. intros Hl H. unfold setZ. now apply wp_update. Qed.

Lemma wp_setScalar l k (post : unit -> World -> Prop) w :
  (l < length (heap w))%nat ->
  (forall w1,
     length (heap w1) = length (heap w) ->
     deref (heap w1) l = Vector3.mk k k k ->
     (forall l', l <> l' -> deref (heap w1) l' = deref (heap w) l') ->
     post tt w1) ->
  wp (setScalar l k) post w.
Proof. intros Hl H. unfold setScalar. now apply wp_set. Qed.

Tactic Notation "wp_step" ident(w1) ident(Hlen) ident(Heq) ident(Hne) :=
  lazymatch goal with
  | |- wp (bind _ _) _ _ => apply wp_bind
  | _ => idtac
  end;
  lazymatch goal with
  | |- wp (lerpInPlace _ _ _) _ _ => apply wp_lerpInPlace
  | |- wp (copy _ _) _ _ => apply wp_copy
  | |- wp (addX _ _) _ _ => apply wp_addX
  | |- wp (addY _ _) _ _ => apply wp_addY
  | |- wp (addZ _ _) _ _ => apply wp_addZ
  | |- wp (setX _ _) _ _ => apply wp_setX
  | |- wp (setZ _ _) _ _ => apply wp_setZ
  | |- wp (setScalar _ _) _ _ => apply wp_setScalar
  end;
  [congruence | intros w1 Hlen Heq Hne; cbv beta].

(** Rewriting a read through the worlds of a chain of updates. *)

Ltac chase :=
  repeat match goal with
  | H : deref (heap ?w1) ?l = _ |- context [deref (heap ?w1) ?l] => rewrite H
  | H : forall l', ?l <> l' -> deref (heap ?w1) l' = deref (heap ?w0) l'
    |- context [deref (heap ?w1) ?l2] =>
      rewrite (H l2) by (assumption || congruence)
  end.

Lemma NoDup_neq {A : Type} (l : list A) i j a b :
  List.NoDup l -> l !! i = Some a -> l !! j = Some b -> i <> j -> a <> b.
Proof.
  intros Hnd Hi Hj Hij ->. apply Hij.
  apply NoDup_ListNoDup in Hnd. eapply NoDup_lookup; eauto.
Qed.

(** ** Ornaments: one frame *)

Ltac split_distinct H :=
  let Hnd := fresh "Hnd" in
  let Hr := fresh "Hr" in
  destruct H as [Hnd Hr];
  cbn [concat app Object3D.locs OrnamentGroup.locs GiftBoxGroup.locs
       TinyBaublesGroup.locs TopStar.locs] in Hnd, Hr;
  rewrite !List.NoDup_cons_iff in Hnd; cbn [In] in Hnd;
  rewrite !List.Forall_cons_iff in Hr;
  intuition idtac.

Lemma ornament_updateItem_spec tempObject targetIsTree elapsedTime lerpFactor d i w :
  distinctObjects (Object3D.locs tempObject) [OrnamentGroup.locs d] (heap w) ->
  wp (OrnamentGroup.updateItem tempObject targetIsTree elapsedTime lerpFactor d i)
     (fun m w' =>
        length (heap w') = length (heap w)
        /\ (forall l, ~ In l (Object3D.locs tempObject ++ OrnamentGroup.dynamicLocs d) ->
              deref (heap w') l = deref (heap w) l)
        /\ (let pre := deref (heap w) in
            let post := deref (heap w') in
            let target := if targetIsTree then OrnamentGroup.treePos d
                          else OrnamentGroup.scatterPos d in
            let moved := Vector3.lerp (pre (OrnamentGroup.currentPos d))
                                      (pre target) lerpFactor in
            let cur := if targetIsTree then moved
                       else Vector3.mk (Vector3.x moved)
                              (Vector3.y moved + sin (elapsedTime + INR i) * 0.005)
                              (Vector3.z moved) in
            let rot := Vector3.mk
                         (Vector3.x (pre (OrnamentGroup.rotation d))
                          + OrnamentGroup.rotationSpeed d)
                         (Vector3.y (pre (OrnamentGroup.rotation d))
                          + OrnamentGroup.rotationSpeed d)
                         (Vector3.z (pre (OrnamentGroup.rotation d))) in
            post (OrnamentGroup.currentPos d) = cur
            /\ post (OrnamentGroup.rotation d) = rot
            /\ m = Object3D.mkMatrix cur rot (pre (OrnamentGroup.scale d)))) w.
Proof.
  intros Hd. split_distinct Hd.
  set (p := Object3D.position tempObject) in *.
  set (r := Object3D.rotation tempObject) in *.
  set (sc := Object3D.scale tempObject) in *.
  set (tree := OrnamentGroup.treePos d) in *.
  set (scatter := OrnamentGroup.scatterPos d) in *.
  set (cur := OrnamentGroup.currentPos d) in *.
  set (scale := OrnamentGroup.scale d) in *.
  set (rot := OrnamentGroup.rotation d) in *.
  unfold OrnamentGroup.updateItem. fold p r sc tree scatter cur scale rot.
  wp_step w1 L1 E1 N1.
  destruct targetIsTree; cbn [negb].
  - apply wp_bind, wp_ret.
    wp_step w2 L2 E2 N2. wp_step w3 L3 E3 N3. wp_step w4 L4 E4 N4.
    wp_step w5 L5 E5 N5. wp_step w6 L6 E6 N6.
    apply wp_matrix. fold p r sc.
    split; [congruence |]. split.
    { intros l Hl. cbn [Object3D.locs OrnamentGroup.dynamicLocs app In] in Hl.
      fold p r sc cur rot in Hl.
      rewrite (N6 l), (N5 l), (N4 l), (N3 l), (N2 l), (N1 l) by tauto.
      reflexivity. }
    cbv zeta. chase. cbn [Vector3.x Vector3.y Vector3.z].
    repeat split; reflexivity.
  - wp_step w1' L1' E1' N1'.
    wp_step w2 L2 E2 N2. wp_step w3 L3 E3 N3. wp_step w4 L4 E4 N4.
    wp_step w5 L5 E5 N5. wp_step w6 L6 E6 N6.
    apply wp_matrix. fold p r sc.
    split; [congruence |]. split.
    { intros l Hl. cbn [Object3D.locs OrnamentGroup.dynamicLocs app In] in Hl.
      fold p r sc cur rot in Hl.
      rewrite (N6 l), (N5 l), (N4 l), (N3 l), (N2 l), (N1' l), (N1 l) by tauto.
      reflexivity. }
    cbv zeta. chase. cbn [Vector3.x Vector3.y Vector3.z].
    repeat split; reflexivity.
Qed.

Lemma lookup_both {A B : Type} (l : list A) (l' : list B) k a :
  length l' = length l -> l !! k = Some a -> exists b, l' !! k = Some b.
Proof.
  intros Hlen Ha. apply lookup_lt_Some in Ha.
  destruct (lookup_lt_is_Some_2 l' k) as [b Hb]; [lia | eauto].
Qed.

Lemma ornament_useFrame_spec tempObject treeState weight elapsedTime delta data w :
  distinctObjects (Object3D.locs tempObject) (map OrnamentGroup.locs data) (heap w) ->
  wp (OrnamentGroup.useFrame tempObject true treeState weight elapsedTime delta data)
     (fun r w' =>
        length (heap w') = length (heap w)
        /\ (forall l, ~ In l (ornamentWritable tempObject data) ->
              deref (heap w') l = deref (heap w) l)
        /\ exists ms, r = Some ms /\ length ms = length data
           /\ forall k d, data !! k = Some d ->
                let pre := deref (heap w) in
                let post := deref (heap w') in
                let target := if isTreeShape treeState then OrnamentGroup.treePos d
                              else OrnamentGroup.scatterPos d in
                let moved := Vector3.lerp (pre (OrnamentGroup.currentPos d))
                               (pre target) (OrnamentGroup.lerpFactor weight delta) in
                let cur := if isTreeShape treeState then moved
                           else Vector3.mk (Vector3.x moved)
                                  (Vector3.y moved
                                   + sin (elapsedTime + INR k) * 0.005)
                                  (Vector3.z moved) in
                let rot := Vector3.mk
                             (Vector3.x (pre (OrnamentGroup.rotation d))
                              + OrnamentGroup.rotationSpeed d)
                             (Vector3.y (pre (OrnamentGroup.rotation d))
                              + OrnamentGroup.rotationSpeed d)
                             (Vector3.z (pre (OrnamentGroup.rotation d))) in
                post (OrnamentGroup.currentPos d) = cur
                /\ post (OrnamentGroup.rotation d) = rot
                /\ ms !! k = Some (Object3D.mkMatrix cur rot
                                     (pre (OrnamentGroup.scale d)))) w.
Proof.
  intros Hd. unfold OrnamentGroup.useFrame. cbn [negb]. cbv zeta.
  apply wp_bind. unfold forEach.
  eapply wp_conseq.
  { apply (forEachFrom_local (Object3D.locs tempObject) (Object3D.locs tempObject)
             OrnamentGroup.locs OrnamentGroup.dynamicLocs
             (OrnamentGroup.updateItem tempObject (isTreeShape treeState) elapsedTime
                (OrnamentGroup.lerpFactor weight delta))
             (fun d i pre m post =>
                let target := if isTreeShape treeState then OrnamentGroup.treePos d
                              else OrnamentGroup.scatterPos d in
                let moved := Vector3.lerp (pre (OrnamentGroup.currentPos d))
                               (pre target) (OrnamentGroup.lerpFactor weight delta) in
                let cur := if isTreeShape treeState then moved
                           else Vector3.mk (Vector3.x moved)
                                  (Vector3.y moved
                                   + sin (elapsedTime + INR i) * 0.005)
                                  (Vector3.z moved) in
                let rot := Vector3.mk
                             (Vector3.x (pre (OrnamentGroup.rotation d))
                              + OrnamentGroup.rotationSpeed d)
                             (Vector3.y (pre (OrnamentGroup.rotation d))
                              + OrnamentGroup.rotationSpeed d)
                             (Vector3.z (pre (OrnamentGroup.rotation d))) in
                post (OrnamentGroup.currentPos d) = cur
                /\ post (OrnamentGroup.rotation d) = rot
                /\ m = Object3D.mkMatrix cur rot (pre (OrnamentGroup.scale d)))).
    - apply incl_refl.
    - intros d l Hl. cbn [OrnamentGroup.dynamicLocs OrnamentGroup.locs In] in *.
      tauto.
    - intros d i pre pre' m post post' Hpre Hpost. cbv zeta.
      rewrite !Hpost by (cbn [OrnamentGroup.locs In]; tauto).
      rewrite !Hpre by (left; destruct (isTreeShape treeState);
                        cbn [OrnamentGroup.locs In]; tauto).
      tauto.
    - intros d i w0 Hd0. apply ornament_updateItem_spec. exact Hd0.
    - exact Hd. }
  intros ms w' (L & F & Lms & Q). cbv beta. apply wp_ret.
  split; [exact L |]. split; [exact F |].
  exists ms. split; [reflexivity |]. split; [exact Lms |].
  intros k d Hk. cbv zeta.
  destruct (lookup_both data ms k d Lms Hk) as [m Hm].
  specialize (Q k d m Hk Hm). cbv zeta in Q. cbn [Nat.add] in Q.
  destruct Q as (Q1 & Q2 & ->). auto.
Qed.

(** ** Ornaments: many frames *)

Lemma lerp_compose (tree cur : vec3) f rem :
  Vector3.lerp tree (Vector3.lerp cur tree f) rem
  = Vector3.lerp tree cur ((1 - f) * rem).
Proof.
  apply vec3_eq_intro; unfold Vector3.lerp; cbn [Vector3.x Vector3.y Vector3.z];
    ring.
Qed.

Lemma lerp_at_0 (a b : vec3) : Vector3.lerp a b 0 = a.
Proof.
  apply vec3_eq_intro; unfold Vector3.lerp; cbn [Vector3.x Vector3.y Vector3.z];
    ring.
Qed.

Lemma lerp_at_1 (a b : vec3) : Vector3.lerp a b 1 = b.
Proof.
  apply vec3_eq_intro; unfold Vector3.lerp; cbn [Vector3.x Vector3.y Vector3.z];
    ring.
Qed.

Lemma sqrt_scaled k s : 0 <= s -> sqrt (k * k * s) = Rabs k * sqrt s.
Proof.
  intros Hs. rewrite sqrt_mult; [| apply Rle_0_sqr | exact Hs].
  f_equal. rewrite <- sqrt_Rsqr_abs. reflexivity.
Qed.

Lemma sumsq_nonneg a b c : 0 <= a * a + b * b + c * c.
Proof.
  pose proof (Rle_0_sqr a). pose proof (Rle_0_sqr b). pose proof (Rle_0_sqr c).
  unfold Rsqr in *. lra.
Qed.

Lemma distanceTo_lerp_from (a b : vec3) alpha :
  Vector3.distanceTo (Vector3.lerp b a alpha) b
  = Rabs alpha * Vector3.distanceTo a b.
Proof.
  unfold Vector3.distanceTo, Vector3.lerp. cbn [Vector3.x Vector3.y Vector3.z].
  rewrite <- sqrt_scaled by apply sumsq_nonneg. f_equal. ring.
Qed.

Lemma distanceTo_lerp_toward (a b : vec3) alpha :
  Vector3.distanceTo (Vector3.lerp a b alpha) b
  = Rabs (1 - alpha) * Vector3.distanceTo a b.
Proof.
  unfold Vector3.distanceTo, Vector3.lerp. cbn [Vector3.x Vector3.y Vector3.z].
  rewrite <- sqrt_scaled by apply sumsq_nonneg. f_equal. ring.
Qed.

Lemma remaining_unit factors :
  Forall (fun f => 0 <= f <= 1) factors -> 0 <= remaining factors <= 1.
Proof.
  induction 1 as [| f fs Hf _ IH]; cbn [remaining fold_right]; [lra |].
  fold (remaining fs). split; nra.
Qed.

Lemma remaining_zero factors : In 1 factors -> remaining factors = 0.
Proof.
  induction factors as [| f fs IH]; cbn [In remaining fold_right]; [tauto |].
  fold (remaining fs). intros [-> | H]; [ring | rewrite (IH H); ring].
Qed.

Lemma ornament_tree_ticks tempObject weight gifts data frames : forall w,
  distinctObjects (Object3D.locs tempObject) (map OrnamentGroup.locs data) (heap w) ->
  let ticks := map (fun f => OrnamentTick (mkFrame true TREE_SHAPE (fst f) (snd f)))
                   frames in
  let factors := map (fun f => OrnamentGroup.lerpFactor weight (snd f)) frames in
  wp (runTicks tempObject weight gifts data ticks)
     (fun _ w' =>
        forall d, In d data ->
          deref (heap w') (OrnamentGroup.treePos d)
          = deref (heap w) (OrnamentGroup.treePos d)
          /\ deref (heap w') (OrnamentGroup.currentPos d)
             = Vector3.lerp (deref (heap w) (OrnamentGroup.treePos d))
                            (deref (heap w) (OrnamentGroup.currentPos d))
                            (remaining factors)) w.
Proof.
  induction frames as [| [t delta] frames IH]; intros w Hd; cbv zeta;
    cbn [map runTicks fst snd].
  - apply wp_ret. intros d Hin. split; [reflexivity |].
    cbn [remaining fold_right]. now rewrite lerp_at_1.
  - apply wp_bind. cbn [runTick fMounted fTreeState fElapsedTime fDelta].
    eapply wp_conseq; [apply ornament_useFrame_spec; exact Hd |].
    intros r w1 (L & F & ms & _ & _ & Q). cbv beta.
    eapply wp_conseq.
    { apply IH. eapply distinctObjects_length; [exact L | exact Hd]. }
    intros u w2 H2 d Hin.
    destruct (H2 d Hin) as [Ht Hc].
    apply list_elem_of_In, list_elem_of_lookup_1 in Hin. destruct Hin as [k Hk].
    destruct (Q k d Hk) as (Qc & _). cbv zeta in Qc. cbn [isTreeShape] in Qc.
    assert (Hin' : In d data)
      by (eapply list_elem_of_In, list_elem_of_lookup_2; eauto).
    assert (Htree : deref (heap w1) (OrnamentGroup.treePos d)
                    = deref (heap w) (OrnamentGroup.treePos d)).
    { apply F. unfold ornamentWritable.
      apply (distinct_static_kept _ OrnamentGroup.locs _ data (heap w) d);
        [exact Hd | | exact Hin' | |].
      - intros e l Hl. cbn [OrnamentGroup.dynamicLocs OrnamentGroup.locs In] in *.
        tauto.
      - cbn [OrnamentGroup.locs In]. tauto.
      - pose proof (distinct_item_NoDup _ _ _ _ d Hd Hin') as Hnd.
        unfold OrnamentGroup.locs, OrnamentGroup.dynamicLocs in *.
        rewrite !List.NoDup_cons_iff in Hnd. cbn [In] in Hnd |- *.
        intuition congruence. }
    split; [congruence |].
    rewrite Hc, Htree, Qc. cbn [remaining fold_right].
    fold (remaining (map (fun f => OrnamentGroup.lerpFactor weight (snd f)) frames)).
    apply lerp_compose.
Qed.

(** X19. An ornament group over any number of frames in which the requested
    state is the tree shape, the scratch object and the items' objects
    being distinct: the tree position of every item is unchanged, and its
    [currentPos] ends at [lerp(tree, start, rho)] where [rho] is the
    product of [1 - lerpFactor] over the frames, a number in [0,1]; so its
    distance to the tree position is exactly [rho] times the initial
    distance, and a single frame with [lerpFactor = 1] puts it on the tree
    position. *)
Theorem ornaments_converge (tempObject : Object3D.t) (weight : R)
    (gifts : list GiftBoxGroup.Item) (data : list OrnamentGroup.Item)
    (frames : list (R * R)) (w : World) :
  distinctObjects (Object3D.locs tempObject) (map OrnamentGroup.locs data) (heap w) ->
  let ticks := map (fun f => OrnamentTick (mkFrame true TREE_SHAPE (fst f) (snd f)))
                   frames in
  let factors := map (fun f => OrnamentGroup.lerpFactor weight (snd f)) frames in
  let w' := snd (runTicks tempObject weight gifts data ticks w) in
  0 <= remaining factors <= 1
  /\ forall d, In d data ->
       let tree := deref (heap w) (OrnamentGroup.treePos d) in
       let start := deref (heap w) (OrnamentGroup.currentPos d) in
       let final := deref (heap w') (OrnamentGroup.currentPos d) in
       deref (heap w') (OrnamentGroup.treePos d) = tree
       /\ final = Vector3.lerp tree start (remaining factors)
       /\ Vector3.distanceTo final tree
          = remaining factors * Vector3.distanceTo start tree
       /\ (In 1 factors -> final = tree).
Proof.
  intros Hd. cbv zeta.
  assert (Hrem : 0 <= remaining (map (fun f => OrnamentGroup.lerpFactor weight (snd f))
                                     frames) <= 1).
  { apply remaining_unit. apply List.Forall_forall. intros f Hf.
    apply in_map_iff in Hf. destruct Hf as (x & <- & _).
    unfold OrnamentGroup.lerpFactor. apply jsclamp_bounds. }
  split; [exact Hrem |].
  intros d Hin.
  destruct (ornament_tree_ticks tempObject weight gifts data frames w Hd d Hin)
    as [Ht Hc].
  split; [exact Ht |]. split; [exact Hc |]. split.
  - rewrite Hc, distanceTo_lerp_from, Rabs_right by lra. reflexivity.
  - intros H1. rewrite Hc, (remaining_zero _ H1). apply lerp_at_0.
Qed.

Lemma ornaments_converge_witness :
  let tempObject := Object3D.mk 0%nat 1%nat 2%nat in
  let d := OrnamentGroup.mkItem 3%nat 4%nat 5%nat 6%nat 7%nat 0.01 in
  let w := mkWorld (fun _ => 0) 0%nat
             [Vector3.zero; Vector3.zero; Vector3.zero; Vector3.mk 0 1 0;
              Vector3.mk 8 0 0; Vector3.mk 8 0 0; Vector3.zero; Vector3.zero] [] in
  let ticks := [OrnamentTick (mkFrame true TREE_SHAPE 0 0.1);
                OrnamentTick (mkFrame true TREE_SHAPE 0.1 0.1)] in
  distinctObjects (Object3D.locs tempObject) (map OrnamentGroup.locs [d]) (heap w)
  /\ deref (heap (snd (runTicks tempObject 0.3 [] [d] ticks w))) 5%nat
     = Vector3.lerp (Vector3.mk 0 1 0) (Vector3.mk 8 0 0)
         (remaining [OrnamentGroup.lerpFactor 0.3 0.1;
                     OrnamentGroup.lerpFactor 0.3 0.1]).
Proof.
  intros tempObject d w ticks.
  assert (Hd : distinctObjects (Object3D.locs tempObject)
                 (map OrnamentGroup.locs [d]) (heap w)).
  { split.
    - unfold Object3D.locs, OrnamentGroup.locs; simpl.
      repeat (apply List.NoDup_cons; [simpl; intuition discriminate |]).
      apply List.NoDup_nil.
    - unfold Object3D.locs, OrnamentGroup.locs; simpl. repeat constructor. }
  split; [exact Hd |].
  destruct (ornaments_converge tempObject 0.3 [] [d] [(0, 0.1); (0.1, 0.1)] w Hd)
    as [_ H].
  destruct (H d (or_introl eq_refl)) as (_ & Hc & _).
  exact Hc.
Defined.

(** ** Gift boxes and their ribbons *)

Lemma gift_updateItem_spec tempObject targetIsTree elapsedTime lerpFactor d i w :
  distinctObjects (Object3D.locs tempObject) [GiftBoxGroup.locs d] (heap w) ->
  wp (GiftBoxGroup.updateItem tempObject targetIsTree elapsedTime lerpFactor d i)
     (fun m w' =>
        length (heap w') = length (heap w)
        /\ (forall l, ~ In l (Object3D.locs tempObject ++ GiftBoxGroup.dynamicLocs d) ->
              deref (heap w') l = deref (heap w) l)
        /\ (let pre := deref (heap w) in
            let post := deref (heap w') in
            let target := if targetIsTree then GiftBoxGroup.treePos d
                          else GiftBoxGroup.scatterPos d in
            let moved := Vector3.lerp (pre (GiftBoxGroup.currentPos d))
                                      (pre target) lerpFactor in
            let cur := if targetIsTree then moved
                       else Vector3.mk (Vector3.x moved)
                              (Vector3.y moved + sin (elapsedTime + INR i) * 0.005)
                              (Vector3.z moved) in
            let r0 := pre (GiftBoxGroup.rotation d) in
            let rot := if targetIsTree then
                         Vector3.mk (Vector3.x r0)
                           (Vector3.y r0 + GiftBoxGroup.rotationSpeed d * 0.1)
                           (Vector3.z r0)
                       else
                         Vector3.mk (Vector3.x r0 + GiftBoxGroup.rotationSpeed d)
                           (Vector3.y r0 + GiftBoxGroup.rotationSpeed d)
                           (Vector3.z r0) in
            post (GiftBoxGroup.currentPos d) = cur
            /\ post (GiftBoxGroup.rotation d) = rot
            /\ m = Object3D.mkMatrix cur rot (pre (GiftBoxGroup.scale d)))) w.
Proof.
  intros Hd. split_distinct Hd.
  set (p := Object3D.position tempObject) in *.
  set (r := Object3D.rotation tempObject) in *.
  set (sc := Object3D.scale tempObject) in *.
  set (tree := GiftBoxGroup.treePos d) in *.
  set (scatter := GiftBoxGroup.scatterPos d) in *.
  set (cur := GiftBoxGroup.currentPos d) in *.
  set (scale := GiftBoxGroup.scale d) in *.
  set (rot := GiftBoxGroup.rotation d) in *.
  unfold GiftBoxGroup.updateItem. fold p r sc tree scatter cur scale rot.
  wp_step w1 L1 Q1 N1.
  destruct targetIsTree; cbn [negb].
  - wp_step w2 L2 Q2 N2. wp_step w4 L4 Q4 N4.
    wp_step w5 L5 Q5 N5. wp_step w6 L6 Q6 N6.
    apply wp_matrix. fold p r sc.
    split; [congruence |]. split.
    { intros l Hl. cbn [Object3D.locs GiftBoxGroup.dynamicLocs app In] in Hl.
      fold p r sc cur rot in Hl.
      rewrite (N6 l), (N5 l), (N4 l), (N2 l), (N1 l) by tauto.
      reflexivity. }
    cbv zeta. chase. cbn [Vector3.x Vector3.y Vector3.z].
    repeat split; reflexivity.
  - apply wp_bind. wp_step w1' L1' Q1' N1'.
    wp_step w2 L2 Q2 N2. wp_step w3 L3 Q3 N3. wp_step w4 L4 Q4 N4.
    wp_step w5 L5 Q5 N5. wp_step w6 L6 Q6 N6.
    apply wp_matrix. fold p r sc.
    split; [congruence |]. split.
    { intros l Hl. cbn [Object3D.locs GiftBoxGroup.dynamicLocs app In] in Hl.
      fold p r sc cur rot in Hl.
      rewrite (N6 l), (N5 l), (N4 l), (N3 l), (N2 l), (N1' l), (N1 l) by tauto.
      reflexivity. }
    cbv zeta. chase. cbn [Vector3.x Vector3.y Vector3.z].
    repeat split; reflexivity.
Qed.

Lemma ribbon_updateItem_spec tempObject d i w :
  distinctObjects (Object3D.locs tempObject) [GiftBoxGroup.locs d] (heap w) ->
  wp (RibbonHorizontal.updateItem tempObject d i)
     (fun m w' =>
        length (heap w') = length (heap w)
        /\ (forall l, ~ In l (Object3D.locs tempObject ++ []) ->
              deref (heap w') l = deref (heap w) l)
        /\ m = Object3D.mkMatrix (deref (heap w) (GiftBoxGroup.currentPos d))
                 (deref (heap w) (GiftBoxGroup.rotation d))
                 (deref (heap w) (GiftBoxGroup.scale d))) w.
Proof.
  intros Hd. split_distinct Hd.
  set (p := Object3D.position tempObject) in *.
  set (r := Object3D.rotation tempObject) in *.
  set (sc := Object3D.scale tempObject) in *.
  set (cur := GiftBoxGroup.currentPos d) in *.
  set (scale := GiftBoxGroup.scale d) in *.
  set (rot := GiftBoxGroup.rotation d) in *.
  unfold RibbonHorizontal.updateItem. fold p r sc cur scale rot.
  wp_step w4 L4 Q4 N4. wp_step w5 L5 Q5 N5. wp_step w6 L6 Q6 N6.
  apply wp_matrix. fold p r sc.
  split; [congruence |]. split.
  { intros l Hl. cbn [Object3D.locs app In] in Hl. fold p r sc in Hl.
    rewrite (N6 l), (N5 l), (N4 l) by tauto. reflexivity. }
  chase. reflexivity.
Qed.

Lemma gift_locs_dynamic d : incl (GiftBoxGroup.dynamicLocs d) (GiftBoxGroup.locs d).
Proof.
  intros l Hl. cbn [GiftBoxGroup.dynamicLocs GiftBoxGroup.locs In] in *. tauto.
Qed.

Lemma gift_useFrame_spec tempObject treeState elapsedTime delta data w :
  distinctObjects (Object3D.locs tempObject) (map GiftBoxGroup.locs data) (heap w) ->
  wp (GiftBoxGroup.useFrame tempObject true treeState elapsedTime delta data)
     (fun r w' =>
        length (heap w') = length (heap w)
        /\ (forall l, ~ In l (giftWritable tempObject data) ->
              deref (heap w') l = deref (heap w) l)
        /\ exists ms, r = Some ms /\ length ms = length data
           /\ forall k d, data !! k = Some d ->
                let pre := deref (heap w) in
                let post := deref (heap w') in
                let lerpFactor := JSMath.clamp (delta * 1.2) 0 1 in
                let target := if isTreeShape treeState then GiftBoxGroup.treePos d
                              else GiftBoxGroup.scatterPos d in
                let moved := Vector3.lerp (pre (GiftBoxGroup.currentPos d))
                               (pre target) lerpFactor in
                let cur := if isTreeShape treeState then moved
                           else Vector3.mk (Vector3.x moved)
                                  (Vector3.y moved
                                   + sin (elapsedTime + INR k) * 0.005)
                                  (Vector3.z moved) in
                let r0 := pre (GiftBoxGroup.rotation d) in
                let rot := if isTreeShape treeState then
                             Vector3.mk (Vector3.x r0)
                               (Vector3.y r0 + GiftBoxGroup.rotationSpeed d * 0.1)
                               (Vector3.z r0)
                           else
                             Vector3.mk (Vector3.x r0 + GiftBoxGroup.rotationSpeed d)
                               (Vector3.y r0 + GiftBoxGroup.rotationSpeed d)
                               (Vector3.z r0) in
                post (GiftBoxGroup.currentPos d) = cur
                /\ post (GiftBoxGroup.rotation d) = rot
                /\ ms !! k = Some (Object3D.mkMatrix cur rot
                                     (pre (GiftBoxGroup.scale d)))) w.
Proof.
  intros Hd. unfold GiftBoxGroup.useFrame. cbn [negb]. cbv zeta.
  apply wp_bind. unfold forEach.
  eapply wp_conseq.
  { apply (forEachFrom_local (Object3D.locs tempObject) (Object3D.locs tempObject)
             GiftBoxGroup.locs GiftBoxGroup.dynamicLocs
             (GiftBoxGroup.updateItem tempObject (isTreeShape treeState) elapsedTime
                (JSMath.clamp (delta * 1.2) 0 1))
             (fun d i pre m post =>
                let target := if isTreeShape treeState then GiftBoxGroup.treePos d
                              else GiftBoxGroup.scatterPos d in
                let moved := Vector3.lerp (pre (GiftBoxGroup.currentPos d))
                               (pre target) (JSMath.clamp (delta * 1.2) 0 1) in
                let cur := if isTreeShape treeState then moved
                           else Vector3.mk (Vector3.x moved)
                                  (Vector3.y moved
                                   + sin (elapsedTime + INR i) * 0.005)
                                  (Vector3.z moved) in
                let r0 := pre (GiftBoxGroup.rotation d) in
                let rot := if isTreeShape treeState then
                             Vector3.mk (Vector3.x r0)
                               (Vector3.y r0 + GiftBoxGroup.rotationSpeed d * 0.1)
                               (Vector3.z r0)
                           else
                             Vector3.mk (Vector3.x r0 + GiftBoxGroup.rotationSpeed d)
                               (Vector3.y r0 + GiftBoxGroup.rotationSpeed d)
                               (Vector3.z r0) in
                post (GiftBoxGroup.currentPos d) = cur
                /\ post (GiftBoxGroup.rotation d) = rot
                /\ m = Object3D.mkMatrix cur rot (pre (GiftBoxGroup.scale d)))).
    - apply incl_refl.
    - exact gift_locs_dynamic.
    - intros d i pre pre' m post post' Hpre Hpost. cbv zeta.
      rewrite !Hpost by (cbn [GiftBoxGroup.locs In]; tauto).
      rewrite !Hpre by (left; destruct (isTreeShape treeState);
                        cbn [GiftBoxGroup.locs In]; tauto).
      tauto.
    - intros d i w0 Hd0. apply gift_updateItem_spec. exact Hd0.
    - exact Hd. }
  intros ms w' (L & F & Lms & Q). cbv beta. apply wp_ret.
  split; [exact L |]. split; [exact F |].
  exists ms. split; [reflexivity |]. split; [exact Lms |].
  intros k d Hk. cbv zeta.
  destruct (lookup_both data ms k d Lms Hk) as [m Hm].
  specialize (Q k d m Hk Hm). cbv zeta in Q. cbn [Nat.add] in Q.
  destruct Q as (Q1 & Q2 & ->). auto.
Qed.

Lemma ribbon_useFrame_spec tempObject data w :
  distinctObjects (Object3D.locs tempObject) (map GiftBoxGroup.locs data) (heap w) ->
  wp (RibbonHorizontal.useFrame tempObject true data)
     (fun r w' =>
        length (heap w') = length (heap w)
        /\ (forall l, ~ In l (Object3D.locs tempObject) ->
              deref (heap w') l = deref (heap w) l)
        /\ exists ms, r = Some ms /\ length ms = length data
           /\ forall k d, data !! k = Some d ->
                ms !! k
                = Some (Object3D.mkMatrix (deref (heap w) (GiftBoxGroup.currentPos d))
                          (deref (heap w) (GiftBoxGroup.rotation d))
                          (deref (heap w) (GiftBoxGroup.scale d)))) w.
Proof.
  intros Hd. unfold RibbonHorizontal.useFrame. cbn [negb].
  apply wp_bind. unfold forEach.
  eapply wp_conseq.
  { apply (forEachFrom_local (Object3D.locs tempObject) (Object3D.locs tempObject)
             GiftBoxGroup.locs (fun _ => [])
             (RibbonHorizontal.updateItem tempObject)
             (fun d i pre m post =>
                m = Object3D.mkMatrix (pre (GiftBoxGroup.currentPos d))
                      (pre (GiftBoxGroup.rotation d))
                      (pre (GiftBoxGroup.scale d)))).
    - apply incl_refl.
    - intros d l [].
    - intros d i pre pre' m post post' Hpre Hpost.
      rewrite !Hpre by (left; cbn [GiftBoxGroup.locs In]; tauto). tauto.
    - intros d i w0 Hd0. apply ribbon_updateItem_spec. exact Hd0.
    - exact Hd. }
  intros ms w' (L & F & Lms & Q). cbv beta. apply wp_ret.
  split; [exact L |]. split.
  { intros l Hl. apply F. intros Hin. apply in_app_or in Hin.
    destruct Hin as [Hin | Hin]; [contradiction |].
    apply in_concat in Hin. destruct Hin as (ls & Hls & Hl').
    apply in_map_iff in Hls. destruct Hls as (e & <- & _). destruct Hl'. }
  exists ms. split; [reflexivity |]. split; [exact Lms |].
  intros k d Hk.
  destruct (lookup_both data ms k d Lms Hk) as [m Hm].
  rewrite Hm. f_equal. exact (Q k d m Hk Hm).
Qed.

(** X20. [RibbonHorizontal.useFrame] run after [GiftBoxGroup.useFrame] in the
    same frame, over the same items, the scratch object and the items'
    objects being distinct: it hands to its mesh the same list of matrices
    as the boxes got, each composed of the item's current position,
    rotation and scale as the box update left them, and it changes no
    object but the scratch object. *)
Theorem ribbons_follow_boxes (tempObject : Object3D.t) (treeState : TreeState)
    (elapsedTime delta : R) (data : list GiftBoxGroup.Item) (w : World) :
  distinctObjects (Object3D.locs tempObject) (map GiftBoxGroup.locs data) (heap w) ->
  let boxes := GiftBoxGroup.useFrame tempObject true treeState elapsedTime delta
                 data w in
  let ribbons := RibbonHorizontal.useFrame tempObject true data (snd boxes) in
  fst ribbons = fst boxes
  /\ length (heap (snd ribbons)) = length (heap (snd boxes))
  /\ (forall l, ~ In l (Object3D.locs tempObject) ->
        deref (heap (snd ribbons)) l = deref (heap (snd boxes)) l)
  /\ exists ms, fst ribbons = Some ms /\ length ms = length data
     /\ forall k d, data !! k = Some d ->
          ms !! k
          = Some (Object3D.mkMatrix
                    (deref (heap (snd boxes)) (GiftBoxGroup.currentPos d))
                    (deref (heap (snd boxes)) (GiftBoxGroup.rotation d))
                    (deref (heap (snd boxes)) (GiftBoxGroup.scale d))).
Proof.
  intros Hd. cbv zeta.
  pose proof (gift_useFrame_spec tempObject treeState elapsedTime delta data w Hd)
    as H1.
  unfold wp in H1.
  set (r1 := GiftBoxGroup.useFrame tempObject true treeState elapsedTime delta data w)
    in *.
  destruct H1 as (L1 & F1 & ms1 & E1 & Lms1 & Q1).
  assert (Hd1 : distinctObjects (Object3D.locs tempObject)
                  (map GiftBoxGroup.locs data) (heap (snd r1)))
    by (eapply distinctObjects_length; [exact L1 | exact Hd]).
  pose proof (ribbon_useFrame_spec tempObject data (snd r1) Hd1) as H2.
  unfold wp in H2.
  set (r2 := RibbonHorizontal.useFrame tempObject true data (snd r1)) in *.
  destruct H2 as (L2 & F2 & ms2 & E2 & Lms2 & Q2).
  assert (Hsame : ms2 = ms1).
  { apply list_eq. intros k.
    destruct (data !! k) as [d |] eqn:Hk.
    - rewrite (Q2 k d Hk). destruct (Q1 k d Hk) as (Qc & Qr & ->).
      cbv zeta in Qc, Qr. rewrite Qc, Qr. do 2 f_equal.
      apply F1. unfold giftWritable.
      assert (Hin : In d data)
        by (eapply list_elem_of_In, list_elem_of_lookup_2; eauto).
      apply (distinct_static_kept _ GiftBoxGroup.locs _ data (heap w) d);
        [exact Hd | exact gift_locs_dynamic | exact Hin | |].
      + cbn [GiftBoxGroup.locs In]. tauto.
      + pose proof (distinct_item_NoDup _ _ _ _ d Hd Hin) as Hnd.
        unfold GiftBoxGroup.locs, GiftBoxGroup.dynamicLocs in *.
        rewrite !List.NoDup_cons_iff in Hnd. cbn [In] in Hnd |- *.
        intuition congruence.
    - apply lookup_ge_None in Hk.
      rewrite (proj2 (lookup_ge_None ms2 k)) by lia.
      rewrite (proj2 (lookup_ge_None ms1 k)) by lia. reflexivity. }
  split; [rewrite E1, E2, Hsame; reflexivity |].
  split; [exact L2 |]. split; [exact F2 |].
  exists ms2. split; [exact E2 |]. split; [exact Lms2 | exact Q2].
Qed.

Lemma ribbons_follow_boxes_witness :
  let tempObject := Object3D.mk 0%nat 1%nat 2%nat in
  let d := GiftBoxGroup.mkItem 3%nat 4%nat 5%nat 6%nat 7%nat 0.01
             "#7a1f1f"%string "#d4af37"%string in
  let w := mkWorld (fun _ => 0) 0%nat (repeat Vector3.zero 8%nat) [] in
  distinctObjects (Object3D.locs tempObject) (map GiftBoxGroup.locs [d]) (heap w)
  /\ fst (RibbonHorizontal.useFrame tempObject true [d]
            (snd (GiftBoxGroup.useFrame tempObject true SCATTERED 1 0.1 [d] w)))
     = fst (GiftBoxGroup.useFrame tempObject true SCATTERED 1 0.1 [d] w).
Proof.
  intros tempObject d w.
  assert (Hd : distinctObjects (Object3D.locs tempObject)
                 (map GiftBoxGroup.locs [d]) (heap w)).
  { split.
    - unfold Object3D.locs, GiftBoxGroup.locs; simpl.
      repeat (apply List.NoDup_cons; [simpl; intuition discriminate |]).
      apply List.NoDup_nil.
    - unfold Object3D.locs, GiftBoxGroup.locs; simpl. repeat constructor. }
  split; [exact Hd |].
  destruct (ribbons_follow_boxes tempObject SCATTERED 1 0.1 [d] w Hd) as [H _].
  exact H.
Defined.

(** ** Tiny baubles *)

Lemma bauble_updateItem_spec tempObject targetIsTree elapsedTime lerpFactor d i w :
  distinctObjects (Object3D.locs tempObject) [TinyBaublesGroup.locs d] (heap w) ->
  wp (TinyBaublesGroup.updateItem tempObject targetIsTree elapsedTime lerpFactor d i)
     (fun m w' =>
        length (heap w') = length (heap w)
        /\ (forall l,
              ~ In l ([Object3D.position tempObject; Object3D.scale tempObject]
                      ++ [TinyBaublesGroup.currentPos d]) ->
              deref (heap w') l = deref (heap w) l)
        /\ (let pre := deref (heap w) in
            let post := deref (heap w') in
            let target := if targetIsTree then TinyBaublesGroup.treePos d
                          else TinyBaublesGroup.scatterPos d in
            let moved := Vector3.lerp (pre (TinyBaublesGroup.currentPos d))
                                      (pre target) lerpFactor in
            let cur := if targetIsTree then moved
                       else Vector3.mk (Vector3.x moved)
                              (Vector3.y moved + sin (elapsedTime + INR i) * 0.005)
                              (Vector3.z moved) in
            post (TinyBaublesGroup.currentPos d) = cur
            /\ m = Object3D.mkMatrix cur (pre (Object3D.rotation tempObject))
                     (pre (TinyBaublesGroup.scale d)))) w.
Proof.
  intros Hd. split_distinct Hd.
  set (p := Object3D.position tempObject) in *.
  set (r := Object3D.rotation tempObject) in *.
  set (sc := Object3D.scale tempObject) in *.
  set (tree := TinyBaublesGroup.treePos d) in *.
  set (scatter := TinyBaublesGroup.scatterPos d) in *.
  set (cur := TinyBaublesGroup.currentPos d) in *.
  set (scale := TinyBaublesGroup.scale d) in *.
  set (rot := TinyBaublesGroup.rotation d) in *.
  unfold TinyBaublesGroup.updateItem. fold p r sc tree scatter cur scale rot.
  wp_step w1 L1 Q1 N1.
  destruct targetIsTree; cbn [negb].
  - apply wp_bind, wp_ret.
    wp_step w4 L4 Q4 N4. wp_step w6 L6 Q6 N6.
    apply wp_matrix. fold p r sc.
    split; [congruence |]. split.
    { intros l Hl. cbn [app In] in Hl.
      rewrite (N6 l), (N4 l), (N1 l) by tauto. reflexivity. }
    cbv zeta. chase. split; reflexivity.
  - wp_step w1' L1' Q1' N1'.
    wp_step w4 L4 Q4 N4. wp_step w6 L6 Q6 N6.
    apply wp_matrix. fold p r sc.
    split; [congruence |]. split.
    { intros l Hl. cbn [app In] in Hl.
      rewrite (N6 l), (N4 l), (N1' l), (N1 l) by tauto. reflexivity. }
    cbv zeta. chase. cbn [Vector3.x Vector3.y Vector3.z]. split; reflexivity.
Qed.

(** X21. [TinyBaublesGroup.useFrame], the scratch object and the items'
    objects being distinct: the rotation of the scratch object is neither
    assigned nor changed, and every matrix handed to the mesh carries that
    rotation (whatever an earlier user of the scratch object left there),
    together with the item's moved position and its scale; the item's own
    rotation is not changed and does not enter the matrix. *)
Theorem baubles_keep_scratch_rotation (tempObject : Object3D.t)
    (treeState : TreeState) (elapsedTime delta : R)
    (data : list TinyBaublesGroup.Item) (w : World) :
  distinctObjects (Object3D.locs tempObject) (map TinyBaublesGroup.locs data)
    (heap w) ->
  let r := TinyBaublesGroup.useFrame tempObject true treeState elapsedTime delta
             data w in
  let lerpFactor := JSMath.clamp (delta * 1.5) 0 1 in
  let stale := deref (heap w) (Object3D.rotation tempObject) in
  deref (heap (snd r)) (Object3D.rotation tempObject) = stale
  /\ exists ms, fst r = Some ms /\ length ms = length data
     /\ forall k d, data !! k = Some d ->
          let target := if isTreeShape treeState then TinyBaublesGroup.treePos d
                        else TinyBaublesGroup.scatterPos d in
          let moved := Vector3.lerp (deref (heap w) (TinyBaublesGroup.currentPos d))
                         (deref (heap w) target) lerpFactor in
          let cur := if isTreeShape treeState then moved
                     else Vector3.mk (Vector3.x moved)
                            (Vector3.y moved + sin (elapsedTime + INR k) * 0.005)
                            (Vector3.z moved) in
          deref (heap (snd r)) (TinyBaublesGroup.currentPos d) = cur
          /\ deref (heap (snd r)) (TinyBaublesGroup.rotation d)
             = deref (heap w) (TinyBaublesGroup.rotation d)
          /\ ms !! k = Some (Object3D.mkMatrix cur stale
                               (deref (heap w) (TinyBaublesGroup.scale d))).
Proof.
  intros Hd. cbv zeta.
  assert (Hscratch : List.NoDup (Object3D.locs tempObject)).
  { destruct Hd as [Hnd _]. eapply List.NoDup_app_remove_r; eauto. }
  assert (Hrot : ~ In (Object3D.rotation tempObject)
                     [Object3D.position tempObject; Object3D.scale tempObject]).
  { unfold Object3D.locs in Hscratch.
    rewrite !List.NoDup_cons_iff in Hscratch. cbn [In] in Hscratch |- *.
    intuition congruence. }
  assert (Hsub : forall l X,
            ~ In l (Object3D.locs tempObject ++ X) ->
            ~ In l ([Object3D.position tempObject; Object3D.scale tempObject] ++ X)).
  { intros l X Hl Hin. apply Hl. apply in_app_or in Hin. apply in_or_app.
    destruct Hin as [Hin | Hin]; [left | now right].
    cbn [Object3D.locs In] in *. tauto. }
  assert (H : wp (TinyBaublesGroup.useFrame tempObject true treeState elapsedTime
                    delta data)
                (fun r w' =>
                   (forall l,
                      ~ In l ([Object3D.position tempObject; Object3D.scale tempObject]
                              ++ concat (map (fun d => [TinyBaublesGroup.currentPos d])
                                             data)) ->
                      deref (heap w') l = deref (heap w) l)
                   /\ exists ms, r = Some ms /\ length ms = length data
                      /\ forall k d m, data !! k = Some d -> ms !! k = Some m ->
                           let target := if isTreeShape treeState
                                         then TinyBaublesGroup.treePos d
                                         else TinyBaublesGroup.scatterPos d in
                           let moved :=
                             Vector3.lerp (deref (heap w) (TinyBaublesGroup.currentPos d))
                               (deref (heap w) target) (JSMath.clamp (delta * 1.5) 0 1) in
                           let cur := if isTreeShape treeState then moved
                                      else Vector3.mk (Vector3.x moved)
                                             (Vector3.y moved
                                              + sin (elapsedTime + INR k) * 0.005)
                                             (Vector3.z moved) in
                           deref (heap w') (TinyBaublesGroup.currentPos d) = cur
                           /\ m = Object3D.mkMatrix cur
                                    (deref (heap w) (Object3D.rotation tempObject))
                                    (deref (heap w) (TinyBaublesGroup.scale d))) w).
  { unfold TinyBaublesGroup.useFrame. cbn [negb]. cbv zeta.
    apply wp_bind. unfold forEach.
    eapply wp_conseq.
    { apply (forEachFrom_local (Object3D.locs tempObject)
               [Object3D.position tempObject; Object3D.scale tempObject]
               TinyBaublesGroup.locs (fun d => [TinyBaublesGroup.currentPos d])
               (TinyBaublesGroup.updateItem tempObject (isTreeShape treeState)
                  elapsedTime (JSMath.clamp (delta * 1.5) 0 1))
               (fun d i pre m post =>
                  let target := if isTreeShape treeState
                                then TinyBaublesGroup.treePos d
                                else TinyBaublesGroup.scatterPos d in
                  let moved := Vector3.lerp (pre (TinyBaublesGroup.currentPos d))
                                 (pre target) (JSMath.clamp (delta * 1.5) 0 1) in
                  let cur := if isTreeShape treeState then moved
                             else Vector3.mk (Vector3.x moved)
                                    (Vector3.y moved
                                     + sin (elapsedTime + INR i) * 0.005)
                                    (Vector3.z moved) in
                  post (TinyBaublesGroup.currentPos d) = cur
                  /\ m = Object3D.mkMatrix cur (pre (Object3D.rotation tempObject))
                           (pre (TinyBaublesGroup.scale d)))).
      - intros l Hl. cbn [Object3D.locs In] in *. tauto.
      - intros d l Hl. cbn [TinyBaublesGroup.locs In] in *. tauto.
      - intros d i pre pre' m post post' Hpre Hpost. cbv zeta.
        rewrite !Hpost by (cbn [TinyBaublesGroup.locs In]; tauto).
        rewrite (Hpre (Object3D.rotation tempObject)).
        + rewrite !Hpre by (left; destruct (isTreeShape treeState);
                            cbn [TinyBaublesGroup.locs In]; tauto).
          tauto.
        + right. split; [cbn [Object3D.locs In]; tauto | exact Hrot].
      - intros d i w0 Hd0. apply bauble_updateItem_spec. exact Hd0.
      - exact Hd. }
    intros ms w' (L & F & Lms & Q). cbv beta. apply wp_ret.
    split; [exact F |].
    exists ms. split; [reflexivity |]. split; [exact Lms |].
    intros k d m Hk Hm. exact (Q k d m Hk Hm). }
  unfold wp in H.
  set (r := TinyBaublesGroup.useFrame tempObject true treeState elapsedTime delta
              data w) in *.
  destruct H as (F & ms & E & Lms & Q).
  assert (Hdyn : forall e, incl [TinyBaublesGroup.currentPos e]
                                (TinyBaublesGroup.locs e)).
  { intros e l Hl. cbn [TinyBaublesGroup.locs In] in *. tauto. }
  split.
  { apply F. intros Hin. apply in_app_or in Hin.
    destruct Hin as [Hin | Hin]; [exact (Hrot Hin) |].
    apply in_concat in Hin. destruct Hin as (ls & Hls & Hl).
    apply in_map_iff in Hls. destruct Hls as (e & <- & He).
    destruct Hd as [Hnd _].
    destruct (NoDup_app_parts _ _ Hnd) as (_ & _ & Hapart).
    apply (Hapart (Object3D.rotation tempObject));
      [cbn [Object3D.locs In]; tauto |].
    eapply in_concat_map; [exact He | now apply Hdyn]. }
  exists ms. split; [exact E |]. split; [exact Lms |].
  intros k d Hk. cbv zeta.
  destruct (lookup_both data ms k d Lms Hk) as [m Hm].
  destruct (Q k d m Hk Hm) as [Qc ->]. cbv zeta in Qc.
  split; [exact Qc |]. split; [| exact Hm].
  apply F, Hsub.
  assert (Hin : In d data)
    by (eapply list_elem_of_In, list_elem_of_lookup_2; eauto).
  apply (distinct_static_kept _ TinyBaublesGroup.locs _ data (heap w) d);
    [exact Hd | exact Hdyn | exact Hin | |].
  - cbn [TinyBaublesGroup.locs In]. tauto.
  - pose proof (distinct_item_NoDup _ _ _ _ d Hd Hin) as Hnd.
    unfold TinyBaublesGroup.locs in *.
    rewrite !List.NoDup_cons_iff in Hnd. cbn [In] in Hnd |- *.
    intuition congruence.
Qed.

Lemma baubles_keep_scratch_rotation_witness :
  let tempObject := Object3D.mk 0%nat 1%nat 2%nat in
  let d := TinyBaublesGroup.mkItem 3%nat 4%nat 5%nat 6%nat 7%nat "#f0f0f0"%string in
  let w := mkWorld (fun _ => 0) 0%nat
             [Vector3.zero; Vector3.mk 0.3 0.2 0; Vector3.zero; Vector3.zero;
              Vector3.zero; Vector3.zero; Vector3.mk 0.5 0.5 0.5;
              Vector3.mk 1 2 0] [] in
  distinctObjects (Object3D.locs tempObject) (map TinyBaublesGroup.locs [d]) (heap w)
  /\ deref (heap (snd (TinyBaublesGroup.useFrame tempObject true TREE_SHAPE 0 0.1
                         [d] w))) 1%nat
     = Vector3.mk 0.3 0.2 0.
Proof.
  intros tempObject d w.
  assert (Hd : distinctObjects (Object3D.locs tempObject)
                 (map TinyBaublesGroup.locs [d]) (heap w)).
  { split.
    - unfold Object3D.locs, TinyBaublesGroup.locs; simpl.
      repeat (apply List.NoDup_cons; [simpl; intuition discriminate |]).
      apply List.NoDup_nil.
    - unfold Object3D.locs, TinyBaublesGroup.locs; simpl. repeat constructor. }
  split; [exact Hd |].
  destruct (baubles_keep_scratch_rotation tempObject TREE_SHAPE 0 0.1 [d] w Hd)
    as [H _].
  exact H.
Defined.

(** ** The star *)

Lemma star_useFrame_spec s treeState elapsedTime delta w :
  distinctObjects (TopStar.locs s) [] (heap w) ->
  wp (TopStar.useFrame s true treeState elapsedTime delta)
     (fun _ w' =>
        let pre := deref (heap w) in
        let post := deref (heap w') in
        let target := if isTreeShape treeState then TopStar.treePos s
                      else TopStar.scatterPos s in
        let moved := Vector3.lerp (pre (TopStar.currentPos s)) (pre target)
                                  (delta * 1.5) in
        let r0 := pre (Object3D.rotation (TopStar.mesh s)) in
        let scale := 1.0 + sin (elapsedTime * 2) * 0.05 in
        length (heap w') = length (heap w)
        /\ (forall l, ~ In l (TopStar.currentPos s :: Object3D.locs (TopStar.mesh s)) ->
              post l = pre l)
        /\ post (TopStar.currentPos s) = moved
        /\ post (Object3D.position (TopStar.mesh s)) = moved
        /\ post (Object3D.rotation (TopStar.mesh s))
           = (if isTreeShape treeState
              then Vector3.mk 0 (Vector3.y r0 + delta * 0.2) 0
              else Vector3.mk (Vector3.x r0) (Vector3.y r0 + delta)
                              (Vector3.z r0 + delta))
        /\ post (Object3D.scale (TopStar.mesh s)) = Vector3.mk scale scale scale) w.
Proof.
  intros Hd. split_distinct Hd.
  set (tree := TopStar.treePos s) in *.
  set (scatter := TopStar.scatterPos s) in *.
  set (cur := TopStar.currentPos s) in *.
  set (p := Object3D.position (TopStar.mesh s)) in *.
  set (r := Object3D.rotation (TopStar.mesh s)) in *.
  set (sc := Object3D.scale (TopStar.mesh s)) in *.
  unfold TopStar.useFrame. cbn [negb]. cbv zeta. fold tree scatter cur p r sc.
  wp_step w1 L1 Q1 N1. wp_step w2 L2 Q2 N2.
  destruct (isTreeShape treeState).
  - apply wp_bind. wp_step w3 L3 Q3 N3. wp_step w4 L4 Q4 N4. wp_step w5 L5 Q5 N5.
    wp_step w6 L6 Q6 N6.
    split; [congruence |]. split.
    { intros l Hl. cbn [Object3D.locs In] in Hl. fold p r sc in Hl.
      rewrite (N6 l), (N5 l), (N4 l), (N3 l), (N2 l), (N1 l) by tauto.
      reflexivity. }
    chase. cbn [Vector3.x Vector3.y Vector3.z]. repeat split; reflexivity.
  - apply wp_bind. wp_step w3 L3 Q3 N3. wp_step w4 L4 Q4 N4.
    wp_step w6 L6 Q6 N6.
    split; [congruence |]. split.
    { intros l Hl. cbn [Object3D.locs In] in Hl. fold p r sc in Hl.
      rewrite (N6 l), (N4 l), (N3 l), (N2 l), (N1 l) by tauto.
      reflexivity. }
    chase. cbn [Vector3.x Vector3.y Vector3.z]. repeat split; reflexivity.
Qed.

(** X22. [TopStar.useFrame], the objects of the star being distinct: the
    current position moves to [lerp(start, target, delta * 1.5)], the mesh
    position is set to it and the target is unchanged. The factor is not
    clamped: the distance to the target is multiplied by
    [|1 - 1.5 * delta|], so it does not grow for [0 <= delta <= 4/3] and
    does not shrink for [delta >= 4/3] (a frame longer than 4/3 s throws
    the star beyond its target by more than it was away). *)
Theorem star_lerp_unclamped (s : TopStar.State) (treeState : TreeState)
    (elapsedTime delta : R) (w : World) :
  distinctObjects (TopStar.locs s) [] (heap w) ->
  let w' := snd (TopStar.useFrame s true treeState elapsedTime delta w) in
  let targetPos := if isTreeShape treeState then TopStar.treePos s
                   else TopStar.scatterPos s in
  let target := deref (heap w) targetPos in
  let start := deref (heap w) (TopStar.currentPos s) in
  let final := deref (heap w') (TopStar.currentPos s) in
  final = Vector3.lerp start target (delta * 1.5)
  /\ deref (heap w') (Object3D.position (TopStar.mesh s)) = final
  /\ deref (heap w') targetPos = target
  /\ Vector3.distanceTo final target
     = Rabs (1 - delta * 1.5) * Vector3.distanceTo start target
  /\ (0 <= delta <= 4 / 3 ->
      Vector3.distanceTo final target <= Vector3.distanceTo start target)
  /\ (4 / 3 <= delta ->
      Vector3.distanceTo start target <= Vector3.distanceTo final target).
Proof.
  intros Hd. cbv zeta.
  pose proof (star_useFrame_spec s treeState elapsedTime delta w Hd) as H.
  unfold wp in H. cbv zeta in H.
  set (r := TopStar.useFrame s true treeState elapsedTime delta w) in *.
  destruct H as (L & F & Hc & Hp & _).
  assert (Ht : deref (heap (snd r))
                 (if isTreeShape treeState then TopStar.treePos s
                  else TopStar.scatterPos s)
               = deref (heap w)
                   (if isTreeShape treeState then TopStar.treePos s
                    else TopStar.scatterPos s)).
  { apply F. destruct Hd as [Hnd _]. cbn [concat] in Hnd.
    rewrite app_nil_r in Hnd. unfold TopStar.locs, Object3D.locs in Hnd.
    cbn [app] in Hnd. rewrite !List.NoDup_cons_iff in Hnd.
    cbn [In] in Hnd. cbn [Object3D.locs In].
    destruct (isTreeShape treeState); intuition congruence. }
  split; [exact Hc |]. split; [congruence |]. split; [exact Ht |].
  rewrite Hc, distanceTo_lerp_toward.
  set (dist := Vector3.distanceTo _ _).
  assert (Hdist : 0 <= dist) by (unfold dist, Vector3.distanceTo; apply sqrt_pos).
  split; [reflexivity |]. split; intros Hdelta.
  - assert (Rabs (1 - delta * 1.5) <= 1) by (apply Rabs_le; lra). nra.
  - assert (1 <= Rabs (1 - delta * 1.5)).
    { rewrite <- Rabs_Ropp. rewrite Rabs_right; lra. }
    nra.
Qed.

Lemma star_lerp_unclamped_witness :
  let s := TopStar.mkState 0%nat 1%nat 2%nat (Object3D.mk 3%nat 4%nat 5%nat) in
  let w := mkWorld (fun _ => 0) 0%nat
             [Vector3.mk 0 5.6 0; Vector3.mk 3 0 4; Vector3.mk 3 0 4;
              Vector3.zero; Vector3.zero; Vector3.mk 1 1 1] [] in
  distinctObjects (TopStar.locs s) [] (heap w)
  /\ deref (heap (snd (TopStar.useFrame s true TREE_SHAPE 0 2 w))) 2%nat
     = Vector3.lerp (Vector3.mk 3 0 4) (Vector3.mk 0 5.6 0) (2 * 1.5).
Proof.
  intros s w.
  assert (Hd : distinctObjects (TopStar.locs s) [] (heap w)).
  { split.
    - unfold TopStar.locs, Object3D.locs; simpl.
      repeat (apply List.NoDup_cons; [simpl; intuition discriminate |]).
      apply List.NoDup_nil.
    - unfold TopStar.locs, Object3D.locs; simpl. repeat constructor. }
  split; [exact Hd |].
  destruct (star_lerp_unclamped s TREE_SHAPE 0 2 w Hd) as [H _].
  exact H.
Defined.

(** X23. [TopStar.useFrame], the objects of the star being distinct: in the
    tree shape the rotation of the mesh becomes (0, y + 0.2 * delta, 0), in
    the scattered state (x, y + delta, z + delta); the scale is uniform,
    between 0.95 and 1.05; the tree and scatter positions are unchanged;
    and when the mesh is not mounted the callback does nothing. *)
Theorem star_rotation_and_pulse (s : TopStar.State) (treeState : TreeState)
    (elapsedTime delta : R) (w : World) :
  distinctObjects (TopStar.locs s) [] (heap w) ->
  let w' := snd (TopStar.useFrame s true treeState elapsedTime delta w) in
  let r0 := deref (heap w) (Object3D.rotation (TopStar.mesh s)) in
  let r1 := deref (heap w') (Object3D.rotation (TopStar.mesh s)) in
  (treeState = TREE_SHAPE ->
   r1 = Vector3.mk 0 (Vector3.y r0 + delta * 0.2) 0)
  /\ (treeState = SCATTERED ->
      r1 = Vector3.mk (Vector3.x r0) (Vector3.y r0 + delta) (Vector3.z r0 + delta))
  /\ (exists k, 0.95 <= k <= 1.05
        /\ deref (heap w') (Object3D.scale (TopStar.mesh s)) = Vector3.mk k k k)
  /\ deref (heap w') (TopStar.treePos s) = deref (heap w) (TopStar.treePos s)
  /\ deref (heap w') (TopStar.scatterPos s) = deref (heap w) (TopStar.scatterPos s)
  /\ TopStar.useFrame s false treeState elapsedTime delta w = (tt, w).
Proof.
  intros Hd. cbv zeta.
  pose proof (star_useFrame_spec s treeState elapsedTime delta w Hd) as H.
  unfold wp in H. cbv zeta in H.
  set (r := TopStar.useFrame s true treeState elapsedTime delta w) in *.
  destruct H as (L & F & _ & _ & Hr & Hs).
  assert (Hnd : List.NoDup (TopStar.locs s)).
  { destruct Hd as [Hnd _]. cbn [concat] in Hnd. now rewrite app_nil_r in Hnd. }
  unfold TopStar.locs, Object3D.locs in Hnd. cbn [app] in Hnd.
  rewrite !List.NoDup_cons_iff in Hnd. cbn [In] in Hnd.
  split; [intros ->; exact Hr |]. split; [intros ->; exact Hr |].
  split.
  { exists (1.0 + sin (elapsedTime * 2) * 0.05). split; [| exact Hs].
    pose proof (SIN_bound (elapsedTime * 2)). lra. }
  split; [apply F; cbn [Object3D.locs In]; intuition congruence |].
  split; [apply F; cbn [Object3D.locs In]; intuition congruence |].
  reflexivity.
Qed.

Lemma star_rotation_and_pulse_witness :
  let s := TopStar.mkState 0%nat 1%nat 2%nat (Object3D.mk 3%nat 4%nat 5%nat) in
  let w := mkWorld (fun _ => 0) 0%nat
             [Vector3.mk 0 5.6 0; Vector3.mk 3 0 4; Vector3.mk 3 0 4;
              Vector3.zero; Vector3.mk 0.4 1 0.7; Vector3.mk 1 1 1] [] in
  distinctObjects (TopStar.locs s) [] (heap w)
  /\ deref (heap (snd (TopStar.useFrame s true TREE_SHAPE 0 0.5 w))) 4%nat
     = Vector3.mk 0 (1 + 0.5 * 0.2) 0.
Proof.
  intros s w.
  assert (Hd : distinctObjects (TopStar.locs s) [] (heap w)).
  { split.
    - unfold TopStar.locs, Object3D.locs; simpl.
      repeat (apply List.NoDup_cons; [simpl; intuition discriminate |]).
      apply List.NoDup_nil.
    - unfold TopStar.locs, Object3D.locs; simpl. repeat constructor. }
  split; [exact Hd |].
  destruct (star_rotation_and_pulse s TREE_SHAPE 0 0.5 w Hd) as [H _].
  exact (H eq_refl).
Defined.

(** X24. The outline of the star: ten vertices; vertex [i] is at the angle
    [i * PI / 5] from the y axis, at distance 0.45 from the centre when [i]
    is even (a tip) and 0.18 when [i] is odd (a notch). *)
Theorem star_outline_alternates :
  length TopStar.outline = 10%nat
  /\ forall i p, TopStar.outline !! i = Some p ->
       let radius := if (i mod 2 =? 0)%nat then 0.45 else 0.18 in
       fst p = sin (INR i * PI / 5) * radius
       /\ snd p = cos (INR i * PI / 5) * radius
       /\ fst p * fst p + snd p * snd p = radius * radius.
Proof.
  split; [reflexivity |].
  intros i p Hp.
  assert (Hv : i = 0%nat /\ p = (0, 0.45) \/ p = TopStar.vertex i).
  { destruct i as [| i].
    - left. split; [reflexivity |].
      cbn in Hp. unfold TopStar.outerRadius in Hp. congruence.
    - right. unfold TopStar.outline in Hp.
      change ((TopStar.vertex <$> seq 1 (TopStar.points * 2 - 1)) !! i = Some p)
        in Hp.
      rewrite list_lookup_fmap in Hp.
      destruct (seq 1 (TopStar.points * 2 - 1) !! i) as [j |] eqn:Ej;
        [| discriminate].
      apply lookup_seq in Ej. destruct Ej as [-> _].
      cbn [fmap option_fmap option_map] in Hp. injection Hp as <-.
      reflexivity. }
  cbv zeta.
  assert (Hcircle : forall a r, (sin a * r) * (sin a * r) + (cos a * r) * (cos a * r)
                                = r * r).
  { intros a r. pose proof (sin2_cos2 a) as H. unfold Rsqr in H.
    replace (sin a * r * (sin a * r) + cos a * r * (cos a * r))
      with (r * r * (sin a * sin a + cos a * cos a)) by ring.
    rewrite H. ring. }
  destruct Hv as [[-> ->] | ->].
  - change (0 mod 2 =? 0)%nat with true. cbn [fst snd INR]. unfold Rdiv.
    rewrite !Rmult_0_l, sin_0, cos_0. repeat split; lra.
  - unfold TopStar.vertex. cbv zeta. cbn [fst snd].
    replace (INR TopStar.points) with 5 by (unfold TopStar.points; simpl; lra).
    unfold TopStar.outerRadius, TopStar.innerRadius.
    split; [reflexivity |]. split; [reflexivity |]. apply Hcircle.
Qed.

(** ** Colours of the gift boxes *)

Lemma Rleb_true a b : Rleb a b = true <-> a <= b.
Proof. unfold Rleb. destruct (Rle_dec a b); split; intros; auto; discriminate. Qed.

Lemma Rleb_false a b : Rleb a b = false <-> b < a.
Proof.
  unfold Rleb. destruct (Rle_dec a b); split; intros; auto; try discriminate; lra.
Qed.

Lemma pickColor_run_value w :
  GiftBoxGroup.pickColor w
  = (match GiftBoxGroup.pickFrom (randoms w (cursor w)) 0 GiftBoxGroup.boxPalette with
     | Some p => p
     | None => GiftBoxGroup.burgundy
     end,
     mkWorld (randoms w) (S (cursor w)) (heap w) (sphereCalls w)).
Proof. reflexivity. Qed.

Lemma pickFrom_palette r :
  let choice := match GiftBoxGroup.pickFrom r 0 GiftBoxGroup.boxPalette with
                | Some p => p
                | None => GiftBoxGroup.burgundy
                end in
  (r <= 0.31 -> choice = GiftBoxGroup.Palette.mk "#7a1f1f" "burgundy" 0.31)
  /\ (0.31 < r <= 0.62 -> choice = GiftBoxGroup.Palette.mk "#f2e8d5" "cream" 0.31)
  /\ (0.62 < r <= 0.94 -> choice = GiftBoxGroup.Palette.mk "#0f3b26" "emerald" 0.32)
  /\ (0.94 < r <= 1 -> choice = GiftBoxGroup.Palette.mk "#d4af37" "gold" 0.06)
  /\ (1 < r -> choice = GiftBoxGroup.Palette.mk "#7a1f1f" "burgundy" 0.31)
  /\ In choice GiftBoxGroup.boxPalette.
Proof.
  cbv zeta. unfold GiftBoxGroup.boxPalette, GiftBoxGroup.burgundy.
  cbn [GiftBoxGroup.pickFrom GiftBoxGroup.Palette.weight].
  destruct (Rleb r (0 + 0.31)) eqn:E1.
  { apply Rleb_true in E1. repeat split; intros; try lra; try reflexivity.
    cbn [In]. tauto. }
  apply Rleb_false in E1.
  destruct (Rleb r (0 + 0.31 + 0.31)) eqn:E2.
  { apply Rleb_true in E2. repeat split; intros; try lra; try reflexivity.
    cbn [In]. tauto. }
  apply Rleb_false in E2.
  destruct (Rleb r (0 + 0.31 + 0.31 + 0.32)) eqn:E3.
  { apply Rleb_true in E3. repeat split; intros; try lra; try reflexivity.
    cbn [In]. tauto. }
  apply Rleb_false in E3.
  destruct (Rleb r (0 + 0.31 + 0.31 + 0.32 + 0.06)) eqn:E4.
  { apply Rleb_true in E4. repeat split; intros; try lra; try reflexivity.
    cbn [In]. tauto. }
  apply Rleb_false in E4. repeat split; intros; try lra; try reflexivity.
  cbn [In]. tauto.
Qed.

(** X25. [pickColor] of [GiftBoxGroup] draws one value [r]: it picks
    burgundy for [r <= 0.31], cream up to 0.62, emerald up to 0.94, gold up
    to 1; the fallback after the loop is reached only for [r > 1], which
    [Math.random()] does not return. Whatever is drawn the choice is in
    the palette, the ribbon colour differs from the colour of the box, and
    the default ribbon colour "#8b0000" is never used. *)
Theorem pickColor_thresholds (w : World) :
  let r := randoms w (cursor w) in
  let choice := fst (GiftBoxGroup.pickColor w) in
  let name := GiftBoxGroup.Palette.name choice in
  (r <= 0.31 -> name = "burgundy"%string)
  /\ (0.31 < r <= 0.62 -> name = "cream"%string)
  /\ (0.62 < r <= 0.94 -> name = "emerald"%string)
  /\ (0.94 < r <= 1 -> name = "gold"%string)
  /\ (1 < r -> choice = GiftBoxGroup.burgundy)
  /\ In choice GiftBoxGroup.boxPalette
  /\ GiftBoxGroup.ribbonColorFor name <> GiftBoxGroup.Palette.color choice
  /\ GiftBoxGroup.ribbonColorFor name <> "#8b0000"%string
  /\ cursor (snd (GiftBoxGroup.pickColor w)) = S (cursor w).
Proof.
  cbv zeta. rewrite pickColor_run_value. cbn [fst snd cursor].
  destruct (pickFrom_palette (randoms w (cursor w)))
    as (H1 & H2 & H3 & H4 & H5 & Hin).
  cbv zeta in *.
  set (choice := match GiftBoxGroup.pickFrom _ _ _ with
                 | Some p => p | None => GiftBoxGroup.burgundy end) in *.
  split; [intros H; now rewrite (H1 H) |].
  split; [intros H; now rewrite (H2 H) |].
  split; [intros H; now rewrite (H3 H) |].
  split; [intros H; now rewrite (H4 H) |].
  split; [exact H5 |]. split; [exact Hin |].
  split; [| split; [| reflexivity]];
    unfold GiftBoxGroup.boxPalette, GiftBoxGroup.burgundy in Hin;
    cbn [In] in Hin;
    destruct Hin as [<- | [<- | [<- | [<- | []]]]]; discriminate.
Qed.

Lemma grows_deref w w' l :
  grows w w' -> (l < length (heap w))%nat ->
  deref (heap w') l = deref (heap w) l.
Proof. intros [_ [hs ->]] Hl. now apply deref_app_l. Qed.

Lemma gift_buildItem_attrs items w d p w' :
  GiftBoxGroup.buildItem items w = ((d, p), w') ->
  giftBuilt (randoms w) (heap w') d.
Proof.
  intros H. unfold giftBuilt. unfold GiftBoxGroup.buildItem in H.
  rewrite bind_run, getGiftBoxPoint_run in H. cbn [fst snd] in H.
  rewrite bind_run in H.
  destruct (GiftBoxGroup.placeScatter items _) as [[sPos p1] w2] eqn:Eplace in H.
  cbn [fst snd] in H.
  apply placeScatter_spec in Eplace.
  destruct Eplace as (G & Hrange & _).
  cbn [heap randoms sphereCalls] in Hrange.
  assert (R2 : randoms w2 = randoms w) by (destruct G as [R _]; exact R).
  rewrite bind_run in H. cbn [random fst snd] in H.
  rewrite bind_run, pickColor_run_value in H.
  cbn [fst snd randoms cursor heap sphereCalls] in H.
  rewrite !bind_run in H.
  cbn [clone bind get new random ret fst snd randoms cursor heap sphereCalls] in H.
  injection H as <- <- <-.
  cbn [GiftBoxGroup.scale GiftBoxGroup.rotation GiftBoxGroup.rotationSpeed
       GiftBoxGroup.color GiftBoxGroup.ribbonColor GiftBoxGroup.currentPos
       GiftBoxGroup.scatterPos heap].
  rewrite R2.
  exists (randoms w (cursor w2)), (randoms w (S (S (cursor w2)))),
         (randoms w (S (S (S (cursor w2))))),
         (randoms w (S (S (S (S (cursor w2)))))),
         (randoms w (S (cursor w2))).
  repeat (split; [eexists; reflexivity |]).
  split.
  { rewrite deref_app_l by (rewrite !length_app; simpl; lia). apply deref_snoc. }
  split; [apply deref_snoc |].
  split; [reflexivity |]. split; [split; reflexivity |].
  rewrite (deref_app_l _ _ (length (heap w2)))
    by (rewrite !length_app; simpl; lia).
  rewrite (deref_app_l _ _ (length (heap w2)))
    by (rewrite !length_app; simpl; lia).
  rewrite deref_snoc.
  rewrite !deref_app_l by (rewrite ?length_app; simpl; lia).
  reflexivity.
Qed.

(** ** Fresh objects *)

Lemma freshObjects_nil lo hi : freshObjects lo hi [].
Proof. split; [apply List.NoDup_nil | constructor]. Qed.

Lemma freshObjects_weaken lo hi lo' hi' ls :
  freshObjects lo hi ls -> (lo' <= lo)%nat -> (hi <= hi')%nat ->
  freshObjects lo' hi' ls.
Proof.
  intros [Hnd Hr] Hlo Hhi. split; [exact Hnd |].
  rewrite List.Forall_forall in *. intros l Hl.
  eapply inRange_weaken; eauto.
Qed.

Lemma in_concat_range lo hi (ls : list (list loc)) l :
  Forall (inRange lo hi) ls -> In l (concat ls) -> (lo <= l < hi)%nat.
Proof.
  intros Hr Hl. apply in_concat in Hl. destruct Hl as (x & Hx & Hl).
  rewrite List.Forall_forall in Hr. specialize (Hr x Hx).
  unfold inRange in Hr. rewrite List.Forall_forall in Hr. now apply Hr.
Qed.

Lemma freshObjects_app lo mid hi old new :
  freshObjects lo mid old -> freshObjects mid hi new -> (lo <= mid <= hi)%nat ->
  freshObjects lo hi (old ++ new).
Proof.
  intros [Hnd1 Hr1] [Hnd2 Hr2] Hm. split.
  - rewrite concat_app. apply NoDup_app_intro; [exact Hnd1 | exact Hnd2 |].
    intros l H1 H2.
    pose proof (in_concat_range _ _ _ _ Hr1 H1).
    pose proof (in_concat_range _ _ _ _ Hr2 H2). lia.
  - apply Forall_app. split.
    + destruct (freshObjects_weaken lo mid lo hi old (conj Hnd1 Hr1)) as [_ H];
        [lia | lia | exact H].
    + destruct (freshObjects_weaken mid hi lo hi new (conj Hnd2 Hr2)) as [_ H];
        [lia | lia | exact H].
Qed.

Lemma freshObjects_one lo hi ls :
  List.NoDup ls -> Forall (fun l => (lo <= l < hi)%nat) ls -> freshObjects lo hi [ls].
Proof.
  intros Hnd Hr. split; [cbn [concat]; now rewrite app_nil_r |].
  constructor; [exact Hr | constructor].
Qed.

Lemma freshObjects_distinct T lo hi ls (h : list vec3) :
  List.NoDup T -> Forall (fun l => (l < lo)%nat) T -> freshObjects lo hi ls ->
  (lo <= hi <= length h)%nat -> distinctObjects T ls h.
Proof.
  intros HT Hlo [Hnd Hr] Hhi. rewrite List.Forall_forall in Hlo. split.
  - apply NoDup_app_intro; [exact HT | exact Hnd |].
    intros l H1 H2. specialize (Hlo l H1).
    pose proof (in_concat_range _ _ _ _ Hr H2). lia.
  - apply Forall_app. split; apply List.Forall_forall; intros l Hl.
    + specialize (Hlo l Hl). lia.
    + pose proof (in_concat_range _ _ _ _ Hr Hl). lia.
Qed.

Lemma giftBuilt_grows rnd h hs d :
  giftBuilt rnd h d ->
  Forall (fun l => (l < length h)%nat) (GiftBoxGroup.locs d) ->
  giftBuilt rnd (h ++ hs) d.
Proof.
  intros H Hr. unfold GiftBoxGroup.locs in Hr.
  rewrite !List.Forall_cons_iff in Hr.
  destruct Hr as (_ & Hs & Hc & Hsc & Hrot & _).
  unfold giftBuilt in *. rewrite !deref_app_l by assumption. exact H.
Qed.

Lemma gift_buildLoop_full base n : forall items log w items' log' w',
  GiftBoxGroup.buildLoop n items log w = ((items', log'), w') ->
  (base <= length (heap w))%nat ->
  freshObjects base (length (heap w)) (map GiftBoxGroup.locs items) ->
  Forall (giftBuilt (randoms w) (heap w)) items ->
  grows w w'
  /\ freshObjects base (length (heap w')) (map GiftBoxGroup.locs items')
  /\ Forall (giftBuilt (randoms w) (heap w')) items'
  /\ length items' = (length items + n)%nat.
Proof.
  induction n as [| n IH]; intros items log w items' log' w' H Hbase Hfresh Hbuilt.
  - simpl in H. injection H as <- <- <-.
    split; [apply grows_refl |]. split; [exact Hfresh |].
    split; [exact Hbuilt | lia].
  - cbn [GiftBoxGroup.buildLoop] in H. rewrite bind_run in H.
    destruct (GiftBoxGroup.buildItem items w) as [[d p] w1] eqn:Eitem.
    cbn [fst snd] in H.
    assert (Hold : forall e l, In e items -> In l (GiftBoxGroup.locs e) ->
                     (l < length (heap w))%nat).
    { intros e l He Hl.
      assert (Hc : In l (concat (map GiftBoxGroup.locs items)))
        by (eapply in_concat_map; eauto).
      destruct Hfresh as [_ Hr].
      pose proof (in_concat_range _ _ _ _ Hr Hc). lia. }
    pose proof (gift_buildItem_attrs _ _ _ _ _ Eitem) as Hattrs.
    apply gift_buildItem_spec in Eitem.
    2:{ intros e He. apply (Hold e); [exact He |].
        cbn [GiftBoxGroup.locs In]. tauto. }
    destruct Eitem as (G & Hnd & Hr & _).
    pose proof (grows_length _ _ G) as Hlen1.
    assert (R1 : randoms w1 = randoms w) by (destruct G; assumption).
    apply IH in H.
    + destruct H as (G' & Hfresh' & Hbuilt' & Hlen').
      split; [eapply grows_trans; eassumption |].
      split; [exact Hfresh' |].
      split; [rewrite <- R1; exact Hbuilt' |].
      rewrite Hlen', length_app. simpl. lia.
    + lia.
    + rewrite map_app. cbn [map].
      apply freshObjects_app with (mid := length (heap w));
        [exact Hfresh | now apply freshObjects_one | lia].
    + rewrite R1. apply Forall_app. split; [| constructor; [exact Hattrs | constructor]].
      destruct G as [_ [hs ->]].
      apply List.Forall_forall. intros e He.
      apply giftBuilt_grows.
      * rewrite List.Forall_forall in Hbuilt. now apply Hbuilt.
      * apply List.Forall_forall. intros l Hl. exact (Hold e l He Hl).
Qed.

(** ** What the constructions allocate *)

Lemma getTinyBaublePoint_run height baseRadius yOffset w :
  Sampler.getTinyBaublePoint height baseRadius yOffset w
  = (length (heap w),
     mkWorld (randoms w) (S (S (S (cursor w))))
             (heap w ++ [Sampler.tinyBaublePoint height baseRadius yOffset
                           (randoms w (cursor w)) (randoms w (S (cursor w)))
                           (randoms w (S (S (cursor w))))])
             (sphereCalls w)).
Proof. reflexivity. Qed.

Lemma allocOne_getTinyBaublePoint height baseRadius yOffset :
  allocOne (Sampler.getTinyBaublePoint height baseRadius yOffset).
Proof.
  intros w. rewrite getTinyBaublePoint_run. cbn [fst snd heap randoms]. eauto.
Qed.

Ltac wp_alloc_with lemma w1 :=
  apply wp_bind; apply wp_alloc; [apply lemma | intros w1 ? ?; cbv beta zeta].

Lemma ornament_buildItem_fresh scaleMultiplier spiralPhase w :
  wp (OrnamentGroup.buildItem scaleMultiplier spiralPhase)
     (fun d w' =>
        grows w w'
        /\ length (heap w') = (length (heap w) + 5)%nat
        /\ freshObjects (length (heap w)) (length (heap w'))
             [OrnamentGroup.locs d]) w.
Proof.
  unfold OrnamentGroup.buildItem.
  wp_alloc_step w1. wp_alloc_step w2. wp_random_step s w3.
  wp_alloc_step w4. wp_alloc_step w5. wp_random_step rx w6.
  wp_random_step ry w7. wp_alloc_step w8. wp_random_step rs w9.
  apply wp_ret. split.
  { repeat (eapply grows_trans; [eassumption |]). apply grows_refl. }
  split; [lia |].
  apply freshObjects_one; unfold OrnamentGroup.locs;
    cbn [OrnamentGroup.treePos OrnamentGroup.scatterPos OrnamentGroup.currentPos
         OrnamentGroup.scale OrnamentGroup.rotation].
  - repeat (apply List.NoDup_cons; [cbn [In]; intuition lia |]).
    apply List.NoDup_nil.
  - repeat constructor; lia.
Qed.

Lemma ornament_data_fresh scaleMultiplier spiralPhase count : forall w,
  wp (OrnamentGroup.data count scaleMultiplier spiralPhase)
     (fun items w' =>
        grows w w'
        /\ length items = count
        /\ length (heap w') = (length (heap w) + 5 * count)%nat
        /\ freshObjects (length (heap w)) (length (heap w'))
             (map OrnamentGroup.locs items)) w.
Proof.
  induction count as [| n IH]; intros w; cbn [OrnamentGroup.data].
  - apply wp_ret. split; [apply grows_refl |]. split; [reflexivity |].
    split; [lia | apply freshObjects_nil].
  - apply wp_bind. eapply wp_conseq; [apply ornament_buildItem_fresh |].
    intros d w1 (G1 & L1 & F1). cbv beta.
    apply wp_bind. eapply wp_conseq; [apply IH |].
    intros rest w2 (G2 & Hlen & L2 & F2). cbv beta. apply wp_ret.
    split; [eapply grows_trans; eassumption |].
    split; [simpl; lia |]. split; [lia |].
    change (map OrnamentGroup.locs (d :: rest))
      with ([OrnamentGroup.locs d] ++ map OrnamentGroup.locs rest).
    apply freshObjects_app with (mid := length (heap w1)); [exact F1 | exact F2 | lia].
Qed.

Lemma bauble_buildItem_fresh w :
  wp TinyBaublesGroup.buildItem
     (fun d w' =>
        grows w w'
        /\ length (heap w') = (length (heap w) + 5)%nat
        /\ freshObjects (length (heap w)) (length (heap w'))
             [TinyBaublesGroup.locs d]) w.
Proof.
  unfold TinyBaublesGroup.buildItem.
  wp_alloc_with allocOne_getTinyBaublePoint w1.
  wp_alloc_step w2. wp_random_step c w3. cbv zeta.
  wp_alloc_step w4. wp_alloc_step w5. wp_random_step rx w6.
  wp_random_step ry w7. wp_alloc_step w8.
  apply wp_ret. split.
  { repeat (eapply grows_trans; [eassumption |]). apply grows_refl. }
  split; [lia |].
  apply freshObjects_one; unfold TinyBaublesGroup.locs;
    cbn [TinyBaublesGroup.treePos TinyBaublesGroup.scatterPos
         TinyBaublesGroup.currentPos TinyBaublesGroup.scale
         TinyBaublesGroup.rotation].
  - repeat (apply List.NoDup_cons; [cbn [In]; intuition lia |]).
    apply List.NoDup_nil.
  - repeat constructor; lia.
Qed.

Lemma bauble_data_fresh count : forall w,
  wp (TinyBaublesGroup.data count)
     (fun items w' =>
        grows w w'
        /\ length items = count
        /\ length (heap w') = (length (heap w) + 5 * count)%nat
        /\ freshObjects (length (heap w)) (length (heap w'))
             (map TinyBaublesGroup.locs items)) w.
Proof.
  induction count as [| n IH]; intros w; cbn [TinyBaublesGroup.data].
  - apply wp_ret. split; [apply grows_refl |]. split; [reflexivity |].
    split; [lia | apply freshObjects_nil].
  - apply wp_bind. eapply wp_conseq; [apply bauble_buildItem_fresh |].
    intros d w1 (G1 & L1 & F1). cbv beta.
    apply wp_bind. eapply wp_conseq; [apply IH |].
    intros rest w2 (G2 & Hlen & L2 & F2). cbv beta. apply wp_ret.
    split; [eapply grows_trans; eassumption |].
    split; [simpl; lia |]. split; [lia |].
    change (map TinyBaublesGroup.locs (d :: rest))
      with ([TinyBaublesGroup.locs d] ++ map TinyBaublesGroup.locs rest).
    apply freshObjects_app with (mid := length (heap w1)); [exact F1 | exact F2 | lia].
Qed.

Lemma gift_data_full count w :
  let r := GiftBoxGroup.data count w in
  grows w (snd r)
  /\ length (fst r) = count
  /\ freshObjects (length (heap w)) (length (heap (snd r)))
       (map GiftBoxGroup.locs (fst r))
  /\ Forall (giftBuilt (randoms w) (heap (snd r))) (fst r).
Proof.
  cbv zeta. unfold GiftBoxGroup.data, GiftBoxGroup.build.
  rewrite bind_run. cbn [ret fst snd].
  destruct (GiftBoxGroup.buildLoop count [] [] w) as [[items log] w'] eqn:E.
  cbn [fst snd].
  apply (gift_buildLoop_full (length (heap w))) in E;
    [| lia | apply freshObjects_nil | constructor].
  destruct E as (G & F & B & L). simpl in L. auto.
Qed.

(** X26. The items built by [GiftBoxGroup], [OrnamentGroup] and
    [TinyBaublesGroup] for [count] items: each list has [count] items;
    all the vectors an item refers to (tree, scatter and current position,
    scale, rotation) are objects allocated during the construction,
    pairwise distinct within and across items, and distinct from every
    object that existed before (such as the shared scratch object); the
    ornaments and the baubles allocate exactly [5 * count] objects. *)
Theorem groups_allocate_fresh_objects (count : nat)
    (scaleMultiplier spiralPhase : R) (T : list loc) (w : World) :
  List.NoDup T -> Forall (fun l => (l < length (heap w))%nat) T ->
  let g := GiftBoxGroup.data count w in
  let o := OrnamentGroup.data count scaleMultiplier spiralPhase w in
  let b := TinyBaublesGroup.data count w in
  (length (fst g) = count
   /\ freshObjects (length (heap w)) (length (heap (snd g)))
        (map GiftBoxGroup.locs (fst g))
   /\ distinctObjects T (map GiftBoxGroup.locs (fst g)) (heap (snd g)))
  /\ (length (fst o) = count
      /\ length (heap (snd o)) = (length (heap w) + 5 * count)%nat
      /\ freshObjects (length (heap w)) (length (heap (snd o)))
           (map OrnamentGroup.locs (fst o))
      /\ distinctObjects T (map OrnamentGroup.locs (fst o)) (heap (snd o)))
  /\ (length (fst b) = count
      /\ length (heap (snd b)) = (length (heap w) + 5 * count)%nat
      /\ freshObjects (length (heap w)) (length (heap (snd b)))
           (map TinyBaublesGroup.locs (fst b))
      /\ distinctObjects T (map TinyBaublesGroup.locs (fst b)) (heap (snd b))).
Proof.
  intros HT Hr. cbv zeta.
  destruct (gift_data_full count w) as (Gg & Lg & Fg & _).
  pose proof (ornament_data_fresh scaleMultiplier spiralPhase count w) as Ho.
  pose proof (bauble_data_fresh count w) as Hb.
  unfold wp in Ho, Hb.
  destruct Ho as (Go & Lo & Ho & Fo). destruct Hb as (Gb & Lb & Hb & Fb).
  pose proof (grows_length _ _ Gg).
  split; [| split].
  - split; [exact Lg |]. split; [exact Fg |].
    eapply freshObjects_distinct; eauto; lia.
  - split; [exact Lo |]. split; [exact Ho |]. split; [exact Fo |].
    eapply freshObjects_distinct; eauto; lia.
  - split; [exact Lb |]. split; [exact Hb |]. split; [exact Fb |].
    eapply freshObjects_distinct; eauto; lia.
Qed.

Lemma groups_allocate_fresh_objects_witness :
  let w := mkWorld (fun _ => 0.5) 0%nat
             [Vector3.zero; Vector3.zero; Vector3.mk 1 1 1] [] in
  let T := [0%nat; 1%nat; 2%nat] in
  List.NoDup T /\ Forall (fun l => (l < length (heap w))%nat) T
  /\ distinctObjects T (map OrnamentGroup.locs (fst (OrnamentGroup.data 2 0.9 0 w)))
       (heap (snd (OrnamentGroup.data 2 0.9 0 w))).
Proof.
  intros w T.
  assert (HT : List.NoDup T).
  { repeat (apply List.NoDup_cons; [simpl; intuition discriminate |]).
    apply List.NoDup_nil. }
  assert (Hr : Forall (fun l => (l < length (heap w))%nat) T)
    by (repeat constructor).
  destruct (groups_allocate_fresh_objects 2 0.9 0 T w HT Hr)
    as (_ & (_ & _ & _ & H) & _).
  split; [exact HT |]. split; [exact Hr | exact H].
Defined.

(** X27. The items built by [GiftBoxGroup], for values of [Math.random()] in
    [0,1): every item has a uniform scale in [0.6, 1), a rotation
    (rx, ry, 0) with rx and ry in [0, PI), a rotation speed in
    [-0.01, 0.01), one of the four pairs of box and ribbon colour
    (burgundy with gold, cream with burgundy, emerald with gold, gold with
    burgundy), and a current position equal in value to its scatter
    position but held in another object. *)
Theorem gift_items_attributes (count : nat) (w : World) :
  (forall n, 0 <= randoms w n < 1) ->
  let r := GiftBoxGroup.data count w in
  let h := heap (snd r) in
  Forall (fun d =>
    (exists s, 0.6 <= s < 1 /\ deref h (GiftBoxGroup.scale d) = Vector3.mk s s s)
    /\ (exists rx ry, 0 <= rx < PI /\ 0 <= ry < PI
          /\ deref h (GiftBoxGroup.rotation d) = Vector3.mk rx ry 0)
    /\ -0.01 <= GiftBoxGroup.rotationSpeed d < 0.01
    /\ In (GiftBoxGroup.color d, GiftBoxGroup.ribbonColor d)
          [("#7a1f1f", "#d4af37"); ("#f2e8d5", "#7a1f1f");
           ("#0f3b26", "#d4af37"); ("#d4af37", "#7a1f1f")]%string
    /\ deref h (GiftBoxGroup.currentPos d) = deref h (GiftBoxGroup.scatterPos d)
    /\ GiftBoxGroup.currentPos d <> GiftBoxGroup.scatterPos d) (fst r).
Proof.
  intros Hrnd. cbv zeta.
  destruct (gift_data_full count w) as (Hg & _ & Hf & Hb).
  rewrite List.Forall_forall in Hb. apply List.Forall_forall. intros d Hd.
  destruct (Hb d Hd) as (sv & rx & ry & rs & cr & [n1 ->] & [n2 ->] & [n3 ->]
                         & [n4 ->] & [n5 ->] & Hs & Hrot & Hspeed & Hcol & Hcur).
  pose proof PI_RGT_0 as Hpi.
  pose proof (Hrnd n1) as B1. pose proof (Hrnd n2) as B2.
  pose proof (Hrnd n3) as B3. pose proof (Hrnd n4) as B4.
  split; [eexists; split; [| exact Hs]; lra |].
  split; [do 2 eexists; split; [| split; [| exact Hrot]]; nra |].
  split; [rewrite Hspeed; lra |].
  split.
  { cbv zeta in Hcol. destruct Hcol as [-> ->].
    destruct (pickFrom_palette (randoms w n5)) as (_ & _ & _ & _ & _ & Hin).
    cbv zeta in Hin.
    set (choice := match GiftBoxGroup.pickFrom _ _ _ with
                   | Some p => p | None => GiftBoxGroup.burgundy end) in *.
    unfold GiftBoxGroup.boxPalette, GiftBoxGroup.burgundy in Hin.
    cbn [In] in Hin.
    destruct Hin as [<- | [<- | [<- | [<- | []]]]]; cbn; tauto. }
  split; [exact Hcur |].
  assert (Hitem : List.NoDup (GiftBoxGroup.locs d)).
  { apply (distinct_item_NoDup [] GiftBoxGroup.locs
             (fst (GiftBoxGroup.data count w))
             (heap (snd (GiftBoxGroup.data count w)))); [| exact Hd].
    apply (freshObjects_distinct [] (length (heap w))
             (length (heap (snd (GiftBoxGroup.data count w)))));
      [apply List.NoDup_nil | constructor | exact Hf |].
    pose proof (grows_length _ _ Hg). lia. }
  unfold GiftBoxGroup.locs in Hitem.
  rewrite !List.NoDup_cons_iff in Hitem. cbn [In] in Hitem.
  intuition congruence.
Qed.

Lemma gift_items_attributes_witness :
  let w := mkWorld (fun _ => 0.5) 0%nat [] [] in
  (forall n, 0 <= randoms w n < 1)
  /\ Forall (fun d => -0.01 <= GiftBoxGroup.rotationSpeed d < 0.01)
            (fst (GiftBoxGroup.data 2 w)).
Proof.
  intros w.
  assert (Hrnd : forall n, 0 <= randoms w n < 1) by (intros n; simpl; lra).
  split; [exact Hrnd |].
  pose proof (gift_items_attributes 2 w Hrnd) as H. cbv zeta in H.
  rewrite List.Forall_forall in *. intros d Hd.
  destruct (H d Hd) as (_ & _ & Hs & _). exact Hs.
Defined.

(** ** The first layout of the groups *)

Lemma gift_layoutItem_spec tempObject d i w :
  distinctObjects (Object3D.locs tempObject) [GiftBoxGroup.locs d] (heap w) ->
  wp (GiftBoxGroup.layoutItem tempObject d i)
     (fun m w' =>
        length (heap w') = length (heap w)
        /\ (forall l, ~ In l ([Object3D.position tempObject] ++ []) ->
              deref (heap w') l = deref (heap w) l)
        /\ m = (GiftBoxGroup.color d, GiftBoxGroup.ribbonColor d,
                Object3D.mkMatrix (deref (heap w) (GiftBoxGroup.scatterPos d))
                  (deref (heap w) (Object3D.rotation tempObject))
                  (deref (heap w) (Object3D.scale tempObject)))) w.
Proof.
  intros Hd. split_distinct Hd.
  unfold GiftBoxGroup.layoutItem.
  wp_step w1 L1 Q1 N1.
  apply wp_bind, wp_matrix. cbv beta. apply wp_ret.
  split; [congruence |]. split.
  { intros l Hl. cbn [app In] in Hl. apply N1. tauto. }
  chase. reflexivity.
Qed.

Lemma ornament_layoutItem_spec tempObject d i w :
  distinctObjects (Object3D.locs tempObject) [OrnamentGroup.locs d] (heap w) ->
  wp (OrnamentGroup.layoutItem tempObject d i)
     (fun m w' =>
        length (heap w') = length (heap w)
        /\ (forall l, ~ In l (Object3D.locs tempObject ++ []) ->
              deref (heap w') l = deref (heap w) l)
        /\ m = Object3D.mkMatrix (deref (heap w) (OrnamentGroup.scatterPos d))
                 (deref (heap w) (OrnamentGroup.rotation d))
                 (deref (heap w) (OrnamentGroup.scale d))) w.
Proof.
  intros Hd. split_distinct Hd.
  unfold OrnamentGroup.layoutItem.
  wp_step w1 L1 Q1 N1. wp_step w2 L2 Q2 N2. wp_step w3 L3 Q3 N3.
  apply wp_matrix.
  split; [congruence |]. split.
  { intros l Hl. cbn [Object3D.locs app In] in Hl.
    rewrite (N3 l), (N2 l), (N1 l) by tauto. reflexivity. }
  chase. reflexivity.
Qed.

(** X28. The layout effects, the scratch object and the items' objects being
    distinct. [GiftBoxGroup] assigns only the position of the scratch
    object: each box gets its colours and a matrix at its scatter position
    with the rotation and the scale the scratch object had before, not the
    item's; nothing but the scratch position is changed. [OrnamentGroup]
    composes each matrix of the item's scatter position, rotation and
    scale, and changes nothing but the scratch object. *)
Theorem first_layout_matrices (tempObject : Object3D.t)
    (gifts : list GiftBoxGroup.Item) (ornaments : list OrnamentGroup.Item)
    (w : World) :
  distinctObjects (Object3D.locs tempObject) (map GiftBoxGroup.locs gifts)
    (heap w) ->
  distinctObjects (Object3D.locs tempObject) (map OrnamentGroup.locs ornaments)
    (heap w) ->
  let g := GiftBoxGroup.useLayoutEffect tempObject true gifts w in
  let o := OrnamentGroup.useLayoutEffect tempObject true ornaments w in
  ((forall l, l <> Object3D.position tempObject ->
      deref (heap (snd g)) l = deref (heap w) l)
   /\ exists ms, fst g = Some ms /\ length ms = length gifts
      /\ forall k d, gifts !! k = Some d ->
           ms !! k = Some (GiftBoxGroup.color d, GiftBoxGroup.ribbonColor d,
                           Object3D.mkMatrix
                             (deref (heap w) (GiftBoxGroup.scatterPos d))
                             (deref (heap w) (Object3D.rotation tempObject))
                             (deref (heap w) (Object3D.scale tempObject))))
  /\ ((forall l, ~ In l (Object3D.locs tempObject) ->
         deref (heap (snd o)) l = deref (heap w) l)
      /\ exists ms, fst o = Some ms /\ length ms = length ornaments
         /\ forall k d, ornaments !! k = Some d ->
              ms !! k = Some (Object3D.mkMatrix
                                (deref (heap w) (OrnamentGroup.scatterPos d))
                                (deref (heap w) (OrnamentGroup.rotation d))
                                (deref (heap w) (OrnamentGroup.scale d)))).
Proof.
  intros Hg Ho. cbv zeta. split.
  - assert (H : wp (GiftBoxGroup.useLayoutEffect tempObject true gifts)
                  (fun r w' =>
                     (forall l, ~ In l ([Object3D.position tempObject]
                                        ++ concat (map (fun _ => []) gifts)) ->
                        deref (heap w') l = deref (heap w) l)
                     /\ exists ms, r = Some ms /\ length ms = length gifts
                        /\ forall k d m, gifts !! k = Some d -> ms !! k = Some m ->
                             m = (GiftBoxGroup.color d, GiftBoxGroup.ribbonColor d,
                                  Object3D.mkMatrix
                                    (deref (heap w) (GiftBoxGroup.scatterPos d))
                                    (deref (heap w) (Object3D.rotation tempObject))
                                    (deref (heap w) (Object3D.scale tempObject)))) w).
    { unfold GiftBoxGroup.useLayoutEffect. apply wp_bind. unfold forEach.
      eapply wp_conseq.
      { apply (forEachFrom_local (Object3D.locs tempObject)
                 [Object3D.position tempObject]
                 GiftBoxGroup.locs (fun _ => [])
                 (GiftBoxGroup.layoutItem tempObject)
                 (fun d i pre m post =>
                    m = (GiftBoxGroup.color d, GiftBoxGroup.ribbonColor d,
                         Object3D.mkMatrix (pre (GiftBoxGroup.scatterPos d))
                           (pre (Object3D.rotation tempObject))
                           (pre (Object3D.scale tempObject))))).
        - intros l Hl. cbn [Object3D.locs In] in *. tauto.
        - intros d l Hl. destruct Hl.
        - intros d i pre pre' m post post' Hpre Hpost ->.
          assert (Hscratch : List.NoDup (Object3D.locs tempObject)).
          { destruct Hg as [Hnd _]. eapply List.NoDup_app_remove_r; eauto. }
          unfold Object3D.locs in Hscratch.
          rewrite !List.NoDup_cons_iff in Hscratch. cbn [In] in Hscratch.
          rewrite !Hpre; [reflexivity | | |].
          + right. cbn [Object3D.locs In]. intuition congruence.
          + right. cbn [Object3D.locs In]. intuition congruence.
          + left. cbn [GiftBoxGroup.locs In]. tauto.
        - intros d i w0 Hd0. apply gift_layoutItem_spec. exact Hd0.
        - exact Hg. }
      intros ms w' (L & F & Lms & Q). cbv beta. apply wp_ret.
      split; [exact F |].
      exists ms. split; [reflexivity |]. split; [exact Lms |].
      intros k d m Hk Hm. exact (Q k d m Hk Hm). }
    unfold wp in H.
    set (r := GiftBoxGroup.useLayoutEffect tempObject true gifts w) in *.
    destruct H as (F & ms & E & Lms & Q).
    split.
    { intros l Hl. apply F. intros Hin. apply in_app_or in Hin.
      destruct Hin as [[Hin | []] | Hin]; [congruence |].
      apply in_concat in Hin. destruct Hin as (ls & Hls & Hin).
      apply in_map_iff in Hls. destruct Hls as (e & <- & _). destruct Hin. }
    exists ms. split; [exact E |]. split; [exact Lms |].
    intros k d Hk. destruct (lookup_both gifts ms k d Lms Hk) as [m Hm].
    rewrite Hm. f_equal. exact (Q k d m Hk Hm).
  - assert (H : wp (OrnamentGroup.useLayoutEffect tempObject true ornaments)
                  (fun r w' =>
                     (forall l, ~ In l (Object3D.locs tempObject
                                        ++ concat (map (fun _ => []) ornaments)) ->
                        deref (heap w') l = deref (heap w) l)
                     /\ exists ms, r = Some ms /\ length ms = length ornaments
                        /\ forall k d m, ornaments !! k = Some d ->
                             ms !! k = Some m ->
                             m = Object3D.mkMatrix
                                   (deref (heap w) (OrnamentGroup.scatterPos d))
                                   (deref (heap w) (OrnamentGroup.rotation d))
                                   (deref (heap w) (OrnamentGroup.scale d))) w).
    { unfold OrnamentGroup.useLayoutEffect. apply wp_bind. unfold forEach.
      eapply wp_conseq.
      { apply (forEachFrom_local (Object3D.locs tempObject)
                 (Object3D.locs tempObject)
                 OrnamentGroup.locs (fun _ => [])
                 (OrnamentGroup.layoutItem tempObject)
                 (fun d i pre m post =>
                    m = Object3D.mkMatrix (pre (OrnamentGroup.scatterPos d))
                          (pre (OrnamentGroup.rotation d))
                          (pre (OrnamentGroup.scale d)))).
        - intros l Hl. exact Hl.
        - intros d l Hl. destruct Hl.
        - intros d i pre pre' m post post' Hpre Hpost ->.
          rewrite !Hpre; [reflexivity | | |];
            left; cbn [OrnamentGroup.locs In]; tauto.
        - intros d i w0 Hd0. apply ornament_layoutItem_spec. exact Hd0.
        - exact Ho. }
      intros ms w' (L & F & Lms & Q). cbv beta. apply wp_ret.
      split; [exact F |].
      exists ms. split; [reflexivity |]. split; [exact Lms |].
      intros k d m Hk Hm. exact (Q k d m Hk Hm). }
    unfold wp in H.
    set (r := OrnamentGroup.useLayoutEffect tempObject true ornaments w) in *.
    destruct H as (F & ms & E & Lms & Q).
    split.
    { intros l Hl. apply F. intros Hin. apply in_app_or in Hin.
      destruct Hin as [Hin | Hin]; [exact (Hl Hin) |].
      apply in_concat in Hin. destruct Hin as (ls & Hls & Hin).
      apply in_map_iff in Hls. destruct Hls as (e & <- & _). destruct Hin. }
    exists ms. split; [exact E |]. split; [exact Lms |].
    intros k d Hk. destruct (lookup_both ornaments ms k d Lms Hk) as [m Hm].
    rewrite Hm. f_equal. exact (Q k d m Hk Hm).
Qed.

Lemma first_layout_matrices_witness :
  let tempObject := Object3D.mk 0%nat 1%nat 2%nat in
  let g := GiftBoxGroup.mkItem 3%nat 4%nat 5%nat 6%nat 7%nat 0.005
             "#7a1f1f"%string "#d4af37"%string in
  let o := OrnamentGroup.mkItem 3%nat 4%nat 5%nat 6%nat 7%nat 0.004 in
  let w := mkWorld (fun _ => 0) 0%nat
             [Vector3.zero; Vector3.zero; Vector3.mk 1 1 1;
              Vector3.mk 9 9 9; Vector3.zero; Vector3.mk 0.7 0.7 0.7;
              Vector3.mk 1 2 0; Vector3.zero] [] in
  distinctObjects (Object3D.locs tempObject) (map GiftBoxGroup.locs [g]) (heap w)
  /\ distinctObjects (Object3D.locs tempObject) (map OrnamentGroup.locs [o]) (heap w)
  /\ forall l, l <> 0%nat ->
       deref (heap (snd (GiftBoxGroup.useLayoutEffect tempObject true [g] w))) l
       = deref (heap w) l.
Proof.
  intros tempObject g o w.
  assert (Hg : distinctObjects (Object3D.locs tempObject)
                 (map GiftBoxGroup.locs [g]) (heap w)).
  { split.
    - unfold Object3D.locs, GiftBoxGroup.locs; simpl.
      repeat (apply List.NoDup_cons; [simpl; intuition discriminate |]).
      apply List.NoDup_nil.
    - unfold Object3D.locs, GiftBoxGroup.locs; simpl. repeat constructor. }
  assert (Ho : distinctObjects (Object3D.locs tempObject)
                 (map OrnamentGroup.locs [o]) (heap w)).
  { split.
    - unfold Object3D.locs, OrnamentGroup.locs; simpl.
      repeat (apply List.NoDup_cons; [simpl; intuition discriminate |]).
      apply List.NoDup_nil.
    - unfold Object3D.locs, OrnamentGroup.locs; simpl. repeat constructor. }
  split; [exact Hg |]. split; [exact Ho |].
  destruct (first_layout_matrices tempObject [g] [o] w Hg Ho) as [[H _] _].
  exact H.
Defined.
